(** * abouttt::Array<T>: a shallow embedding of src/Array.h

    The container owns a raw buffer ([mData]) of [mCapacity] slots, of
    which the first [mCount] hold constructed elements.  The embedding
    keeps that representation: a heap of buffers whose slots are either
    raw storage or a live object, a store of [Array] objects (so that
    [this] and [other] can be the same object), and a small state and
    error monad in which every member function is written statement by
    statement.  Three outcomes are distinguished: normal return, a thrown
    exception ([std::out_of_range], [std::bad_alloc]), and undefined
    behaviour (a read of raw or unallocated storage, an access outside a
    buffer, an invalid iterator range).

    Assumptions on the element type [T], stated once: copying, moving
    and comparing a [T] do not throw; a moved-from [T] is left in the
    state [moved v]; [operator==] on [T] is equality of values.
    Whether the destructor of [T] is trivial is a parameter
    ([trivially_destructible]): an assignment to the storage of a
    destroyed object is undefined unless it is.

    Two simplifications bound what the embedding says of the code.
    - A value argument ([const T&], [Args&&...]) is taken by value:
      [Add], [Emplace], [EmplaceAt], [Insert] and [Resize_fill] are
      the calls whose argument is not an element of the array they are
      made on.  [Add_ref], [Emplace_ref], [EmplaceAt_ref], [Insert_ref]
      and [Resize_fill_ref] take the address the reference is bound to
      and read through it where the code does; for an argument outside
      the array they are proved to have the outcome of the call by
      value, and for an element of the array they show what the code
      does with it.
    - Storage is counted in elements: [::operator new(sizeof(T) * n)]
      is a request for [n] slots.  The product is computed in [size_t]
      in the code; where it wraps around (a capacity of
      [2^64 / sizeof(T)] or more, asked of the sized constructor,
      [Reserve] or [Resize]), the code allocates a buffer that is too
      small, and the embedding does not follow it.
    The properties of the calls that these two points concern are
    stated of the calls that return or throw, and say nothing of a call
    whose behaviour is undefined.

    [std::reverse_iterator<ArrayIterator<T>>] cannot be instantiated,
    since [ArrayIterator] declares none of the member types of an
    iterator, and the constructor of [ArrayIterator<const T>] from an
    [ArrayIterator<T>] reads a private member of another class: a call
    of [rbegin()] or [rend()] and a use of that constructor do not
    compile, and they are not embedded.

    The file has two parts: the definitions (the embedding of the code,
    then the predicates of the specification), and the verification
    (the lemmas on each member function, the claims of the
    specification, C1 to C10, and further properties of the code: the
    iterators and the loops over them, calls in sequence, bounds,
    ownership of buffers, an array or one of its elements as the
    argument of a call on it). *)

From stdpp Require Import gmap list.
From Stdlib Require Import ZArith Lia.

Open Scope Z_scope.

#[local] Set Warnings "-clear-no-such-hyp".

(** ** [size_t] and pointers *)

Definition SIZE_MAX : Z := 2 ^ 64 - 1.
Definition PTRDIFF_MAX : Z := 2 ^ 63 - 1.

(** Arithmetic on [size_t] wraps modulo 2^64. *)
Definition to_size_t (z : Z) : Z := z mod 2 ^ 64.

(** [static constexpr size_t INDEX_NONE = std::numeric_limits<size_t>::max()] *)
Definition INDEX_NONE : Z := SIZE_MAX.

(** A [T*]: null, or an offset (in elements) into an allocated buffer. *)
Inductive ptr := Null | Ptr (b : positive) (off : Z).

#[global] Instance ptr_eq_dec : EqDecision ptr.
Proof. solve_decision. Defined.

Definition ptr_add (p : ptr) (n : Z) : ptr :=
  match p with
  | Null => Null
  | Ptr b o => Ptr b (o + n)
  end.

Infix "+ₚ" := ptr_add (at level 50, left associativity).
Notation "p -ₚ n" := (ptr_add p (- n)) (at level 50, left associativity).

(** [last - first] for two pointers into the same buffer. *)
Definition ptr_diff (last first : ptr) : option Z :=
  match first, last with
  | Null, Null => Some 0
  | Ptr b o, Ptr b' o' => if decide (b = b') then Some (o' - o) else None
  | _, _ => None
  end.

Definition is_null (p : ptr) : bool :=
  match p with Null => true | Ptr _ _ => false end.

(** ** Storage *)

Inductive slot (T : Type) := Raw | Live (v : T).
Arguments Raw {T}.
Arguments Live {T} v.

(** The three data members of [Array<T>]. *)
Record Array := mkArray { mData : ptr; mCount : Z; mCapacity : Z }.

#[global] Instance Array_eq_dec : EqDecision Array.
Proof. solve_decision. Defined.

Record state (T : Type) := mkState {
  heap : gmap positive (list (slot T));
  objs : gmap positive Array
}.
Arguments mkState {T} heap objs.
Arguments heap {T} s.
Arguments objs {T} s.

Inductive exn := out_of_range | bad_alloc.

#[global] Instance exn_eq_dec : EqDecision exn.
Proof. solve_decision. Defined.

Inductive outcome (S A : Type) :=
  | Ok (a : A) (s : S)
  | Throw (e : exn) (s : S)
  | UB.
Arguments Ok {S A} a s.
Arguments Throw {S A} e s.
Arguments UB {S A}.

(** Reading and writing one slot of the heap. *)
Definition slot_at {T} (h : gmap positive (list (slot T))) (p : ptr) : option (slot T) :=
  match p with
  | Null => None
  | Ptr b o =>
      if decide (0 ≤ o) then blk ← h !! b; blk !! Z.to_nat o else None
  end.

Definition heap_write {T} (h : gmap positive (list (slot T))) (p : ptr) (x : slot T)
  : option (gmap positive (list (slot T))) :=
  match p with
  | Null => None
  | Ptr b o =>
      if decide (0 ≤ o) then
        blk ← h !! b;
        if decide (Z.to_nat o < length blk)%nat
        then Some (<[b := <[Z.to_nat o := x]> blk]> h)
        else None
      else None
  end.

(** ** [ArrayIterator<T>]

    An iterator is a value with one data member, the pointer [mPtr].  A
    reference ([T&]) is the address of the object it refers to.  The
    operators that modify the iterator give the iterator that [*this]
    has become; the postfix forms give it together with the copy they
    return. *)
Module ArrayIterator.

Record t := mk { mPtr : ptr }.

(** [ArrayIterator()] and [ArrayIterator(T* ptr)]. *)
Definition default : t := mk Null.

Definition of_ptr (p : ptr) : t := mk p.

Definition operator_star (it : t) : ptr := mPtr it.

Definition operator_arrow (it : t) : ptr := mPtr it.

Definition operator_index (it : t) (index : Z) : ptr := mPtr it +ₚ index.

Definition pre_inc (it : t) : t := mk (mPtr it +ₚ 1).

Definition post_inc (it : t) : t * t :=
  let temp := it in (mk (mPtr it +ₚ 1), temp).

Definition pre_dec (it : t) : t := mk (mPtr it -ₚ 1).

Definition post_dec (it : t) : t * t :=
  let temp := it in (mk (mPtr it -ₚ 1), temp).

Definition operator_plus (it : t) (n : Z) : t := of_ptr (mPtr it +ₚ n).

Definition operator_minus (it : t) (n : Z) : t := of_ptr (mPtr it -ₚ n).

(** [ptrdiff_t operator-(const ArrayIterator&)]: defined for two
    iterators into the same buffer. *)
Definition difference (it other : t) : option Z := ptr_diff (mPtr it) (mPtr other).

Definition operator_eq (it other : t) : bool := bool_decide (mPtr it = mPtr other).

Definition operator_ne (it other : t) : bool := bool_decide (mPtr it ≠ mPtr other).

End ArrayIterator.

(** ** Arrays of integers

    The instance used for the concrete runs: [T] is a machine integer,
    which moving leaves unchanged and whose destructor is trivial, and
    the allocator grants any request of at most 64 elements. *)
Definition moved_int (x : Z) : Z := x.

Definition trivial_int : bool := true.

Definition alloc64 (h : gmap positive (list (slot Z))) (n : Z) : bool :=
  bool_decide (n ≤ 64).

Ltac solve_repr :=
  vm_compute; repeat split; first [reflexivity | discriminate | intros; discriminate].

Ltac solve_outside :=
  first
    [ reflexivity
    | let a := fresh in
      let b := fresh in
      let o := fresh in
      let o' := fresh in
      let Ha := fresh in
      let Hp := fresh in
      intros a b o o' Ha Hp; vm_compute in Ha, Hp;
      injection Ha as <-; injection Hp as <- <-; cbn [mData]; congruence ].

Section Array.

Context {T : Type} {T_eq_dec : EqDecision T}.

(** The state a moved-from element is left in, whether the destructor
    of [T] is trivial, the value of [T()], the result of [operator<=>]
    on [T], and the allocator's decision on a request of [n] slots in a
    given heap. *)
Variable moved : T → T.
Variable trivially_destructible : bool.
Variable T_default : T.
Variable T_cmp : T → T → comparison.
Variable may_alloc : gmap positive (list (slot T)) → Z → bool.

Definition M (A : Type) : Type := state T → outcome (state T) A.

Definition ret {A} (a : A) : M A := λ s, Ok a s.

Definition bind {A B} (m : M A) (k : A → M B) : M B :=
  λ s, match m s with
       | Ok a s' => k a s'
       | Throw e s' => Throw e s'
       | UB => UB
       end.

Definition throw {A} (e : exn) : M A := λ s, Throw e s.
Definition undefined {A} : M A := λ _, UB.

#[local] Instance M_ret : MRet M := @ret.

#[local] Instance M_bind : MBind M := λ A B k m, bind m k.

Definition load (p : ptr) : M T :=
  λ s, match slot_at (heap s) p with
       | Some (Live v) => Ok v s
       | _ => UB
       end.

Definition write (p : ptr) (x : slot T) : M unit :=
  λ s, match heap_write (heap s) p x with
       | Some h' => Ok tt (mkState h' (objs s))
       | None => UB
       end.

(** [::operator new(sizeof(T) * n)] and [::operator delete(p)]. *)
Definition operator_new (n : Z) : M ptr :=
  λ s, if may_alloc (heap s) n
       then let b := fresh (dom (heap s)) in
            Ok (Ptr b 0) (mkState (<[b := replicate (Z.to_nat n) Raw]> (heap s)) (objs s))
       else Throw bad_alloc s.

Definition operator_delete (p : ptr) : M unit :=
  λ s, match p with
       | Null => Ok tt s
       | Ptr b o =>
           if decide (o = 0 ∧ is_Some (heap s !! b))
           then Ok tt (mkState (delete b (heap s)) (objs s))
           else UB
       end.

(** Access to the object [*this]. *)
Definition get_obj (this : positive) : M Array :=
  λ s, match objs s !! this with
       | Some a => Ok a s
       | None => UB
       end.

Definition set_obj (this : positive) (a : Array) : M unit :=
  λ s, Ok tt (mkState (heap s) (<[this := a]> (objs s))).

Definition del_obj (this : positive) : M unit :=
  λ s, Ok tt (mkState (heap s) (delete this (objs s))).

Definition fresh_obj : M positive :=
  λ s, Ok (fresh (dom (objs s))) s.

(** The length of the iterator range [[first, last)]; a range whose ends
    lie in different buffers, or whose end precedes its start, is not a
    range. *)
Definition range_len (first last : ptr) : M nat :=
  match ptr_diff last first with
  | Some d => if decide (0 ≤ d) then ret (Z.to_nat d) else undefined
  | None => undefined
  end.

(** ** The standard algorithms the class uses *)

(** [std::construct_at(p, v)], and assignment of [v] through [p]. *)
Definition std_construct_at (p : ptr) (v : T) : M unit := write p (Live v).

(** [std::destroy_at(p)] *)
Definition std_destroy_at (p : ptr) : M unit :=
  _ ← load p; write p Raw.

(** Move-construction of the element at [dst] from the element at
    [src], and move-assignment to a [dst] that holds an object. *)
Definition move_to (src dst : ptr) : M unit :=
  v ← load src; write dst (Live v);; write src (Live (moved v)).

(** An assignment through [p] needs an object at [p] to assign to.
    The storage of a destroyed object can still be assigned to when
    the destructor of [T] is trivial: destroying the object has done
    nothing to it. *)
Definition assignable (p : ptr) : M unit :=
  λ s, match slot_at (heap s) p with
       | Some (Live _) => Ok tt s
       | Some Raw => if trivially_destructible then Ok tt s else UB
       | None => UB
       end.

(** Move-assignment [*dst = std::move( *src)], whatever [dst] holds. *)
Definition move_assign (src dst : ptr) : M unit :=
  assignable dst;; move_to src dst.

(** Copy-assignment or copy-construction of the element at [dst] from
    the element at [src]. *)
Definition copy_to (src dst : ptr) : M unit :=
  v ← load src; write dst (Live v).

Fixpoint destroy_loop (n : nat) (p : ptr) : M unit :=
  match n with
  | O => ret tt
  | S n' => std_destroy_at p;; destroy_loop n' (p +ₚ 1)
  end.

Definition std_destroy_n (first : ptr) (n : Z) : M unit :=
  destroy_loop (Z.to_nat n) first.

Definition std_destroy (first last : ptr) : M unit :=
  n ← range_len first last; destroy_loop n first.

Fixpoint move_loop (n : nat) (src dst : ptr) : M unit :=
  match n with
  | O => ret tt
  | S n' => move_to src dst;; move_loop n' (src +ₚ 1) (dst +ₚ 1)
  end.

Definition std_uninitialized_move_n (first : ptr) (n : Z) (d_first : ptr) : M unit :=
  move_loop (Z.to_nat n) first d_first.

(** [std::move(first, last, d_first)], the algorithm: it assigns to
    the elements of the destination.  [RemoveAt] has it assign to the
    slot of the element it has just destroyed. *)
Fixpoint move_assign_loop (n : nat) (src dst : ptr) : M unit :=
  match n with
  | O => ret tt
  | S n' => move_assign src dst;; move_assign_loop n' (src +ₚ 1) (dst +ₚ 1)
  end.

Definition std_move (first last d_first : ptr) : M unit :=
  n ← range_len first last; move_assign_loop n first d_first.

(** [std::move_backward]: while [first != last], both [last] and
    [d_last] are decremented and the element at [last] is moved to
    [d_last].  The slots it assigns to in this class hold objects, and
    so do those [std::remove_if] assigns to. *)
Fixpoint move_backward_loop (n : nat) (last d_last : ptr) : M unit :=
  match n with
  | O => ret tt
  | S n' =>
      move_to (last -ₚ 1) (d_last -ₚ 1);;
      move_backward_loop n' (last -ₚ 1) (d_last -ₚ 1)
  end.

Definition std_move_backward (first last d_last : ptr) : M unit :=
  n ← range_len first last; move_backward_loop n last d_last.

Fixpoint copy_loop (n : nat) (src dst : ptr) : M unit :=
  match n with
  | O => ret tt
  | S n' => copy_to src dst;; copy_loop n' (src +ₚ 1) (dst +ₚ 1)
  end.

Definition std_uninitialized_copy_n (first : ptr) (n : Z) (d_first : ptr) : M unit :=
  copy_loop (Z.to_nat n) first d_first.

Definition std_uninitialized_copy (first last d_first : ptr) : M unit :=
  n ← range_len first last; copy_loop n first d_first.

(** Copying out of a [std::initializer_list<T>], whose backing array is
    not part of the heap of buffers. *)
Fixpoint copy_list (l : list T) (dst : ptr) : M unit :=
  match l with
  | [] => ret tt
  | v :: l' => std_construct_at dst v;; copy_list l' (dst +ₚ 1)
  end.

Fixpoint fill_loop (n : nat) (dst : ptr) (v : T) : M unit :=
  match n with
  | O => ret tt
  | S n' => std_construct_at dst v;; fill_loop n' (dst +ₚ 1) v
  end.

Definition std_uninitialized_fill_n (first : ptr) (n : Z) (v : T) : M unit :=
  fill_loop (Z.to_nat n) first v.

(** [std::uninitialized_fill_n(first, n, value)] for the [value] at the
    address [p]: the parameter is a [const T&], and each element is
    constructed from what the reference refers to at that time. *)
Fixpoint fill_ref_loop (n : nat) (dst p : ptr) : M unit :=
  match n with
  | O => ret tt
  | S n' => copy_to p dst;; fill_ref_loop n' (dst +ₚ 1) p
  end.

Definition std_uninitialized_fill_n_ref (first : ptr) (n : Z) (p : ptr) : M unit :=
  fill_ref_loop (Z.to_nat n) first p.

Fixpoint find_loop (n : nat) (p : ptr) (pred : T → bool) : M ptr :=
  match n with
  | O => ret p
  | S n' => v ← load p; if pred v then ret p else find_loop n' (p +ₚ 1) pred
  end.

Definition std_find_if (first last : ptr) (pred : T → bool) : M ptr :=
  n ← range_len first last; find_loop n first pred.

Definition std_find (first last : ptr) (value : T) : M ptr :=
  std_find_if first last (λ x, bool_decide (x = value)).

(** [std::remove_if]: [first] is advanced to the first element that
    satisfies the predicate; every later element that does not satisfy
    it is moved to [first], which is then incremented; the final
    [first] is returned. *)
Fixpoint remove_loop (n : nat) (i first : ptr) (pred : T → bool) : M ptr :=
  match n with
  | O => ret first
  | S n' =>
      v ← load i;
      if pred v then remove_loop n' (i +ₚ 1) first pred
      else move_to i first;; remove_loop n' (i +ₚ 1) (first +ₚ 1) pred
  end.

Definition std_remove_if (first last : ptr) (pred : T → bool) : M ptr :=
  first' ← std_find_if first last pred;
  if decide (first' ≠ last) then
    n ← range_len (first' +ₚ 1) last;
    remove_loop n (first' +ₚ 1) first' pred
  else ret first'.

(** [std::equal(first1, last1, first2)] *)
Fixpoint equal_loop (n : nat) (p q : ptr) : M bool :=
  match n with
  | O => ret true
  | S n' =>
      x ← load p; y ← load q;
      if decide (x = y) then equal_loop n' (p +ₚ 1) (q +ₚ 1) else ret false
  end.

Definition std_equal (first1 last1 first2 : ptr) : M bool :=
  n ← range_len first1 last1; equal_loop n first1 first2.

(** [std::lexicographical_compare_three_way(f1, l1, f2, l2)] *)
Fixpoint compare_loop (n1 n2 : nat) (p q : ptr) : M comparison :=
  match n1, n2 with
  | O, O => ret Eq
  | O, S _ => ret Lt
  | S _, O => ret Gt
  | S n1', S n2' =>
      x ← load p; y ← load q;
      match T_cmp x y with
      | Eq => compare_loop n1' n2' (p +ₚ 1) (q +ₚ 1)
      | c => ret c
      end
  end.

Definition std_lexicographical_compare_three_way (f1 l1 f2 l2 : ptr) : M comparison :=
  n1 ← range_len f1 l1; n2 ← range_len f2 l2; compare_loop n1 n2 f1 f2.

(** [std::sort(first, last, comp)].  The comparator must be a strict
    weak ordering of the values in the range: irreflexive and
    transitive, with a transitive incomparability; the behaviour is
    undefined otherwise.  The range is then left sorted, a permutation
    of what it held; the order of equivalent elements, which
    [std::sort] does not specify, is here the one that insertion
    gives. *)
Fixpoint read_loop (n : nat) (p : ptr) : M (list T) :=
  match n with
  | O => ret []
  | S n' => v ← load p; l ← read_loop n' (p +ₚ 1); ret (v :: l)
  end.

Fixpoint sort_insert (comp : T → T → bool) (x : T) (l : list T) : list T :=
  match l with
  | [] => [x]
  | y :: l' => if comp y x then y :: sort_insert comp x l' else x :: l
  end.

Definition sort_list (comp : T → T → bool) (l : list T) : list T :=
  foldr (sort_insert comp) [] l.

Definition strict_weak_on (comp : T → T → bool) (l : list T) : bool :=
  forallb (λ x, negb (comp x x)) l &&
  forallb (λ x, forallb (λ y, forallb (λ z,
    implb (comp x y && comp y z) (comp x z) &&
    implb (negb (comp x y) && negb (comp y x) && negb (comp y z) && negb (comp z y))
          (negb (comp x z) && negb (comp z x))) l) l) l.

Definition std_sort (first last : ptr) (comp : T → T → bool) : M unit :=
  n ← range_len first last;
  l ← read_loop n first;
  if strict_weak_on comp l then copy_list (sort_list comp l) first
  else undefined.

(** A [std::initializer_list<T>] is a pointer range over a backing array
    that lives for the duration of the call: the array is placed in the
    heap at a fresh address and released when the call ends, normally or
    by an exception. *)
Definition with_ilist {A} (ilist : list T) (k : ptr → ptr → M A) : M A :=
  λ s, let b := fresh (dom (heap s)) in
       let release s' := mkState (delete b (heap s')) (objs s') in
       match k (Ptr b 0) (Ptr b (Z.of_nat (length ilist)))
               (mkState (<[b := Live <$> ilist]> (heap s)) (objs s)) with
       | Ok a s' => Ok a (release s')
       | Throw e s' => Throw e (release s')
       | UB => UB
       end.

(** ** The member functions of [Array<T>] *)

Definition set_mData (this : positive) (p : ptr) : M unit :=
  a ← get_obj this; set_obj this (mkArray p (mCount a) (mCapacity a)).

Definition set_mCount (this : positive) (n : Z) : M unit :=
  a ← get_obj this; set_obj this (mkArray (mData a) n (mCapacity a)).

Definition set_mCapacity (this : positive) (n : Z) : M unit :=
  a ← get_obj this; set_obj this (mkArray (mData a) (mCount a) n).

(** [std::exchange(other.mData, nullptr)] and its two siblings. *)
Definition exchange_mData (other : positive) (p : ptr) : M ptr :=
  a ← get_obj other; set_mData other p;; ret (mData a).

Definition exchange_mCount (other : positive) (n : Z) : M Z :=
  a ← get_obj other; set_mCount other n;; ret (mCount a).

Definition exchange_mCapacity (other : positive) (n : Z) : M Z :=
  a ← get_obj other; set_mCapacity other n;; ret (mCapacity a).

Definition checkRange (this : positive) (index : Z) (bAllowEnd : bool) : M unit :=
  a ← get_obj this;
  if decide (index >= to_size_t (mCount a + (if bAllowEnd then 1 else 0)))
  then throw out_of_range
  else ret tt.

Definition cleanup (this : positive) : M unit :=
  a ← get_obj this;
  if is_null (mData a) then ret tt
  else
    std_destroy_n (mData a) (mCount a);;
    operator_delete (mData a);;
    set_obj this (mkArray Null 0 0).

Definition reallocate (this : positive) (newCapacity : Z) : M unit :=
  a ← get_obj this;
  if decide (newCapacity = mCapacity a) then ret tt
  else if decide (newCapacity = 0) then cleanup this
  else
    newData ← operator_new newCapacity;
    let newCount := Z.min (mCount a) newCapacity in
    (if is_null (mData a) then ret tt
     else
       std_uninitialized_move_n (mData a) newCount newData;;
       std_destroy_n (mData a) (mCount a);;
       operator_delete (mData a));;
    set_obj this (mkArray newData newCount newCapacity).

Definition ensureCapacity (this : positive) (minCapacity : Z) : M unit :=
  a ← get_obj this;
  if decide (minCapacity > mCapacity a) then
    let grow := to_size_t (mCapacity a + Z.shiftr (mCapacity a) 1) in
    let newCapacity := Z.max minCapacity (if decide (mCapacity a = 0) then 8 else grow) in
    reallocate this newCapacity
  else ret tt.

Definition insertImpl (this : positive) (index : Z) (p : ptr) (count : Z) : M Z :=
  checkRange this index true;;
  if decide (count = 0) then ret index
  else
    a ← get_obj this;
    ensureCapacity this (to_size_t (mCount a + count));;
    a ← get_obj this;
    (if decide (index < mCount a) then
       std_uninitialized_move_n (mData a +ₚ mCount a -ₚ count) count (mData a +ₚ mCount a);;
       std_move_backward (mData a +ₚ index) (mData a +ₚ mCount a -ₚ count)
                         (mData a +ₚ mCount a)
     else ret tt);;
    std_uninitialized_copy_n p count (mData a +ₚ index);;
    set_mCount this (to_size_t (mCount a + count));;
    ret index.

(** Constructors and destructor.  The object under construction is named
    by the caller. *)
Definition Array_sized (this : positive) (capacity : Z) : M unit :=
  data ← (if decide (capacity > 0) then operator_new capacity else ret Null);
  set_obj this (mkArray data 0 capacity).

Definition Array_default (this : positive) : M unit := Array_sized this 0.

Definition Array_ilist (this : positive) (ilist : list T) : M unit :=
  with_ilist ilist (λ first last,
    Array_sized this (Z.of_nat (length ilist));;
    a ← get_obj this;
    std_uninitialized_copy first last (mData a);;
    set_mCount this (Z.of_nat (length ilist))).

Definition Array_copy (this other : positive) : M unit :=
  o ← get_obj other;
  Array_sized this (mCount o);;
  o ← get_obj other;
  a ← get_obj this;
  std_uninitialized_copy (mData o) (mData o +ₚ mCount o) (mData a);;
  o ← get_obj other;
  set_mCount this (mCount o).

Definition Array_move (this other : positive) : M unit :=
  d ← exchange_mData other Null;
  c ← exchange_mCount other 0;
  k ← exchange_mCapacity other 0;
  set_obj this (mkArray d c k).

Definition Array_dtor (this : positive) : M unit :=
  cleanup this;; del_obj this.

Definition Swap (this other : positive) : M unit :=
  a ← get_obj this;
  o ← get_obj other;
  set_obj this (mkArray (mData o) (mCount o) (mCapacity o));;
  set_obj other (mkArray (mData a) (mCount a) (mCapacity a)).

(** Assignment operators. *)
Definition assign_copy (this other : positive) : M unit :=
  if decide (this ≠ other) then
    temp ← fresh_obj;
    Array_copy temp other;;
    Swap this temp;;
    Array_dtor temp
  else ret tt.

Definition assign_move (this other : positive) : M unit :=
  if decide (this ≠ other) then
    cleanup this;;
    d ← exchange_mData other Null; set_mData this d;;
    c ← exchange_mCount other 0; set_mCount this c;;
    k ← exchange_mCapacity other 0; set_mCapacity this k
  else ret tt.

Definition assign_ilist (this : positive) (ilist : list T) : M unit :=
  temp ← fresh_obj;
  Array_ilist temp ilist;;
  Swap this temp;;
  Array_dtor temp.

(** [operator[]] returns a reference, that is, the address of the
    element. *)
Definition operator_index (this : positive) (index : Z) : M ptr :=
  checkRange this index false;;
  a ← get_obj this;
  ret (mData a +ₚ index).

(** Reading the element through that reference. *)
Definition get_at (this : positive) (index : Z) : M T :=
  p ← operator_index this index; load p.

Definition operator_spaceship (this other : positive) : M comparison :=
  a ← get_obj this;
  o ← get_obj other;
  std_lexicographical_compare_three_way
    (mData a) (mData a +ₚ mCount a) (mData o) (mData o +ₚ mCount o).

Definition operator_eq (this other : positive) : M bool :=
  a ← get_obj this;
  o ← get_obj other;
  if decide (mCount a = mCount o)
  then std_equal (mData a) (mData a +ₚ mCount a) (mData o)
  else ret false.

(** The public member functions, in the order of the class. *)
Definition EmplaceAt (this : positive) (index : Z) (v : T) : M Z :=
  checkRange this index true;;
  a ← get_obj this;
  ensureCapacity this (to_size_t (mCount a + 1));;
  a ← get_obj this;
  (if decide (index < mCount a) then
     std_uninitialized_move_n (mData a +ₚ mCount a -ₚ 1) 1 (mData a +ₚ mCount a);;
     std_move_backward (mData a +ₚ index) (mData a +ₚ mCount a -ₚ 1) (mData a +ₚ mCount a)
   else ret tt);;
  std_construct_at (mData a +ₚ index) v;;
  set_mCount this (to_size_t (mCount a + 1));;
  ret index.

Definition Emplace (this : positive) (v : T) : M ptr :=
  a ← get_obj this;
  index ← EmplaceAt this (mCount a) v;
  a ← get_obj this;
  ret (mData a +ₚ index).

Definition Add (this : positive) (value : T) : M unit :=
  Emplace this value;; ret tt.

Definition Insert (this : positive) (index : Z) (value : T) : M Z :=
  EmplaceAt this index value.

(** The four functions above are the calls whose argument is an object
    that no call changes or releases: a temporary, a local, an element
    of a container other than the arrays in the heap; all that such a
    call sees of it is its value.  The parameter itself is a reference
    ([const T&], [Args&&...]), and [EmplaceAt] reads through it when it
    constructs the new element, once the capacity is ensured and the
    elements are shifted.  [EmplaceAt_ref this index p],
    [Emplace_ref this p], [Add_ref this p] and [Insert_ref this index p]
    are the calls whose argument is the object at the address [p], as
    in [a.Insert(i, b[j])]. *)
Definition EmplaceAt_ref (this : positive) (index : Z) (p : ptr) : M Z :=
  checkRange this index true;;
  a ← get_obj this;
  ensureCapacity this (to_size_t (mCount a + 1));;
  a ← get_obj this;
  (if decide (index < mCount a) then
     std_uninitialized_move_n (mData a +ₚ mCount a -ₚ 1) 1 (mData a +ₚ mCount a);;
     std_move_backward (mData a +ₚ index) (mData a +ₚ mCount a -ₚ 1) (mData a +ₚ mCount a)
   else ret tt);;
  v ← load p;
  std_construct_at (mData a +ₚ index) v;;
  set_mCount this (to_size_t (mCount a + 1));;
  ret index.

Definition Emplace_ref (this : positive) (p : ptr) : M ptr :=
  a ← get_obj this;
  index ← EmplaceAt_ref this (mCount a) p;
  a ← get_obj this;
  ret (mData a +ₚ index).

Definition Add_ref (this : positive) (p : ptr) : M unit :=
  Emplace_ref this p;; ret tt.

Definition Insert_ref (this : positive) (index : Z) (p : ptr) : M Z :=
  EmplaceAt_ref this index p.

Definition Insert_array (this : positive) (index : Z) (source : positive) : M Z :=
  src ← get_obj source;
  insertImpl this index (mData src) (mCount src).

Definition Clear (this : positive) : M unit :=
  a ← get_obj this;
  std_destroy_n (mData a) (mCount a);;
  set_mCount this 0.

Definition Insert_rvalue (this : positive) (index : Z) (source : positive) : M Z :=
  src ← get_obj source;
  result ← insertImpl this index (mData src) (mCount src);
  Clear source;;
  ret result.

Definition Insert_ilist (this : positive) (index : Z) (ilist : list T) : M Z :=
  with_ilist ilist (λ first _, insertImpl this index first (Z.of_nat (length ilist))).

Definition Insert_ptr (this : positive) (index : Z) (p : ptr) (count : Z) : M Z :=
  insertImpl this index p count.

Definition Append_array (this source : positive) : M unit :=
  a ← get_obj this; Insert_array this (mCount a) source;; ret tt.

Definition Append_rvalue (this source : positive) : M unit :=
  a ← get_obj this; Insert_rvalue this (mCount a) source;; ret tt.

Definition Append_ilist (this : positive) (ilist : list T) : M unit :=
  a ← get_obj this; Insert_ilist this (mCount a) ilist;; ret tt.

Definition Append_ptr (this : positive) (p : ptr) (count : Z) : M unit :=
  a ← get_obj this; Insert_ptr this (mCount a) p count;; ret tt.

Definition Capacity (this : positive) : M Z :=
  a ← get_obj this; ret (mCapacity a).

Definition Count (this : positive) : M Z :=
  a ← get_obj this; ret (mCount a).

Definition Data (this : positive) : M ptr :=
  a ← get_obj this; ret (mData a).

Definition IsEmpty (this : positive) : M bool :=
  a ← get_obj this; ret (bool_decide (mCount a = 0)).

Definition FindIf (this : positive) (pred : T → bool) : M Z :=
  a ← get_obj this;
  it ← std_find_if (mData a) (mData a +ₚ mCount a) pred;
  if decide (it ≠ mData a +ₚ mCount a) then
    match ptr_diff it (mData a) with
    | Some d => ret (to_size_t d)
    | None => undefined
    end
  else ret INDEX_NONE.

Definition Find (this : positive) (value : T) : M Z :=
  a ← get_obj this;
  it ← std_find (mData a) (mData a +ₚ mCount a) value;
  if decide (it ≠ mData a +ₚ mCount a) then
    match ptr_diff it (mData a) with
    | Some d => ret (to_size_t d)
    | None => undefined
    end
  else ret INDEX_NONE.

(** [for (size_t i = mCount; i-- > 0; )] *)
Fixpoint FindLast_loop (i : nat) (data : ptr) (pred : T → bool) : M Z :=
  match i with
  | O => ret INDEX_NONE
  | S i' =>
      v ← load (data +ₚ Z.of_nat i');
      if pred v then ret (Z.of_nat i') else FindLast_loop i' data pred
  end.

Definition FindLastIf (this : positive) (pred : T → bool) : M Z :=
  a ← get_obj this;
  FindLast_loop (Z.to_nat (mCount a)) (mData a) pred.

Definition FindLast (this : positive) (value : T) : M Z :=
  a ← get_obj this;
  FindLast_loop (Z.to_nat (mCount a)) (mData a) (λ x, bool_decide (x = value)).

Definition Contains (this : positive) (value : T) : M bool :=
  i ← Find this value; ret (bool_decide (i ≠ INDEX_NONE)).

Definition ContainsIf (this : positive) (pred : T → bool) : M bool :=
  i ← FindIf this pred; ret (bool_decide (i ≠ INDEX_NONE)).

Definition RemoveAt (this : positive) (index : Z) : M unit :=
  checkRange this index false;;
  a ← get_obj this;
  std_destroy_at (mData a +ₚ index);;
  (if decide (index < to_size_t (mCount a - 1)) then
     std_move (mData a +ₚ index +ₚ 1) (mData a +ₚ mCount a) (mData a +ₚ index)
   else ret tt);;
  set_mCount this (to_size_t (mCount a - 1)).

Definition Remove (this : positive) (value : T) : M bool :=
  index ← Find this value;
  if decide (index ≠ INDEX_NONE) then RemoveAt this index;; ret true
  else ret false.

Definition RemoveAll (this : positive) (pred : T → bool) : M Z :=
  a ← get_obj this;
  newEnd ← std_remove_if (mData a) (mData a +ₚ mCount a) pred;
  if decide (newEnd = mData a +ₚ mCount a) then ret 0
  else
    match ptr_diff (mData a +ₚ mCount a) newEnd with
    | Some d =>
        let removedCount := to_size_t d in
        std_destroy newEnd (mData a +ₚ mCount a);;
        set_mCount this (to_size_t (mCount a - removedCount));;
        ret removedCount
    | None => undefined
    end.

Definition Reserve (this : positive) (newCapacity : Z) : M unit :=
  a ← get_obj this;
  if decide (newCapacity > mCapacity a) then reallocate this newCapacity
  else ret tt.

Definition Resize_fill (this : positive) (newCount : Z) (value : T) : M unit :=
  a ← get_obj this;
  (if decide (newCount > mCount a) then
     ensureCapacity this newCount;;
     a ← get_obj this;
     std_uninitialized_fill_n (mData a +ₚ mCount a) (to_size_t (newCount - mCount a)) value
   else if decide (newCount < mCount a) then
     std_destroy_n (mData a +ₚ newCount) (to_size_t (mCount a - newCount))
   else ret tt);;
  set_mCount this newCount.

Definition Resize (this : positive) (newCount : Z) : M unit :=
  Resize_fill this newCount T_default.

(** [Resize(newCount, value)] for the [value] at the address [p]: the
    reference is read when the new elements are constructed, once the
    capacity is ensured. *)
Definition Resize_fill_ref (this : positive) (newCount : Z) (p : ptr) : M unit :=
  a ← get_obj this;
  (if decide (newCount > mCount a) then
     ensureCapacity this newCount;;
     a ← get_obj this;
     std_uninitialized_fill_n_ref (mData a +ₚ mCount a) (to_size_t (newCount - mCount a)) p
   else if decide (newCount < mCount a) then
     std_destroy_n (mData a +ₚ newCount) (to_size_t (mCount a - newCount))
   else ret tt);;
  set_mCount this newCount.

Definition Shrink (this : positive) : M unit :=
  a ← get_obj this;
  if decide (mCapacity a > mCount a) then reallocate this (mCount a)
  else ret tt.

Definition Sort (this : positive) (comp : T → T → bool) : M unit :=
  a ← get_obj this;
  std_sort (mData a) (mData a +ₚ mCount a) comp.

(** [begin()] and [end()]; an [ArrayIterator<T>] wraps a [T*]. *)
Definition begin_ (this : positive) : M ptr :=
  a ← get_obj this; ret (mData a).

Definition end_ (this : positive) : M ptr :=
  a ← get_obj this; ret (mData a +ₚ mCount a).

(** [begin()] and [end()] as the iterator objects they return. *)
Definition begin_iterator (this : positive) : M ArrayIterator.t :=
  a ← get_obj this; ret (ArrayIterator.of_ptr (mData a)).

Definition end_iterator (this : positive) : M ArrayIterator.t :=
  a ← get_obj this; ret (ArrayIterator.of_ptr (mData a +ₚ mCount a)).

(** ** Loops over an array

    [for (auto it = first; it != last; ++it)] reading [*it] at each
    step; the result is the sequence of the elements read.  [fuel]
    bounds the number of iterations: [None] is a loop that has not come
    to its end within it. *)
Fixpoint iterate (fuel : nat) (it last : ArrayIterator.t) : M (option (list T)) :=
  if ArrayIterator.operator_ne it last then
    match fuel with
    | O => ret None
    | S fuel' =>
        x ← load (ArrayIterator.operator_star it);
        r ← iterate fuel' (ArrayIterator.pre_inc it) last;
        ret (cons x <$> r)
    end
  else ret (Some []).

(** [for (const T& x : a)] *)
Definition range_for (fuel : nat) (this : positive) : M (option (list T)) :=
  it ← begin_iterator this; last ← end_iterator this; iterate fuel it last.

(** [for (T& x : a) x = f(x);] through the mutable iterator. *)
Fixpoint transform (fuel : nat) (it last : ArrayIterator.t) (f : T → T) : M bool :=
  if ArrayIterator.operator_ne it last then
    match fuel with
    | O => ret false
    | S fuel' =>
        x ← load (ArrayIterator.operator_star it);
        write (ArrayIterator.operator_star it) (Live (f x));;
        transform fuel' (ArrayIterator.pre_inc it) last f
    end
  else ret true.

Definition range_for_update (fuel : nat) (this : positive) (f : T → T) : M bool :=
  it ← begin_iterator this; last ← end_iterator this; transform fuel it last f.

(** [for (const T& v : values) a.Add(v);] *)
Fixpoint add_all (this : positive) (values : list T) : M unit :=
  match values with
  | [] => ret tt
  | v :: values' => Add this v;; add_all this values'
  end.

(** [for (const T* p : refs) a.Add( *p);]: the calls [a.Add(x)] for the
    objects [x] at the addresses [refs], one after the other. *)
Fixpoint add_all_ref (this : positive) (refs : list ptr) : M unit :=
  match refs with
  | [] => ret tt
  | p :: refs' => Add_ref this p;; add_all_ref this refs'
  end.

(** * Specification

    The predicates in which the behaviour of the code is stated. *)

(** ** Reasoning about outcomes

    [post m s Q E U]: running [m] from [s] ends in a state that
    satisfies [Q] on normal return and [E] on an exception; [U] says
    whether undefined behaviour is tolerated ([True]) or excluded
    ([False]). *)
Definition post {A} (m : M A) (s : state T)
    (Q : A → state T → Prop) (E : exn → state T → Prop) (U : Prop) : Prop :=
  match m s with
  | Ok a s' => Q a s'
  | Throw e s' => E e s'
  | UB => U
  end.

(** ** Actions that touch only the contents of buffers

    [heap_only m R]: [m] never throws; it leaves every [Array] object
    and the set of allocated buffers as they are, and its result
    satisfies [R]. *)
Definition heap_only {A} (m : M A) (R : A → Prop) : Prop :=
  ∀ s, post m s (λ r s', R r ∧ objs s' = objs s ∧ dom (heap s') = dom (heap s))
              (λ _ _, False) True.

Definition in_range (first last it : ptr) : Prop :=
  ∃ k n : nat, ptr_diff last first = Some (Z.of_nat n) ∧ (k ≤ n)%nat ∧ it = first +ₚ Z.of_nat k.

(** ** The representation invariant and the effect of each member
       function on the data members *)

Definition rep_inv (a : Array) : Prop :=
  0 ≤ mCount a ≤ mCapacity a ∧ mCapacity a ≤ SIZE_MAX ∧
  (mData a = Null ↔ mCapacity a = 0).

Definition Inv (s : state T) : Prop :=
  map_Forall (λ _ a, rep_inv a) (objs s).

(** [upd s s' this a a']: the object [this] went from [a] to [a'], every
    other object is as it was, and no buffer other than [a]'s own was
    released. *)
Definition upd (s s' : state T) (this : positive) (a a' : Array) : Prop :=
  objs s !! this = Some a ∧
  objs s' = <[this := a']> (objs s) ∧
  (∀ b, b ∈ dom (heap s) → (∀ o, mData a ≠ Ptr b o) → b ∈ dom (heap s')).

Definition realloc_rel (a : Array) (n : Z) (a' : Array) : Prop :=
  if decide (n = mCapacity a) then a' = a
  else if decide (n = 0) then a' = (if is_null (mData a) then a else mkArray Null 0 0)
  else ∃ b, a' = mkArray (Ptr b 0) (Z.min (mCount a) n) n.

Definition grow_capacity (capacity minCapacity : Z) : Z :=
  Z.max minCapacity
        (if decide (capacity = 0) then 8
         else to_size_t (capacity + Z.shiftr capacity 1)).

Definition ensure_rel (a : Array) (minCapacity : Z) (a' : Array) : Prop :=
  if decide (minCapacity > mCapacity a)
  then realloc_rel a (grow_capacity (mCapacity a) minCapacity) a'
  else a' = a.

(** The element shift that opens a gap of [count] slots at [index]. *)
Definition shift_right (a : Array) (index count : Z) : M unit :=
  if decide (index < mCount a) then
    std_uninitialized_move_n (mData a +ₚ mCount a -ₚ count) count (mData a +ₚ mCount a);;
    std_move_backward (mData a +ₚ index) (mData a +ₚ mCount a -ₚ count) (mData a +ₚ mCount a)
  else ret tt.

(** What an insertion of [count] elements does to the data members. *)
Definition insert_rel (a : Array) (count : Z) (a' : Array) : Prop :=
  ∃ a1, ensure_rel a (to_size_t (mCount a + count)) a1 ∧
        a' = mkArray (mData a1) (to_size_t (mCount a1 + count)) (mCapacity a1).

Definition insert_exn (s : state T) (this : positive) (index : Z) (e : exn) : Prop :=
  e = bad_alloc ∨
  (e = out_of_range ∧
   ∃ a, objs s !! this = Some a ∧ index >= to_size_t (mCount a + 1)).

(** ** Three judgements on a computation

    [read_only]: it returns without changing the state.
    [quiet]: it never throws and keeps the representation invariant.
    [safe]: it keeps the representation invariant, and when it throws
    the state is the one it started from. *)
Definition read_only {A} (m : M A) (R : A → Prop) : Prop :=
  ∀ s, post m s (λ r s', s' = s ∧ R r) (λ _ s', s' = s) True.

Definition quiet {A} (m : M A) : Prop :=
  ∀ s, post m s (λ _ s', Inv s → Inv s') (λ _ _, False) True.

Definition safe {A} (m : M A) : Prop :=
  ∀ s, post m s (λ _ s', Inv s → Inv s') (λ _ s', s' = s) True.

Ltac lookup_insert :=
  repeat first [ rewrite lookup_insert_eq | rewrite lookup_insert_ne by congruence ].

(** ** The public interface as a type of calls *)

Inductive value :=
  | VUnit
  | VSize (n : Z)
  | VBool (b : bool)
  | VPtr (p : ptr)
  | VCmp (c : comparison).

Inductive op :=
  | OpArray_default (this : positive)
  | OpArray_sized (this : positive) (capacity : Z)
  | OpArray_ilist (this : positive) (ilist : list T)
  | OpArray_copy (this other : positive)
  | OpArray_move (this other : positive)
  | OpArray_dtor (this : positive)
  | Op_assign_copy (this other : positive)
  | Op_assign_move (this other : positive)
  | Op_assign_ilist (this : positive) (ilist : list T)
  | Op_index (this : positive) (index : Z)
  | Op_spaceship (this other : positive)
  | Op_eq (this other : positive)
  | OpAdd (this : positive) (value : T)
  | OpAppend_array (this source : positive)
  | OpAppend_rvalue (this source : positive)
  | OpAppend_ilist (this : positive) (ilist : list T)
  | OpAppend_ptr (this : positive) (p : ptr) (count : Z)
  | OpCapacity (this : positive)
  | OpClear (this : positive)
  | OpContains (this : positive) (value : T)
  | OpContainsIf (this : positive) (pred : T → bool)
  | OpCount (this : positive)
  | OpData (this : positive)
  | OpEmplace (this : positive) (value : T)
  | OpEmplaceAt (this : positive) (index : Z) (value : T)
  | OpFind (this : positive) (value : T)
  | OpFindIf (this : positive) (pred : T → bool)
  | OpFindLast (this : positive) (value : T)
  | OpFindLastIf (this : positive) (pred : T → bool)
  | OpInsert (this : positive) (index : Z) (value : T)
  | OpInsert_array (this : positive) (index : Z) (source : positive)
  | OpInsert_rvalue (this : positive) (index : Z) (source : positive)
  | OpInsert_ilist (this : positive) (index : Z) (ilist : list T)
  | OpInsert_ptr (this : positive) (index : Z) (p : ptr) (count : Z)
  | OpIsEmpty (this : positive)
  | OpRemove (this : positive) (value : T)
  | OpRemoveAll (this : positive) (pred : T → bool)
  | OpRemoveAt (this : positive) (index : Z)
  | OpReserve (this : positive) (newCapacity : Z)
  | OpResize (this : positive) (newCount : Z)
  | OpResize_fill (this : positive) (newCount : Z) (value : T)
  | OpShrink (this : positive)
  | OpSort (this : positive) (comp : T → T → bool)
  | OpSwap (this other : positive)
  | Op_begin (this : positive)
  | Op_end (this : positive).

Definition returning {A} (f : A → value) (m : M A) : M value :=
  r ← m; mret (f r).

Definition run_op (o : op) : M value :=
  match o with
  | OpArray_default this => returning (λ _, VUnit) (Array_default this)
  | OpArray_sized this capacity => returning (λ _, VUnit) (Array_sized this capacity)
  | OpArray_ilist this ilist => returning (λ _, VUnit) (Array_ilist this ilist)
  | OpArray_copy this other => returning (λ _, VUnit) (Array_copy this other)
  | OpArray_move this other => returning (λ _, VUnit) (Array_move this other)
  | OpArray_dtor this => returning (λ _, VUnit) (Array_dtor this)
  | Op_assign_copy this other => returning (λ _, VUnit) (assign_copy this other)
  | Op_assign_move this other => returning (λ _, VUnit) (assign_move this other)
  | Op_assign_ilist this ilist => returning (λ _, VUnit) (assign_ilist this ilist)
  | Op_index this index => returning VPtr (operator_index this index)
  | Op_spaceship this other => returning VCmp (operator_spaceship this other)
  | Op_eq this other => returning VBool (operator_eq this other)
  | OpAdd this value => returning (λ _, VUnit) (Add this value)
  | OpAppend_array this source => returning (λ _, VUnit) (Append_array this source)
  | OpAppend_rvalue this source => returning (λ _, VUnit) (Append_rvalue this source)
  | OpAppend_ilist this ilist => returning (λ _, VUnit) (Append_ilist this ilist)
  | OpAppend_ptr this p count => returning (λ _, VUnit) (Append_ptr this p count)
  | OpCapacity this => returning VSize (Capacity this)
  | OpClear this => returning (λ _, VUnit) (Clear this)
  | OpContains this value => returning VBool (Contains this value)
  | OpContainsIf this pred => returning VBool (ContainsIf this pred)
  | OpCount this => returning VSize (Count this)
  | OpData this => returning VPtr (Data this)
  | OpEmplace this value => returning VPtr (Emplace this value)
  | OpEmplaceAt this index value => returning VSize (EmplaceAt this index value)
  | OpFind this value => returning VSize (Find this value)
  | OpFindIf this pred => returning VSize (FindIf this pred)
  | OpFindLast this value => returning VSize (FindLast this value)
  | OpFindLastIf this pred => returning VSize (FindLastIf this pred)
  | OpInsert this index value => returning VSize (Insert this index value)
  | OpInsert_array this index source => returning VSize (Insert_array this index source)
  | OpInsert_rvalue this index source => returning VSize (Insert_rvalue this index source)
  | OpInsert_ilist this index ilist => returning VSize (Insert_ilist this index ilist)
  | OpInsert_ptr this index p count => returning VSize (Insert_ptr this index p count)
  | OpIsEmpty this => returning VBool (IsEmpty this)
  | OpRemove this value => returning VBool (Remove this value)
  | OpRemoveAll this pred => returning VSize (RemoveAll this pred)
  | OpRemoveAt this index => returning (λ _, VUnit) (RemoveAt this index)
  | OpReserve this newCapacity => returning (λ _, VUnit) (Reserve this newCapacity)
  | OpResize this newCount => returning (λ _, VUnit) (Resize this newCount)
  | OpResize_fill this newCount value =>
      returning (λ _, VUnit) (Resize_fill this newCount value)
  | OpShrink this => returning (λ _, VUnit) (Shrink this)
  | OpSort this comp => returning (λ _, VUnit) (Sort this comp)
  | OpSwap this other => returning (λ _, VUnit) (Swap this other)
  | Op_begin this => returning VPtr (begin_ this)
  | Op_end this => returning VPtr (end_ this)
  end.

Definition is_size_t (n : Z) : Prop := 0 ≤ n ≤ SIZE_MAX.

(** The arguments of type [size_t] are in the range of [size_t], and an
    initializer list has a [size_t] length. *)
Definition valid_op (o : op) : Prop :=
  match o with
  | OpArray_sized _ capacity => is_size_t capacity
  | OpArray_ilist _ ilist | Op_assign_ilist _ ilist | OpAppend_ilist _ ilist =>
      is_size_t (Z.of_nat (length ilist))
  | Op_index _ index | OpEmplaceAt _ index _ | OpInsert _ index _
  | OpInsert_array _ index _ | OpInsert_rvalue _ index _ | OpRemoveAt _ index =>
      is_size_t index
  | OpInsert_ilist _ index ilist => is_size_t index ∧ is_size_t (Z.of_nat (length ilist))
  | OpInsert_ptr _ index _ count => is_size_t index ∧ is_size_t count
  | OpAppend_ptr _ _ count => is_size_t count
  | OpReserve _ n | OpResize _ n | OpResize_fill _ n _ => is_size_t n
  | _ => True
  end.

(** The states a sequence of calls goes through.  A call that throws
    leaves a state from which the caller can go on; after undefined
    behaviour there is no state to speak of. *)
Fixpoint trace (l : list op) (s : state T) : list (state T) :=
  match l with
  | [] => []
  | o :: l' =>
      match run_op o s with
      | Ok _ s' | Throw _ s' => s' :: trace l' s'
      | UB => []
      end
  end.

(** [live_range blk i n]: the slots [i, i+n) of [blk] hold objects. *)
Definition live_range (blk : list (slot T)) (i n : nat) : Prop :=
  ∀ k, (i ≤ k < i + n)%nat → ∃ v, blk !! k = Some (Live v).

(** ** The abstract view of an array

    [repr s this l cap]: in state [s] the object [this] is an array with
    the elements [l], in order, and capacity [cap]; its buffer, if any,
    has [cap] slots of which the first [length l] hold the elements. *)
Definition repr (s : state T) (this : positive) (l : list T) (cap : Z) : Prop :=
  match objs s !! this with
  | None => False
  | Some a =>
      mCount a = Z.of_nat (length l) ∧ mCapacity a = cap ∧
      Z.of_nat (length l) ≤ cap ∧ cap ≤ PTRDIFF_MAX ∧
      match mData a with
      | Null => cap = 0
      | Ptr b o =>
          o = 0 ∧ 0 < cap ∧
          match heap s !! b with
          | Some blk => Z.of_nat (length blk) = cap ∧ take (length l) blk = Live <$> l
          | None => False
          end
      end
  end.

(** [content blk l]: the first slots of [blk] hold the elements [l]. *)
Definition content (blk : list (slot T)) (l : list T) : Prop :=
  ∀ k x, l !! k = Some x → blk !! k = Some (Live x).

(** The facts packed in [repr]. *)
Inductive repr_view (s : state T) (this : positive) (l : list T) (cap : Z) : Prop :=
  | repr_null a :
      objs s !! this = Some a → mData a = Null →
      mCount a = 0 → mCapacity a = 0 → l = [] → cap = 0 →
      repr_view s this l cap
  | repr_buffer a b blk :
      objs s !! this = Some a → mData a = Ptr b 0 →
      mCount a = Z.of_nat (length l) → mCapacity a = cap →
      Z.of_nat (length l) ≤ cap → 0 < cap → cap ≤ PTRDIFF_MAX →
      heap s !! b = Some blk → Z.of_nat (length blk) = cap → content blk l →
      repr_view s this l cap.

(** [frame s s' this]: a call on [this] left the other objects and the
    other buffers alone. *)
Definition frame (s s' : state T) (this : positive) : Prop :=
  (∀ o, o ≠ this → objs s' !! o = objs s !! o) ∧
  (∀ b blk, heap s !! b = Some blk →
            (∀ a o, objs s !! this = Some a → mData a ≠ Ptr b o) →
            heap s' !! b = Some blk) ∧
  (∀ a' b o, objs s' !! this = Some a' → mData a' = Ptr b o →
             heap s !! b = None ∨ ∃ a, objs s !! this = Some a ∧ mData a = mData a').

(** Two objects that do not share a buffer. *)
Definition separate (s : state T) (o1 o2 : positive) : Prop :=
  match objs s !! o1, objs s !! o2 with
  | Some a1, Some a2 =>
      match mData a1, mData a2 with
      | Ptr b1 _, Ptr b2 _ => b1 ≠ b2
      | _, _ => True
      end
  | _, _ => True
  end.

(** The capacity [ensureCapacity] settles on. *)
Definition new_capacity (capacity minCapacity : Z) : Z :=
  if decide (minCapacity > capacity) then grow_capacity capacity minCapacity
  else capacity.

(** The sequence [l] with [vs] inserted before position [i]. *)
Definition insert_at (i : nat) (vs l : list T) : list T :=
  take i l ++ vs ++ drop i l.

(** The element found at position [j] once a gap of one slot has been
    opened at position [i]: the elements from [i] on are one place to
    the right, and the slot [i] holds what the move has left of the
    element that was there. *)
Definition after_gap (i j : nat) (l : list T) : option T :=
  if decide (j < i)%nat then l !! j
  else if decide (j = i) then moved <$> l !! i
  else l !! (j - 1)%nat.

(** The position of the first element of [l] that satisfies [pred], or
    [length l] when there is none. *)
Fixpoint find_first (pred : T → bool) (l : list T) : nat :=
  match l with
  | [] => 0
  | x :: l' => if pred x then 0 else S (find_first pred l')
  end.

Definition found (k : nat) (l : list T) : Z :=
  if decide (k < length l)%nat then Z.of_nat k else INDEX_NONE.

(** [source s p vs]: the elements [vs] can be read from [p] onwards. *)
Definition source (s : state T) (p : ptr) (vs : list T) : Prop :=
  match p with
  | Null => False
  | Ptr b o =>
      0 ≤ o ∧
      match heap s !! b with
      | Some blk => take (length vs) (drop (Z.to_nat o) blk) = Live <$> vs
      | None => False
      end
  end.

(** [outside s this p]: [p] does not point into the buffer of [this]. *)
Definition outside (s : state T) (this : positive) (p : ptr) : Prop :=
  ∀ a b o o', objs s !! this = Some a → p = Ptr b o → mData a ≠ Ptr b o'.

Definition throws_out_of_range {A} (m : M A) (s : state T) : Prop :=
  ∃ s', m s = Throw out_of_range s'.

(** [fresh_for s s' this]: a call that constructed or replaced [this]
    left the other objects and every buffer of [s] as they were, and the
    buffer of [this], if any, is one that [s] did not have. *)
Definition fresh_for (s s' : state T) (this : positive) : Prop :=
  (∀ o, o ≠ this → objs s' !! o = objs s !! o) ∧
  (∀ b blk, heap s !! b = Some blk → heap s' !! b = Some blk) ∧
  (∀ a b o, objs s' !! this = Some a → mData a = Ptr b o → heap s !! b = None).

(** [others_kept s s' this]: the arrays other than [this] that do not
    share its buffer are as they were. *)
Definition others_kept (s s' : state T) (this : positive) : Prop :=
  ∀ o l cap, o ≠ this → separate s this o → repr s o l cap → repr s' o l cap.

(** [reads s p l]: the elements [l] can be read through [p], [p + 1], ... *)
Definition reads (s : state T) (p : ptr) (l : list T) : Prop :=
  ∀ k x, l !! k = Some x → load (p +ₚ Z.of_nat k) s = Ok x s.

(** Lexicographic comparison of two sequences by [T_cmp]. *)
Fixpoint lex_compare (l1 l2 : list T) : comparison :=
  match l1, l2 with
  | [], [] => Eq
  | [], _ :: _ => Lt
  | _ :: _, [] => Gt
  | x :: l1', y :: l2' =>
      match T_cmp x y with
      | Eq => lex_compare l1' l2'
      | c => c
      end
  end.

(** [ordered comp l]: no element of [l] must come before its
    predecessor. *)
Fixpoint ordered (comp : T → T → bool) (l : list T) : Prop :=
  match l with
  | [] => True
  | x :: l' =>
      match l' with
      | [] => True
      | y :: _ => comp y x = false
      end ∧ ordered comp l'
  end.

(** The elements that [std::remove_if] keeps. *)
Definition retained (pred : T → bool) (l : list T) : list T :=
  filter (λ x, pred x = false) l.

(** [short_tail index n l]: the insertion point lies strictly inside
    [l] and fewer elements follow it than the [n] that are inserted.
    This is where the shift of [insertImpl] is undefined. *)
Definition short_tail (index : Z) (n : nat) (l : list T) : Prop :=
  index < Z.of_nat (length l) ∧ Z.of_nat (length l) - index < Z.of_nat n.

(** ** The effect of every operation

    [receiver o] is the array the call is made on.  [requires o s l cap
    l2 cap2] says what the call needs of the state: the receiver holds
    the elements [l] with capacity [cap]; where there is another array,
    or a pointer range, it holds [l2] (with capacity [cap2]) and does
    not share the buffer of the receiver.  [ensures o s l cap l2 cap2 r
    s'] is what the embedding of the call establishes when it returns,
    for the result [r] and the final state [s']. *)
Definition receiver (o : op) : positive :=
  match o with
  | OpArray_default this | OpArray_dtor this | OpCapacity this | OpClear this
  | OpCount this | OpData this | OpIsEmpty this | OpShrink this
  | Op_begin this | Op_end this => this
  | OpArray_sized this _ | OpArray_ilist this _ | OpArray_copy this _
  | OpArray_move this _ | Op_assign_copy this _ | Op_assign_move this _
  | Op_assign_ilist this _ | Op_index this _ | Op_spaceship this _ | Op_eq this _
  | OpAdd this _ | OpAppend_array this _ | OpAppend_rvalue this _
  | OpAppend_ilist this _ | OpContains this _ | OpContainsIf this _
  | OpEmplace this _ | OpFind this _ | OpFindIf this _ | OpFindLast this _
  | OpFindLastIf this _ | OpRemove this _ | OpRemoveAll this _ | OpRemoveAt this _
  | OpReserve this _ | OpResize this _ | OpSort this _ | OpSwap this _ => this
  | OpAppend_ptr this _ _ | OpEmplaceAt this _ _ | OpInsert this _ _
  | OpInsert_array this _ _ | OpInsert_rvalue this _ _ | OpInsert_ilist this _ _
  | OpResize_fill this _ _ => this
  | OpInsert_ptr this _ _ _ => this
  end.

Definition requires (o : op) (s : state T) (l : list T) (cap : Z)
    (l2 : list T) (cap2 : Z) : Prop :=
  match o with
  | OpArray_default _ | OpArray_sized _ _ | OpArray_ilist _ _ => True
  | OpArray_copy this other | OpArray_move this other =>
      this ≠ other ∧ repr s other l2 cap2
  | Op_assign_copy this other | Op_assign_move this other =>
      repr s this l cap ∧ repr s other l2 cap2 ∧ (this ≠ other → separate s this other)
  | Op_spaceship this other | Op_eq this other | OpSwap this other =>
      repr s this l cap ∧ repr s other l2 cap2
  | OpAppend_array this source_ | OpAppend_rvalue this source_
  | OpInsert_array this _ source_ | OpInsert_rvalue this _ source_ =>
      repr s this l cap ∧ repr s source_ l2 cap2 ∧ this ≠ source_ ∧ separate s this source_
  | OpAppend_ptr this p count | OpInsert_ptr this _ p count =>
      repr s this l cap ∧ count = Z.of_nat (length l2) ∧ count ≤ PTRDIFF_MAX ∧
      (l2 ≠ [] → source s p l2 ∧ outside s this p)
  | OpAppend_ilist this ilist | OpInsert_ilist this _ ilist =>
      repr s this l cap ∧ Z.of_nat (length ilist) ≤ PTRDIFF_MAX
  | _ => repr s (receiver o) l cap
  end.

(** The last index whose element satisfies [pred], or the sentinel. *)
Definition last_match (pred : T → bool) (l : list T) (r : Z) : Prop :=
  (r = INDEX_NONE ∧ ∀ j x, l !! j = Some x → pred x = false) ∨
  (∃ (k : nat) x, r = Z.of_nat k ∧ l !! k = Some x ∧ pred x = true ∧
                  ∀ j y, (k < j)%nat → l !! j = Some y → pred y = false).

Definition resized (n : Z) (v : T) (l : list T) : list T :=
  take (Z.to_nat n) l ++ replicate (Z.to_nat n - length l) v.

Definition ensures (o : op) (s : state T) (l : list T) (cap : Z)
    (l2 : list T) (cap2 : Z) (r : value) (s' : state T) : Prop :=
  match o with
  | OpArray_default this =>
      r = VUnit ∧ repr s' this [] 0 ∧ others_kept s s' this
  | OpArray_sized this capacity =>
      r = VUnit ∧ repr s' this [] capacity ∧ others_kept s s' this
  | OpArray_ilist this ilist | Op_assign_ilist this ilist =>
      r = VUnit ∧ repr s' this ilist (Z.of_nat (length ilist)) ∧ others_kept s s' this
  | OpArray_copy this other =>
      r = VUnit ∧ repr s' this l2 (Z.of_nat (length l2)) ∧ repr s' other l2 cap2 ∧
      separate s' this other ∧ others_kept s s' this
  | OpArray_move this other =>
      r = VUnit ∧ repr s' this l2 cap2 ∧ objs s' !! other = Some (mkArray Null 0 0)
  | OpArray_dtor this =>
      r = VUnit ∧ objs s' !! this = None ∧ others_kept s s' this
  | Op_assign_copy this other =>
      r = VUnit ∧ repr s' other l2 cap2 ∧
      if decide (this = other) then s' = s
      else repr s' this l2 (Z.of_nat (length l2)) ∧ others_kept s s' this
  | Op_assign_move this other =>
      r = VUnit ∧
      if decide (this = other) then s' = s
      else repr s' this l2 cap2 ∧ objs s' !! other = Some (mkArray Null 0 0)
  | Op_index this index =>
      s' = s ∧ ∃ p x, r = VPtr p ∧ l !! Z.to_nat index = Some x ∧ load p s = Ok x s
  | Op_spaceship _ _ => s' = s ∧ r = VCmp (lex_compare l l2)
  | Op_eq _ _ => s' = s ∧ r = VBool (bool_decide (l = l2))
  | OpAdd this v =>
      r = VUnit ∧
      repr s' this (l ++ [v]) (new_capacity cap (Z.of_nat (length l) + 1)) ∧
      others_kept s s' this
  | OpEmplace this v =>
      (∃ p, r = VPtr p ∧ load p s' = Ok v s') ∧
      repr s' this (l ++ [v]) (new_capacity cap (Z.of_nat (length l) + 1)) ∧
      others_kept s s' this
  | OpAppend_array this source_ =>
      r = VUnit ∧
      repr s' this (l ++ l2)
           (new_capacity cap (Z.of_nat (length l) + Z.of_nat (length l2))) ∧
      repr s' source_ l2 cap2 ∧ others_kept s s' this
  | OpAppend_rvalue this source_ =>
      r = VUnit ∧
      repr s' this (l ++ l2)
           (new_capacity cap (Z.of_nat (length l) + Z.of_nat (length l2))) ∧
      repr s' source_ [] cap2
  | OpAppend_ilist this ilist =>
      r = VUnit ∧
      repr s' this (l ++ ilist)
           (new_capacity cap (Z.of_nat (length l) + Z.of_nat (length ilist))) ∧
      others_kept s s' this
  | OpAppend_ptr this _ _ =>
      r = VUnit ∧
      repr s' this (l ++ l2)
           (new_capacity cap (Z.of_nat (length l) + Z.of_nat (length l2))) ∧
      others_kept s s' this
  | OpCapacity _ => s' = s ∧ r = VSize cap
  | OpCount _ => s' = s ∧ r = VSize (Z.of_nat (length l))
  | OpData _ | Op_begin _ => s' = s ∧ ∃ p, r = VPtr p ∧ reads s p l
  | Op_end _ =>
      s' = s ∧ ∃ p, r = VPtr (p +ₚ Z.of_nat (length l)) ∧ reads s p l
  | OpIsEmpty _ => s' = s ∧ r = VBool (bool_decide (l = []))
  | OpClear this => r = VUnit ∧ repr s' this [] cap ∧ others_kept s s' this
  | OpContains _ v => s' = s ∧ r = VBool (bool_decide (v ∈ l))
  | OpContainsIf _ pred =>
      s' = s ∧ r = VBool (bool_decide (find_first pred l < length l)%nat)
  | OpFind _ v =>
      s' = s ∧ r = VSize (found (find_first (λ x, bool_decide (x = v)) l) l)
  | OpFindIf _ pred => s' = s ∧ r = VSize (found (find_first pred l) l)
  | OpFindLast _ v =>
      s' = s ∧ ∃ k, r = VSize k ∧ last_match (λ x, bool_decide (x = v)) l k
  | OpFindLastIf _ pred => s' = s ∧ ∃ k, r = VSize k ∧ last_match pred l k
  | OpEmplaceAt this index v | OpInsert this index v =>
      r = VSize index ∧ index ≤ Z.of_nat (length l) ∧
      repr s' this (insert_at (Z.to_nat index) [v] l)
           (new_capacity cap (Z.of_nat (length l) + 1)) ∧
      others_kept s s' this
  | OpInsert_array this index source_ =>
      r = VSize index ∧ index ≤ Z.of_nat (length l) ∧
      repr s' this (insert_at (Z.to_nat index) l2 l)
           (new_capacity cap (Z.of_nat (length l) + Z.of_nat (length l2))) ∧
      repr s' source_ l2 cap2 ∧ others_kept s s' this
  | OpInsert_rvalue this index source_ =>
      r = VSize index ∧ index ≤ Z.of_nat (length l) ∧
      repr s' this (insert_at (Z.to_nat index) l2 l)
           (new_capacity cap (Z.of_nat (length l) + Z.of_nat (length l2))) ∧
      repr s' source_ [] cap2
  | OpInsert_ilist this index ilist =>
      r = VSize index ∧ index ≤ Z.of_nat (length l) ∧
      repr s' this (insert_at (Z.to_nat index) ilist l)
           (new_capacity cap (Z.of_nat (length l) + Z.of_nat (length ilist))) ∧
      others_kept s s' this
  | OpInsert_ptr this index _ _ =>
      r = VSize index ∧ index ≤ Z.of_nat (length l) ∧
      repr s' this (insert_at (Z.to_nat index) l2 l)
           (new_capacity cap (Z.of_nat (length l) + Z.of_nat (length l2))) ∧
      others_kept s s' this
  | OpRemove this v =>
      let k := find_first (λ x, bool_decide (x = v)) l in
      r = VBool (bool_decide (k < length l)%nat) ∧
      repr s' this (delete k l) cap ∧ others_kept s s' this
  | OpRemoveAll this pred =>
      r = VSize (Z.of_nat (length l - length (retained pred l))) ∧
      repr s' this (retained pred l) cap ∧ others_kept s s' this
  | OpRemoveAt this index =>
      r = VUnit ∧ index < Z.of_nat (length l) ∧
      repr s' this (delete (Z.to_nat index) l) cap ∧ others_kept s s' this
  | OpReserve this n =>
      r = VUnit ∧ repr s' this l (Z.max cap n) ∧ others_kept s s' this
  | OpResize this n =>
      r = VUnit ∧ repr s' this (resized n T_default l) (new_capacity cap n) ∧
      others_kept s s' this
  | OpResize_fill this n v =>
      r = VUnit ∧ repr s' this (resized n v l) (new_capacity cap n) ∧
      others_kept s s' this
  | OpShrink this =>
      r = VUnit ∧ repr s' this l (Z.of_nat (length l)) ∧ others_kept s s' this
  | OpSort this comp =>
      r = VUnit ∧
      (∃ l', repr s' this l' cap ∧ l' ≡ₚ l ∧
             ((∀ u v, comp u v = true → comp v u = false) → ordered comp l')) ∧
      others_kept s s' this
  | OpSwap this other =>
      r = VUnit ∧ repr s' this l2 cap2 ∧ repr s' other l cap ∧ heap s' = heap s
  end.

(** The calls whose behaviour is undefined in the embedding although
    [requires] holds: the bulk insertions strictly inside the array of
    more elements than follow the insertion point, the removal of an
    element that is not the last when the destructor of [T] is not
    trivial, and [Sort] with a comparator that is not a strict weak
    ordering of the elements. *)
Definition undefined_for (o : op) (l l2 : list T) : Prop :=
  match o with
  | OpInsert_array _ index _ | OpInsert_rvalue _ index _ | OpInsert_ptr _ index _ _ =>
      short_tail index (length l2) l
  | OpInsert_ilist _ index ilist => short_tail index (length ilist) l
  | OpRemoveAt _ index =>
      trivially_destructible = false ∧ index + 1 < Z.of_nat (length l)
  | OpRemove _ v =>
      trivially_destructible = false ∧
      (S (find_first (λ x, bool_decide (x = v)) l) < length l)%nat
  | OpSort _ comp => strict_weak_on comp l = false
  | _ => False
  end.


(** ** Ownership of buffers

    [owns s this b]: the data pointer of the array [this] points into
    the buffer [b].  [unowned s b]: the buffer [b] is allocated and no
    array owns it, that is, it has leaked. *)
Definition owns (s : state T) (this b : positive) : Prop :=
  ∃ a o, objs s !! this = Some a ∧ mData a = Ptr b o.

Definition unowned (s : state T) (b : positive) : Prop :=
  b ∈ dom (heap s) ∧ ∀ o, ¬ owns s o b.

(** [balanced s s']: the same buffers are without an owner in [s] and
    in [s']. *)
Definition balanced (s s' : state T) : Prop := ∀ b, unowned s b ↔ unowned s' b.

(** [own_buffer_only s s' this]: from [s] to [s'] the arrays other than
    [this] are unchanged, and so is the set of the allocated buffers
    other than the buffer of [this]. *)
Definition own_buffer_only (s s' : state T) (this : positive) : Prop :=
  (∀ o, o ≠ this → objs s' !! o = objs s !! o) ∧
  (∀ b, b ∈ dom (heap s') ∧ ¬ owns s' this b ↔ b ∈ dom (heap s) ∧ ¬ owns s this b).

(** [confined this m]: whether it returns or throws, [m] allocates and
    releases nothing but the buffer of [this]. *)
Definition confined {A} (this : positive) (m : M A) : Prop :=
  ∀ s, post m s (λ _ s', own_buffer_only s s' this) (λ _ s', own_buffer_only s s' this) True.

(** [leak_free m]: whether it returns or throws, [m] leaves no buffer
    without an owner that had one or was not allocated before. *)
Definition leak_free {A} (m : M A) : Prop :=
  ∀ s, post m s (λ _ s', balanced s s') (λ _ s', balanced s s') True.

(** The object a constructor call brings into being. *)
Definition constructed (o : op) : option positive :=
  match o with
  | OpArray_default this | OpArray_sized this _ | OpArray_ilist this _
  | OpArray_copy this _ | OpArray_move this _ => Some this
  | _ => None
  end.

(** The calls that keep or raise the capacity of the array they are
    made on: all but the constructors, the destructor, the assignments,
    [Shrink] and [Swap]. *)
Definition keeps_capacity (o : op) : Prop :=
  match o with
  | OpArray_default _ | OpArray_sized _ _ | OpArray_ilist _ _ | OpArray_copy _ _
  | OpArray_move _ _ | OpArray_dtor _ | Op_assign_copy _ _ | Op_assign_move _ _
  | Op_assign_ilist _ _ | OpShrink _ | OpSwap _ _ => False
  | _ => True
  end.

(** [well_formed s]: every array of [s] is a valid array, whose buffer
    is allocated, has as many slots as the capacity says and holds the
    elements in its first slots, and no two arrays have the same
    buffer. *)
Definition well_formed (s : state T) : Prop :=
  (∀ o, is_Some (objs s !! o) → ∃ l cap, repr s o l cap) ∧
  (∀ o1 o2, o1 ≠ o2 → separate s o1 o2).

(** [buffers_apart s]: the data pointer of every array that has a
    buffer points to the start of an allocated buffer, and no two
    arrays have the same buffer. *)
Definition buffers_apart (s : state T) : Prop :=
  (∀ o a b i, objs s !! o = Some a → mData a = Ptr b i → i = 0 ∧ b ∈ dom (heap s)) ∧
  (∀ o1 o2, o1 ≠ o2 → separate s o1 o2).

(** The calls that touch one array only, the one they are made on. *)
Definition single_array (o : op) : Prop :=
  match o with
  | OpArray_move _ _ | OpArray_dtor _ | Op_assign_copy _ _ | Op_assign_move _ _
  | Op_assign_ilist _ _ | OpAppend_rvalue _ _ | OpInsert_rvalue _ _ _ | OpSwap _ _ => False
  | _ => True
  end.

(** ** Concrete runs

    The state a call leaves, whether it returns or throws, and the
    states that declarations and calls produce one after the other. *)
Definition empty_state : state T := mkState ∅ ∅.

Definition state_after {A} (o : outcome (state T) A) : state T :=
  match o with
  | Ok _ s | Throw _ s => s
  | UB => empty_state
  end.

(** [Array<T> a{...};] in the state [s]. *)
Definition declare (this : positive) (ilist : list T) (s : state T) : state T :=
  state_after (Array_ilist this ilist s).

(** [Array<T> a(capacity);] in the state [s]. *)
Definition declare_sized (this : positive) (capacity : Z) (s : state T) : state T :=
  state_after (Array_sized this capacity s).





(** The record of an array that is known to exist. *)
Definition object_of (this : positive) (s : state T) : Array :=
  default (mkArray Null 0 0) (objs s !! this).

(** No allocation is granted for more than [PTRDIFF_MAX] elements, the
    largest size an array object can have. *)
Hypothesis may_alloc_bound : ∀ h n, may_alloc h n = true → n ≤ PTRDIFF_MAX.

(** * Verification *)

(** ** Facts about the set of allocated buffers *)

Lemma dom_insert_keep {V} (h : gmap positive V) b x b' :
  b' ∈ dom h → b' ∈ dom (<[b := x]> h).
Proof.
  rewrite !elem_of_dom. intros [y Hy]. destruct (decide (b' = b)) as [->|Hne].
  - rewrite lookup_insert_eq. by eexists.
  - rewrite lookup_insert_ne by done. by eexists.
Qed.

Lemma dom_insert_same {V} (h : gmap positive V) b x y :
  h !! b = Some y → dom (<[b := x]> h) = dom h.
Proof.
  intros Hb. apply leibniz_equiv. intros k. rewrite !elem_of_dom.
  destruct (decide (k = b)) as [->|Hne].
  - rewrite lookup_insert_eq, Hb. split; intros _; by eexists.
  - by rewrite lookup_insert_ne.
Qed.

Lemma dom_delete_keep {V} (h : gmap positive V) b b' :
  b' ∈ dom h → b' ≠ b → b' ∈ dom (delete b h).
Proof.
  rewrite !elem_of_dom. intros [y Hy] Hne. rewrite lookup_delete_ne by done. by eexists.
Qed.

(** ** Rules for [post] *)

Lemma post_ret {A} (a : A) s Q E U : Q a s → post (mret a) s Q E U.
Proof. done. Qed.

Lemma post_bind {A B} (m : M A) (k : A → M B) s Q E U :
  post m s (λ a s', post (k a) s' Q E U) E U → post (m ≫= k) s Q E U.
Proof.
  unfold post, mbind, M_bind, bind. by destruct (m s).
Qed.

Lemma post_mono {A} (m : M A) s (Q Q' : A → state T → Prop) (E E' : exn → state T → Prop)
    (U U' : Prop) :
  post m s Q E U →
  (∀ a s', Q a s' → Q' a s') → (∀ e s', E e s' → E' e s') → (U → U') →
  post m s Q' E' U'.
Proof.
  unfold post. destruct (m s); eauto.
Qed.

Lemma post_ok {A} (m : M A) s a s' (Q : A → state T → Prop) E U :
  m s = Ok a s' → Q a s' → post m s Q E U.
Proof. unfold post. by intros ->. Qed.

Lemma post_inv_ok {A} (m : M A) s a s' (Q : A → state T → Prop) E U :
  post m s Q E U → m s = Ok a s' → Q a s'.
Proof. unfold post. intros Hp Hm. by rewrite Hm in Hp. Qed.

Lemma post_inv_throw {A} (m : M A) s e s' (Q : A → state T → Prop) E U :
  post m s Q E U → m s = Throw e s' → E e s'.
Proof. unfold post. intros Hp Hm. by rewrite Hm in Hp. Qed.

Lemma post_total {A} (m : M A) s (Q : A → state T → Prop) :
  post m s Q (λ _ _, False) False → ∃ a s', m s = Ok a s' ∧ Q a s'.
Proof. unfold post. destruct (m s) as [a s'| |]; [|done..]. intros HQ. by exists a, s'. Qed.

(** Rules for the primitive actions. *)
Lemma post_throw {A} e s (Q : A → state T → Prop) (E : exn → state T → Prop) U :
  E e s → post (throw e) s Q E U.
Proof. done. Qed.

Lemma post_undefined {A} s (Q : A → state T → Prop) E (U : Prop) :
  U → post undefined s Q E U.
Proof. done. Qed.

Lemma post_get_obj this s Q E U :
  match objs s !! this with Some a => Q a s | None => U end →
  post (get_obj this) s Q E U.
Proof. unfold post, get_obj. by destruct (objs s !! this). Qed.

Lemma post_set_obj this a s Q E U :
  Q tt (mkState (heap s) (<[this := a]> (objs s))) → post (set_obj this a) s Q E U.
Proof. done. Qed.

Lemma post_del_obj this s Q E U :
  Q tt (mkState (heap s) (delete this (objs s))) → post (del_obj this) s Q E U.
Proof. done. Qed.

Lemma post_fresh_obj s Q E U :
  Q (fresh (dom (objs s))) s → post fresh_obj s Q E U.
Proof. done. Qed.

Lemma post_operator_new n s Q E U :
  (may_alloc (heap s) n = true →
   Q (Ptr (fresh (dom (heap s))) 0)
     (mkState (<[fresh (dom (heap s)) := replicate (Z.to_nat n) Raw]> (heap s)) (objs s))) →
  (may_alloc (heap s) n = false → E bad_alloc s) →
  post (operator_new n) s Q E U.
Proof. unfold post, operator_new. destruct (may_alloc _ _); auto. Qed.

Lemma post_if {A} (P : Prop) {P_dec : Decision P} (m1 m2 : M A) s Q E U :
  (P → post m1 s Q E U) → (¬ P → post m2 s Q E U) →
  post (if decide P then m1 else m2) s Q E U.
Proof. destruct (decide P); auto. Qed.

(** ** The standard algorithms touch only the contents of buffers *)

Lemma heap_only_ret {A} (a : A) (R : A → Prop) : R a → heap_only (mret a) R.
Proof. intros ? s. by apply post_ret. Qed.

Lemma heap_only_undefined {A} (R : A → Prop) : heap_only undefined R.
Proof. by intros s. Qed.

Lemma heap_only_bind {A B} (m : M A) (k : A → M B) RA (RB : B → Prop) :
  heap_only m RA → (∀ a, RA a → heap_only (k a) RB) → heap_only (m ≫= k) RB.
Proof.
  intros Hm Hk s. apply post_bind. eapply post_mono; [apply Hm | | done | done].
  intros a s' (Ha & Ho & Hd). simpl.
  eapply post_mono; [apply (Hk a Ha) | | done | done].
  intros b s'' (Hb & Ho' & Hd'). simpl. split; [done|]. split; congruence.
Qed.

Lemma heap_only_weaken {A} (m : M A) (R R' : A → Prop) :
  heap_only m R → (∀ a, R a → R' a) → heap_only m R'.
Proof.
  intros Hm HR s. eapply post_mono; [apply Hm | | done | done].
  intros r s' (Hr & Ho & Hd). split; [by apply HR|done].
Qed.

Lemma heap_only_if {A} (P : Prop) {P_dec : Decision P} (m1 m2 : M A) R :
  heap_only m1 R → heap_only m2 R → heap_only (if decide P then m1 else m2) R.
Proof. by destruct (decide P). Qed.

Lemma heap_only_load p : heap_only (load p) (λ _, True).
Proof.
  intros s. unfold post, load. by destruct (slot_at (heap s) p) as [[|v]|].
Qed.

Lemma heap_write_dom (h h' : gmap positive (list (slot T))) p x :
  heap_write h p x = Some h' → dom h' = dom h.
Proof.
  destruct p as [|b o]; simpl; [done|].
  destruct (decide (0 ≤ o)); [|done].
  destruct (h !! b) as [blk|] eqn:Hb; simpl; [|done].
  destruct (decide _); [|done].
  intros [= <-]. by eapply dom_insert_same.
Qed.

Lemma heap_only_write p x : heap_only (write p x) (λ _, True).
Proof.
  intros s. unfold post, write.
  destruct (heap_write (heap s) p x) eqn:Hw; [|done].
  simpl. eauto using heap_write_dom.
Qed.

Lemma heap_only_range_len first last :
  heap_only (range_len first last)
            (λ n, ptr_diff last first = Some (Z.of_nat n)).
Proof.
  unfold range_len. destruct (ptr_diff last first) as [d|]; [|apply heap_only_undefined].
  destruct (decide (0 ≤ d)); [|apply heap_only_undefined].
  apply heap_only_ret. f_equal. lia.
Qed.

Lemma heap_only_construct_at p v : heap_only (std_construct_at p v) (λ _, True).
Proof. apply heap_only_write. Qed.

Lemma heap_only_destroy_at p : heap_only (std_destroy_at p) (λ _, True).
Proof.
  unfold std_destroy_at. eapply heap_only_bind; [apply heap_only_load|].
  intros _ _. apply heap_only_write.
Qed.

Lemma heap_only_move_to src dst : heap_only (move_to src dst) (λ _, True).
Proof.
  unfold move_to. eapply heap_only_bind; [apply heap_only_load|]. intros v _.
  eapply heap_only_bind; [apply heap_only_write|]. intros _ _. apply heap_only_write.
Qed.

Lemma heap_only_copy_to src dst : heap_only (copy_to src dst) (λ _, True).
Proof.
  unfold copy_to. eapply heap_only_bind; [apply heap_only_load|]. intros v _.
  apply heap_only_write.
Qed.

Lemma heap_only_destroy_loop n p : heap_only (destroy_loop n p) (λ _, True).
Proof.
  revert p. induction n as [|n IH]; intros p; simpl; [by apply heap_only_ret|].
  eapply heap_only_bind; [apply heap_only_destroy_at|]. intros _ _. apply IH.
Qed.

Lemma heap_only_move_loop n src dst : heap_only (move_loop n src dst) (λ _, True).
Proof.
  revert src dst. induction n as [|n IH]; intros src dst; simpl; [by apply heap_only_ret|].
  eapply heap_only_bind; [apply heap_only_move_to|]. intros _ _. apply IH.
Qed.

Lemma heap_only_move_backward_loop n last d_last :
  heap_only (move_backward_loop n last d_last) (λ _, True).
Proof.
  revert last d_last. induction n as [|n IH]; intros last d_last; simpl;
    [by apply heap_only_ret|].
  eapply heap_only_bind; [apply heap_only_move_to|]. intros _ _. apply IH.
Qed.

Lemma heap_only_copy_loop n src dst : heap_only (copy_loop n src dst) (λ _, True).
Proof.
  revert src dst. induction n as [|n IH]; intros src dst; simpl; [by apply heap_only_ret|].
  eapply heap_only_bind; [apply heap_only_copy_to|]. intros _ _. apply IH.
Qed.

Lemma heap_only_copy_list l dst : heap_only (copy_list l dst) (λ _, True).
Proof.
  revert dst. induction l as [|v l IH]; intros dst; simpl; [by apply heap_only_ret|].
  eapply heap_only_bind; [apply heap_only_construct_at|]. intros _ _. apply IH.
Qed.

Lemma heap_only_fill_loop n dst v : heap_only (fill_loop n dst v) (λ _, True).
Proof.
  revert dst. induction n as [|n IH]; intros dst; simpl; [by apply heap_only_ret|].
  eapply heap_only_bind; [apply heap_only_construct_at|]. intros _ _. apply IH.
Qed.

Lemma heap_only_read_loop n p : heap_only (read_loop n p) (λ _, True).
Proof.
  revert p. induction n as [|n IH]; intros p; simpl; [by apply heap_only_ret|].
  eapply heap_only_bind; [apply heap_only_load|]. intros v _.
  eapply heap_only_bind; [apply IH|]. intros l _. by apply heap_only_ret.
Qed.

Lemma heap_only_equal_loop n p q : heap_only (equal_loop n p q) (λ _, True).
Proof.
  revert p q. induction n as [|n IH]; intros p q; simpl; [by apply heap_only_ret|].
  eapply heap_only_bind; [apply heap_only_load|]. intros x _.
  eapply heap_only_bind; [apply heap_only_load|]. intros y _.
  destruct (decide (x = y)); [apply IH | by apply heap_only_ret].
Qed.

Lemma heap_only_compare_loop n1 n2 p q : heap_only (compare_loop n1 n2 p q) (λ _, True).
Proof.
  revert n2 p q. induction n1 as [|n1 IH]; intros [|n2] p q; simpl;
    try by apply heap_only_ret.
  eapply heap_only_bind; [apply heap_only_load|]. intros x _.
  eapply heap_only_bind; [apply heap_only_load|]. intros y _.
  destruct (T_cmp x y); [apply IH | by apply heap_only_ret ..].
Qed.

(** The iterator returned by a search lies in the searched range. *)
Lemma heap_only_find_loop n p pred :
  heap_only (find_loop n p pred)
            (λ it, ∃ k : nat, (k ≤ n)%nat ∧ it = p +ₚ Z.of_nat k).
Proof.
  revert p. induction n as [|n IH]; intros p; simpl.
  - apply heap_only_ret. exists 0%nat. split; [done|]. destruct p; simpl; f_equal; lia.
  - eapply heap_only_bind; [apply heap_only_load|]. intros v _.
    destruct (pred v).
    + apply heap_only_ret. exists 0%nat. split; [lia|]. destruct p; simpl; f_equal; lia.
    + eapply heap_only_weaken; [apply IH|]. intros it (k & Hk & ->).
      exists (S k). split; [lia|]. destruct p; simpl; f_equal; lia.
Qed.

Lemma heap_only_remove_loop n i first pred :
  heap_only (remove_loop n i first pred)
            (λ it, ∃ k : nat, (k ≤ n)%nat ∧ it = first +ₚ Z.of_nat k).
Proof.
  revert i first. induction n as [|n IH]; intros i first; simpl.
  - apply heap_only_ret. exists 0%nat. split; [done|]. destruct first; simpl; f_equal; lia.
  - eapply heap_only_bind; [apply heap_only_load|]. intros v _.
    destruct (pred v).
    + eapply heap_only_weaken; [apply IH|]. intros it (k & Hk & ->).
      exists k. split; [lia|done].
    + eapply heap_only_bind; [apply heap_only_move_to|]. intros _ _.
      eapply heap_only_weaken; [apply IH|]. intros it (k & Hk & ->).
      exists (S k). split; [lia|]. destruct first; simpl; f_equal; lia.
Qed.

Lemma ptr_add_add p n m : p +ₚ n +ₚ m = p +ₚ (n + m).
Proof. destruct p; simpl; f_equal; lia. Qed.

Lemma ptr_add_0 p : p +ₚ 0 = p.
Proof. destruct p; simpl; f_equal; lia. Qed.

Lemma ptr_diff_add p n : ptr_diff (p +ₚ n) p = Some (match p with Null => 0 | _ => n end).
Proof.
  destruct p as [|b o]; simpl; [done|]. rewrite decide_True by done. f_equal. lia.
Qed.

Lemma ptr_diff_add_l last p n d :
  ptr_diff last p = Some d →
  ptr_diff last (p +ₚ n) = Some (match p with Null => 0 | _ => d - n end).
Proof.
  destruct p as [|b o], last as [|b' o']; simpl; try done.
  destruct (decide (b = b')); [|done]. intros [= <-]. f_equal. lia.
Qed.

Lemma ptr_diff_null_r last d : ptr_diff last Null = Some d → last = Null ∧ d = 0.
Proof. destruct last; simpl; [|done]. by intros [= <-]. Qed.

Lemma heap_only_destroy_n first n : heap_only (std_destroy_n first n) (λ _, True).
Proof. apply heap_only_destroy_loop. Qed.

Lemma heap_only_destroy first last : heap_only (std_destroy first last) (λ _, True).
Proof.
  unfold std_destroy. eapply heap_only_bind; [apply heap_only_range_len|].
  intros n _. apply heap_only_destroy_loop.
Qed.

Lemma heap_only_uninitialized_move_n first n d_first :
  heap_only (std_uninitialized_move_n first n d_first) (λ _, True).
Proof. apply heap_only_move_loop. Qed.

Lemma heap_only_assignable p : heap_only (assignable p) (λ _, True).
Proof.
  intros s. unfold post, assignable.
  destruct (slot_at (heap s) p) as [[|v]|]; [|done|done].
  by destruct trivially_destructible.
Qed.

Lemma heap_only_move_assign_loop n src dst :
  heap_only (move_assign_loop n src dst) (λ _, True).
Proof.
  revert src dst. induction n as [|n IH]; intros src dst; cbn [move_assign_loop].
  { by apply heap_only_ret. }
  eapply heap_only_bind; [|intros _ _; apply IH].
  unfold move_assign. eapply heap_only_bind; [apply heap_only_assignable|].
  intros _ _. apply heap_only_move_to.
Qed.

Lemma heap_only_move first last d_first :
  heap_only (std_move first last d_first) (λ _, True).
Proof.
  unfold std_move. eapply heap_only_bind; [apply heap_only_range_len|].
  intros n _. apply heap_only_move_assign_loop.
Qed.

Lemma heap_only_move_backward first last d_last :
  heap_only (std_move_backward first last d_last) (λ _, True).
Proof.
  unfold std_move_backward. eapply heap_only_bind; [apply heap_only_range_len|].
  intros n _. apply heap_only_move_backward_loop.
Qed.

Lemma heap_only_uninitialized_copy_n first n d_first :
  heap_only (std_uninitialized_copy_n first n d_first) (λ _, True).
Proof. apply heap_only_copy_loop. Qed.

Lemma heap_only_uninitialized_copy first last d_first :
  heap_only (std_uninitialized_copy first last d_first) (λ _, True).
Proof.
  unfold std_uninitialized_copy. eapply heap_only_bind; [apply heap_only_range_len|].
  intros n _. apply heap_only_copy_loop.
Qed.

Lemma heap_only_uninitialized_fill_n first n v :
  heap_only (std_uninitialized_fill_n first n v) (λ _, True).
Proof. apply heap_only_fill_loop. Qed.

Lemma heap_only_find_if first last pred :
  heap_only (std_find_if first last pred) (in_range first last).
Proof.
  unfold std_find_if. eapply heap_only_bind; [apply heap_only_range_len|].
  intros n Hn. eapply heap_only_weaken; [apply heap_only_find_loop|].
  intros it (k & Hk & ->). by exists k, n.
Qed.

Lemma heap_only_find first last value :
  heap_only (std_find first last value) (in_range first last).
Proof. apply heap_only_find_if. Qed.

Lemma heap_only_remove_if first last pred :
  heap_only (std_remove_if first last pred) (in_range first last).
Proof.
  unfold std_remove_if. eapply heap_only_bind; [apply heap_only_find_if|].
  intros it (k & n & Hn & Hk & ->).
  destruct (decide (first +ₚ Z.of_nat k ≠ last)) as [Hne|_].
  - eapply heap_only_bind; [apply heap_only_range_len|]. intros n' Hn'.
    eapply heap_only_weaken; [apply heap_only_remove_loop|].
    intros it (j & Hj & ->).
    rewrite ptr_add_add in Hn'. rewrite (ptr_diff_add_l _ _ _ _ Hn) in Hn'.
    destruct first as [|b o].
    { apply ptr_diff_null_r in Hn as [-> _]. done. }
    injection Hn' as Hn'.
    exists (k + j)%nat, n. split; [done|]. split; [lia|].
    rewrite ptr_add_add. f_equal. lia.
  - apply heap_only_ret. by exists k, n.
Qed.

Lemma heap_only_equal first1 last1 first2 :
  heap_only (std_equal first1 last1 first2) (λ _, True).
Proof.
  unfold std_equal. eapply heap_only_bind; [apply heap_only_range_len|].
  intros n _. apply heap_only_equal_loop.
Qed.

Lemma heap_only_lexicographical_compare_three_way f1 l1 f2 l2 :
  heap_only (std_lexicographical_compare_three_way f1 l1 f2 l2) (λ _, True).
Proof.
  unfold std_lexicographical_compare_three_way.
  eapply heap_only_bind; [apply heap_only_range_len|]. intros n1 _.
  eapply heap_only_bind; [apply heap_only_range_len|]. intros n2 _.
  apply heap_only_compare_loop.
Qed.

Lemma heap_only_sort first last comp : heap_only (std_sort first last comp) (λ _, True).
Proof.
  unfold std_sort. eapply heap_only_bind; [apply heap_only_range_len|]. intros n _.
  eapply heap_only_bind; [apply heap_only_read_loop|]. intros l _.
  destruct (strict_weak_on comp l); [apply heap_only_copy_list|apply heap_only_undefined].
Qed.

(** ** The effect of the member functions on the data members *)

(** A heap-only action as one step of a larger computation. *)
Lemma post_heap_only {A} (m : M A) R s Q E :
  heap_only m R →
  (∀ r s', R r → objs s' = objs s → dom (heap s') = dom (heap s) → Q r s') →
  post m s Q E True.
Proof.
  intros Hm HQ. eapply post_mono; [apply Hm | | done | done].
  intros r s' (Hr & Ho & Hd). by apply HQ.
Qed.

Lemma upd_Inv s s' this a a' :
  upd s s' this a a' → (rep_inv a → rep_inv a') → Inv s → Inv s'.
Proof.
  intros (Ha & Ho & _) Hr HI o x. rewrite Ho.
  destruct (decide (this = o)) as [->|Hne].
  - rewrite lookup_insert_eq. intros [= <-]. eauto.
  - rewrite lookup_insert_ne by done. apply HI.
Qed.

Lemma upd_refl s this a : objs s !! this = Some a → upd s s this a a.
Proof. intros Ha. split; [done|]. split; [by rewrite insert_id|done]. Qed.

Lemma post_operator_delete p s Q E :
  (∀ s', objs s' = objs s →
         (∀ b, b ∈ dom (heap s) → (∀ o, p ≠ Ptr b o) → b ∈ dom (heap s')) →
         Q tt s') →
  post (operator_delete p) s Q E True.
Proof.
  intros HQ. unfold post, operator_delete. destruct p as [|b o]; [by apply HQ|].
  destruct (decide _); [|done]. apply HQ; [done|]. simpl.
  intros b' Hb' Hne. apply dom_delete_keep; [done|]. intros ->. by apply (Hne o).
Qed.

Lemma checkRange_post this index (bAllowEnd : bool) (s : state T) Q E U :
  match objs s !! this with
  | Some a =>
      if decide (index >= to_size_t (mCount a + (if bAllowEnd then 1 else 0)))
      then E out_of_range s else Q tt s
  | None => U
  end →
  post (checkRange this index bAllowEnd) s Q E U.
Proof.
  intros HQ. unfold checkRange. apply post_bind, post_get_obj.
  destruct (objs s !! this) as [a|]; [|done].
  by destruct (decide _).
Qed.

Lemma set_mCount_post this n s Q E U :
  match objs s !! this with
  | Some a => Q tt (mkState (heap s) (<[this := mkArray (mData a) n (mCapacity a)]> (objs s)))
  | None => U
  end →
  post (set_mCount this n) s Q E U.
Proof.
  intros HQ. unfold set_mCount. apply post_bind, post_get_obj.
  by destruct (objs s !! this) as [a|].
Qed.

Lemma set_mData_post this p s Q E U :
  match objs s !! this with
  | Some a => Q tt (mkState (heap s) (<[this := mkArray p (mCount a) (mCapacity a)]> (objs s)))
  | None => U
  end →
  post (set_mData this p) s Q E U.
Proof.
  intros HQ. unfold set_mData. apply post_bind, post_get_obj.
  by destruct (objs s !! this) as [a|].
Qed.

Lemma set_mCapacity_post this n s Q E U :
  match objs s !! this with
  | Some a => Q tt (mkState (heap s) (<[this := mkArray (mData a) (mCount a) n]> (objs s)))
  | None => U
  end →
  post (set_mCapacity this n) s Q E U.
Proof.
  intros HQ. unfold set_mCapacity. apply post_bind, post_get_obj.
  by destruct (objs s !! this) as [a|].
Qed.

Lemma cleanup_fields this s E :
  post (cleanup this) s
       (λ _ s', ∃ a, upd s s' this a (if is_null (mData a) then a else mkArray Null 0 0))
       E True.
Proof.
  unfold cleanup. apply post_bind, post_get_obj.
  destruct (objs s !! this) as [a|] eqn:Ha; [|done].
  destruct (is_null (mData a)) eqn:Hnull.
  { apply post_ret. exists a. rewrite Hnull. by apply upd_refl. }
  apply post_bind. eapply post_heap_only; [apply heap_only_destroy_n|].
  intros _ s1 _ Ho1 Hd1.
  apply post_bind, post_operator_delete. intros s2 Ho2 Hd2.
  apply post_set_obj. exists a. rewrite Hnull.
  split; [done|]. split; [simpl; congruence|]. simpl.
  intros b Hb Hne. apply Hd2; [by rewrite Hd1|done].
Qed.

Lemma reallocate_fields this n s :
  post (reallocate this n) s
       (λ _ s', ∃ a a', upd s s' this a a' ∧ realloc_rel a n a')
       (λ e s', s' = s ∧ e = bad_alloc) True.
Proof.
  unfold reallocate. apply post_bind, post_get_obj.
  destruct (objs s !! this) as [a|] eqn:Ha; [|done].
  destruct (decide (n = mCapacity a)) as [Hn|Hn].
  { apply post_ret. exists a, a. split; [by apply upd_refl|].
    unfold realloc_rel. by rewrite decide_True. }
  destruct (decide (n = 0)) as [Hz|Hz].
  { eapply post_mono; [apply (cleanup_fields _ _ (λ _ _, False)) | | done | done].
    intros _ s' (a0 & Hu). simpl in Hu. assert (a0 = a) as ->.
    { destruct Hu as (Ha0 & _). congruence. }
    exists a, (if is_null (mData a) then a else mkArray Null 0 0).
    split; [done|]. unfold realloc_rel.
    rewrite decide_False by done. by rewrite decide_True. }
  apply post_bind, post_operator_new; [|done]. intros _.
  set (b := fresh (dom (heap s))).
  assert (b ∉ dom (heap s)) as Hfresh by apply is_fresh.
  set (s1 := mkState _ _).
  assert (∀ s2, objs s2 = objs s1 →
     (∀ b', b' ∈ dom (heap s) → (∀ o, mData a ≠ Ptr b' o) → b' ∈ dom (heap s2)) →
     post (set_obj this (mkArray (Ptr b 0) (Z.min (mCount a) n) n)) s2
       (λ _ s', ∃ a0 a', upd s s' this a0 a' ∧ realloc_rel a0 n a')
       (λ e s', s' = s ∧ e = bad_alloc) True) as Hfin.
  { intros s2 Ho2 Hd2. apply post_set_obj.
    exists a, (mkArray (Ptr b 0) (Z.min (mCount a) n) n). split.
    - split; [done|]. split; [simpl; by rewrite Ho2|done].
    - unfold realloc_rel. rewrite !decide_False by done. by exists b. }
  apply post_bind. destruct (is_null (mData a)) eqn:Hnull.
  { apply post_ret. apply Hfin; [done|]. subst s1. simpl.
    intros b' Hb' _. by apply dom_insert_keep. }
  apply post_bind. eapply post_heap_only; [apply heap_only_uninitialized_move_n|].
  intros _ s2 _ Ho2 Hd2.
  apply post_bind. eapply post_heap_only; [apply heap_only_destroy_n|].
  intros _ s3 _ Ho3 Hd3.
  apply post_operator_delete. intros s4 Ho4 Hd4.
  apply Hfin; [congruence|].
  intros b' Hb' Hne. apply Hd4; [|done]. rewrite Hd3, Hd2. subst s1. simpl.
  by apply dom_insert_keep.
Qed.

Lemma realloc_rel_inv a n a' :
  rep_inv a → 0 ≤ n ≤ SIZE_MAX → realloc_rel a n a' →
  rep_inv a' ∧ mCapacity a' = n ∧ mCount a' = Z.min (mCount a) n.
Proof.
  intros (Hc & Hm & Hnull) Hn. unfold realloc_rel.
  destruct (decide (n = mCapacity a)) as [->|Hne].
  { intros ->. split; [done|]. split; [done|]. lia. }
  destruct (decide (n = 0)) as [->|Hz].
  { destruct (mData a) eqn:Hd; simpl.
    - destruct Hne. symmetry. by apply Hnull.
    - intros ->. simpl. unfold rep_inv; simpl. split; [|lia]. split; [lia|].
      split; [unfold SIZE_MAX; lia|done]. }
  intros (b & ->). unfold rep_inv; simpl. split; [|done].
  split; [lia|]. split; [lia|]. split; [done|lia].
Qed.

Lemma ensureCapacity_fields this minCapacity s :
  post (ensureCapacity this minCapacity) s
       (λ _ s', ∃ a a', upd s s' this a a' ∧ ensure_rel a minCapacity a')
       (λ e s', s' = s ∧ e = bad_alloc) True.
Proof.
  unfold ensureCapacity. apply post_bind, post_get_obj.
  destruct (objs s !! this) as [a|] eqn:Ha; [|done].
  unfold ensure_rel.
  destruct (decide (minCapacity > mCapacity a)) as [Hgt|Hle].
  - eapply post_mono; [apply reallocate_fields | | done | done].
    intros _ s' (a0 & a' & Hu & Hr). simpl in *.
    assert (a0 = a) as -> by (destruct Hu as (? & _); congruence).
    exists a, a'. split; [done|]. by rewrite decide_True.
  - apply post_ret. exists a, a. split; [by apply upd_refl|]. by rewrite decide_False.
Qed.

Lemma to_size_t_range z : 0 ≤ to_size_t z ≤ SIZE_MAX.
Proof. unfold to_size_t, SIZE_MAX. pose proof (Z.mod_pos_bound z (2 ^ 64)). lia. Qed.

Lemma to_size_t_id z : 0 ≤ z ≤ SIZE_MAX → to_size_t z = z.
Proof. unfold to_size_t, SIZE_MAX. intros. apply Z.mod_small. lia. Qed.

Lemma grow_capacity_range capacity minCapacity :
  0 ≤ minCapacity ≤ SIZE_MAX →
  minCapacity ≤ grow_capacity capacity minCapacity ≤ SIZE_MAX.
Proof.
  intros Hm. unfold grow_capacity.
  pose proof (to_size_t_range (capacity + Z.shiftr capacity 1)).
  destruct (decide (capacity = 0)); unfold SIZE_MAX in *; lia.
Qed.

Lemma ensure_rel_inv a minCapacity a' :
  rep_inv a → 0 ≤ minCapacity ≤ SIZE_MAX → ensure_rel a minCapacity a' →
  rep_inv a' ∧ mCount a' = mCount a ∧ minCapacity ≤ mCapacity a'.
Proof.
  intros Hr Hm. unfold ensure_rel.
  destruct (decide (minCapacity > mCapacity a)) as [Hgt|Hle].
  - intros Hre. pose proof (grow_capacity_range (mCapacity a) _ Hm) as Hg.
    apply realloc_rel_inv in Hre as (Hr' & Hc & Hn); [|done|lia].
    split; [done|]. destruct Hr as ([? ?] & _). split; lia.
  - intros ->. split; [done|]. split; [done|lia].
Qed.

Lemma upd_heap_only s s1 s2 this a a1 :
  upd s s1 this a a1 → objs s2 = objs s1 → dom (heap s2) = dom (heap s1) →
  upd s s2 this a a1.
Proof.
  intros (Ha & Ho & Hd) Ho2 Hd2. split; [done|]. split; [congruence|].
  intros b Hb Hne. rewrite Hd2. by apply Hd.
Qed.

Lemma upd_set s s1 this a a1 a2 :
  upd s s1 this a a1 →
  upd s (mkState (heap s1) (<[this := a2]> (objs s1))) this a a2.
Proof.
  intros (Ha & Ho & Hd). split; [done|]. split; [|done].
  simpl. by rewrite Ho, insert_insert_eq.
Qed.

Lemma upd_lookup s s1 this a a1 : upd s s1 this a a1 → objs s1 !! this = Some a1.
Proof. intros (_ & -> & _). apply lookup_insert_eq. Qed.

Lemma upd_lookup_ne s s1 this a a1 o :
  upd s s1 this a a1 → o ≠ this → objs s1 !! o = objs s !! o.
Proof. intros (_ & -> & _) Hne. by rewrite lookup_insert_ne. Qed.

Lemma upd_source s s1 this a a1 : upd s s1 this a a1 → objs s !! this = Some a.
Proof. by intros (? & _). Qed.

Lemma heap_only_shift_right a index count :
  heap_only (shift_right a index count) (λ _, True).
Proof.
  unfold shift_right. apply heap_only_if; [|by apply heap_only_ret].
  eapply heap_only_bind; [apply heap_only_uninitialized_move_n|]. intros _ _.
  apply heap_only_move_backward.
Qed.

Lemma EmplaceAt_unfold this index v :
  EmplaceAt this index v =
  (checkRange this index true;;
   a ← get_obj this;
   ensureCapacity this (to_size_t (mCount a + 1));;
   a ← get_obj this;
   shift_right a index 1;;
   std_construct_at (mData a +ₚ index) v;;
   set_mCount this (to_size_t (mCount a + 1));;
   ret index).
Proof. done. Qed.

Lemma insertImpl_unfold this index p count :
  insertImpl this index p count =
  (checkRange this index true;;
   if decide (count = 0) then ret index
   else
     a ← get_obj this;
     ensureCapacity this (to_size_t (mCount a + count));;
     a ← get_obj this;
     shift_right a index count;;
     std_uninitialized_copy_n p count (mData a +ₚ index);;
     set_mCount this (to_size_t (mCount a + count));;
     ret index).
Proof. done. Qed.

Lemma EmplaceAt_fields this index v s :
  post (EmplaceAt this index v) s
       (λ r s', r = index ∧
                ∃ a a', upd s s' this a a' ∧ index < to_size_t (mCount a + 1) ∧
                        insert_rel a 1 a')
       (λ e s', s' = s ∧ insert_exn s this index e) True.
Proof.
  rewrite EmplaceAt_unfold. apply post_bind, checkRange_post.
  destruct (objs s !! this) as [a|] eqn:Ha; [|done].
  destruct (decide _) as [Hge|Hlt].
  { split; [done|]. right. split; [done|]. by exists a. }
  apply post_bind, post_get_obj. rewrite Ha.
  apply post_bind. eapply post_mono; [apply ensureCapacity_fields | | | done]; simpl.
  2:{ intros e s' (-> & ->). split; [done|]. by left. }
  intros _ s1 (a0 & a1 & Hu & Hr).
  assert (a0 = a) as -> by (apply upd_source in Hu; congruence).
  apply post_bind, post_get_obj. rewrite (upd_lookup _ _ _ _ _ Hu).
  apply post_bind. eapply post_heap_only; [apply heap_only_shift_right|].
  intros _ s2 _ Ho2 Hd2.
  apply post_bind. eapply post_heap_only; [apply heap_only_construct_at|].
  intros _ s3 _ Ho3 Hd3.
  assert (upd s s3 this a a1) as Hu3.
  { eapply upd_heap_only; [|done..]. eapply upd_heap_only; done. }
  apply post_bind, set_mCount_post. rewrite (upd_lookup _ _ _ _ _ Hu3).
  apply post_ret. split; [done|].
  eexists a, _. split; [eapply upd_set, Hu3|]. split; [lia|]. by exists a1.
Qed.

Lemma insertImpl_fields this index p count s :
  post (insertImpl this index p count) s
       (λ r s', r = index ∧
                ∃ a a', upd s s' this a a' ∧ index < to_size_t (mCount a + 1) ∧
                        if decide (count = 0) then a' = a else insert_rel a count a')
       (λ e s', s' = s ∧ insert_exn s this index e) True.
Proof.
  rewrite insertImpl_unfold. apply post_bind, checkRange_post.
  destruct (objs s !! this) as [a|] eqn:Ha; [|done].
  destruct (decide _) as [Hge|Hlt].
  { split; [done|]. right. split; [done|]. by exists a. }
  destruct (decide (count = 0)) as [Hz|Hz].
  { apply post_ret. split; [done|]. exists a, a. split; [by apply upd_refl|].
    split; [lia|done]. }
  apply post_bind, post_get_obj. rewrite Ha.
  apply post_bind. eapply post_mono; [apply ensureCapacity_fields | | | done]; simpl.
  2:{ intros e s' (-> & ->). split; [done|]. by left. }
  intros _ s1 (a0 & a1 & Hu & Hr).
  assert (a0 = a) as -> by (apply upd_source in Hu; congruence).
  apply post_bind, post_get_obj. rewrite (upd_lookup _ _ _ _ _ Hu).
  apply post_bind. eapply post_heap_only; [apply heap_only_shift_right|].
  intros _ s2 _ Ho2 Hd2.
  apply post_bind. eapply post_heap_only; [apply heap_only_uninitialized_copy_n|].
  intros _ s3 _ Ho3 Hd3.
  assert (upd s s3 this a a1) as Hu3.
  { eapply upd_heap_only; [|done..]. eapply upd_heap_only; done. }
  apply post_bind, set_mCount_post. rewrite (upd_lookup _ _ _ _ _ Hu3).
  apply post_ret. split; [done|].
  eexists a, _. split; [eapply upd_set, Hu3|]. split; [lia|].
  by exists a1.
Qed.

Lemma insert_rel_inv a count a' :
  rep_inv a → insert_rel a count a' → rep_inv a'.
Proof.
  intros Hr (a1 & He & ->).
  apply ensure_rel_inv in He as (Hr1 & Hc & Hm); [|done|apply to_size_t_range].
  destruct Hr1 as (Hc1 & Hm1 & Hn1). unfold rep_inv; simpl.
  pose proof (to_size_t_range (mCount a + count)).
  split; [rewrite Hc; lia|]. done.
Qed.

(** ** Failure atomicity and the representation invariant

    Every member function is [read_only], [quiet] or [safe]. *)

Lemma quiet_safe {A} (m : M A) : quiet m → safe m.
Proof. intros Hm s. eapply post_mono; [apply Hm|done..]. Qed.

Lemma heap_only_quiet {A} (m : M A) R : heap_only m R → quiet m.
Proof.
  intros Hm s. eapply post_mono; [apply Hm| |done..].
  intros r s' (_ & Ho & _) HI this a. rewrite Ho. apply HI.
Qed.

Lemma read_only_safe {A} (m : M A) R : read_only m R → safe m.
Proof.
  intros Hm s. eapply post_mono; [apply Hm| |done..]. by intros r s' [-> _].
Qed.

Lemma quiet_ret {A} (a : A) : quiet (mret a).
Proof. intros s. by apply post_ret. Qed.

Lemma quiet_bind {A B} (m : M A) (k : A → M B) :
  quiet m → (∀ a, quiet (k a)) → quiet (m ≫= k).
Proof.
  intros Hm Hk s. apply post_bind. eapply post_mono; [apply Hm| |done..].
  intros a s1 H1. simpl. eapply post_mono; [apply Hk| |done..]. simpl. eauto.
Qed.

Lemma safe_bind_quiet {A B} (m : M A) (k : A → M B) :
  safe m → (∀ a, quiet (k a)) → safe (m ≫= k).
Proof.
  intros Hm Hk s. apply post_bind. eapply post_mono; [apply Hm| |done..].
  intros a s1 H1. simpl. eapply post_mono; [apply Hk| |done..]. simpl. eauto.
Qed.

Lemma read_only_bind_safe {A B} (m : M A) (k : A → M B) R :
  read_only m R → (∀ a, R a → safe (k a)) → safe (m ≫= k).
Proof.
  intros Hm Hk s. apply post_bind. eapply post_mono; [apply Hm| |done..].
  intros a s1 [-> Ha]. by apply Hk.
Qed.

Lemma read_only_ret {A} (a : A) (R : A → Prop) : R a → read_only (mret a) R.
Proof. intros ? s. by apply post_ret. Qed.

Lemma read_only_undefined {A} (R : A → Prop) : read_only undefined R.
Proof. by intros s. Qed.

Lemma read_only_bind {A B} (m : M A) (k : A → M B) RA (RB : B → Prop) :
  read_only m RA → (∀ a, RA a → read_only (k a) RB) → read_only (m ≫= k) RB.
Proof.
  intros Hm Hk s. apply post_bind. eapply post_mono; [apply Hm| |done..].
  intros a s1 [-> Ha]. by apply Hk.
Qed.

Lemma read_only_weaken {A} (m : M A) (R R' : A → Prop) :
  read_only m R → (∀ a, R a → R' a) → read_only m R'.
Proof.
  intros Hm HR s. eapply post_mono; [apply Hm| |done..].
  intros r s' [Hs Hr]. split; [done|by apply HR].
Qed.

Lemma read_only_get_obj this : read_only (get_obj this) (λ _, True).
Proof. intros s. apply post_get_obj. by destruct (objs s !! this). Qed.

Lemma read_only_load p : read_only (load p) (λ _, True).
Proof. intros s. unfold post, load. by destruct (slot_at (heap s) p) as [[|v]|]. Qed.

Lemma read_only_range_len first last : read_only (range_len first last) (λ _, True).
Proof.
  unfold range_len. destruct (ptr_diff last first) as [d|]; [|apply read_only_undefined].
  destruct (decide (0 ≤ d)); [by apply read_only_ret|apply read_only_undefined].
Qed.

Lemma read_only_find_loop n p pred : read_only (find_loop n p pred) (λ _, True).
Proof.
  revert p. induction n as [|n IH]; intros p; simpl; [by apply read_only_ret|].
  eapply read_only_bind; [apply read_only_load|]. intros v _.
  destruct (pred v); [by apply read_only_ret|apply IH].
Qed.

Lemma read_only_find_if first last pred :
  read_only (std_find_if first last pred) (λ _, True).
Proof.
  unfold std_find_if. eapply read_only_bind; [apply read_only_range_len|].
  intros n _. apply read_only_find_loop.
Qed.

Lemma read_only_FindLast_loop i data pred :
  read_only (FindLast_loop i data pred) (λ _, True).
Proof.
  induction i as [|i IH]; simpl; [by apply read_only_ret|].
  eapply read_only_bind; [apply read_only_load|]. intros v _.
  destruct (pred v); [by apply read_only_ret|apply IH].
Qed.

Lemma read_only_equal_loop n p q : read_only (equal_loop n p q) (λ _, True).
Proof.
  revert p q. induction n as [|n IH]; intros p q; simpl; [by apply read_only_ret|].
  eapply read_only_bind; [apply read_only_load|]. intros x _.
  eapply read_only_bind; [apply read_only_load|]. intros y _.
  destruct (decide (x = y)); [apply IH | by apply read_only_ret].
Qed.

Lemma read_only_compare_loop n1 n2 p q : read_only (compare_loop n1 n2 p q) (λ _, True).
Proof.
  revert n2 p q. induction n1 as [|n1 IH]; intros [|n2] p q; simpl;
    try by apply read_only_ret.
  eapply read_only_bind; [apply read_only_load|]. intros x _.
  eapply read_only_bind; [apply read_only_load|]. intros y _.
  destruct (T_cmp x y); [apply IH | by apply read_only_ret ..].
Qed.

(** *** The member functions that only read *)

Lemma read_only_Capacity this : read_only (Capacity this) (λ _, True).
Proof.
  unfold Capacity. eapply read_only_bind; [apply read_only_get_obj|].
  intros a _. by apply read_only_ret.
Qed.

Lemma read_only_Count this : read_only (Count this) (λ _, True).
Proof.
  unfold Count. eapply read_only_bind; [apply read_only_get_obj|].
  intros a _. by apply read_only_ret.
Qed.

Lemma read_only_Data this : read_only (Data this) (λ _, True).
Proof.
  unfold Data. eapply read_only_bind; [apply read_only_get_obj|].
  intros a _. by apply read_only_ret.
Qed.

Lemma read_only_IsEmpty this : read_only (IsEmpty this) (λ _, True).
Proof.
  unfold IsEmpty. eapply read_only_bind; [apply read_only_get_obj|].
  intros a _. by apply read_only_ret.
Qed.

Lemma read_only_begin this : read_only (begin_ this) (λ _, True).
Proof.
  unfold begin_. eapply read_only_bind; [apply read_only_get_obj|].
  intros a _. by apply read_only_ret.
Qed.

Lemma read_only_end this : read_only (end_ this) (λ _, True).
Proof.
  unfold end_. eapply read_only_bind; [apply read_only_get_obj|].
  intros a _. by apply read_only_ret.
Qed.

Lemma read_only_checkRange this index (bAllowEnd : bool) :
  read_only (checkRange this index bAllowEnd) (λ _, True).
Proof.
  intros s. apply checkRange_post. destruct (objs s !! this) as [a|]; [|done].
  by destruct (decide _).
Qed.

Lemma read_only_operator_index this index :
  read_only (operator_index this index) (λ _, True).
Proof.
  unfold operator_index. eapply read_only_bind; [apply read_only_checkRange|].
  intros _ _. eapply read_only_bind; [apply read_only_get_obj|].
  intros a _. by apply read_only_ret.
Qed.

Lemma read_only_FindIf this pred :
  read_only (FindIf this pred) (λ r, 0 ≤ r ≤ SIZE_MAX).
Proof.
  unfold FindIf. eapply read_only_bind; [apply read_only_get_obj|]. intros a _.
  eapply read_only_bind; [apply read_only_find_if|]. intros it _.
  destruct (decide _).
  - destruct (ptr_diff it (mData a)); [|apply read_only_undefined].
    apply read_only_ret, to_size_t_range.
  - apply read_only_ret. unfold INDEX_NONE, SIZE_MAX. lia.
Qed.

Lemma read_only_Find this value :
  read_only (Find this value) (λ r, 0 ≤ r ≤ SIZE_MAX).
Proof. apply read_only_FindIf. Qed.

Lemma read_only_FindLastIf this pred : read_only (FindLastIf this pred) (λ _, True).
Proof.
  unfold FindLastIf. eapply read_only_bind; [apply read_only_get_obj|]. intros a _.
  apply read_only_FindLast_loop.
Qed.

Lemma read_only_FindLast this value : read_only (FindLast this value) (λ _, True).
Proof. apply read_only_FindLastIf. Qed.

Lemma read_only_Contains this value : read_only (Contains this value) (λ _, True).
Proof.
  unfold Contains. eapply read_only_bind; [apply read_only_Find|]. intros i _.
  by apply read_only_ret.
Qed.

Lemma read_only_ContainsIf this pred : read_only (ContainsIf this pred) (λ _, True).
Proof.
  unfold ContainsIf. eapply read_only_bind; [apply read_only_FindIf|]. intros i _.
  by apply read_only_ret.
Qed.

Lemma read_only_operator_eq this other : read_only (operator_eq this other) (λ _, True).
Proof.
  unfold operator_eq. eapply read_only_bind; [apply read_only_get_obj|]. intros a _.
  eapply read_only_bind; [apply read_only_get_obj|]. intros o _.
  destruct (decide _); [|by apply read_only_ret].
  unfold std_equal. eapply read_only_bind; [apply read_only_range_len|].
  intros n _. apply read_only_equal_loop.
Qed.

Lemma read_only_operator_spaceship this other :
  read_only (operator_spaceship this other) (λ _, True).
Proof.
  unfold operator_spaceship. eapply read_only_bind; [apply read_only_get_obj|]. intros a _.
  eapply read_only_bind; [apply read_only_get_obj|]. intros o _.
  unfold std_lexicographical_compare_three_way.
  eapply read_only_bind; [apply read_only_range_len|]. intros n1 _.
  eapply read_only_bind; [apply read_only_range_len|]. intros n2 _.
  apply read_only_compare_loop.
Qed.

(** *** The member functions that modify the array *)

Lemma heap_only_get_obj this : heap_only (get_obj this) (λ _, True).
Proof. intros s. apply post_get_obj. by destruct (objs s !! this). Qed.

Lemma Inv_insert (s : state T) h this a :
  rep_inv a → Inv s → Inv (mkState h (<[this := a]> (objs s))).
Proof. intros Ha HI. by apply map_Forall_insert_2. Qed.

Lemma Inv_delete (s : state T) h this :
  Inv s → Inv (mkState h (delete this (objs s))).
Proof. intros HI. by apply map_Forall_delete. Qed.

Lemma Inv_objs (s s' : state T) : objs s' = objs s → Inv s → Inv s'.
Proof. unfold Inv. by intros ->. Qed.

Lemma Inv_lookup (s : state T) this a : Inv s → objs s !! this = Some a → rep_inv a.
Proof. intros HI Ha. by apply (HI this a). Qed.

Lemma safe_EmplaceAt this index v : safe (EmplaceAt this index v).
Proof.
  intros s. eapply post_mono; [apply EmplaceAt_fields| | |done]; simpl.
  - intros r s' (_ & a & a' & Hu & _ & Hr) HI.
    eapply upd_Inv; [done| |done]. intros Ha. by eapply insert_rel_inv.
  - by intros e s' [-> _].
Qed.

Lemma safe_insertImpl this index p count : safe (insertImpl this index p count).
Proof.
  intros s. eapply post_mono; [apply insertImpl_fields| | |done]; simpl.
  - intros r s' (_ & a & a' & Hu & _ & Hr) HI.
    eapply upd_Inv; [done| |done]. intros Ha.
    destruct (decide (count = 0)); [by subst|by eapply insert_rel_inv].
  - by intros e s' [-> _].
Qed.

Lemma safe_Emplace this v : safe (Emplace this v).
Proof.
  unfold Emplace. eapply read_only_bind_safe; [apply read_only_get_obj|]. intros a _.
  apply safe_bind_quiet; [apply safe_EmplaceAt|]. intros index.
  eapply heap_only_quiet, heap_only_bind; [apply heap_only_get_obj|].
  intros a' _. by apply (heap_only_ret _ (λ _, True)).
Qed.

Lemma safe_Add this value : safe (Add this value).
Proof.
  unfold Add. apply safe_bind_quiet; [apply safe_Emplace|]. intros _. apply quiet_ret.
Qed.

Lemma safe_Insert this index value : safe (Insert this index value).
Proof. apply safe_EmplaceAt. Qed.

Lemma safe_Insert_ptr this index p count : safe (Insert_ptr this index p count).
Proof. apply safe_insertImpl. Qed.

Lemma safe_Insert_array this index source : safe (Insert_array this index source).
Proof.
  unfold Insert_array. eapply read_only_bind_safe; [apply read_only_get_obj|].
  intros src _. apply safe_insertImpl.
Qed.

Lemma quiet_Clear this : quiet (Clear this).
Proof.
  intros s. unfold Clear. apply post_bind, post_get_obj.
  destruct (objs s !! this) as [a|] eqn:Ha; [|done].
  apply post_bind. eapply post_heap_only; [apply heap_only_destroy_n|].
  intros _ s1 _ Ho1 Hd1. apply set_mCount_post. rewrite Ho1, Ha.
  intros HI. apply Inv_insert; [|done].
  destruct (Inv_lookup _ _ _ HI Ha) as (Hc & Hm & Hn). unfold rep_inv; simpl.
  split; [lia|done].
Qed.

Lemma safe_Insert_rvalue this index source : safe (Insert_rvalue this index source).
Proof.
  unfold Insert_rvalue. eapply read_only_bind_safe; [apply read_only_get_obj|].
  intros src _. apply safe_bind_quiet; [apply safe_insertImpl|]. intros result.
  apply quiet_bind; [apply quiet_Clear|]. intros _. apply quiet_ret.
Qed.

Lemma release_fresh (s : state T) x :
  mkState (delete (fresh (dom (heap s))) (<[fresh (dom (heap s)) := x]> (heap s))) (objs s) = s.
Proof.
  destruct s as [h o]; simpl. f_equal.
  rewrite delete_insert_eq. apply delete_id, not_elem_of_dom, is_fresh.
Qed.

Lemma safe_with_ilist {A} ilist (k : ptr → ptr → M A) :
  (∀ first last, safe (k first last)) → safe (with_ilist ilist k).
Proof.
  intros Hk s. unfold post, with_ilist.
  specialize (Hk (Ptr (fresh (dom (heap s))) 0)
                 (Ptr (fresh (dom (heap s))) (Z.of_nat (length ilist)))
                 (mkState (<[fresh (dom (heap s)) := Live <$> ilist]> (heap s)) (objs s))).
  unfold post in Hk. destruct (k _ _ _) as [r s'|e s'|]; [done| |done].
  subst s'. simpl. apply release_fresh.
Qed.

Lemma safe_Insert_ilist this index ilist : safe (Insert_ilist this index ilist).
Proof. apply safe_with_ilist. intros first _. apply safe_insertImpl. Qed.

Lemma safe_Append_array this source : safe (Append_array this source).
Proof.
  unfold Append_array. eapply read_only_bind_safe; [apply read_only_get_obj|].
  intros a _. apply safe_bind_quiet; [apply safe_Insert_array|]. intros _. apply quiet_ret.
Qed.

Lemma safe_Append_rvalue this source : safe (Append_rvalue this source).
Proof.
  unfold Append_rvalue. eapply read_only_bind_safe; [apply read_only_get_obj|].
  intros a _. apply safe_bind_quiet; [apply safe_Insert_rvalue|]. intros _. apply quiet_ret.
Qed.

Lemma safe_Append_ilist this ilist : safe (Append_ilist this ilist).
Proof.
  unfold Append_ilist. eapply read_only_bind_safe; [apply read_only_get_obj|].
  intros a _. apply safe_bind_quiet; [apply safe_Insert_ilist|]. intros _. apply quiet_ret.
Qed.

Lemma safe_Append_ptr this p count : safe (Append_ptr this p count).
Proof.
  unfold Append_ptr. eapply read_only_bind_safe; [apply read_only_get_obj|].
  intros a _. apply safe_bind_quiet; [apply safe_Insert_ptr|]. intros _. apply quiet_ret.
Qed.

Lemma RemoveAt_fields this index s :
  post (RemoveAt this index) s
       (λ _ s', ∃ a, upd s s' this a (mkArray (mData a) (to_size_t (mCount a - 1)) (mCapacity a)) ∧
                     index < to_size_t (mCount a + 0))
       (λ e s', s' = s ∧ e = out_of_range ∧
                ∃ a, objs s !! this = Some a ∧ index >= to_size_t (mCount a + 0)) True.
Proof.
  unfold RemoveAt. apply post_bind, checkRange_post.
  destruct (objs s !! this) as [a|] eqn:Ha; [|done].
  destruct (decide _) as [Hge|Hlt]; [by eauto|].
  apply post_bind, post_get_obj. rewrite Ha.
  apply post_bind. eapply post_heap_only; [apply heap_only_destroy_at|].
  intros _ s1 _ Ho1 Hd1.
  apply post_bind. eapply (post_heap_only _ (λ _, True)).
  { apply heap_only_if; [apply heap_only_move|by apply heap_only_ret]. }
  intros _ s2 _ Ho2 Hd2.
  apply set_mCount_post. rewrite Ho2, Ho1, Ha.
  exists a. split; [|lia]. split; [done|]. split; [done|]. simpl.
  intros b Hb _. by rewrite Hd2, Hd1.
Qed.

Lemma safe_RemoveAt this index : 0 ≤ index → safe (RemoveAt this index).
Proof.
  intros Hi s. eapply post_mono; [apply RemoveAt_fields| | |done]; simpl.
  - intros _ s' (a & Hu & Hlt) HI. eapply upd_Inv; [done| |done].
    intros (Hc & Hm & Hn). rewrite to_size_t_id in Hlt by lia.
    unfold rep_inv; simpl. rewrite to_size_t_id by lia. split; [lia|done].
  - by intros e s' [-> _].
Qed.

Lemma safe_Remove this value : safe (Remove this value).
Proof.
  unfold Remove. eapply read_only_bind_safe; [apply read_only_Find|].
  intros index Hi. simpl in Hi. destruct (decide _); [|apply quiet_safe, quiet_ret].
  apply safe_bind_quiet; [apply safe_RemoveAt; lia|]. intros _. apply quiet_ret.
Qed.

Lemma quiet_RemoveAll this pred : quiet (RemoveAll this pred).
Proof.
  intros s. unfold RemoveAll. apply post_bind, post_get_obj.
  destruct (objs s !! this) as [a|] eqn:Ha; [|done].
  apply post_bind. eapply post_heap_only; [apply heap_only_remove_if|].
  intros newEnd s1 (k & n & Hn & Hk & ->) Ho1 Hd1.
  destruct (decide _) as [Heq|Hne].
  { apply post_ret. by apply Inv_objs. }
  destruct (mData a) as [|b o] eqn:Hdata; [done|]. simpl in Hn, Hne |- *.
  rewrite decide_True in Hn by done. rewrite decide_True by done.
  injection Hn as Hn.
  apply post_bind. eapply post_heap_only; [apply heap_only_destroy|].
  intros _ s2 _ Ho2 Hd2.
  apply post_bind, set_mCount_post. rewrite Ho2, Ho1, Ha.
  apply post_ret. intros HI. apply Inv_insert; [|done].
  destruct (Inv_lookup _ _ _ HI Ha) as (Hc & Hm & Hnull). unfold rep_inv; simpl.
  rewrite Hdata in *.
  replace (o + mCount a - (o + Z.of_nat k)) with (mCount a - Z.of_nat k) by lia.
  rewrite (to_size_t_id (mCount a - Z.of_nat k)) by lia.
  rewrite to_size_t_id by lia. split; [lia|done].
Qed.

Lemma safe_Reserve this newCapacity :
  0 ≤ newCapacity ≤ SIZE_MAX → safe (Reserve this newCapacity).
Proof.
  intros Hn s. unfold Reserve. apply post_bind, post_get_obj.
  destruct (objs s !! this) as [a|] eqn:Ha; [|done].
  destruct (decide _); [|by apply post_ret].
  eapply post_mono; [apply reallocate_fields| | |done]; simpl.
  - intros _ s' (a0 & a' & Hu & Hr) HI. eapply upd_Inv; [done| |done].
    intros Hr0. by eapply realloc_rel_inv.
  - by intros e s' [-> _].
Qed.

Lemma safe_Shrink this : safe (Shrink this).
Proof.
  intros s. unfold Shrink. apply post_bind, post_get_obj.
  destruct (objs s !! this) as [a|] eqn:Ha; [|done].
  destruct (decide _); [|by apply post_ret].
  eapply post_mono; [apply reallocate_fields| | |done]; simpl.
  - intros _ s' (a0 & a' & Hu & Hr) HI.
    assert (a0 = a) as -> by (apply upd_source in Hu; congruence).
    eapply upd_Inv; [done| |done].
    intros Hr0. eapply realloc_rel_inv; [done| |done].
    destruct Hr0 as (? & ? & _). lia.
  - by intros e s' [-> _].
Qed.

Lemma safe_Resize_fill this newCount value :
  0 ≤ newCount ≤ SIZE_MAX → safe (Resize_fill this newCount value).
Proof.
  intros Hn s. unfold Resize_fill. apply post_bind, post_get_obj.
  destruct (objs s !! this) as [a|] eqn:Ha; [|done].
  apply post_bind.
  destruct (decide (newCount > mCount a)) as [Hgt|Hle].
  - apply post_bind.
    eapply post_mono; [apply ensureCapacity_fields| | |done]; simpl.
    2:{ by intros e s' [-> _]. }
    intros _ s1 (a0 & a1 & Hu & Hr).
    assert (a0 = a) as -> by (apply upd_source in Hu; congruence).
    apply post_bind, post_get_obj. rewrite (upd_lookup _ _ _ _ _ Hu).
    eapply post_heap_only; [apply heap_only_uninitialized_fill_n|].
    intros _ s2 _ Ho2 Hd2.
    apply set_mCount_post. rewrite Ho2, (upd_lookup _ _ _ _ _ Hu).
    intros HI. destruct Hu as (_ & -> & _). rewrite insert_insert_eq.
    apply Inv_insert; [|done].
    apply ensure_rel_inv in Hr as (Hr1 & Hc1 & Hm1); [|by eapply Inv_lookup|done].
    destruct Hr1 as (? & ? & ?). unfold rep_inv; simpl. split; [lia|done].
  - destruct (decide (newCount < mCount a)) as [Hlt|Hge].
    + eapply post_heap_only; [apply heap_only_destroy_n|].
      intros _ s1 _ Ho1 Hd1.
      apply set_mCount_post. rewrite Ho1, Ha.
      intros HI. apply Inv_insert; [|done].
      destruct (Inv_lookup _ _ _ HI Ha) as (? & ? & ?). unfold rep_inv; simpl.
      split; [lia|done].
    + apply post_ret, set_mCount_post. rewrite Ha.
      intros HI. apply Inv_insert; [|done].
      destruct (Inv_lookup _ _ _ HI Ha) as (? & ? & ?). unfold rep_inv; simpl.
      split; [lia|done].
Qed.

Lemma safe_Resize this newCount : 0 ≤ newCount ≤ SIZE_MAX → safe (Resize this newCount).
Proof. apply safe_Resize_fill. Qed.

Lemma quiet_Sort this comp : quiet (Sort this comp).
Proof.
  eapply heap_only_quiet. unfold Sort.
  eapply heap_only_bind; [apply heap_only_get_obj|]. intros a _. apply heap_only_sort.
Qed.

Lemma quiet_Swap this other : quiet (Swap this other).
Proof.
  intros s. unfold Swap. apply post_bind, post_get_obj.
  destruct (objs s !! this) as [a|] eqn:Ha; [|done].
  apply post_bind, post_get_obj.
  destruct (objs s !! other) as [o|] eqn:Hother; [|done].
  apply post_bind, post_set_obj, post_set_obj. intros HI. unfold Inv; simpl.
  apply map_Forall_insert_2.
  { pose proof (Inv_lookup _ _ _ HI Ha). by destruct a. }
  apply map_Forall_insert_2; [|done].
  pose proof (Inv_lookup _ _ _ HI Hother). by destruct o.
Qed.

Lemma rep_inv_null : rep_inv (mkArray Null 0 0).
Proof. unfold rep_inv, SIZE_MAX; simpl. split; [lia|]. split; [lia|done]. Qed.

Lemma rep_inv_eta a : rep_inv a → rep_inv (mkArray (mData a) (mCount a) (mCapacity a)).
Proof. by destruct a. Qed.

Lemma Array_sized_fields this capacity s :
  post (Array_sized this capacity) s
       (λ _ s', ∃ d, objs s' = <[this := mkArray d 0 capacity]> (objs s) ∧
                     (d = Null ↔ ¬ capacity > 0) ∧
                     dom (heap s) ⊆ dom (heap s'))
       (λ e s', s' = s ∧ e = bad_alloc) True.
Proof.
  unfold Array_sized. apply post_bind.
  destruct (decide (capacity > 0)) as [Hpos|Hneg].
  - apply post_operator_new; [|done]. intros _. apply post_set_obj.
    eexists. split; [done|]. simpl. split; [done|]. apply dom_insert_subseteq.
  - apply post_ret, post_set_obj. by exists Null.
Qed.

Lemma safe_Array_sized this capacity :
  0 ≤ capacity ≤ SIZE_MAX → safe (Array_sized this capacity).
Proof.
  intros Hc s. eapply post_mono; [apply Array_sized_fields| | |done]; simpl.
  - intros _ s' (d & Ho & Hd & _) HI. unfold Inv. rewrite Ho.
    apply map_Forall_insert_2; [|done]. unfold rep_inv; simpl.
    split; [lia|]. split; [lia|]. rewrite Hd. lia.
  - by intros e s' [-> _].
Qed.

Lemma safe_Array_default this : safe (Array_default this).
Proof. apply safe_Array_sized. unfold SIZE_MAX. lia. Qed.

Lemma safe_Array_ilist this ilist :
  Z.of_nat (length ilist) ≤ SIZE_MAX → safe (Array_ilist this ilist).
Proof.
  intros Hlen. apply safe_with_ilist. intros first last s.
  apply post_bind.
  eapply post_mono; [apply Array_sized_fields| | |done]; simpl.
  2:{ by intros e s' [-> _]. }
  intros _ s1 (d & Ho1 & Hd & _).
  apply post_bind, post_get_obj. rewrite Ho1, lookup_insert_eq.
  apply post_bind. eapply post_heap_only; [apply heap_only_uninitialized_copy|].
  intros _ s2 _ Ho2 _.
  apply set_mCount_post. rewrite Ho2, Ho1, lookup_insert_eq. simpl.
  intros HI. rewrite insert_insert_eq. apply Inv_insert; [|done].
  unfold rep_inv; simpl. split; [lia|]. split; [lia|]. rewrite Hd. lia.
Qed.

Lemma safe_Array_copy this other : safe (Array_copy this other).
Proof.
  intros s. unfold Array_copy. apply post_bind, post_get_obj.
  destruct (objs s !! other) as [o|] eqn:Hother; [|done].
  apply post_bind.
  eapply post_mono; [apply Array_sized_fields| | |done]; simpl.
  2:{ by intros e s' [-> _]. }
  intros _ s1 (d & Ho1 & Hd & _).
  apply post_bind, post_get_obj.
  destruct (objs s1 !! other) as [o1|] eqn:Hother1; [|done].
  apply post_bind, post_get_obj. rewrite Ho1, lookup_insert_eq.
  apply post_bind. eapply post_heap_only; [apply heap_only_uninitialized_copy|].
  intros _ s2 _ Ho2 _.
  apply post_bind, post_get_obj. rewrite Ho2, Hother1.
  apply set_mCount_post. rewrite Ho2, Ho1, lookup_insert_eq. simpl.
  intros HI. rewrite insert_insert_eq. apply Inv_insert; [|done].
  destruct (Inv_lookup _ _ _ HI Hother) as (Hc & Hm & _).
  assert (mCount o1 = mCount o ∨ mCount o1 = 0) as Hcnt.
  { rewrite Ho1 in Hother1. destruct (decide (this = other)) as [->|Hne].
    - rewrite lookup_insert_eq in Hother1. injection Hother1 as <-. by right.
    - rewrite lookup_insert_ne in Hother1 by done. left. congruence. }
  unfold rep_inv; simpl. split; [lia|]. split; [lia|]. rewrite Hd. lia.
Qed.

Lemma quiet_Array_move this other : quiet (Array_move this other).
Proof.
  intros s. unfold Array_move, exchange_mData, exchange_mCount, exchange_mCapacity.
  apply post_bind, post_bind, post_get_obj.
  destruct (objs s !! other) as [o|] eqn:Hother; [|done].
  apply post_bind, set_mData_post. rewrite Hother.
  apply post_ret, post_bind, post_bind, post_get_obj. simpl. rewrite lookup_insert_eq.
  apply post_bind, set_mCount_post. simpl. rewrite lookup_insert_eq.
  apply post_ret, post_bind, post_bind, post_get_obj. simpl. rewrite lookup_insert_eq.
  apply post_bind, set_mCapacity_post. simpl. rewrite lookup_insert_eq.
  apply post_ret, post_set_obj. simpl. rewrite !insert_insert_eq.
  intros HI. unfold Inv; simpl.
  apply map_Forall_insert_2.
  { pose proof (Inv_lookup _ _ _ HI Hother). by destruct o. }
  apply map_Forall_insert_2; [apply rep_inv_null|done].
Qed.

Lemma quiet_cleanup this : quiet (cleanup this).
Proof.
  intros s. eapply post_mono; [apply (cleanup_fields _ _ (λ _ _, False))|simpl|done..].
  intros _ s' (a & Hu) HI. eapply upd_Inv; [done| |done].
  intros Hr. destruct (is_null (mData a)); [done|apply rep_inv_null].
Qed.

Lemma quiet_Array_dtor this : quiet (Array_dtor this).
Proof.
  unfold Array_dtor. apply quiet_bind; [apply quiet_cleanup|]. intros _ s.
  apply post_del_obj. apply Inv_delete.
Qed.

Lemma safe_fresh_obj {B} (k : positive → M B) :
  (∀ temp, safe (k temp)) → safe (fresh_obj ≫= k).
Proof. intros Hk s. apply post_bind, post_fresh_obj, Hk. Qed.

Lemma safe_assign_copy this other : safe (assign_copy this other).
Proof.
  unfold assign_copy. destruct (decide _); [|apply quiet_safe, quiet_ret].
  apply safe_fresh_obj. intros temp.
  apply safe_bind_quiet; [apply safe_Array_copy|]. intros _.
  apply quiet_bind; [apply quiet_Swap|]. intros _. apply quiet_Array_dtor.
Qed.

Lemma safe_assign_ilist this ilist :
  Z.of_nat (length ilist) ≤ SIZE_MAX → safe (assign_ilist this ilist).
Proof.
  intros Hlen. unfold assign_ilist. apply safe_fresh_obj. intros temp.
  apply safe_bind_quiet; [by apply safe_Array_ilist|]. intros _.
  apply quiet_bind; [apply quiet_Swap|]. intros _. apply quiet_Array_dtor.
Qed.

Lemma insert_shadow {V} (m : gmap positive V) i j x x' y :
  <[i := x]> (<[j := y]> (<[i := x']> m)) = <[i := x]> (<[j := y]> m).
Proof.
  destruct (decide (i = j)) as [->|Hne]; [by rewrite !insert_insert_eq|].
  by rewrite (insert_insert_ne _ j i), insert_insert_eq by done.
Qed.

Lemma quiet_assign_move this other : quiet (assign_move this other).
Proof.
  unfold assign_move. destruct (decide (this ≠ other)) as [Hne|]; [|apply quiet_ret].
  intros s. apply post_bind.
  eapply post_mono; [apply (cleanup_fields _ _ (λ _ _, False))|simpl|done..].
  intros _ s1 (a & Hu).
  set (a1 := if is_null (mData a) then a else mkArray Null 0 0) in *.
  pose proof (upd_lookup _ _ _ _ _ Hu) as Hthis1.
  pose proof (upd_lookup_ne _ _ _ _ _ other Hu (not_eq_sym Hne)) as Hother1.
  unfold exchange_mData, exchange_mCount, exchange_mCapacity.
  apply post_bind, post_bind, post_get_obj.
  destruct (objs s1 !! other) as [o|] eqn:Hother; [|done].
  apply post_bind, set_mData_post. rewrite Hother.
  apply post_ret, post_bind, set_mData_post. simpl. lookup_insert. rewrite Hthis1.
  apply post_bind, post_bind, post_get_obj. simpl. lookup_insert.
  apply post_bind, set_mCount_post. simpl. lookup_insert.
  apply post_ret, post_bind, set_mCount_post. simpl. lookup_insert.
  apply post_bind, post_bind, post_get_obj. simpl. lookup_insert.
  apply post_bind, set_mCapacity_post. simpl. lookup_insert.
  apply post_ret, set_mCapacity_post. simpl. lookup_insert. simpl.
  intros HI.
  assert (rep_inv o) as Hro.
  { apply (Inv_lookup s other); [done|]. by rewrite <- Hother1. }
  unfold Inv; simpl. repeat first [rewrite insert_shadow | rewrite insert_insert_eq].
  repeat (apply map_Forall_insert_2; [try apply rep_inv_null; try by destruct o|]).
  pose proof (Inv_lookup _ _ _ HI (upd_source _ _ _ _ _ Hu)) as Hra.
  destruct Hu as (_ & -> & _). apply map_Forall_insert_2; [|done].
  subst a1. destruct (is_null _); [done|apply rep_inv_null].
Qed.

Lemma safe_returning {A} (f : A → value) (m : M A) : safe m → safe (returning f m).
Proof. intros Hm. apply safe_bind_quiet; [done|]. intros r. apply quiet_ret. Qed.

Lemma safe_run_op o : valid_op o → safe (run_op o).
Proof.
  destruct o; simpl; unfold is_size_t; intros Hv; apply safe_returning.
  - apply safe_Array_default.
  - by apply safe_Array_sized.
  - apply safe_Array_ilist. lia.
  - apply safe_Array_copy.
  - apply quiet_safe, quiet_Array_move.
  - apply quiet_safe, quiet_Array_dtor.
  - apply safe_assign_copy.
  - apply quiet_safe, quiet_assign_move.
  - apply safe_assign_ilist. lia.
  - eapply read_only_safe, read_only_operator_index.
  - eapply read_only_safe, read_only_operator_spaceship.
  - eapply read_only_safe, read_only_operator_eq.
  - apply safe_Add.
  - apply safe_Append_array.
  - apply safe_Append_rvalue.
  - apply safe_Append_ilist.
  - apply safe_Append_ptr.
  - eapply read_only_safe, read_only_Capacity.
  - apply quiet_safe, quiet_Clear.
  - eapply read_only_safe, read_only_Contains.
  - eapply read_only_safe, read_only_ContainsIf.
  - eapply read_only_safe, read_only_Count.
  - eapply read_only_safe, read_only_Data.
  - apply safe_Emplace.
  - apply safe_EmplaceAt.
  - eapply read_only_safe, read_only_Find.
  - eapply read_only_safe, read_only_FindIf.
  - eapply read_only_safe, read_only_FindLast.
  - eapply read_only_safe, read_only_FindLastIf.
  - apply safe_Insert.
  - apply safe_Insert_array.
  - apply safe_Insert_rvalue.
  - apply safe_Insert_ilist.
  - apply safe_Insert_ptr.
  - eapply read_only_safe, read_only_IsEmpty.
  - apply safe_Remove.
  - apply quiet_safe, quiet_RemoveAll.
  - apply safe_RemoveAt. lia.
  - by apply safe_Reserve.
  - by apply safe_Resize.
  - by apply safe_Resize_fill.
  - apply safe_Shrink.
  - apply quiet_safe, quiet_Sort.
  - apply quiet_safe, quiet_Swap.
  - eapply read_only_safe, read_only_begin.
  - eapply read_only_safe, read_only_end.
Qed.

Lemma trace_Inv l s : Forall valid_op l → Inv s → Forall Inv (trace l s).
Proof.
  revert s. induction l as [|o l IH]; intros s Hv HI; simpl; [done|].
  apply Forall_cons in Hv as [Ho Hl].
  pose proof (safe_run_op o Ho s) as Hs. unfold post in Hs.
  destruct (run_op o s) as [r s'|e s'|]; [| |done].
  - apply Forall_cons. split; [auto|]. apply IH; auto.
  - subst s'. apply Forall_cons. split; [done|]. by apply IH.
Qed.

(** ** What the loops do to a buffer

    Offsets are natural numbers here; [Ptr b (Z.of_nat i)] is the
    address of slot [i] of buffer [b]. *)

Lemma ptr_nat_S b (i : nat) : Ptr b (Z.of_nat i) +ₚ 1 = Ptr b (Z.of_nat (S i)).
Proof. simpl. f_equal. lia. Qed.

Lemma ptr_nat_pred b (i : nat) : Ptr b (Z.of_nat (S i)) -ₚ 1 = Ptr b (Z.of_nat i).
Proof. simpl. f_equal. lia. Qed.

Lemma ptr_nat_add b (i j : nat) : Ptr b (Z.of_nat i) +ₚ Z.of_nat j = Ptr b (Z.of_nat (i + j)).
Proof. simpl. f_equal. lia. Qed.

Lemma slot_at_nat (h : gmap positive (list (slot T))) b blk (i : nat) :
  h !! b = Some blk → slot_at h (Ptr b (Z.of_nat i)) = blk !! i.
Proof.
  intros Hb. simpl. rewrite decide_True by lia. rewrite Hb. simpl. by rewrite Nat2Z.id.
Qed.

Lemma load_nat s b blk (i : nat) v :
  heap s !! b = Some blk → blk !! i = Some (Live v) →
  load (Ptr b (Z.of_nat i)) s = Ok v s.
Proof.
  intros Hb Hi. unfold load. rewrite (slot_at_nat _ _ _ _ Hb). by rewrite Hi.
Qed.

Lemma write_nat s b blk (i : nat) x :
  heap s !! b = Some blk → (i < length blk)%nat →
  write (Ptr b (Z.of_nat i)) x s
  = Ok tt (mkState (<[b := <[i := x]> blk]> (heap s)) (objs s)).
Proof.
  intros Hb Hi. unfold write, heap_write. rewrite decide_True by lia.
  rewrite Hb. simpl. rewrite Nat2Z.id. by rewrite decide_True.
Qed.

Lemma bind_ok {A B} (m : M A) (k : A → M B) s a s' :
  m s = Ok a s' → (m ≫= k) s = k a s'.
Proof. unfold mbind, M_bind, bind. by intros ->. Qed.

Lemma bind_ub {A B} (m : M A) (k : A → M B) s :
  m s = UB → (m ≫= k) s = UB.
Proof. unfold mbind, M_bind, bind. by intros ->. Qed.

Lemma load_before_buffer s b o : o < 0 → load (Ptr b o) s = UB.
Proof. intros Ho. unfold load, slot_at. by rewrite decide_False by lia. Qed.

Lemma move_to_same s b blk (i j : nat) v :
  heap s !! b = Some blk → blk !! i = Some (Live v) → (j < length blk)%nat →
  move_to (Ptr b (Z.of_nat i)) (Ptr b (Z.of_nat j)) s
  = Ok tt (mkState (<[b := <[i := Live (moved v)]> (<[j := Live v]> blk)]> (heap s)) (objs s)).
Proof.
  intros Hb Hi Hj. unfold move_to.
  rewrite (bind_ok _ _ _ _ _ (load_nat _ _ _ _ _ Hb Hi)).
  rewrite (bind_ok _ _ _ _ _ (write_nat _ _ _ _ _ Hb Hj)).
  erewrite write_nat; simpl.
  - by rewrite insert_insert_eq.
  - by rewrite lookup_insert_eq.
  - rewrite length_insert. by eapply lookup_lt_Some.
Qed.

Lemma move_to_across s bs bd blks blkd (i j : nat) v :
  bs ≠ bd →
  heap s !! bs = Some blks → heap s !! bd = Some blkd →
  blks !! i = Some (Live v) → (j < length blkd)%nat →
  move_to (Ptr bs (Z.of_nat i)) (Ptr bd (Z.of_nat j)) s
  = Ok tt (mkState (<[bs := <[i := Live (moved v)]> blks]>
                      (<[bd := <[j := Live v]> blkd]> (heap s))) (objs s)).
Proof.
  intros Hne Hs Hd Hi Hj. unfold move_to.
  rewrite (bind_ok _ _ _ _ _ (load_nat _ _ _ _ _ Hs Hi)).
  rewrite (bind_ok _ _ _ _ _ (write_nat _ _ _ _ _ Hd Hj)).
  erewrite write_nat; simpl; [done| |by eapply lookup_lt_Some].
  by rewrite lookup_insert_ne.
Qed.

Lemma copy_to_across s bs bd blks blkd (i j : nat) v :
  heap s !! bs = Some blks → heap s !! bd = Some blkd →
  blks !! i = Some (Live v) → (j < length blkd)%nat →
  copy_to (Ptr bs (Z.of_nat i)) (Ptr bd (Z.of_nat j)) s
  = Ok tt (mkState (<[bd := <[j := Live v]> blkd]> (heap s)) (objs s)).
Proof.
  intros Hs Hd Hi Hj. unfold copy_to.
  rewrite (bind_ok _ _ _ _ _ (load_nat _ _ _ _ _ Hs Hi)).
  by apply write_nat.
Qed.

Lemma destroy_at_nat s b blk (i : nat) v :
  heap s !! b = Some blk → blk !! i = Some (Live v) →
  std_destroy_at (Ptr b (Z.of_nat i)) s
  = Ok tt (mkState (<[b := <[i := Raw]> blk]> (heap s)) (objs s)).
Proof.
  intros Hb Hi. unfold std_destroy_at.
  rewrite (bind_ok _ _ _ _ _ (load_nat _ _ _ _ _ Hb Hi)).
  apply write_nat; [done|]. by eapply lookup_lt_Some.
Qed.

(** Destroying the slots [i, i+n). *)
Lemma destroy_loop_spec n : ∀ s b blk (i : nat),
  heap s !! b = Some blk → live_range blk i n →
  ∃ blk', destroy_loop n (Ptr b (Z.of_nat i)) s
          = Ok tt (mkState (<[b := blk']> (heap s)) (objs s)) ∧
          length blk' = length blk ∧
          (∀ k, (k < i ∨ i + n ≤ k)%nat → blk' !! k = blk !! k).
Proof.
  induction n as [|n IH]; intros s b blk i Hb Hlive; cbn [destroy_loop].
  { exists blk. split; [|done]. unfold mret, M_ret, ret. f_equal.
    destruct s; simpl in *. f_equal. by rewrite insert_id. }
  destruct (Hlive i) as [v Hv]; [lia|].
  rewrite (bind_ok _ _ _ _ _ (destroy_at_nat _ _ _ _ _ Hb Hv)).
  rewrite ptr_nat_S.
  edestruct (IH (mkState (<[b := <[i := Raw]> blk]> (heap s)) (objs s)) b
                (<[i := Raw]> blk) (S i)) as (blk' & Heq & Hlen & Hout).
  { simpl. by rewrite lookup_insert_eq. }
  { intros k Hk. destruct (Hlive k) as [w Hw]; [lia|]. exists w.
    rewrite list_lookup_insert_ne by lia. done. }
  exists blk'. split; [|split].
  - rewrite Heq. simpl. by rewrite insert_insert_eq.
  - by rewrite Hlen, length_insert.
  - intros k Hk. rewrite Hout by lia. apply list_lookup_insert_ne. lia.
Qed.

(** Moving [n] elements forward within one buffer, from [i] to [j],
    where the destination starts before the source or after its end. *)
Lemma move_loop_same n : ∀ s b blk (i j : nat),
  heap s !! b = Some blk → live_range blk i n →
  (j + n ≤ length blk)%nat → (j < i ∨ i + n ≤ j)%nat →
  ∃ blk', move_loop n (Ptr b (Z.of_nat i)) (Ptr b (Z.of_nat j)) s
          = Ok tt (mkState (<[b := blk']> (heap s)) (objs s)) ∧
          length blk' = length blk ∧
          (∀ k, (k < n)%nat → blk' !! (j + k)%nat = blk !! (i + k)%nat) ∧
          (∀ k, ¬ (i ≤ k < i + n)%nat → ¬ (j ≤ k < j + n)%nat → blk' !! k = blk !! k).
Proof.
  induction n as [|n IH]; intros s b blk i j Hb Hlive Hlen Hpos; cbn [move_loop].
  { exists blk. split; [|split; [done|split; [lia|done]]].
    unfold mret, M_ret, ret. f_equal. destruct s; simpl in *. f_equal. by rewrite insert_id. }
  destruct (Hlive i) as [v Hv]; [lia|].
  rewrite (bind_ok _ _ _ _ _ (move_to_same _ _ _ _ j _ Hb Hv ltac:(lia))).
  rewrite !ptr_nat_S.
  set (blk1 := <[i := Live (moved v)]> (<[j := Live v]> blk)).
  edestruct (IH (mkState (<[b := blk1]> (heap s)) (objs s)) b blk1 (S i) (S j))
    as (blk' & Heq & Hlen' & Hval & Hout).
  { simpl. by rewrite lookup_insert_eq. }
  { intros k Hk. destruct (Hlive k) as [w Hw]; [lia|]. exists w.
    subst blk1. rewrite !list_lookup_insert_ne by lia. done. }
  { subst blk1. rewrite !length_insert. lia. }
  { lia. }
  assert (length blk1 = length blk) as Hlen1 by (subst blk1; by rewrite !length_insert).
  exists blk'. split; [|split; [|split]].
  - rewrite Heq. simpl. by rewrite insert_insert_eq.
  - congruence.
  - intros [|k] Hk.
    + rewrite !Nat.add_0_r. rewrite Hout by lia. subst blk1.
      rewrite list_lookup_insert_ne by lia.
      rewrite list_lookup_insert_eq by lia. done.
    + replace (j + S k)%nat with (S j + k)%nat by lia.
      rewrite Hval by lia. subst blk1.
      rewrite !list_lookup_insert_ne by lia. f_equal. lia.
  - intros k Hk1 Hk2. rewrite Hout by lia. subst blk1.
    rewrite !list_lookup_insert_ne by lia. done.
Qed.

(** Moving [n] elements backward within one buffer, to the right. *)
Lemma move_backward_loop_same n : ∀ s b blk (i d : nat),
  heap s !! b = Some blk → live_range blk i n →
  (i + n + d ≤ length blk)%nat → (0 < d)%nat →
  ∃ blk', move_backward_loop n (Ptr b (Z.of_nat (i + n))) (Ptr b (Z.of_nat (i + n + d))) s
          = Ok tt (mkState (<[b := blk']> (heap s)) (objs s)) ∧
          length blk' = length blk ∧
          (∀ k, (k < n)%nat → blk' !! (i + d + k)%nat = blk !! (i + k)%nat) ∧
          (∀ k, (k < i ∨ i + n + d ≤ k)%nat → blk' !! k = blk !! k).
Proof.
  induction n as [|n IH]; intros s b blk i d Hb Hlive Hlen Hd; cbn [move_backward_loop].
  { exists blk. split; [|split; [done|split; [lia|done]]].
    unfold mret, M_ret, ret. f_equal. destruct s; simpl in *. f_equal. by rewrite insert_id. }
  destruct (Hlive (i + n)%nat) as [v Hv]; [lia|].
  replace (i + S n)%nat with (S (i + n)) by lia.
  replace (S (i + n) + d)%nat with (S (i + n + d)) by lia.
  rewrite !ptr_nat_pred.
  rewrite (bind_ok _ _ _ _ _ (move_to_same _ _ _ _ (i + n + d) _ Hb Hv ltac:(lia))).
  set (blk1 := <[(i + n)%nat := Live (moved v)]> (<[(i + n + d)%nat := Live v]> blk)).
  edestruct (IH (mkState (<[b := blk1]> (heap s)) (objs s)) b blk1 i d)
    as (blk' & Heq & Hlen' & Hval & Hout).
  { simpl. by rewrite lookup_insert_eq. }
  { intros k Hk. destruct (Hlive k) as [w Hw]; [lia|]. exists w.
    subst blk1. rewrite !list_lookup_insert_ne by lia. done. }
  { subst blk1. rewrite !length_insert. lia. }
  { lia. }
  assert (length blk1 = length blk) as Hlen1 by (subst blk1; by rewrite !length_insert).
  exists blk'. split; [|split; [|split]].
  - rewrite Heq. simpl. by rewrite insert_insert_eq.
  - congruence.
  - intros k Hk. destruct (decide (k = n)) as [->|Hne].
    + rewrite Hout by lia. subst blk1.
      rewrite list_lookup_insert_ne by lia.
      replace (i + d + n)%nat with (i + n + d)%nat by lia.
      rewrite list_lookup_insert_eq by lia. done.
    + rewrite Hval by lia. subst blk1.
      rewrite !list_lookup_insert_ne by lia. done.
  - intros k Hk. rewrite Hout by lia. subst blk1.
    rewrite !list_lookup_insert_ne by lia. done.
Qed.

(** Moving [n] elements from one buffer to another. *)
Lemma move_loop_across n : ∀ s bs bd blks blkd (i j : nat),
  bs ≠ bd → heap s !! bs = Some blks → heap s !! bd = Some blkd →
  live_range blks i n → (j + n ≤ length blkd)%nat →
  ∃ blks' blkd',
    move_loop n (Ptr bs (Z.of_nat i)) (Ptr bd (Z.of_nat j)) s
    = Ok tt (mkState (<[bs := blks']> (<[bd := blkd']> (heap s))) (objs s)) ∧
    length blks' = length blks ∧ length blkd' = length blkd ∧
    (∀ k, (k < n)%nat → blkd' !! (j + k)%nat = blks !! (i + k)%nat) ∧
    (∀ k, ¬ (j ≤ k < j + n)%nat → blkd' !! k = blkd !! k) ∧
    (∀ k v, blks !! k = Some (Live v) → ∃ v', blks' !! k = Some (Live v')).
Proof.
  induction n as [|n IH]; intros s bs bd blks blkd i j Hne Hs Hd Hlive Hlen;
    cbn [move_loop].
  { exists blks, blkd. split; [|split; [done|split; [done|split; [lia|split; [done|eauto]]]]].
    unfold mret, M_ret, ret. f_equal. destruct s; simpl in *. f_equal.
    by rewrite (insert_id _ bd), insert_id. }
  destruct (Hlive i) as [v Hv]; [lia|].
  rewrite (bind_ok _ _ _ _ _ (move_to_across _ _ _ _ _ _ j _ Hne Hs Hd Hv ltac:(lia))).
  rewrite !ptr_nat_S.
  set (blks1 := <[i := Live (moved v)]> blks).
  set (blkd1 := <[j := Live v]> blkd).
  edestruct (IH (mkState (<[bs := blks1]> (<[bd := blkd1]> (heap s))) (objs s))
                bs bd blks1 blkd1 (S i) (S j))
    as (blks' & blkd' & Heq & Hlens & Hlend & Hval & Hout & Hkeep); [done| | | | |].
  { simpl. by rewrite lookup_insert_eq. }
  { simpl. rewrite lookup_insert_ne by done. by rewrite lookup_insert_eq. }
  { intros k Hk. destruct (Hlive k) as [w Hw]; [lia|]. exists w.
    subst blks1. rewrite list_lookup_insert_ne by lia. done. }
  { subst blkd1. rewrite length_insert. lia. }
  exists blks', blkd'. split; [|split; [|split; [|split; [|split]]]].
  - rewrite Heq. simpl. f_equal. f_equal.
    by rewrite insert_shadow, insert_insert_eq.
  - subst blks1. by rewrite Hlens, length_insert.
  - subst blkd1. by rewrite Hlend, length_insert.
  - intros [|k] Hk.
    + rewrite !Nat.add_0_r. rewrite Hout by lia. subst blkd1.
      rewrite list_lookup_insert_eq by lia. done.
    + replace (j + S k)%nat with (S j + k)%nat by lia.
      rewrite Hval by lia. subst blks1.
      rewrite list_lookup_insert_ne by lia. f_equal. lia.
  - intros k Hk. rewrite Hout by lia. subst blkd1.
    rewrite list_lookup_insert_ne by lia. done.
  - intros k w Hw. destruct (decide (k = i)) as [->|Hki].
    + apply (Hkeep i (moved v)). subst blks1.
      rewrite list_lookup_insert_eq; [done|]. by eapply lookup_lt_Some.
    + apply (Hkeep k w). subst blks1. by rewrite list_lookup_insert_ne.
Qed.

(** Copying [n] elements from one buffer to another. *)
Lemma copy_loop_across n : ∀ s bs bd blks blkd (i j : nat),
  bs ≠ bd → heap s !! bs = Some blks → heap s !! bd = Some blkd →
  live_range blks i n → (j + n ≤ length blkd)%nat →
  ∃ blkd',
    copy_loop n (Ptr bs (Z.of_nat i)) (Ptr bd (Z.of_nat j)) s
    = Ok tt (mkState (<[bd := blkd']> (heap s)) (objs s)) ∧
    length blkd' = length blkd ∧
    (∀ k, (k < n)%nat → blkd' !! (j + k)%nat = blks !! (i + k)%nat) ∧
    (∀ k, ¬ (j ≤ k < j + n)%nat → blkd' !! k = blkd !! k).
Proof.
  induction n as [|n IH]; intros s bs bd blks blkd i j Hne Hs Hd Hlive Hlen;
    cbn [copy_loop].
  { exists blkd. split; [|split; [done|split; [lia|done]]].
    unfold mret, M_ret, ret. f_equal. destruct s; simpl in *. f_equal.
    by rewrite insert_id. }
  destruct (Hlive i) as [v Hv]; [lia|].
  rewrite (bind_ok _ _ _ _ _ (copy_to_across _ _ _ _ _ _ j _ Hs Hd Hv ltac:(lia))).
  rewrite !ptr_nat_S.
  set (blkd1 := <[j := Live v]> blkd).
  edestruct (IH (mkState (<[bd := blkd1]> (heap s)) (objs s))
                bs bd blks blkd1 (S i) (S j))
    as (blkd' & Heq & Hlend & Hval & Hout); [done| | | | |].
  { simpl. by rewrite lookup_insert_ne. }
  { simpl. by rewrite lookup_insert_eq. }
  { intros k Hk. apply Hlive. lia. }
  { subst blkd1. rewrite length_insert. lia. }
  exists blkd'. split; [|split; [|split]].
  - rewrite Heq. simpl. by rewrite insert_insert_eq.
  - subst blkd1. by rewrite Hlend, length_insert.
  - intros [|k] Hk.
    + rewrite !Nat.add_0_r. rewrite Hout by lia. subst blkd1.
      rewrite list_lookup_insert_eq by lia. done.
    + replace (j + S k)%nat with (S j + k)%nat by lia.
      rewrite Hval by lia. f_equal. lia.
  - intros k Hk. rewrite Hout by lia. subst blkd1.
    rewrite list_lookup_insert_ne by lia. done.
Qed.

(** Filling the slots [j, j+n) with copies of [v]. *)
Lemma fill_loop_spec n : ∀ s b blk (j : nat) v,
  heap s !! b = Some blk → (j + n ≤ length blk)%nat →
  ∃ blk', fill_loop n (Ptr b (Z.of_nat j)) v s
          = Ok tt (mkState (<[b := blk']> (heap s)) (objs s)) ∧
          length blk' = length blk ∧
          (∀ k, (j ≤ k < j + n)%nat → blk' !! k = Some (Live v)) ∧
          (∀ k, ¬ (j ≤ k < j + n)%nat → blk' !! k = blk !! k).
Proof.
  induction n as [|n IH]; intros s b blk j v Hb Hlen; cbn [fill_loop].
  { exists blk. split; [|split; [done|split; [lia|done]]].
    unfold mret, M_ret, ret. f_equal. destruct s; simpl in *. f_equal. by rewrite insert_id. }
  unfold std_construct_at.
  rewrite (bind_ok _ _ _ _ _ (write_nat _ _ _ j (Live v) Hb ltac:(lia))).
  rewrite ptr_nat_S.
  edestruct (IH (mkState (<[b := <[j := Live v]> blk]> (heap s)) (objs s)) b
                (<[j := Live v]> blk) (S j) v) as (blk' & Heq & Hlen' & Hval & Hout).
  { simpl. by rewrite lookup_insert_eq. }
  { rewrite length_insert. lia. }
  exists blk'. split; [|split; [|split]].
  - rewrite Heq. simpl. by rewrite insert_insert_eq.
  - by rewrite Hlen', length_insert.
  - intros k Hk. destruct (decide (k = j)) as [->|Hne].
    + rewrite Hout by lia. apply list_lookup_insert_eq. lia.
    + apply Hval. lia.
  - intros k Hk. rewrite Hout by lia. apply list_lookup_insert_ne. lia.
Qed.

(** ** The member functions against the abstract view *)

Lemma content_take blk l :
  (length l ≤ length blk)%nat → (take (length l) blk = Live <$> l ↔ content blk l).
Proof.
  intros Hlen. split.
  - intros Ht k x Hk. pose proof (lookup_lt_Some _ _ _ Hk) as Hlt.
    rewrite <- (lookup_take_lt blk (length l)) by lia.
    rewrite Ht, list_lookup_fmap, Hk. done.
  - intros Hc. apply list_eq. intros k.
    destruct (decide (k < length l)%nat) as [Hlt|Hge].
    + rewrite lookup_take_lt by lia. rewrite list_lookup_fmap.
      destruct (lookup_lt_is_Some_2 l k Hlt) as [x Hx]. rewrite Hx. simpl. by apply Hc.
    + rewrite lookup_take_ge by lia. rewrite list_lookup_fmap.
      rewrite (lookup_ge_None_2 l k) by lia. done.
Qed.

Lemma content_live_range blk l : content blk l → live_range blk 0 (length l).
Proof.
  intros Hc k Hk. destruct (lookup_lt_is_Some_2 l k) as [x Hx]; [lia|].
  exists x. by apply Hc.
Qed.

Lemma repr_inv s this l cap : repr s this l cap → repr_view s this l cap.
Proof.
  unfold repr. destruct (objs s !! this) as [a|] eqn:Ha; [|done].
  intros (Hc & Hm & Hle & Hmax & Hd).
  destruct (mData a) as [|b o] eqn:Hdata.
  - subst cap. assert (l = []) as -> by (destruct l; [done|simpl in Hle; lia]).
    by eapply repr_null.
  - destruct Hd as (-> & Hpos & Hb).
    destruct (heap s !! b) as [blk|] eqn:Hblk; [|done]. destruct Hb as [Hlen Ht].
    eapply repr_buffer; try done. apply content_take; [lia|done].
Qed.

Lemma repr_intro s this l cap a b blk :
  objs s !! this = Some a → mData a = Ptr b 0 →
  mCount a = Z.of_nat (length l) → mCapacity a = cap →
  Z.of_nat (length l) ≤ cap → 0 < cap → cap ≤ PTRDIFF_MAX →
  heap s !! b = Some blk → Z.of_nat (length blk) = cap → content blk l →
  repr s this l cap.
Proof.
  intros Ha Hd Hc Hm Hle Hpos Hmax Hb Hlen Hcont. unfold repr. rewrite Ha, Hd, Hb.
  repeat split; try done. apply content_take; [lia|done].
Qed.

Lemma repr_intro_null s this a :
  objs s !! this = Some a → mData a = Null → mCount a = 0 → mCapacity a = 0 →
  repr s this [] 0.
Proof.
  intros Ha Hd Hc Hm. unfold repr. rewrite Ha, Hd. unfold PTRDIFF_MAX. simpl.
  repeat split; try done; lia.
Qed.

Lemma repr_rep_inv s this l cap a :
  repr s this l cap → objs s !! this = Some a → rep_inv a.
Proof.
  intros Hr Ha. unfold rep_inv, SIZE_MAX.
  destruct (repr_inv _ _ _ _ Hr) as [a' Ha' Hd Hc Hm -> ->|a' b blk Ha' Hd Hc Hm Hle Hpos Hmax _ _ _];
    assert (a' = a) as -> by congruence; rewrite Hd, Hc, Hm; unfold PTRDIFF_MAX in *.
  - split; [lia|]. split; [lia|done].
  - split; [lia|]. split; [lia|]. split; [done|lia].
Qed.

Lemma separate_elim s o1 o2 a1 a2 b i1 i2 :
  separate s o1 o2 → objs s !! o1 = Some a1 → objs s !! o2 = Some a2 →
  mData a1 = Ptr b i1 → mData a2 = Ptr b i2 → False.
Proof.
  unfold separate. intros Hs H1 H2 Hd1 Hd2. rewrite H1, H2, Hd1, Hd2 in Hs. by apply Hs.
Qed.

Lemma separate_intro s o1 o2 :
  (∀ a1 a2 b i1 i2, objs s !! o1 = Some a1 → objs s !! o2 = Some a2 →
                    mData a1 = Ptr b i1 → mData a2 = Ptr b i2 → False) →
  separate s o1 o2.
Proof.
  intros Hs. unfold separate.
  destruct (objs s !! o1) as [a1|] eqn:H1; [|done].
  destruct (objs s !! o2) as [a2|] eqn:H2; [|done].
  destruct (mData a1) as [|b1 i1] eqn:Hd1; [done|].
  destruct (mData a2) as [|b2 i2] eqn:Hd2; [done|].
  intros ->. by eapply (Hs a1 a2).
Qed.

Lemma frame_repr s s' this o l cap :
  frame s s' this → o ≠ this → separate s this o → repr s o l cap → repr s' o l cap.
Proof.
  intros (Ho & Hh & _) Hne Hsep Hr. unfold repr in *. rewrite (Ho o Hne).
  destruct (objs s !! o) as [a|] eqn:Ha; [|done].
  destruct Hr as (Hc & Hm & Hle & Hmax & Hd). repeat split; try done.
  destruct (mData a) as [|b i] eqn:Hdata; [done|].
  destruct Hd as (-> & Hpos & Hb). repeat split; try done.
  destruct (heap s !! b) as [blk|] eqn:Hblk; [|done].
  rewrite (Hh b blk Hblk); [done|]. intros a' i' Ha' Hd'.
  by eapply (separate_elim s this o a' a b i' 0).
Qed.

Lemma frame_refl s this : frame s s this.
Proof. split; [done|]. split; [done|]. intros a' b o Ha' Hd. right. by exists a'. Qed.

Lemma state_eta (s : state T) : mkState (heap s) (objs s) = s.
Proof. by destruct s. Qed.

Lemma cleanup_spec this s l cap :
  repr s this l cap →
  ∃ s', cleanup this s = Ok tt s' ∧ repr s' this [] 0 ∧ frame s s' this.
Proof.
  intros Hr. unfold cleanup.
  destruct (repr_inv _ _ _ _ Hr) as [a Ha Hd Hc Hm -> ->|a b blk Ha Hd Hc Hm Hle Hpos Hmax Hb Hlen Hcont].
  - exists s. split; [|split; [done|apply frame_refl]].
    unfold mbind, M_bind, bind, get_obj. by rewrite Ha, Hd.
  - destruct (destroy_loop_spec (length l) s b blk 0 Hb)
      as (blk' & Heq & Hlen' & Hout); [by apply content_live_range|].
    eexists. split; [|split].
    + unfold mbind, M_bind, bind, get_obj. rewrite Ha, Hd. simpl.
      unfold std_destroy_n. rewrite Hc, Nat2Z.id.
      change (Z.of_nat 0) with 0 in Heq. rewrite Heq.
      unfold operator_delete. simpl. rewrite decide_True; [done|].
      split; [done|]. by rewrite lookup_insert_eq.
    + eapply repr_intro_null; simpl; [apply lookup_insert_eq|done..].
    + split; [|split]; simpl.
      * intros o Hne. by rewrite lookup_insert_ne.
      * intros b' blk0 Hb' Hdiff. rewrite lookup_delete_ne, lookup_insert_ne; [done|..];
          intros ->; by eapply Hdiff.
      * intros a' b' o'. rewrite lookup_insert_eq. by intros [= <-].
Qed.

Lemma operator_delete_ok s b :
  is_Some (heap s !! b) →
  operator_delete (Ptr b 0) s = Ok tt (mkState (delete b (heap s)) (objs s)).
Proof. intros Hb. unfold operator_delete. by rewrite decide_True. Qed.

Lemma reallocate_spec this n s l cap :
  repr s this l cap → n ≠ cap → 0 < n → Z.of_nat (length l) ≤ n →
  post (reallocate this n) s
       (λ _ s', repr s' this l n ∧ frame s s' this ∧ may_alloc (heap s) n = true)
       (λ e s', e = bad_alloc ∧ s' = s ∧ may_alloc (heap s) n = false) False.
Proof.
  intros Hr Hne Hpos Hle. unfold reallocate.
  set (bn := fresh (dom (heap s))).
  assert (heap s !! bn = None) as Hfresh by apply not_elem_of_dom, is_fresh.
  destruct (repr_inv _ _ _ _ Hr)
    as [a Ha Hd Hc Hm -> ->|a b blk Ha Hd Hc Hm Hle' Hpos' Hmax Hb Hlen Hcont];
    apply post_bind, post_get_obj; rewrite Ha;
    rewrite decide_False by lia; rewrite decide_False by lia;
    apply post_bind, post_operator_new; [|done| |done]; intros Hal; fold bn;
    pose proof (may_alloc_bound _ _ Hal) as Hbound.
  - rewrite Hd. simpl. apply post_bind, post_ret, post_set_obj.
    split; [|split; [|done]].
    + eapply (repr_intro _ _ [] n _ bn (replicate (Z.to_nat n) Raw)); simpl;
        [apply lookup_insert_eq | done | simpl; lia | done | lia | done | done
        | apply lookup_insert_eq | rewrite length_replicate; lia | done].
    + split; [|split]; simpl.
      * intros o Ho. by rewrite lookup_insert_ne.
      * intros b' blk' Hb' _. rewrite lookup_insert_ne; [done|]. congruence.
      * intros a' b' o'. rewrite lookup_insert_eq. intros [= <-] [= <- _]. by left.
  - rewrite Hd. simpl. assert (b ≠ bn) as Hbn by congruence.
    set (s1 := mkState (<[bn := replicate (Z.to_nat n) Raw]> (heap s)) (objs s)).
    destruct (move_loop_across (length l) s1 b bn blk (replicate (Z.to_nat n) Raw) 0 0)
      as (blks' & blkd' & Heq & Hlens & Hlend & Hval & Hout & Hkeep); try done.
    { subst s1. simpl. by rewrite lookup_insert_ne. }
    { subst s1. simpl. by rewrite lookup_insert_eq. }
    { by apply content_live_range. }
    { rewrite length_replicate. lia. }
    change (Z.of_nat 0) with 0 in Heq.
    apply post_bind, post_bind. unfold std_uninitialized_move_n.
    replace (Z.to_nat (Z.min (mCount a) n)) with (length l) by lia.
    eapply post_ok; [exact Heq|].
    set (s2 := mkState _ _).
    destruct (destroy_loop_spec (length l) s2 b blks' 0)
      as (blks'' & Heq2 & Hlens2 & Hout2).
    { subst s2. simpl. by rewrite lookup_insert_eq. }
    { intros k Hk. destruct (content_live_range _ _ Hcont k Hk) as [v Hv]. eauto. }
    change (Z.of_nat 0) with 0 in Heq2.
    apply post_bind. unfold std_destroy_n. rewrite Hc, Nat2Z.id.
    eapply post_ok; [exact Heq2|].
    eapply post_ok; [apply operator_delete_ok|].
    { subst s2. simpl. by rewrite lookup_insert_eq. }
    apply post_set_obj. subst s2 s1. simpl.
    split; [|split; [|done]].
    + eapply (repr_intro _ _ l n _ bn blkd'); simpl;
        [apply lookup_insert_eq | done | simpl; lia | done | lia | done | done
        | by rewrite lookup_delete_ne, lookup_insert_ne, lookup_insert_ne, lookup_insert_eq
        | rewrite Hlend, length_replicate; lia | ].
      intros k x Hk. pose proof (lookup_lt_Some _ _ _ Hk).
      rewrite <- (Nat.add_0_l k). rewrite Hval by lia. simpl. by apply Hcont.
    + split; [|split]; simpl.
      * intros o Ho. by rewrite lookup_insert_ne.
      * intros b' blk' Hb' Hdiff.
        assert (b' ≠ b) by (intros ->; by eapply Hdiff).
        assert (b' ≠ bn) by congruence.
        by rewrite lookup_delete_ne, !lookup_insert_ne.
      * intros a' b' o'. rewrite lookup_insert_eq. intros [= <-] [= <- _]. by left.
Qed.

Lemma ensureCapacity_spec this minCapacity s l cap :
  repr s this l cap → 0 ≤ minCapacity →
  post (ensureCapacity this minCapacity) s
       (λ _ s', repr s' this l (new_capacity cap minCapacity) ∧ frame s s' this)
       (λ e s', e = bad_alloc ∧ s' = s ∧ minCapacity > cap ∧
                may_alloc (heap s) (grow_capacity cap minCapacity) = false)
       False.
Proof.
  intros Hr Hmin. unfold ensureCapacity, new_capacity.
  assert (∃ a, objs s !! this = Some a ∧ mCapacity a = cap ∧
               Z.of_nat (length l) ≤ cap) as (a & Ha & Hm & Hle).
  { destruct (repr_inv _ _ _ _ Hr) as [a ? ? ? ? -> ->|a ? ? ? ? ? ? ? ? ? ? ?];
      exists a; simpl; split; try done; split; try done; lia. }
  apply post_bind, post_get_obj. rewrite Ha, Hm.
  destruct (decide (minCapacity > cap)) as [Hgt|Hle'].
  - fold (grow_capacity cap minCapacity).
    assert (minCapacity ≤ grow_capacity cap minCapacity) as Hg.
    { unfold grow_capacity. lia. }
    eapply post_mono; [apply (reallocate_spec _ _ _ l cap); try done; lia| | |done].
    + by intros _ s' (? & ? & _).
    + intros e s' (? & ? & ?). done.
  - apply post_ret. split; [done|apply frame_refl].
Qed.


Lemma insert_at_nil i l : insert_at i [] l = l.
Proof. unfold insert_at. simpl. apply take_drop. Qed.

Lemma length_insert_at i vs l :
  (i ≤ length l)%nat → length (insert_at i vs l) = (length l + length vs)%nat.
Proof.
  intros Hi. unfold insert_at. rewrite !length_app, length_take, length_drop. lia.
Qed.

Lemma lookup_insert_at_lt i vs l k :
  (i ≤ length l)%nat → (k < i)%nat → insert_at i vs l !! k = l !! k.
Proof.
  intros Hi Hk. unfold insert_at.
  rewrite lookup_app_l by (rewrite length_take; lia). by rewrite lookup_take_lt.
Qed.

Lemma lookup_insert_at_mid i vs l k :
  (i ≤ length l)%nat → (k < length vs)%nat → insert_at i vs l !! (i + k)%nat = vs !! k.
Proof.
  intros Hi Hk. unfold insert_at.
  rewrite lookup_app_r by (rewrite length_take; lia).
  rewrite length_take. replace (i + k - i `min` length l)%nat with k by lia.
  by rewrite lookup_app_l.
Qed.

Lemma lookup_insert_at_ge i vs l k :
  (i ≤ length l)%nat → (i ≤ k)%nat → insert_at i vs l !! (k + length vs)%nat = l !! k.
Proof.
  intros Hi Hk. unfold insert_at.
  rewrite lookup_app_r by (rewrite length_take; lia).
  rewrite length_take.
  rewrite lookup_app_r by lia.
  rewrite lookup_drop. f_equal. lia.
Qed.

(** Opening a gap of [c] slots at [i] in an array of [m] elements, when
    at least [c] elements follow [i] or none does. *)
Lemma shift_right_spec s b blk a (i c m : nat) :
  heap s !! b = Some blk → mData a = Ptr b 0 → mCount a = Z.of_nat m →
  live_range blk 0 m → (m + c ≤ length blk)%nat →
  (i ≤ m)%nat → (i < m → c ≤ m - i)%nat → (0 < c)%nat →
  ∃ blk', shift_right a (Z.of_nat i) (Z.of_nat c) s
          = Ok tt (mkState (<[b := blk']> (heap s)) (objs s)) ∧
          length blk' = length blk ∧
          (∀ k, (k < i)%nat → blk' !! k = blk !! k) ∧
          (∀ k, (i ≤ k < m)%nat → blk' !! (k + c)%nat = blk !! k) ∧
          (∀ k, (m + c ≤ k)%nat → blk' !! k = blk !! k).
Proof.
  intros Hb Hd Hc Hlive Hlen Him Hgood Hpos. unfold shift_right.
  destruct (decide (Z.of_nat i < mCount a)) as [Hlt|Hge].
  2:{ exists blk. split; [|split; [done|split; [done|split; [lia|done]]]].
      unfold mret, M_ret, ret. f_equal. rewrite insert_id by done. by rewrite state_eta. }
  assert (i < m)%nat as Hlt' by lia. specialize (Hgood Hlt').
  rewrite Hd, Hc. cbn [ptr_add].
  replace (0 + Z.of_nat m + - Z.of_nat c) with (Z.of_nat (m - c)) by lia.
  replace (0 + Z.of_nat m) with (Z.of_nat m) by lia.
  replace (0 + Z.of_nat i) with (Z.of_nat i) by lia.
  destruct (move_loop_same c s b blk (m - c) m Hb)
    as (blk1 & Heq1 & Hlen1 & Hval1 & Hout1); [|lia|lia|].
  { intros k Hk. apply Hlive. lia. }
  set (s1 := mkState (<[b := blk1]> (heap s)) (objs s)) in *.
  destruct (move_backward_loop_same (m - c - i) s1 b blk1 i c)
    as (blk2 & Heq2 & Hlen2 & Hval2 & Hout2); [| |lia|lia|].
  { subst s1. simpl. by rewrite lookup_insert_eq. }
  { intros k Hk. destruct (Hlive k) as [v Hv]; [lia|]. exists v.
    rewrite Hout1 by lia. done. }
  replace (i + (m - c - i))%nat with (m - c)%nat in Heq2 by lia.
  replace (m - c + c)%nat with m in Heq2 by lia.
  exists blk2. split; [|split; [congruence|split; [|split]]].
  - unfold std_uninitialized_move_n. rewrite Nat2Z.id.
    rewrite (bind_ok _ _ s _ _ Heq1).
    unfold std_move_backward, range_len. cbn [ptr_diff].
    rewrite decide_True by done. rewrite decide_True by lia.
    erewrite bind_ok; [|reflexivity].
    replace (Z.to_nat (Z.of_nat (m - c) - Z.of_nat i)) with (m - c - i)%nat by lia.
    rewrite Heq2. subst s1. simpl. by rewrite insert_insert_eq.
  - intros k Hk. rewrite Hout2 by lia. apply Hout1; lia.
  - intros k Hk. destruct (decide (k < m - c)%nat) as [Hk1|Hk1].
    + replace (k + c)%nat with (i + c + (k - i))%nat by lia.
      rewrite Hval2 by lia. replace (i + (k - i))%nat with k by lia.
      apply Hout1; lia.
    + rewrite Hout2 by lia.
      replace (k + c)%nat with (m + (k + c - m))%nat by lia.
      rewrite Hval1 by lia. f_equal. lia.
  - intros k Hk. rewrite Hout2 by lia. apply Hout1; lia.
Qed.

(** When fewer than [c] elements follow [i], the shift either starts
    before the buffer or hands [std::move_backward] a range whose end
    precedes its start: undefined behaviour. *)
Lemma shift_right_undefined s b blk a (i c m : nat) :
  heap s !! b = Some blk → mData a = Ptr b 0 → mCount a = Z.of_nat m →
  live_range blk 0 m → (m + c ≤ length blk)%nat →
  (i < m)%nat → (m - i < c)%nat →
  shift_right a (Z.of_nat i) (Z.of_nat c) s = UB.
Proof.
  intros Hb Hd Hc Hlive Hlen Him Hbad. unfold shift_right.
  rewrite decide_True by lia. rewrite Hd, Hc. cbn [ptr_add].
  replace (0 + Z.of_nat m) with (Z.of_nat m) by lia.
  replace (0 + Z.of_nat i) with (Z.of_nat i) by lia.
  unfold std_uninitialized_move_n. rewrite Nat2Z.id.
  destruct (decide (c ≤ m)%nat) as [Hcm|Hcm].
  - replace (Z.of_nat m + - Z.of_nat c) with (Z.of_nat (m - c)) by lia.
    destruct (move_loop_same c s b blk (m - c) m Hb)
      as (blk1 & Heq1 & _); [|lia|lia|].
    { intros k Hk. apply Hlive. lia. }
    rewrite (bind_ok _ _ s _ _ Heq1).
    unfold std_move_backward, range_len. simpl. rewrite decide_True by done.
    rewrite decide_False by lia. done.
  - destruct c as [|c]; [lia|]. cbn [move_loop].
    apply bind_ub, bind_ub. unfold move_to. apply bind_ub, load_before_buffer. lia.
Qed.

Lemma frame_extend s s1 this a1 b1 o1 blk' a' h' :
  frame s s1 this → objs s1 !! this = Some a1 → mData a1 = Ptr b1 o1 →
  h' = <[b1 := blk']> (heap s1) → mData a' = mData a1 →
  frame s (mkState h' (<[this := a']> (objs s1))) this.
Proof.
  intros (Ho & Hh & Hp) Ha1 Hd1 -> Hd'. split; [|split]; simpl.
  - intros o Hne. rewrite lookup_insert_ne by done. by apply Ho.
  - intros b blk Hb Hdiff. rewrite lookup_insert_ne; [by apply Hh|].
    intros <-. destruct (Hp a1 b1 o1 Ha1 Hd1) as [Hnone|(a & Ha & Hda)]; [congruence|].
    eapply Hdiff; [done|]. by rewrite Hda.
  - intros a'' b o. rewrite lookup_insert_eq. intros [= <-] Hd''.
    rewrite Hd' in Hd''. destruct (Hp a1 b o Ha1 Hd'') as [?|(a & Ha & Hda)]; [by left|].
    right. exists a. split; [done|congruence].
Qed.

Lemma new_capacity_ge capacity minCapacity :
  minCapacity ≤ new_capacity capacity minCapacity.
Proof.
  unfold new_capacity, grow_capacity. destruct (decide _); lia.
Qed.

(** The buffer after an insertion holds the sequence with the new
    elements inserted. *)
Lemma content_insert_at blk blk' (i : nat) vs l :
  content blk l → (i ≤ length l)%nat →
  (∀ k, (k < i)%nat → blk' !! k = blk !! k) →
  (∀ k, (i ≤ k < length l)%nat → blk' !! (k + length vs)%nat = blk !! k) →
  (∀ k x, vs !! k = Some x → blk' !! (i + k)%nat = Some (Live x)) →
  content blk' (insert_at i vs l).
Proof.
  intros Hc Hi Hlow Hhigh Hmid k x Hk.
  destruct (decide (k < i)%nat) as [Hk1|Hk1].
  { rewrite lookup_insert_at_lt in Hk by lia. rewrite Hlow by lia. by apply Hc. }
  destruct (decide (k < i + length vs)%nat) as [Hk2|Hk2].
  { replace k with (i + (k - i))%nat in Hk |- * by lia.
    rewrite lookup_insert_at_mid in Hk by lia. by apply Hmid. }
  replace k with (k - length vs + length vs)%nat in Hk |- * by lia.
  rewrite lookup_insert_at_ge in Hk by lia.
  pose proof (lookup_lt_Some _ _ _ Hk). rewrite Hhigh by lia. by apply Hc.
Qed.

Lemma EmplaceAt_spec this (i : nat) v s l cap :
  repr s this l cap → (i ≤ length l)%nat →
  post (EmplaceAt this (Z.of_nat i) v) s
       (λ r s', r = Z.of_nat i ∧
                repr s' this (insert_at i [v] l)
                     (new_capacity cap (Z.of_nat (length l) + 1)) ∧
                frame s s' this)
       (λ e s', e = bad_alloc ∧ s' = s ∧ Z.of_nat (length l) + 1 > cap ∧
                may_alloc (heap s) (grow_capacity cap (Z.of_nat (length l) + 1)) = false)
       False.
Proof.
  intros Hr Hi. rewrite EmplaceAt_unfold.
  assert (∃ a, objs s !! this = Some a ∧ mCount a = Z.of_nat (length l) ∧
               Z.of_nat (length l) ≤ PTRDIFF_MAX) as (a & Ha & Hc & Hmax).
  { destruct (repr_inv _ _ _ _ Hr) as [a ? ? Hc ? -> ->|a ? ? ? ? ? ? ? ? ? ? ?];
      exists a; (split; [done|]); (split; [done|]); unfold PTRDIFF_MAX in *; simpl; lia. }
  assert (to_size_t (mCount a + 1) = Z.of_nat (length l) + 1) as Hsz.
  { rewrite Hc. apply to_size_t_id. unfold SIZE_MAX, PTRDIFF_MAX in *. lia. }
  apply post_bind, checkRange_post. rewrite Ha, Hsz. rewrite decide_False by lia.
  apply post_bind, post_get_obj. rewrite Ha, Hsz.
  apply post_bind.
  eapply post_mono; [apply (ensureCapacity_spec _ _ _ l cap); [done|lia]| |done|done].
  intros _ s1 (Hr1 & Hf1). simpl.
  pose proof (new_capacity_ge cap (Z.of_nat (length l) + 1)) as Hge.
  set (cap1 := new_capacity cap (Z.of_nat (length l) + 1)) in *.
  destruct (repr_inv _ _ _ _ Hr1)
    as [a1 ? ? ? ? ? ?|a1 b1 blk1 Ha1 Hd1 Hc1 Hm1 Hle1 Hpos1 Hmax1 Hb1 Hlen1 Hcont1]; [lia|].
  apply post_bind, post_get_obj. rewrite Ha1.
  destruct (shift_right_spec s1 b1 blk1 a1 i 1 (length l) Hb1 Hd1 Hc1)
    as (blk2 & Heq2 & Hlen2 & Hlow2 & Hhigh2 & Hrest2); [|lia|lia|lia|lia|].
  { by apply content_live_range. }
  apply post_bind. eapply post_ok; [exact Heq2|].
  apply post_bind. unfold std_construct_at. rewrite Hd1. cbn [ptr_add].
  replace (0 + Z.of_nat i) with (Z.of_nat i) by lia.
  eapply post_ok; [apply (write_nat _ b1 blk2)|].
  { simpl. by rewrite lookup_insert_eq. }
  { lia. }
  apply post_bind, set_mCount_post. simpl. rewrite Ha1.
  apply post_ret. split; [done|]. rewrite insert_insert_eq. split.
  - eapply (repr_intro _ _ _ cap1 _ b1); simpl;
      [apply lookup_insert_eq | done | | done | | done | done
      | apply lookup_insert_eq | by rewrite length_insert, Hlen2 | ].
    + rewrite Hc1, length_insert_at by done. simpl.
      rewrite to_size_t_id; [lia|]. unfold SIZE_MAX, PTRDIFF_MAX in *. lia.
    + rewrite length_insert_at by done. simpl. lia.
    + apply (content_insert_at blk1); [done|done|..].
      * intros k Hk. rewrite list_lookup_insert_ne by lia. by apply Hlow2.
      * intros k Hk. simpl. rewrite list_lookup_insert_ne by lia. by apply Hhigh2.
      * intros [|k] x Hk; [|done]. injection Hk as <-. rewrite Nat.add_0_r.
        apply list_lookup_insert_eq. lia.
  - eapply frame_extend; [exact Hf1|exact Ha1|exact Hd1|done|done].
Qed.

Lemma find_first_le pred l : (find_first pred l ≤ length l)%nat.
Proof. induction l as [|x l IH]; simpl; [done|]. destruct (pred x); lia. Qed.

Lemma find_first_before pred l j x :
  (j < find_first pred l)%nat → l !! j = Some x → pred x = false.
Proof.
  revert j. induction l as [|y l IH]; intros j Hj Hx; simpl in *; [lia|].
  destruct (pred y) eqn:Hy; [lia|].
  destruct j as [|j]; simpl in Hx; [congruence|]. apply (IH j); [lia|done].
Qed.

Lemma find_first_found pred l :
  (find_first pred l < length l)%nat →
  ∃ x, l !! find_first pred l = Some x ∧ pred x = true.
Proof.
  induction l as [|y l IH]; simpl; [lia|]. intros Hlt.
  destruct (pred y) eqn:Hy; [by exists y|]. apply IH. lia.
Qed.

Lemma find_loop_spec pred vs : ∀ s b blk (i : nat),
  heap s !! b = Some blk →
  (∀ k x, vs !! k = Some x → blk !! (i + k)%nat = Some (Live x)) →
  find_loop (length vs) (Ptr b (Z.of_nat i)) pred s
  = Ok (Ptr b (Z.of_nat (i + find_first pred vs))) s.
Proof.
  induction vs as [|x vs IH]; intros s b blk i Hb Hvs; cbn [length find_loop find_first].
  { by rewrite Nat.add_0_r. }
  rewrite (bind_ok _ _ s x s).
  2:{ eapply load_nat; [done|]. rewrite <- (Nat.add_0_r i). by apply Hvs. }
  destruct (pred x); [by rewrite Nat.add_0_r|].
  rewrite ptr_nat_S. rewrite (IH s b blk (S i) Hb).
  - do 3 f_equal. lia.
  - intros k y Hk. replace (S i + k)%nat with (i + S k)%nat by lia. by apply Hvs.
Qed.

Lemma FindIf_spec this pred s l cap :
  repr s this l cap →
  FindIf this pred s = Ok (found (find_first pred l) l) s.
Proof.
  intros Hr. unfold FindIf, found.
  destruct (repr_inv _ _ _ _ Hr)
    as [a Ha Hd Hc Hm -> ->|a b blk Ha Hd Hc Hm Hle Hpos Hmax Hb Hlen Hcont].
  - rewrite (bind_ok _ _ s a s) by (unfold get_obj; by rewrite Ha).
    rewrite Hd. simpl. done.
  - rewrite (bind_ok _ _ s a s) by (unfold get_obj; by rewrite Ha).
    rewrite Hd, Hc. cbn [ptr_add]. replace (0 + Z.of_nat (length l)) with (Z.of_nat (length l)) by lia.
    unfold std_find_if, range_len. cbn [ptr_diff]. rewrite decide_True by done.
    rewrite decide_True by lia.
    replace (Z.to_nat (Z.of_nat (length l) - 0)) with (length l) by lia.
    erewrite (bind_ok _ _ s); [|erewrite bind_ok; [|reflexivity];
                                apply (find_loop_spec pred l s b blk 0 Hb Hcont)].
    pose proof (find_first_le pred l) as Hff.
    change (0 + find_first pred l)%nat with (find_first pred l).
    destruct (decide (find_first pred l < length l)%nat) as [Hlt|Hge].
    + rewrite decide_True by (intros [=]; lia).
      cbn [ptr_diff]. rewrite decide_True by done.
      unfold mret, M_ret, ret. f_equal. rewrite to_size_t_id; [lia|].
      unfold SIZE_MAX, PTRDIFF_MAX in *. lia.
    + rewrite decide_False; [done|]. intros Hne. apply Hne. f_equal. lia.
Qed.

Lemma Find_spec this value s l cap :
  repr s this l cap →
  Find this value s = Ok (found (find_first (λ x, bool_decide (x = value)) l) l) s.
Proof. apply FindIf_spec. Qed.

(** The backward scan of [FindLast]. *)
Lemma FindLast_loop_spec pred s b blk l : ∀ i : nat,
  heap s !! b = Some blk → content blk l → (i ≤ length l)%nat →
  ∃ r, FindLast_loop i (Ptr b 0) pred s = Ok r s ∧
       ((r = INDEX_NONE ∧ ∀ j x, (j < i)%nat → l !! j = Some x → pred x = false) ∨
        (∃ k x, r = Z.of_nat k ∧ (k < i)%nat ∧ l !! k = Some x ∧ pred x = true ∧
                ∀ j y, (k < j < i)%nat → l !! j = Some y → pred y = false)).
Proof.
  intros i Hb Hcont. induction i as [|i IH]; intros Hi; cbn [FindLast_loop].
  { exists INDEX_NONE. split; [done|]. left. split; [done|]. intros; lia. }
  destruct (lookup_lt_is_Some_2 l i) as [x Hx]; [lia|].
  cbn [ptr_add]. replace (0 + Z.of_nat i) with (Z.of_nat i) by lia.
  rewrite (bind_ok _ _ s x s) by (eapply load_nat; [done|by apply Hcont]).
  destruct (pred x) eqn:Hp.
  - exists (Z.of_nat i). split; [done|]. right. exists i, x.
    repeat split; try done; [lia|]. intros; lia.
  - destruct IH as (r & Heq & Hres); [lia|]. exists r. split; [done|].
    destruct Hres as [[-> Hnone]|(k & y & -> & Hk & Hy & Hpy & Hafter)].
    + left. split; [done|]. intros j z Hj Hz.
      destruct (decide (j = i)) as [->|Hne]; [congruence|]. apply (Hnone j); [lia|done].
    + right. exists k, y. repeat split; try done; [lia|]. intros j z Hj Hz.
      destruct (decide (j = i)) as [->|Hne]; [congruence|]. apply (Hafter j); [lia|done].
Qed.

Lemma FindLastIf_spec this pred s l cap :
  repr s this l cap →
  ∃ r, FindLastIf this pred s = Ok r s ∧
       ((r = INDEX_NONE ∧ ∀ j x, l !! j = Some x → pred x = false) ∨
        (∃ k x, r = Z.of_nat k ∧ l !! k = Some x ∧ pred x = true ∧
                ∀ j y, (k < j)%nat → l !! j = Some y → pred y = false)).
Proof.
  intros Hr. unfold FindLastIf.
  destruct (repr_inv _ _ _ _ Hr)
    as [a Ha Hd Hc Hm -> ->|a b blk Ha Hd Hc Hm Hle Hpos Hmax Hb Hlen Hcont].
  - exists INDEX_NONE. rewrite (bind_ok _ _ s a s) by (unfold get_obj; by rewrite Ha).
    rewrite Hc. split; [done|]. left. split; [done|]. by intros [|j] x.
  - rewrite (bind_ok _ _ s a s) by (unfold get_obj; by rewrite Ha).
    rewrite Hd, Hc, Nat2Z.id.
    destruct (FindLast_loop_spec pred s b blk l (length l) Hb Hcont) as (r & Heq & Hres); [done|].
    exists r. split; [done|].
    destruct Hres as [[-> Hnone]|(k & y & -> & Hk & Hy & Hpy & Hafter)].
    + left. split; [done|]. intros j x Hx. apply (Hnone j x); [|done].
      by eapply lookup_lt_Some.
    + right. exists k, y. repeat split; try done. intros j z Hj Hz.
      apply (Hafter j z); [|done]. split; [done|]. by eapply lookup_lt_Some.
Qed.

Lemma source_inv s p vs :
  source s p vs →
  ∃ b (j : nat) blk, p = Ptr b (Z.of_nat j) ∧ heap s !! b = Some blk ∧
                     ∀ k x, vs !! k = Some x → blk !! (j + k)%nat = Some (Live x).
Proof.
  destruct p as [|b o]; simpl; [done|]. intros [Ho Hb].
  destruct (heap s !! b) as [blk|] eqn:Hblk; [|done].
  exists b, (Z.to_nat o), blk. split; [f_equal; lia|]. split; [done|].
  intros k x Hk. pose proof (lookup_lt_Some _ _ _ Hk) as Hlt.
  rewrite <- lookup_drop, <- (lookup_take_lt _ (length vs)) by lia.
  by rewrite Hb, list_lookup_fmap, Hk.
Qed.

Lemma insertImpl_empty this (i : nat) p s l cap :
  repr s this l cap → (i ≤ length l)%nat →
  insertImpl this (Z.of_nat i) p 0 s = Ok (Z.of_nat i) s.
Proof.
  intros Hr Hi. rewrite insertImpl_unfold.
  assert (∃ a, objs s !! this = Some a ∧ mCount a = Z.of_nat (length l) ∧
               Z.of_nat (length l) ≤ PTRDIFF_MAX) as (a & Ha & Hc & Hmax).
  { destruct (repr_inv _ _ _ _ Hr) as [a ? ? Hc ? -> ->|a ? ? ? ? ? ? ? ? ? ? ?];
      exists a; (split; [done|]); (split; [done|]); unfold PTRDIFF_MAX in *; simpl; lia. }
  unfold checkRange. rewrite (bind_ok _ _ s tt s); [done|].
  rewrite (bind_ok _ _ s a s) by (unfold get_obj; by rewrite Ha).
  rewrite decide_False; [done|]. rewrite Hc, to_size_t_id; [lia|].
  unfold SIZE_MAX, PTRDIFF_MAX in *. lia.
Qed.

Lemma insertImpl_spec this (i : nat) p vs s l cap :
  repr s this l cap → (i ≤ length l)%nat → vs ≠ [] →
  source s p vs → outside s this p →
  Z.of_nat (length vs) ≤ PTRDIFF_MAX →
  (i < length l → length vs ≤ length l - i)%nat →
  post (insertImpl this (Z.of_nat i) p (Z.of_nat (length vs))) s
       (λ r s', r = Z.of_nat i ∧
                repr s' this (insert_at i vs l)
                     (new_capacity cap (Z.of_nat (length l) + Z.of_nat (length vs))) ∧
                frame s s' this)
       (λ e s', e = bad_alloc ∧ s' = s ∧
                Z.of_nat (length l) + Z.of_nat (length vs) > cap ∧
                may_alloc (heap s)
                  (grow_capacity cap (Z.of_nat (length l) + Z.of_nat (length vs))) = false)
       False.
Proof.
  intros Hr Hi Hvs Hsrc Hout Hvmax Hgood. rewrite insertImpl_unfold.
  assert (0 < length vs)%nat as Hpos by (destruct vs; [done|simpl; lia]).
  assert (∃ a, objs s !! this = Some a ∧ mCount a = Z.of_nat (length l) ∧
               Z.of_nat (length l) ≤ PTRDIFF_MAX) as (a & Ha & Hc & Hmax).
  { destruct (repr_inv _ _ _ _ Hr) as [a ? ? Hc ? -> ->|a ? ? ? ? ? ? ? ? ? ? ?];
      exists a; (split; [done|]); (split; [done|]); unfold PTRDIFF_MAX in *; simpl; lia. }
  assert (to_size_t (mCount a + 1) = Z.of_nat (length l) + 1) as Hsz1.
  { rewrite Hc. apply to_size_t_id. unfold SIZE_MAX, PTRDIFF_MAX in *. lia. }
  assert (to_size_t (mCount a + Z.of_nat (length vs))
          = Z.of_nat (length l) + Z.of_nat (length vs)) as Hsz.
  { rewrite Hc. apply to_size_t_id. unfold SIZE_MAX, PTRDIFF_MAX in *. lia. }
  apply post_bind, checkRange_post. rewrite Ha, Hsz1. rewrite decide_False by lia.
  rewrite decide_False by lia.
  apply post_bind, post_get_obj. rewrite Ha, Hsz.
  apply post_bind.
  eapply post_mono; [apply (ensureCapacity_spec _ _ _ l cap); [done|lia]| |done|done].
  intros _ s1 (Hr1 & Hf1). simpl.
  pose proof (new_capacity_ge cap (Z.of_nat (length l) + Z.of_nat (length vs))) as Hge.
  set (cap1 := new_capacity cap (Z.of_nat (length l) + Z.of_nat (length vs))) in *.
  destruct (repr_inv _ _ _ _ Hr1)
    as [a1 ? ? ? ? ? ?|a1 b1 blk1 Ha1 Hd1 Hc1 Hm1 Hle1 Hpos1 Hmax1 Hb1 Hlen1 Hcont1]; [lia|].
  apply post_bind, post_get_obj. rewrite Ha1.
  destruct (shift_right_spec s1 b1 blk1 a1 i (length vs) (length l) Hb1 Hd1 Hc1)
    as (blk2 & Heq2 & Hlen2 & Hlow2 & Hhigh2 & Hrest2); [|lia|lia|lia|lia|].
  { by apply content_live_range. }
  apply post_bind. eapply post_ok; [exact Heq2|].
  destruct (source_inv _ _ _ Hsrc) as (bs & j & blks & -> & Hbs & Hread).
  assert (heap s1 !! bs = Some blks) as Hbs1.
  { destruct Hf1 as (_ & Hh & _). apply Hh; [done|]. intros a0 o0 Ha0. by eapply Hout. }
  assert (bs ≠ b1) as Hne.
  { intros ->. destruct Hf1 as (_ & _ & Hp).
    destruct (Hp a1 b1 0 Ha1 Hd1) as [Hnone|(a0 & Ha0 & Hd0)]; [congruence|].
    eapply (Hout a0); [done|done|]. by rewrite Hd0. }
  set (s2 := mkState (<[b1 := blk2]> (heap s1)) (objs s1)).
  destruct (copy_loop_across (length vs) s2 bs b1 blks blk2 j i Hne)
    as (blk3 & Heq3 & Hlen3 & Hval3 & Hout3).
  { subst s2. simpl. by rewrite lookup_insert_ne. }
  { subst s2. simpl. by rewrite lookup_insert_eq. }
  { intros k Hk. destruct (lookup_lt_is_Some_2 vs (k - j)) as [x Hx]; [lia|].
    exists x. replace k with (j + (k - j))%nat by lia. by apply Hread. }
  { lia. }
  apply post_bind. unfold std_uninitialized_copy_n. rewrite Hd1, Nat2Z.id. cbn [ptr_add].
  replace (0 + Z.of_nat i) with (Z.of_nat i) by lia.
  eapply post_ok; [exact Heq3|].
  apply post_bind, set_mCount_post. subst s2. simpl. rewrite Ha1.
  apply post_ret. split; [done|]. rewrite insert_insert_eq. split.
  - eapply (repr_intro _ _ _ cap1 _ b1); simpl;
      [apply lookup_insert_eq | done | | done | | done | done
      | apply lookup_insert_eq | by rewrite Hlen3, Hlen2 | ].
    + rewrite Hc1, length_insert_at by done. simpl.
      rewrite to_size_t_id; [lia|]. unfold SIZE_MAX, PTRDIFF_MAX in *. lia.
    + rewrite length_insert_at by done. lia.
    + apply (content_insert_at blk1); [done|done|..].
      * intros k Hk. rewrite Hout3 by lia. by apply Hlow2.
      * intros k Hk. rewrite Hout3 by lia. by apply Hhigh2.
      * intros k x Hk. pose proof (lookup_lt_Some _ _ _ Hk).
        rewrite Hval3 by lia. by apply Hread.
  - eapply (frame_extend _ _ _ _ _ _ blk3); [exact Hf1|exact Ha1|exact Hd1|done|done].
Qed.

(** When [0 < length l - i < count], the call does not return: either
    the allocation fails, or the shift is undefined. *)
Lemma insertImpl_short_tail this (i c : nat) p s l cap :
  repr s this l cap → (i < length l)%nat → (length l - i < c)%nat →
  Z.of_nat c ≤ PTRDIFF_MAX →
  post (insertImpl this (Z.of_nat i) p (Z.of_nat c)) s
       (λ _ _, False) (λ e s', e = bad_alloc ∧ s' = s) True.
Proof.
  intros Hr Hi Hbad Hcmax. rewrite insertImpl_unfold.
  assert (∃ a, objs s !! this = Some a ∧ mCount a = Z.of_nat (length l) ∧
               Z.of_nat (length l) ≤ PTRDIFF_MAX) as (a & Ha & Hc & Hmax).
  { destruct (repr_inv _ _ _ _ Hr) as [a ? ? Hc ? -> ->|a ? ? ? ? ? ? ? ? ? ? ?];
      exists a; (split; [done|]); (split; [done|]); unfold PTRDIFF_MAX in *; simpl; lia. }
  assert (to_size_t (mCount a + 1) = Z.of_nat (length l) + 1) as Hsz1.
  { rewrite Hc. apply to_size_t_id. unfold SIZE_MAX, PTRDIFF_MAX in *. lia. }
  assert (to_size_t (mCount a + Z.of_nat c) = Z.of_nat (length l) + Z.of_nat c) as Hsz.
  { rewrite Hc. apply to_size_t_id. unfold SIZE_MAX, PTRDIFF_MAX in *. lia. }
  apply post_bind, checkRange_post. rewrite Ha, Hsz1. rewrite decide_False by lia.
  rewrite decide_False by lia.
  apply post_bind, post_get_obj. rewrite Ha, Hsz.
  apply post_bind.
  eapply post_mono; [apply (ensureCapacity_spec _ _ _ l cap); [done|lia]| | |done].
  2:{ by intros e s' (-> & -> & _). }
  intros _ s1 (Hr1 & Hf1). simpl.
  pose proof (new_capacity_ge cap (Z.of_nat (length l) + Z.of_nat c)) as Hge.
  set (cap1 := new_capacity cap (Z.of_nat (length l) + Z.of_nat c)) in *.
  destruct (repr_inv _ _ _ _ Hr1)
    as [a1 ? ? ? ? ? ?|a1 b1 blk1 Ha1 Hd1 Hc1 Hm1 Hle1 Hpos1 Hmax1 Hb1 Hlen1 Hcont1]; [lia|].
  apply post_bind, post_get_obj. rewrite Ha1.
  apply post_bind. unfold post at 1.
  rewrite (shift_right_undefined s1 b1 blk1 a1 i c (length l) Hb1 Hd1 Hc1); [done| |lia|lia|lia].
  by apply content_live_range.
Qed.

(** *** Capacity *)

Lemma repr_fields s this l cap :
  repr s this l cap →
  ∃ a, objs s !! this = Some a ∧ mCount a = Z.of_nat (length l) ∧ mCapacity a = cap ∧
       Z.of_nat (length l) ≤ cap ∧ cap ≤ PTRDIFF_MAX.
Proof.
  intros Hr. destruct (repr_inv _ _ _ _ Hr) as [a ? ? ? ? -> ->|a ? ? ? ? ? ? ? ? ? ? ?];
    exists a; unfold PTRDIFF_MAX in *; simpl; repeat split; try done; lia.
Qed.

Lemma Shrink_noop this s a :
  objs s !! this = Some a → mCapacity a ≤ mCount a → Shrink this s = Ok tt s.
Proof.
  intros Ha Hle. unfold Shrink.
  rewrite (bind_ok _ _ s a s) by (unfold get_obj; by rewrite Ha).
  by rewrite decide_False by lia.
Qed.

Lemma Shrink_spec this s l cap :
  repr s this l cap →
  post (Shrink this) s
       (λ _ s', repr s' this l (Z.of_nat (length l)) ∧ frame s s' this ∧
                (cap = Z.of_nat (length l) → s' = s))
       (λ e s', e = bad_alloc ∧ s' = s ∧ Z.of_nat (length l) < cap ∧
                may_alloc (heap s) (Z.of_nat (length l)) = false)
       False.
Proof.
  intros Hr. destruct (repr_fields _ _ _ _ Hr) as (a & Ha & Hc & Hm & Hle & Hmax).
  unfold Shrink. apply post_bind, post_get_obj. rewrite Ha, Hc, Hm.
  destruct (decide (cap > Z.of_nat (length l))) as [Hgt|Hngt].
  2:{ apply post_ret. assert (cap = Z.of_nat (length l)) as <- by lia.
      split; [done|]. split; [apply frame_refl|done]. }
  destruct (decide (Z.of_nat (length l) = 0)) as [Hz|Hnz].
  - assert (l = []) as -> by (destruct l; [done|simpl in Hz; lia]).
    unfold reallocate. apply post_bind, post_get_obj. rewrite Ha, Hm.
    rewrite decide_False by lia. rewrite decide_True by done.
    destruct (cleanup_spec _ _ _ _ Hr) as (s' & Heq & Hr' & Hf').
    eapply post_ok; [exact Heq|]. split; [done|]. split; [done|lia].
  - eapply post_mono; [apply (reallocate_spec _ _ _ l cap); try done; lia| | |done].
    + intros _ s' (Hr' & Hf' & _). split; [done|]. split; [done|lia].
    + intros e s' (-> & -> & Hal). repeat split; try done. lia.
Qed.

(** *** Moving an array *)

Lemma Array_move_spec this other s l cap :
  repr s other l cap → this ≠ other →
  ∃ s', Array_move this other s = Ok tt s' ∧
        repr s' this l cap ∧
        objs s' !! other = Some (mkArray Null 0 0) ∧
        heap s' = heap s.
Proof.
  intros Hr Hne.
  assert (∃ o, objs s !! other = Some o) as [o Ho].
  { destruct (repr_fields _ _ _ _ Hr) as (o & Ho & _). by exists o. }
  exists (mkState (heap s)
            (<[this := mkArray (mData o) (mCount o) (mCapacity o)]>
               (<[other := mkArray Null 0 0]> (objs s)))).
  split; [|split; [|split; [|done]]].
  - unfold Array_move, exchange_mData, exchange_mCount, exchange_mCapacity,
      set_mData, set_mCount, set_mCapacity, get_obj, set_obj,
      mbind, M_bind, bind, mret, M_ret, ret.
    repeat (first [rewrite Ho | rewrite lookup_insert_eq]; simpl).
    by rewrite !insert_insert_eq.
  - unfold repr in *. simpl. rewrite lookup_insert_eq. rewrite Ho in Hr. by destruct o.
  - simpl. rewrite lookup_insert_ne by done. apply lookup_insert_eq.
Qed.

Lemma assign_move_spec this other s lt capt l cap :
  repr s this lt capt → repr s other l cap → this ≠ other → separate s this other →
  ∃ s', assign_move this other s = Ok tt s' ∧
        repr s' this l cap ∧
        objs s' !! other = Some (mkArray Null 0 0).
Proof.
  intros Hrt Hro Hne Hsep.
  destruct (cleanup_spec _ _ _ _ Hrt) as (s1 & Heq1 & Hrt1 & Hf1).
  pose proof (frame_repr _ _ _ _ _ _ Hf1 (not_eq_sym Hne) Hsep Hro) as Hro1.
  destruct (repr_fields _ _ _ _ Hrt1) as (a1 & Ha1 & _).
  destruct (repr_fields _ _ _ _ Hro1) as (o & Ho & _).
  exists (mkState (heap s1)
            (<[this := mkArray (mData o) (mCount o) (mCapacity o)]>
               (<[other := mkArray Null 0 0]> (objs s1)))).
  split; [|split].
  - unfold assign_move. rewrite decide_True by done.
    rewrite (bind_ok _ _ s tt s1 Heq1).
    unfold exchange_mData, exchange_mCount, exchange_mCapacity,
      set_mData, set_mCount, set_mCapacity, get_obj, set_obj,
      mbind, M_bind, bind, mret, M_ret, ret.
    repeat (first [ rewrite Ho | rewrite Ha1 | rewrite lookup_insert_eq
                  | rewrite lookup_insert_ne by congruence ]; simpl).
    do 2 f_equal. repeat first [rewrite insert_shadow | rewrite insert_insert_eq]. done.
  - unfold repr in *. simpl. rewrite lookup_insert_eq. rewrite Ho in Hro1. by destruct o.
  - simpl. rewrite lookup_insert_ne by done. apply lookup_insert_eq.
Qed.

(** *** Clear, and insertion from another array *)

Lemma Clear_spec this s l cap :
  repr s this l cap →
  ∃ s' a, Clear this s = Ok tt s' ∧ repr s' this [] cap ∧ frame s s' this ∧
          objs s !! this = Some a ∧
          objs s' !! this = Some (mkArray (mData a) 0 (mCapacity a)) ∧
          dom (heap s') = dom (heap s).
Proof.
  intros Hr. unfold Clear.
  destruct (repr_inv _ _ _ _ Hr)
    as [a Ha Hd Hc Hm -> ->|a b blk Ha Hd Hc Hm Hle Hpos Hmax Hb Hlen Hcont].
  - exists (mkState (heap s) (<[this := mkArray (mData a) 0 (mCapacity a)]> (objs s))), a.
    split; [|split; [|split; [|split; [done|split; [apply lookup_insert_eq|done]]]]].
    + rewrite (bind_ok _ _ s a s) by (unfold get_obj; by rewrite Ha).
      rewrite Hc. unfold std_destroy_n. simpl.
      unfold set_mCount, get_obj, set_obj, mbind, M_bind, bind, mret, M_ret, ret.
      by rewrite Ha.
    + eapply repr_intro_null; simpl; [apply lookup_insert_eq|done..].
    + split; [|split]; simpl.
      * intros o Hne. by rewrite lookup_insert_ne.
      * done.
      * intros a' b o. rewrite lookup_insert_eq. intros [= <-]. simpl. congruence.
  - destruct (destroy_loop_spec (length l) s b blk 0 Hb)
      as (blk' & Heq & Hlen' & Hout); [by apply content_live_range|].
    change (Z.of_nat 0) with 0 in Heq.
    exists (mkState (<[b := blk']> (heap s))
              (<[this := mkArray (mData a) 0 (mCapacity a)]> (objs s))), a.
    split; [|split; [|split; [|split; [done|split; [apply lookup_insert_eq|]]]]].
    + rewrite (bind_ok _ _ s a s) by (unfold get_obj; by rewrite Ha).
      unfold std_destroy_n. rewrite Hd, Hc, Nat2Z.id.
      rewrite (bind_ok _ _ s tt _ Heq).
      unfold set_mCount, get_obj, set_obj, mbind, M_bind, bind, mret, M_ret, ret.
      simpl. by rewrite Ha, Hd.
    + eapply (repr_intro _ _ [] cap _ b blk'); simpl;
        [apply lookup_insert_eq | done | done | done | lia | done | done
        | apply lookup_insert_eq | lia | done].
    + eapply (frame_extend s s this a b 0 blk'); [apply frame_refl|done|done|done|done].
    + simpl. by eapply dom_insert_same.
Qed.

Lemma separate_sym s o1 o2 : separate s o1 o2 → separate s o2 o1.
Proof.
  intros Hs. apply separate_intro. intros a1 a2 b i1 i2 H1 H2 Hd1 Hd2.
  by eapply (separate_elim s o1 o2 a2 a1 b i2 i1).
Qed.

Lemma frame_separate s s1 this o lo co :
  frame s s1 this → o ≠ this → separate s this o → repr s o lo co →
  separate s1 this o.
Proof.
  intros (Ho & Hh & Hp) Hne Hsep Hro. apply separate_intro.
  intros a1 a2 b i1 i2 H1 H2 Hd1 Hd2.
  rewrite (Ho o Hne) in H2.
  destruct (Hp a1 b i1 H1 Hd1) as [Hnone|(a & Ha & Hda)].
  - destruct (repr_inv _ _ _ _ Hro) as [a0 ? ? ? ? ? ?|a0 b0 blk ? ? ? ? ? ? ? ? ? ?];
      assert (a0 = a2) as -> by congruence; congruence.
  - eapply (separate_elim s this o a a2 b i1 i2); [done|done|done| |done]. by rewrite Hda.
Qed.

Lemma repr_source s o lo co a :
  repr s o lo co → objs s !! o = Some a → lo ≠ [] → source s (mData a) lo.
Proof.
  intros Hr Ha Hne.
  destruct (repr_inv _ _ _ _ Hr) as [a0 ? ? ? ? ? ?|a0 b0 blk Ha0 Hd ? ? ? ? ? Hb Hlen Hc];
    [done|]. assert (a0 = a) as -> by congruence.
  rewrite Hd. unfold source. rewrite Hb. split; [done|]. rewrite drop_0.
  apply content_take; [lia|done].
Qed.

Lemma separate_outside s this o a :
  separate s this o → objs s !! o = Some a → outside s this (mData a).
Proof.
  intros Hsep Ha a0 b i i' Ha0 Hd Hd0.
  by eapply (separate_elim s this o a0 a b i' i).
Qed.

(** Insertion of the elements of another array, in the well-defined
    region. *)
Lemma Insert_array_spec this (i : nat) source_ s l cap ls cs :
  repr s this l cap → repr s source_ ls cs → this ≠ source_ →
  separate s this source_ → (i ≤ length l)%nat →
  (i < length l → length ls ≤ length l - i)%nat →
  post (Insert_array this (Z.of_nat i) source_) s
       (λ r s', r = Z.of_nat i ∧
                (∃ cap', repr s' this (insert_at i ls l) cap') ∧
                repr s' source_ ls cs ∧ frame s s' this)
       (λ e s', e = bad_alloc ∧ s' = s) False.
Proof.
  intros Hr Hrs Hne Hsep Hi Hgood. unfold Insert_array.
  destruct (repr_fields _ _ _ _ Hrs) as (src & Hsrc & Hcs & Hms & Hles & Hmaxs).
  apply post_bind, post_get_obj. rewrite Hsrc, Hcs.
  destruct (decide (ls = [])) as [->|Hnil].
  - eapply post_ok; [exact (insertImpl_empty this i _ s l cap Hr Hi)|]. split; [done|].
    rewrite insert_at_nil. split; [by exists cap|]. split; [done|apply frame_refl].
  - eapply post_mono; [eapply (insertImpl_spec this i _ ls s l cap); try done| | |done].
    + by eapply repr_source.
    + by eapply separate_outside.
    + lia.
    + intros r s' (-> & Hr' & Hf'). split; [done|]. split; [eauto|]. split; [|done].
      eapply frame_repr; [exact Hf'| |exact Hsep|exact Hrs]. congruence.
    + by intros e s' (-> & -> & _).
Qed.

(** The drain insert, in the well-defined region: the target receives
    the elements and the source is left empty. *)
Lemma Insert_rvalue_spec this (i : nat) source_ s l cap ls cs :
  repr s this l cap → repr s source_ ls cs → this ≠ source_ →
  separate s this source_ → (i ≤ length l)%nat →
  (i < length l → length ls ≤ length l - i)%nat →
  post (Insert_rvalue this (Z.of_nat i) source_) s
       (λ r s', r = Z.of_nat i ∧
                (∃ cap', repr s' this (insert_at i ls l) cap') ∧
                repr s' source_ [] cs)
       (λ e s', e = bad_alloc ∧ s' = s) False.
Proof.
  intros Hr Hrs Hne Hsep Hi Hgood. unfold Insert_rvalue.
  destruct (repr_fields _ _ _ _ Hrs) as (src & Hsrc & Hcs & Hms & Hles & Hmaxs).
  apply post_bind, post_get_obj. rewrite Hsrc.
  apply post_bind.
  pose proof (Insert_array_spec this i source_ s l cap ls cs Hr Hrs Hne Hsep Hi Hgood) as Hia.
  unfold Insert_array in Hia. unfold post at 1 in Hia.
  rewrite (bind_ok _ _ s src s) in Hia by (unfold get_obj; by rewrite Hsrc).
  eapply post_mono; [exact Hia| |done|done].
  intros r s1 (-> & (cap' & Hr1) & Hrs1 & Hf1). simpl.
  destruct (Clear_spec _ _ _ _ Hrs1) as (s2 & a2 & Heq2 & Hrs2 & Hf2 & _).
  apply post_bind. eapply post_ok; [exact Heq2|]. apply post_ret.
  split; [done|]. split; [|done]. exists cap'.
  eapply frame_repr; [exact Hf2|done| |exact Hr1].
  apply separate_sym. eapply frame_separate; [exact Hf1| |exact Hsep|exact Hrs]. congruence.
Qed.

(** What the drain insert does to its source, whenever it returns. *)
Lemma Insert_rvalue_source this index source_ s r s' a :
  this ≠ source_ → objs s !! source_ = Some a → separate s this source_ →
  Insert_rvalue this index source_ s = Ok r s' →
  objs s' !! source_ = Some (mkArray (mData a) 0 (mCapacity a)) ∧
  (∀ b o, mData a = Ptr b o → b ∈ dom (heap s) → b ∈ dom (heap s')).
Proof.
  intros Hne Ha Hsep Heq.
  refine (post_inv_ok _ _ _ _
            (λ _ s', objs s' !! source_ = Some (mkArray (mData a) 0 (mCapacity a)) ∧
                     (∀ b o, mData a = Ptr b o → b ∈ dom (heap s) → b ∈ dom (heap s')))
            (λ _ _, True) True _ Heq).
  unfold Insert_rvalue. apply post_bind, post_get_obj. rewrite Ha.
  apply post_bind. eapply post_mono; [apply insertImpl_fields| |done|done].
  intros r1 s1 (_ & at_ & at' & Hu & _). simpl.
  apply post_bind. unfold Clear. apply post_bind, post_get_obj.
  rewrite (upd_lookup_ne _ _ _ _ _ source_ Hu) by congruence. rewrite Ha.
  apply post_bind. eapply post_heap_only; [apply heap_only_destroy_n|].
  intros _ s2 _ Ho2 Hd2. apply set_mCount_post.
  rewrite Ho2, (upd_lookup_ne _ _ _ _ _ source_ Hu) by congruence. rewrite Ha.
  apply post_ret. simpl. split; [apply lookup_insert_eq|].
  intros b o Hd Hb. rewrite Hd2. destruct Hu as (Hat & _ & Hkeep). apply Hkeep; [done|].
  intros o' Hd'. by eapply (separate_elim s this source_ at_ a b o' o).
Qed.

(** *** Range checks *)

Lemma checkRange_throws this index (bAllowEnd : bool) s a :
  objs s !! this = Some a →
  index >= to_size_t (mCount a + (if bAllowEnd then 1 else 0)) →
  checkRange this index bAllowEnd s = Throw out_of_range s.
Proof.
  intros Ha Hge. unfold checkRange, get_obj, mbind, M_bind, bind. rewrite Ha.
  by rewrite decide_True.
Qed.

Lemma checkRange_passes this index (bAllowEnd : bool) s a :
  objs s !! this = Some a →
  index < to_size_t (mCount a + (if bAllowEnd then 1 else 0)) →
  checkRange this index bAllowEnd s = Ok tt s.
Proof.
  intros Ha Hlt. unfold checkRange, get_obj, mbind, M_bind, bind. rewrite Ha.
  by rewrite decide_False by lia.
Qed.

Lemma bind_throw {A B} (m : M A) (k : A → M B) s e s' :
  m s = Throw e s' → (m ≫= k) s = Throw e s'.
Proof. unfold mbind, M_bind, bind. by intros ->. Qed.

Lemma repr_count_plus s this l cap a (n : Z) :
  repr s this l cap → objs s !! this = Some a → 0 ≤ n ≤ 1 →
  to_size_t (mCount a + n) = Z.of_nat (length l) + n.
Proof.
  intros Hr Ha Hn. destruct (repr_fields _ _ _ _ Hr) as (a' & Ha' & Hc & _ & Hle & Hmax).
  assert (a' = a) as -> by congruence. rewrite Hc.
  apply to_size_t_id. unfold SIZE_MAX, PTRDIFF_MAX in *. lia.
Qed.

Lemma operator_index_out this index s l cap :
  repr s this l cap → Z.of_nat (length l) ≤ index →
  operator_index this index s = Throw out_of_range s.
Proof.
  intros Hr Hge. destruct (repr_fields _ _ _ _ Hr) as (a & Ha & _).
  unfold operator_index. apply bind_throw, (checkRange_throws _ _ false _ a Ha).
  rewrite (repr_count_plus _ _ _ _ _ 0 Hr Ha) by lia. lia.
Qed.

(** An index in bounds yields a reference through which the element
    can be read. *)
Lemma operator_index_in this (i : nat) s l cap x :
  repr s this l cap → l !! i = Some x →
  ∃ p, operator_index this (Z.of_nat i) s = Ok p s ∧ load p s = Ok x s.
Proof.
  intros Hr Hx. pose proof (lookup_lt_Some _ _ _ Hx) as Hlt.
  destruct (repr_inv _ _ _ _ Hr)
    as [a Ha Hd Hc Hm -> ->|a b blk Ha Hd Hc Hm Hle Hpos Hmax Hb Hlen Hcont]; [done|].
  exists (Ptr b (Z.of_nat i)). split.
  - unfold operator_index.
    rewrite (bind_ok _ _ s tt s).
    2:{ apply (checkRange_passes _ _ false _ a Ha).
        rewrite (repr_count_plus _ _ _ _ _ 0 Hr Ha) by lia. lia. }
    rewrite (bind_ok _ _ s a s) by (unfold get_obj; by rewrite Ha).
    rewrite Hd. unfold mret, M_ret, ret. cbn [ptr_add]. do 2 f_equal.
  - eapply load_nat; [done|]. by apply Hcont.
Qed.

Lemma RemoveAt_out this index s l cap :
  repr s this l cap → Z.of_nat (length l) ≤ index →
  RemoveAt this index s = Throw out_of_range s.
Proof.
  intros Hr Hge. destruct (repr_fields _ _ _ _ Hr) as (a & Ha & _).
  unfold RemoveAt. apply bind_throw, (checkRange_throws _ _ false _ a Ha).
  rewrite (repr_count_plus _ _ _ _ _ 0 Hr Ha) by lia. lia.
Qed.

Lemma EmplaceAt_out this index v s l cap :
  repr s this l cap → Z.of_nat (length l) < index →
  EmplaceAt this index v s = Throw out_of_range s.
Proof.
  intros Hr Hge. destruct (repr_fields _ _ _ _ Hr) as (a & Ha & _).
  unfold EmplaceAt. apply bind_throw, (checkRange_throws _ _ true _ a Ha).
  rewrite (repr_count_plus _ _ _ _ _ 1 Hr Ha) by lia. lia.
Qed.

Lemma insertImpl_out this index p count s l cap :
  repr s this l cap → Z.of_nat (length l) < index →
  insertImpl this index p count s = Throw out_of_range s.
Proof.
  intros Hr Hge. destruct (repr_fields _ _ _ _ Hr) as (a & Ha & _).
  unfold insertImpl. apply bind_throw, (checkRange_throws _ _ true _ a Ha).
  rewrite (repr_count_plus _ _ _ _ _ 1 Hr Ha) by lia. lia.
Qed.

Lemma EmplaceAt_in this index v s l cap s' :
  repr s this l cap → index ≤ Z.of_nat (length l) →
  EmplaceAt this index v s ≠ Throw out_of_range s'.
Proof.
  intros Hr Hle Heq. destruct (repr_fields _ _ _ _ Hr) as (a & Ha & _).
  pose proof (post_inv_throw _ _ _ _ _ _ _ (EmplaceAt_fields this index v s) Heq)
    as (_ & [?|(_ & a' & Ha' & Hge)]); [done|].
  assert (a' = a) as -> by congruence.
  rewrite (repr_count_plus _ _ _ _ _ 1 Hr Ha) in Hge by lia. lia.
Qed.

Lemma insertImpl_in this index p count s l cap s' :
  repr s this l cap → index ≤ Z.of_nat (length l) →
  insertImpl this index p count s ≠ Throw out_of_range s'.
Proof.
  intros Hr Hle Heq. destruct (repr_fields _ _ _ _ Hr) as (a & Ha & _).
  pose proof (post_inv_throw _ _ _ _ _ _ _ (insertImpl_fields this index p count s) Heq)
    as (_ & [?|(_ & a' & Ha' & Hge)]); [done|].
  assert (a' = a) as -> by congruence.
  rewrite (repr_count_plus _ _ _ _ _ 1 Hr Ha) in Hge by lia. lia.
Qed.

Lemma RemoveAt_in this index s l cap s' :
  repr s this l cap → index < Z.of_nat (length l) →
  RemoveAt this index s ≠ Throw out_of_range s'.
Proof.
  intros Hr Hlt Heq. destruct (repr_fields _ _ _ _ Hr) as (a & Ha & _).
  pose proof (post_inv_throw _ _ _ _ _ _ _ (RemoveAt_fields this index s) Heq)
    as (_ & _ & a' & Ha' & Hge).
  assert (a' = a) as -> by congruence.
  rewrite (repr_count_plus _ _ _ _ _ 0 Hr Ha) in Hge by lia. lia.
Qed.

(** *** Appending one element *)

Lemma insert_at_end vs l : insert_at (length l) vs l = l ++ vs.
Proof.
  unfold insert_at. rewrite take_ge, drop_ge by lia. by rewrite app_nil_r.
Qed.

Lemma Emplace_spec this v s l cap :
  repr s this l cap →
  post (Emplace this v) s
       (λ p s', repr s' this (l ++ [v]) (new_capacity cap (Z.of_nat (length l) + 1)) ∧
                frame s s' this ∧ load p s' = Ok v s')
       (λ e s', e = bad_alloc ∧ s' = s ∧ Z.of_nat (length l) + 1 > cap ∧
                may_alloc (heap s) (grow_capacity cap (Z.of_nat (length l) + 1)) = false)
       False.
Proof.
  intros Hr. destruct (repr_fields _ _ _ _ Hr) as (a & Ha & Hc & _).
  unfold Emplace. apply post_bind, post_get_obj. rewrite Ha, Hc.
  apply post_bind.
  eapply post_mono; [apply (EmplaceAt_spec this (length l) v s l cap Hr); lia| |done|done].
  intros r s' (-> & Hr' & Hf'). simpl. rewrite insert_at_end in Hr'.
  destruct (operator_index_in this (length l) s' (l ++ [v]) _ v Hr') as (p & Hp & Hload).
  { rewrite lookup_app_r by lia. by rewrite Nat.sub_diag. }
  destruct (repr_fields _ _ _ _ Hr') as (a' & Ha' & _).
  apply post_bind, post_get_obj. rewrite Ha'. apply post_ret.
  split; [done|]. split; [done|].
  unfold operator_index in Hp.
  destruct (checkRange this (Z.of_nat (length l)) false s') as [[] s''|e s''|] eqn:Hcr;
    unfold mbind, M_bind, bind in Hp; rewrite Hcr in Hp; [|done|done].
  unfold get_obj in Hp.
  assert (s'' = s') as ->.
  { unfold checkRange, get_obj, mbind, M_bind, bind in Hcr. rewrite Ha' in Hcr.
    destruct (decide _); [done|]. by injection Hcr. }
  rewrite Ha' in Hp. injection Hp as <-. done.
Qed.

Lemma Add_spec this v s l cap :
  repr s this l cap →
  post (Add this v) s
       (λ _ s', repr s' this (l ++ [v]) (new_capacity cap (Z.of_nat (length l) + 1)) ∧
                frame s s' this)
       (λ e s', e = bad_alloc ∧ s' = s ∧ Z.of_nat (length l) + 1 > cap ∧
                may_alloc (heap s) (grow_capacity cap (Z.of_nat (length l) + 1)) = false)
       False.
Proof.
  intros Hr. unfold Add. apply post_bind.
  eapply post_mono; [apply (Emplace_spec this v s l cap Hr)| |done|done].
  intros p s' (Hr' & Hf' & _). by apply post_ret.
Qed.

(** *** Removal at an index *)

(** Where the destructor of [T] is trivial, assigning is the write
    that constructing is. *)
Lemma heap_write_outside (h : gmap positive (list (slot T))) p x :
  slot_at h p = None → heap_write h p x = None.
Proof.
  destruct p as [|b o]; [done|]. cbn [slot_at heap_write].
  destruct (decide (0 ≤ o)); [|done]. destruct (h !! b) as [blk|]; [|done]. simpl.
  intros Hnone. apply lookup_ge_None in Hnone. by rewrite decide_False by lia.
Qed.

Lemma move_assign_trivial src dst s :
  trivially_destructible = true → move_assign src dst s = move_to src dst s.
Proof.
  intros Htd. unfold move_assign, assignable, mbind, M_bind, bind.
  destruct (slot_at (heap s) dst) as [[|v]|] eqn:Hdst; [by rewrite Htd|done|].
  unfold move_to, load, write, mbind, M_bind, bind.
  destruct (slot_at (heap s) src) as [[|v]|]; [done| |done].
  by rewrite (heap_write_outside _ _ _ Hdst).
Qed.

Lemma move_assign_loop_trivial n : ∀ src dst s,
  trivially_destructible = true → move_assign_loop n src dst s = move_loop n src dst s.
Proof.
  induction n as [|n IH]; intros src dst s Htd; [done|].
  cbn [move_assign_loop move_loop]. unfold mbind, M_bind, bind.
  rewrite move_assign_trivial by done.
  destruct (move_to src dst s) as [[] s1|e s1|]; [by apply IH|done|done].
Qed.

(** Assigning to the slot of a destroyed object of a type whose
    destructor is not trivial is undefined. *)
Lemma move_assign_destroyed s b blk (i j : nat) :
  trivially_destructible = false → heap s !! b = Some blk → blk !! j = Some Raw →
  move_assign (Ptr b (Z.of_nat i)) (Ptr b (Z.of_nat j)) s = UB.
Proof.
  intros Htd Hb Hj. unfold move_assign, assignable, mbind, M_bind, bind.
  by rewrite (slot_at_nat _ _ _ _ Hb), Hj, Htd.
Qed.

Lemma RemoveAt_spec this (i : nat) s l cap :
  repr s this l cap → (i < length l)%nat →
  trivially_destructible = true ∨ i = (length l - 1)%nat →
  ∃ s', RemoveAt this (Z.of_nat i) s = Ok tt s' ∧
        repr s' this (delete i l) cap ∧ frame s s' this.
Proof.
  intros Hr Hi Htd.
  destruct (repr_inv _ _ _ _ Hr)
    as [a Ha Hd Hc Hm -> ->|a b blk Ha Hd Hc Hm Hle Hpos Hmax Hb Hlen Hcont];
    [simpl in Hi; lia|].
  destruct (lookup_lt_is_Some_2 l i Hi) as [x Hx].
  assert (to_size_t (mCount a - 1) = Z.of_nat (length l - 1)) as Hsz.
  { rewrite Hc, to_size_t_id; [lia|]. unfold SIZE_MAX, PTRDIFF_MAX in *. lia. }
  set (blk1 := <[i := Raw]> blk).
  set (s1 := mkState (<[b := blk1]> (heap s)) (objs s)).
  assert (std_destroy_at (Ptr b (Z.of_nat i)) s = Ok tt s1) as Heq1.
  { eapply destroy_at_nat; [done|]. by apply Hcont. }
  assert (∃ blk2,
    (if decide (Z.of_nat i < to_size_t (mCount a - 1)) then
       std_move (mData a +ₚ Z.of_nat i +ₚ 1) (mData a +ₚ mCount a) (mData a +ₚ Z.of_nat i)
     else mret tt) s1 = Ok tt (mkState (<[b := blk2]> (heap s)) (objs s)) ∧
    length blk2 = length blk ∧ content blk2 (delete i l)) as (blk2 & Heq2 & Hlen2 & Hcont2).
  { rewrite Hsz. destruct (decide (Z.of_nat i < Z.of_nat (length l - 1))) as [Hlt|Hge].
    - rewrite Hd, Hc. cbn [ptr_add].
      replace (0 + Z.of_nat i + 1) with (Z.of_nat (S i)) by lia.
      replace (0 + Z.of_nat (length l)) with (Z.of_nat (length l)) by lia.
      replace (0 + Z.of_nat i) with (Z.of_nat i) by lia.
      destruct (move_loop_same (length l - S i) s1 b blk1 (S i) i)
        as (blk2 & Heq2 & Hlen2 & Hval2 & Hout2).
      { subst s1. simpl. by rewrite lookup_insert_eq. }
      { intros k Hk. destruct (lookup_lt_is_Some_2 l k) as [y Hy]; [lia|]. exists y.
        subst blk1. rewrite list_lookup_insert_ne by lia. by apply Hcont. }
      { subst blk1. rewrite length_insert. lia. }
      { lia. }
      exists blk2. split; [|split].
      + unfold std_move, range_len. cbn [ptr_diff]. rewrite decide_True by done.
        rewrite decide_True by lia. erewrite bind_ok; [|reflexivity].
        replace (Z.to_nat (Z.of_nat (length l) - Z.of_nat (S i))) with (length l - S i)%nat
          by lia.
        rewrite move_assign_loop_trivial by (destruct Htd; [done|lia]).
        rewrite Heq2. subst s1. simpl. by rewrite insert_insert_eq.
      + subst blk1. by rewrite Hlen2, length_insert.
      + intros k y Hk. destruct (decide (k < i)%nat) as [Hki|Hki].
        * rewrite list_lookup_delete_lt in Hk by lia.
          rewrite Hout2 by lia. subst blk1. rewrite list_lookup_insert_ne by lia.
          by apply Hcont.
        * rewrite list_lookup_delete_ge in Hk by lia.
          pose proof (lookup_lt_Some _ _ _ Hk).
          replace k with (i + (k - i))%nat by lia. rewrite Hval2 by lia.
          subst blk1. rewrite list_lookup_insert_ne by lia.
          replace (S i + (k - i))%nat with (S k) by lia. by apply Hcont.
    - exists blk1. split; [done|]. split; [subst blk1; by rewrite length_insert|].
      intros k y Hk. destruct (decide (k < i)%nat) as [Hki|Hki].
      + rewrite list_lookup_delete_lt in Hk by lia.
        subst blk1. rewrite list_lookup_insert_ne by lia. by apply Hcont.
      + rewrite list_lookup_delete_ge in Hk by lia.
        pose proof (lookup_lt_Some _ _ _ Hk). lia. }
  exists (mkState (<[b := blk2]> (heap s))
            (<[this := mkArray (mData a) (to_size_t (mCount a - 1)) (mCapacity a)]> (objs s))).
  split; [|split].
  - unfold RemoveAt.
    rewrite (bind_ok _ _ s tt s).
    2:{ apply (checkRange_passes _ _ false _ a Ha).
        rewrite (repr_count_plus _ _ _ _ _ 0 Hr Ha) by lia. lia. }
    rewrite (bind_ok _ _ s a s) by (unfold get_obj; by rewrite Ha).
    rewrite Hd at 1. cbn [ptr_add]. replace (0 + Z.of_nat i) with (Z.of_nat i) by lia.
    rewrite (bind_ok _ _ s tt s1 Heq1).
    rewrite (bind_ok _ _ s1 tt _ Heq2).
    unfold set_mCount, get_obj, set_obj, mbind, M_bind, bind, mret, M_ret, ret.
    simpl. by rewrite Ha.
  - eapply (repr_intro _ _ _ cap _ b blk2); simpl;
      [apply lookup_insert_eq | done | | done | | done | done
      | apply lookup_insert_eq | lia | done].
    + simpl. rewrite Hsz, length_delete by (by eexists). lia.
    + rewrite length_delete by (by eexists). lia.
  - eapply (frame_extend s s this a b 0 blk2); [apply frame_refl|done|done|done|done].
Qed.

(** *** The insertion overloads and the range check *)

Lemma repr_alloc s this l cap b x :
  heap s !! b = None → repr s this l cap →
  repr (mkState (<[b := x]> (heap s)) (objs s)) this l cap.
Proof.
  intros Hb Hr. unfold repr in *. simpl.
  destruct (objs s !! this) as [a|]; [|done].
  destruct Hr as (Hc & Hm & Hle & Hmax & Hd). repeat split; try done.
  destruct (mData a) as [|b' o]; [done|]. destruct Hd as (-> & Hpos & Hblk).
  repeat split; try done. rewrite lookup_insert_ne; [done|]. intros <-. by rewrite Hb in Hblk.
Qed.

Lemma Insert_array_range this index source_ s l cap :
  repr s this l cap → is_Some (objs s !! source_) →
  throws_out_of_range (Insert_array this index source_) s ↔ Z.of_nat (length l) < index.
Proof.
  intros Hr [src Hsrc]. unfold throws_out_of_range, Insert_array.
  rewrite (bind_ok _ _ s src s) by (unfold get_obj; by rewrite Hsrc). split.
  - intros [s' Heq]. destruct (decide (Z.of_nat (length l) < index)); [done|].
    exfalso. eapply insertImpl_in; [exact Hr| |exact Heq]. lia.
  - intros Hlt. exists s. by eapply insertImpl_out.
Qed.

Lemma Insert_rvalue_range this index source_ s l cap :
  repr s this l cap → is_Some (objs s !! source_) →
  throws_out_of_range (Insert_rvalue this index source_) s ↔ Z.of_nat (length l) < index.
Proof.
  intros Hr [src Hsrc]. unfold throws_out_of_range, Insert_rvalue.
  rewrite (bind_ok _ _ s src s) by (unfold get_obj; by rewrite Hsrc). split.
  - intros [s' Heq]. destruct (decide (Z.of_nat (length l) < index)); [done|].
    exfalso. unfold mbind, M_bind, bind in Heq.
    destruct (insertImpl this index (mData src) (mCount src) s) as [r s1|e s1|] eqn:Hi;
      [| |done].
    + pose proof (quiet_Clear source_ s1) as Hq. unfold post in Hq.
      destruct (Clear source_ s1); [done|done|done].
    + injection Heq as -> ->. eapply insertImpl_in; [exact Hr| |exact Hi]. lia.
  - intros Hlt. exists s. apply bind_throw. by eapply insertImpl_out.
Qed.

Lemma Insert_ilist_range this index ilist s l cap :
  repr s this l cap →
  throws_out_of_range (Insert_ilist this index ilist) s ↔ Z.of_nat (length l) < index.
Proof.
  intros Hr. unfold throws_out_of_range, Insert_ilist, with_ilist.
  set (b := fresh (dom (heap s))).
  assert (heap s !! b = None) as Hb by apply not_elem_of_dom, is_fresh.
  pose proof (repr_alloc s this l cap b (Live <$> ilist) Hb Hr) as Hr1.
  set (s1 := mkState _ _) in *. split.
  - intros [s' Heq]. destruct (decide (Z.of_nat (length l) < index)); [done|].
    exfalso.
    destruct (insertImpl this index (Ptr b 0) (Z.of_nat (length ilist)) s1)
      as [r s2|e s2|] eqn:Hi; [done| |done].
    injection Heq as -> _. eapply insertImpl_in; [exact Hr1| |exact Hi]. lia.
  - intros Hlt. rewrite (insertImpl_out _ _ _ _ s1 l cap Hr1 Hlt). eauto.
Qed.

(** *** Construction *)

Lemma fresh_for_repr s s' this o l cap :
  fresh_for s s' this → o ≠ this → repr s o l cap → repr s' o l cap.
Proof.
  intros (Ho & Hh & _) Hne Hr. unfold repr in *. rewrite (Ho o Hne).
  destruct (objs s !! o) as [a|]; [|done].
  destruct Hr as (Hc & Hm & Hle & Hmax & Hd). repeat split; try done.
  destruct (mData a) as [|b i]; [done|]. destruct Hd as (-> & Hpos & Hb).
  repeat split; try done.
  destruct (heap s !! b) as [blk|] eqn:Hblk; [|done]. by rewrite (Hh b blk Hblk).
Qed.

Lemma fresh_for_separate s s' this o l cap :
  fresh_for s s' this → o ≠ this → repr s o l cap → separate s' this o.
Proof.
  intros (Ho & Hh & Hf) Hne Hr. apply separate_intro.
  intros a1 a2 b i1 i2 H1 H2 Hd1 Hd2. rewrite (Ho o Hne) in H2.
  pose proof (Hf a1 b i1 H1 Hd1) as Hnone.
  destruct (repr_inv _ _ _ _ Hr) as [a0 ? ? ? ? ? ?|a0 b0 blk ? ? ? ? ? ? ? ? ? ?];
    assert (a0 = a2) as -> by congruence; congruence.
Qed.

Lemma content_nil blk : content blk [].
Proof. by intros k x. Qed.

Lemma Array_sized_spec this capacity s :
  0 ≤ capacity →
  post (Array_sized this capacity) s
       (λ _ s', repr s' this [] capacity ∧ fresh_for s s' this)
       (λ e s', e = bad_alloc ∧ s' = s ∧ 0 < capacity ∧
                may_alloc (heap s) capacity = false)
       False.
Proof.
  intros Hcap. unfold Array_sized. apply post_bind.
  destruct (decide (capacity > 0)) as [Hpos|Hz].
  - apply post_operator_new; [|intros Hal; repeat split; try done; lia].
    intros Hal. pose proof (may_alloc_bound _ _ Hal) as Hbound.
    set (b := fresh (dom (heap s))).
    assert (heap s !! b = None) as Hb by apply not_elem_of_dom, is_fresh.
    apply post_set_obj. split.
    + eapply (repr_intro _ _ [] capacity _ b (replicate (Z.to_nat capacity) Raw)); simpl;
        [apply lookup_insert_eq | done | done | done | lia | lia | done
        | apply lookup_insert_eq | rewrite length_replicate; lia | apply content_nil].
    + split; [|split]; simpl.
      * intros o Hne. by rewrite lookup_insert_ne.
      * intros b' blk Hb'. rewrite lookup_insert_ne; [done|]. congruence.
      * intros a b' o. rewrite lookup_insert_eq. by intros [= <-] [= <- _].
  - assert (capacity = 0) as -> by lia. apply post_ret, post_set_obj. split.
    + eapply repr_intro_null; simpl; [apply lookup_insert_eq|done..].
    + split; [|split]; simpl.
      * intros o Hne. by rewrite lookup_insert_ne.
      * done.
      * intros a b' o. rewrite lookup_insert_eq. by intros [= <-].
Qed.

Lemma Array_default_spec this s :
  ∃ s', Array_default this s = Ok tt s' ∧ repr s' this [] 0 ∧ heap s' = heap s ∧
        (∀ o, o ≠ this → objs s' !! o = objs s !! o).
Proof.
  exists (mkState (heap s) (<[this := mkArray Null 0 0]> (objs s))).
  split; [done|]. split; [|split; [done|]].
  - eapply repr_intro_null; simpl; [apply lookup_insert_eq|done..].
  - intros o Hne. simpl. by rewrite lookup_insert_ne.
Qed.

Lemma post_with_ilist {A} ilist (k : ptr → ptr → M A) s Q E U :
  (let b := fresh (dom (heap s)) in
   post (k (Ptr b 0) (Ptr b (Z.of_nat (length ilist))))
        (mkState (<[b := Live <$> ilist]> (heap s)) (objs s))
        (λ r s', Q r (mkState (delete b (heap s')) (objs s')))
        (λ e s', E e (mkState (delete b (heap s')) (objs s'))) U) →
  post (with_ilist ilist k) s Q E U.
Proof. unfold post, with_ilist. simpl. by destruct (k _ _ _). Qed.

(** Copying [n] elements into a buffer fills it with them. *)
Lemma content_copied (blks blkd : list (slot T)) l :
  content blks l →
  (∀ k, (k < length l)%nat → blkd !! (0 + k)%nat = blks !! (0 + k)%nat) →
  content blkd l.
Proof.
  intros Hc Hval k x Hk. pose proof (lookup_lt_Some _ _ _ Hk).
  rewrite <- (Nat.add_0_l k). rewrite Hval by lia. by apply Hc.
Qed.

Lemma range_len_add p n s :
  0 ≤ n → (p = Null → n = 0) → range_len p (p +ₚ n) s = Ok (Z.to_nat n) s.
Proof.
  intros Hn Hp. unfold range_len. rewrite ptr_diff_add.
  destruct p as [|b o].
  - rewrite (Hp eq_refl). by rewrite decide_True.
  - by rewrite decide_True.
Qed.

Lemma uninitialized_copy_nil p d s : std_uninitialized_copy p (p +ₚ 0) d s = Ok tt s.
Proof.
  unfold std_uninitialized_copy.
  rewrite (bind_ok _ _ s 0%nat s); [done|].
  unfold range_len. rewrite ptr_diff_add. destruct p; by rewrite decide_True.
Qed.

Lemma uninitialized_copy_spec s p vs bd blkd :
  heap s !! bd = Some blkd → (length vs ≤ length blkd)%nat →
  source s p vs → (∀ o, p ≠ Ptr bd o) →
  ∃ blkd', std_uninitialized_copy p (p +ₚ Z.of_nat (length vs)) (Ptr bd 0) s
           = Ok tt (mkState (<[bd := blkd']> (heap s)) (objs s)) ∧
           length blkd' = length blkd ∧ content blkd' vs.
Proof.
  intros Hd Hlen Hsrc Hne.
  destruct (source_inv _ _ _ Hsrc) as (bs & j & blks & -> & Hbs & Hread).
  assert (bs ≠ bd) as Hbne by (intros ->; by eapply Hne).
  destruct (copy_loop_across (length vs) s bs bd blks blkd j 0 Hbne Hbs Hd)
    as (blkd' & Heq & Hlen' & Hval & _).
  { intros k Hk. destruct (lookup_lt_is_Some_2 vs (k - j)) as [x Hx]; [lia|].
    exists x. replace k with (j + (k - j))%nat by lia. by apply Hread. }
  { lia. }
  exists blkd'. split; [|split; [done|]].
  - unfold std_uninitialized_copy.
    rewrite (bind_ok _ _ s (length vs) s).
    + exact Heq.
    + rewrite range_len_add by (done || lia). by rewrite Nat2Z.id.
  - intros k x Hk. pose proof (lookup_lt_Some _ _ _ Hk).
    rewrite <- (Nat.add_0_l k). rewrite Hval by lia. by apply Hread.
Qed.

(** The part of the copying constructors that follows the allocation. *)
Lemma copy_construct this p vs s :
  repr s this [] (Z.of_nat (length vs)) →
  (vs ≠ [] → source s p vs ∧ outside s this p) →
  ∃ a s', objs s !! this = Some a ∧
          std_uninitialized_copy p (p +ₚ Z.of_nat (length vs)) (mData a) s = Ok tt s' ∧
          objs s' = objs s ∧
          repr (mkState (heap s')
                        (<[this := mkArray (mData a) (Z.of_nat (length vs)) (mCapacity a)]>
                           (objs s')))
               this vs (Z.of_nat (length vs)) ∧
          (∀ b blk, heap s !! b = Some blk → (∀ o, mData a ≠ Ptr b o) →
                    heap s' !! b = Some blk) ∧
          dom (heap s') = dom (heap s).
Proof.
  intros Hr Hsrc.
  destruct (repr_inv _ _ _ _ Hr)
    as [a Ha Hd Hc Hm _ Hz|a b blk Ha Hd Hc Hm Hle Hpos Hmax Hb Hlen _].
  - assert (vs = []) as -> by (destruct vs; [done|simpl in Hz; lia]).
    exists a, s. split; [done|]. split; [apply uninitialized_copy_nil|]. split; [done|].
    split; [|done]. simpl. rewrite Hd, Hm.
    eapply repr_intro_null; simpl; [apply lookup_insert_eq|done..].
  - assert (vs ≠ []) as Hvs by (intros ->; simpl in Hpos; lia).
    destruct (Hsrc Hvs) as [Hs Hout].
    destruct (uninitialized_copy_spec s p vs b blk Hb) as (blk' & Heq & Hlen' & Hcont);
      [lia|done| |].
    { intros o ->. by eapply (Hout a b o 0). }
    exists a, (mkState (<[b := blk']> (heap s)) (objs s)).
    split; [done|]. rewrite Hd. split; [exact Heq|]. split; [done|]. simpl. split; [|split].
    + eapply (repr_intro _ _ vs _ _ b blk'); simpl;
        [apply lookup_insert_eq | done | done | done | lia | lia | done
        | apply lookup_insert_eq | lia | done].
    + intros b' blk0 Hb' Hdiff. rewrite lookup_insert_ne; [done|].
      intros <-. by eapply Hdiff.
    + eapply dom_insert_same. exact Hb.
Qed.

Lemma repr_release s this l cap bt :
  repr s this l cap →
  (∀ a o, objs s !! this = Some a → mData a ≠ Ptr bt o) →
  repr (mkState (delete bt (heap s)) (objs s)) this l cap.
Proof.
  intros Hr Hne. unfold repr in *. simpl.
  destruct (objs s !! this) as [a|]; [|done].
  destruct Hr as (Hc & Hm & Hle & Hmax & Hd). repeat split; try done.
  destruct (mData a) as [|b i] eqn:Hdata; [done|]. destruct Hd as (-> & Hpos & Hb).
  repeat split; try done. rewrite lookup_delete_ne; [done|].
  intros <-. by eapply (Hne a 0).
Qed.

Lemma Array_ilist_spec this ilist s :
  post (Array_ilist this ilist) s
       (λ _ s', repr s' this ilist (Z.of_nat (length ilist)) ∧ fresh_for s s' this)
       (λ e s', e = bad_alloc ∧ s' = s)
       False.
Proof.
  unfold Array_ilist. apply post_with_ilist. simpl.
  set (bt := fresh (dom (heap s))).
  assert (heap s !! bt = None) as Hbt by apply not_elem_of_dom, is_fresh.
  set (s0 := mkState (<[bt := Live <$> ilist]> (heap s)) (objs s)).
  apply post_bind.
  eapply post_mono; [apply (Array_sized_spec this (Z.of_nat (length ilist)) s0); lia| | |done].
  2:{ intros e s' (-> & -> & _). split; [done|]. subst s0. simpl. apply release_fresh. }
  intros _ s1 (Hr1 & Ho1 & Hh1 & Hf1). simpl.
  assert (heap s1 !! bt = Some (Live <$> ilist)) as Hbt1.
  { apply Hh1. subst s0. simpl. apply lookup_insert_eq. }
  assert (∀ a o, objs s1 !! this = Some a → mData a ≠ Ptr bt o) as Hnbt.
  { intros a o Ha Hd. pose proof (Hf1 a bt o Ha Hd) as Hnone.
    subst s0. simpl in Hnone. by rewrite lookup_insert_eq in Hnone. }
  destruct (copy_construct this (Ptr bt 0) ilist s1 Hr1)
    as (a & s2 & Ha & Heq & Hobjs & Hr2 & Hkeep & Hdom).
  { intros _. split.
    - simpl. split; [done|]. rewrite Hbt1. simpl. rewrite drop_0.
      rewrite <- (length_fmap Live ilist). apply firstn_all.
    - intros a b o o' Ha [= <- <-]. by apply Hnbt. }
  apply post_bind, post_get_obj. rewrite Ha. apply post_bind.
  cbn [ptr_add] in Heq. rewrite Z.add_0_l in Heq.
  eapply post_ok; [exact Heq|]. apply set_mCount_post. rewrite Hobjs, Ha. simpl.
  rewrite Hobjs in Hr2. split.
  - apply (repr_release _ _ _ _ bt) in Hr2; [exact Hr2|]. cbn [objs heap].
    intros a' o. rewrite lookup_insert_eq. intros [= <-]. simpl. by apply Hnbt.
  - split; [|split]; simpl.
    + intros o Hne. rewrite lookup_insert_ne by done. rewrite (Ho1 o Hne). done.
    + intros b blk Hb. assert (b ≠ bt) as Hbne by congruence.
      rewrite lookup_delete_ne by done. apply Hkeep.
      * apply Hh1. subst s0. simpl. by rewrite lookup_insert_ne.
      * intros o Hd. pose proof (Hf1 a b o Ha Hd) as Hnone.
        subst s0. simpl in Hnone. rewrite lookup_insert_ne in Hnone by done. congruence.
    + intros a' b o. rewrite lookup_insert_eq. intros [= <-]. simpl. intros Hd.
      pose proof (Hf1 a b o Ha Hd) as Hnone. subst s0. simpl in Hnone.
      destruct (decide (b = bt)) as [->|Hbne].
      * by rewrite lookup_insert_eq in Hnone.
      * by rewrite lookup_insert_ne in Hnone.
Qed.

Lemma Array_copy_spec this other s l cap :
  this ≠ other → repr s other l cap →
  post (Array_copy this other) s
       (λ _ s', repr s' this l (Z.of_nat (length l)) ∧ fresh_for s s' this)
       (λ e s', e = bad_alloc ∧ s' = s)
       False.
Proof.
  intros Hne Hr. unfold Array_copy.
  assert (∃ o, objs s !! other = Some o ∧ mCount o = Z.of_nat (length l) ∧
               (l ≠ [] → source s (mData o) l)) as (o & Ho & Hc & Hsrc).
  { destruct (repr_inv _ _ _ _ Hr) as [o ? ? Hc ? -> ->|o b blk ? Hd ? ? ? ? ? Hb ? Hcont];
      exists o; (split; [done|]); (split; [done|]); [done|].
    intros _. rewrite Hd. simpl. split; [done|]. rewrite Hb. simpl. rewrite drop_0.
    apply content_take; [lia|done]. }
  apply post_bind, post_get_obj. rewrite Ho, Hc. apply post_bind.
  eapply post_mono; [apply (Array_sized_spec this (Z.of_nat (length l)) s); lia| | |done].
  2:{ by intros e s' (-> & -> & _). }
  intros _ s1 (Hr1 & Hf1). simpl.
  pose proof Hf1 as (Ho1 & Hh1 & Hfr1).
  assert (objs s1 !! other = Some o) as Hoth by (rewrite Ho1 by done; done).
  destruct (copy_construct this (mData o) l s1 Hr1)
    as (a & s2 & Ha & Heq & Hobjs & Hr2 & Hkeep & Hdom).
  { intros Hl. split.
    - destruct (repr_inv _ _ _ _ (fresh_for_repr _ _ _ _ _ _ Hf1 (not_eq_sym Hne) Hr))
        as [o' ? ? ? ? -> ?|o' b blk Ho' Hd ? ? ? ? ? Hb ? Hcont]; [done|].
      assert (o' = o) as -> by congruence. rewrite Hd. simpl. split; [done|].
      rewrite Hb. rewrite drop_0. apply content_take; [lia|done].
    - intros a b i i' Ha Hp Hd. pose proof (Hfr1 a b i' Ha Hd) as Hnone.
      destruct (repr_inv _ _ _ _ Hr) as [o' ? Hd' ? ? ? ?|o' b' blk Ho' Hd' ? ? ? ? ? Hb ? ?];
        assert (o' = o) as -> by congruence; congruence. }
  apply post_bind, post_get_obj. rewrite Hoth.
  apply post_bind, post_get_obj. rewrite Ha. apply post_bind. rewrite Hc.
  eapply post_ok; [exact Heq|].
  apply post_bind, post_get_obj. rewrite Hobjs, Hoth.
  apply set_mCount_post. rewrite Hobjs, Ha. simpl. rewrite Hc.
  rewrite Hobjs in Hr2. split.
  - replace s2 with (mkState (heap s2) (objs s2)) by apply state_eta.
    rewrite Hobjs. exact Hr2.
  - split; [|split]; simpl.
    + intros o' Hne'. rewrite lookup_insert_ne by done. by apply Ho1.
    + intros b blk Hb. apply Hkeep; [by apply Hh1|].
      intros i Hd. pose proof (Hfr1 a b i Ha Hd). congruence.
    + intros a' b i. rewrite lookup_insert_eq. intros [= <-]. simpl. by apply Hfr1.
Qed.

(** *** Destruction, swap and copy assignment *)

(** [repr] looks only at the record of the object and at the heap. *)
Lemma repr_transport s s' o o' l cap :
  objs s' !! o' = objs s !! o → heap s' = heap s → repr s o l cap → repr s' o' l cap.
Proof. unfold repr. by intros -> ->. Qed.

Lemma frame_others_kept s s' this : frame s s' this → others_kept s s' this.
Proof. intros Hf o l cap Hne Hsep Hr. by eapply frame_repr. Qed.

Lemma fresh_for_others_kept s s' this : fresh_for s s' this → others_kept s s' this.
Proof. intros Hf o l cap Hne _ Hr. by eapply fresh_for_repr. Qed.

Lemma Array_dtor_spec this s l cap :
  repr s this l cap →
  ∃ s', Array_dtor this s = Ok tt s' ∧ objs s' !! this = None ∧ others_kept s s' this ∧
        (∀ o, o ≠ this → objs s' !! o = objs s !! o).
Proof.
  intros Hr. destruct (cleanup_spec _ _ _ _ Hr) as (s1 & Heq & Hr1 & Hf1).
  exists (mkState (heap s1) (delete this (objs s1))). split; [|split; [|split]].
  - unfold Array_dtor. by rewrite (bind_ok _ _ s tt s1 Heq).
  - simpl. apply lookup_delete_eq.
  - intros o l' cap' Hne Hsep Hro.
    apply (repr_transport s1 _ o o); [simpl; by rewrite lookup_delete_ne|done|].
    by eapply frame_repr.
  - intros o Hne. simpl. rewrite lookup_delete_ne by done. by apply Hf1.
Qed.

Lemma Swap_spec this other s l1 c1 l2 c2 :
  repr s this l1 c1 → repr s other l2 c2 →
  ∃ s', Swap this other s = Ok tt s' ∧ repr s' this l2 c2 ∧ repr s' other l1 c1 ∧
        heap s' = heap s ∧
        (∀ o, o ≠ this → o ≠ other → objs s' !! o = objs s !! o) ∧
        objs s' !! this = objs s !! other ∧ objs s' !! other = objs s !! this.
Proof.
  intros H1 H2.
  destruct (repr_fields _ _ _ _ H1) as (a & Ha & _).
  destruct (repr_fields _ _ _ _ H2) as (o & Ho & _).
  set (s' := mkState (heap s)
            (<[other := mkArray (mData a) (mCount a) (mCapacity a)]>
               (<[this := mkArray (mData o) (mCount o) (mCapacity o)]> (objs s)))).
  exists s'.
  assert (objs s' !! this = objs s !! other) as Hthis.
  { subst s'. cbn [objs]. destruct (decide (this = other)) as [->|Hne].
    - rewrite lookup_insert_eq, Ho. assert (a = o) as -> by congruence. by destruct o.
    - rewrite lookup_insert_ne by done. rewrite lookup_insert_eq, Ho. by destruct o. }
  assert (objs s' !! other = objs s !! this) as Hother.
  { subst s'. cbn [objs]. rewrite lookup_insert_eq, Ha. by destruct a. }
  split; [|split; [|split; [|split; [done|split; [|done]]]]].
  - unfold Swap.
    rewrite (bind_ok _ _ s a s) by (unfold get_obj; by rewrite Ha).
    by rewrite (bind_ok _ _ s o s) by (unfold get_obj; by rewrite Ho).
  - by apply (repr_transport s _ other this).
  - by apply (repr_transport s _ this other).
  - intros o' Hn1 Hn2. subst s'. cbn [objs]. by rewrite !lookup_insert_ne.
Qed.

(** The tail of the copy-and-swap assignments: the freshly built
    temporary is swapped with [this] and destroyed. *)
Lemma swap_and_destroy this temp s0 s1 lt ct ln cn :
  temp ≠ this → objs s0 !! temp = None →
  repr s0 this lt ct → fresh_for s0 s1 temp → repr s1 temp ln cn →
  ∃ s', (Swap this temp;; Array_dtor temp) s1 = Ok tt s' ∧
        repr s' this ln cn ∧ others_kept s0 s' this ∧ objs s' !! temp = None.
Proof.
  intros Hne Hnone Hr0 Hf Hrt.
  pose proof (fresh_for_repr _ _ _ _ _ _ Hf (not_eq_sym Hne) Hr0) as Hr1.
  destruct (Swap_spec this temp s1 _ _ _ _ Hr1 Hrt)
    as (s2 & Heq2 & Hthis2 & Htemp2 & Hheap2 & Hobjs2 & Hswap1 & Hswap2).
  destruct (Array_dtor_spec temp s2 _ _ Htemp2) as (s3 & Heq3 & Hgone & Hkept & Hobjs3).
  pose proof Hf as (Ho1 & Hh1 & Hfr1).
  exists s3. split; [|split; [|split; [|done]]].
  - by rewrite (bind_ok _ _ s1 tt s2 Heq2).
  - apply Hkept; [by apply not_eq_sym| |done]. apply separate_intro.
    intros a1 a2 b i1 i2 H1 H2 Hd1 Hd2.
    rewrite Hswap2, Ho1 in H1 by by apply not_eq_sym. rewrite Hswap1 in H2.
    pose proof (Hfr1 a2 b i2 H2 Hd2) as Hfresh.
    destruct (repr_inv _ _ _ _ Hr0) as [a ? ? ? ? ? ?|a b' blk ? ? ? ? ? ? ? ? ? ?];
      assert (a = a1) as -> by congruence; congruence.
  - intros o l cap Hno Hsep Hro.
    assert (o ≠ temp) as Hnt.
    { intros ->. unfold repr in Hro. by rewrite Hnone in Hro. }
    apply Hkept; [done| |].
    + unfold separate in *. rewrite Hswap2, Ho1 by by apply not_eq_sym.
      rewrite Hobjs2, Ho1 by done. done.
    + apply (repr_transport s1 _ o o); [by apply Hobjs2|done|].
      by eapply fresh_for_repr.
Qed.

Lemma fresh_obj_fresh (s : state T) : objs s !! fresh (dom (objs s)) = None.
Proof. apply not_elem_of_dom, is_fresh. Qed.

Lemma repr_not_fresh s o l cap : repr s o l cap → o ≠ fresh (dom (objs s)).
Proof. intros Hr ->. unfold repr in Hr. by rewrite fresh_obj_fresh in Hr. Qed.

Lemma assign_copy_spec this other s lt ct lo co :
  this ≠ other → repr s this lt ct → repr s other lo co → separate s this other →
  post (assign_copy this other) s
       (λ _ s', repr s' this lo (Z.of_nat (length lo)) ∧ repr s' other lo co ∧
                others_kept s s' this)
       (λ e s', e = bad_alloc ∧ s' = s) False.
Proof.
  intros Hne Hrt Hro Hsep. unfold assign_copy. rewrite decide_True by done.
  apply post_bind, post_fresh_obj. set (temp := fresh (dom (objs s))).
  apply post_bind.
  eapply post_mono;
    [apply (Array_copy_spec temp other s lo co);
       [apply not_eq_sym; by eapply repr_not_fresh|done]| |done|done].
  intros _ s1 (Hr1 & Hf1). simpl.
  destruct (swap_and_destroy this temp s s1 lt ct lo (Z.of_nat (length lo))) as (s' & Heq & Hr' & Hk & _);
    [apply not_eq_sym; by eapply repr_not_fresh|apply fresh_obj_fresh|done..|].
  eapply post_ok; [exact Heq|]. split; [done|]. split; [|done].
  apply Hk; [by apply not_eq_sym|done|done].
Qed.

Lemma assign_copy_self this s : assign_copy this this s = Ok tt s.
Proof. unfold assign_copy. by rewrite decide_False by (intros H; by apply H). Qed.

Lemma assign_ilist_spec this ilist s lt ct :
  repr s this lt ct →
  post (assign_ilist this ilist) s
       (λ _ s', repr s' this ilist (Z.of_nat (length ilist)) ∧ others_kept s s' this)
       (λ e s', e = bad_alloc ∧ s' = s) False.
Proof.
  intros Hrt. unfold assign_ilist.
  apply post_bind, post_fresh_obj. set (temp := fresh (dom (objs s))).
  apply post_bind.
  eapply post_mono; [apply (Array_ilist_spec temp ilist s)| |done|done].
  intros _ s1 (Hr1 & Hf1). simpl.
  destruct (swap_and_destroy this temp s s1 lt ct ilist (Z.of_nat (length ilist))) as (s' & Heq & Hr' & Hk & _);
    [apply not_eq_sym; by eapply repr_not_fresh|apply fresh_obj_fresh|done..|].
  eapply post_ok; [exact Heq|]. by split.
Qed.

(** *** Comparison *)

Lemma reads_cons s p x l : reads s p (x :: l) → load p s = Ok x s ∧ reads s (p +ₚ 1) l.
Proof.
  intros Hr. split.
  - rewrite <- (ptr_add_0 p). by apply (Hr 0%nat).
  - intros k y Hk. rewrite ptr_add_add.
    replace (1 + Z.of_nat k) with (Z.of_nat (S k)) by lia. by apply Hr.
Qed.

Lemma repr_reads s this l cap a :
  repr s this l cap → objs s !! this = Some a → reads s (mData a) l.
Proof.
  intros Hr Ha k x Hk.
  destruct (repr_inv _ _ _ _ Hr) as [a' ? ? ? ? -> ?|a' b blk Ha' Hd ? ? ? ? ? Hb ? Hcont];
    [done|].
  assert (a' = a) as -> by congruence. rewrite Hd. cbn [ptr_add]. rewrite Z.add_0_l.
  eapply load_nat; [done|]. by apply Hcont.
Qed.

(** The range [[mData, mData + mCount)] of an array. *)
Lemma repr_range s this l cap a :
  repr s this l cap → objs s !! this = Some a →
  range_len (mData a) (mData a +ₚ mCount a) s = Ok (length l) s.
Proof.
  intros Hr Ha.
  destruct (repr_inv _ _ _ _ Hr) as [a' ? Hd Hc ? -> ?|a' b blk Ha' Hd Hc ? ? ? ? Hb ? Hcont];
    assert (a' = a) as -> by congruence; rewrite Hd, Hc.
  - done.
  - rewrite range_len_add by (done || lia). by rewrite Nat2Z.id.
Qed.

Lemma equal_loop_spec s : ∀ l1 l2 p q,
  length l1 = length l2 → reads s p l1 → reads s q l2 →
  equal_loop (length l1) p q s = Ok (bool_decide (l1 = l2)) s.
Proof.
  induction l1 as [|x l1 IH]; intros [|y l2] p q Hlen H1 H2; try done.
  cbn [length equal_loop].
  destruct (reads_cons _ _ _ _ H1) as [Hx H1'].
  destruct (reads_cons _ _ _ _ H2) as [Hy H2'].
  rewrite (bind_ok _ _ s x s Hx). rewrite (bind_ok _ _ s y s Hy).
  destruct (decide (x = y)) as [->|Hne].
  - rewrite (IH l2) by (done || (simpl in Hlen; lia)).
    f_equal. apply bool_decide_ext. split; [by intros ->|by intros [= ->]].
  - unfold mret, M_ret, ret. f_equal. symmetry. apply bool_decide_eq_false. by intros [= ? ?].
Qed.

Lemma operator_eq_spec this other s l1 c1 l2 c2 :
  repr s this l1 c1 → repr s other l2 c2 →
  operator_eq this other s = Ok (bool_decide (l1 = l2)) s.
Proof.
  intros H1 H2.
  destruct (repr_fields _ _ _ _ H1) as (a & Ha & Hc1 & _).
  destruct (repr_fields _ _ _ _ H2) as (o & Ho & Hc2 & _).
  unfold operator_eq.
  rewrite (bind_ok _ _ s a s) by (unfold get_obj; by rewrite Ha).
  rewrite (bind_ok _ _ s o s) by (unfold get_obj; by rewrite Ho).
  destruct (decide (mCount a = mCount o)) as [Heq|Hne].
  - unfold std_equal. rewrite (bind_ok _ _ s (length l1) s) by by eapply repr_range.
    apply equal_loop_spec; [lia|by eapply repr_reads..].
  - unfold mret, M_ret, ret. f_equal. symmetry. apply bool_decide_eq_false.
    intros ->. congruence.
Qed.

Lemma compare_loop_spec s : ∀ l1 l2 p q,
  reads s p l1 → reads s q l2 →
  compare_loop (length l1) (length l2) p q s = Ok (lex_compare l1 l2) s.
Proof.
  induction l1 as [|x l1 IH]; intros [|y l2] p q H1 H2; try done.
  cbn [length compare_loop lex_compare].
  destruct (reads_cons _ _ _ _ H1) as [Hx H1'].
  destruct (reads_cons _ _ _ _ H2) as [Hy H2'].
  rewrite (bind_ok _ _ s x s Hx). rewrite (bind_ok _ _ s y s Hy).
  destruct (T_cmp x y); [by apply IH|done|done].
Qed.

Lemma operator_spaceship_spec this other s l1 c1 l2 c2 :
  repr s this l1 c1 → repr s other l2 c2 →
  operator_spaceship this other s = Ok (lex_compare l1 l2) s.
Proof.
  intros H1 H2.
  destruct (repr_fields _ _ _ _ H1) as (a & Ha & _).
  destruct (repr_fields _ _ _ _ H2) as (o & Ho & _).
  unfold operator_spaceship.
  rewrite (bind_ok _ _ s a s) by (unfold get_obj; by rewrite Ha).
  rewrite (bind_ok _ _ s o s) by (unfold get_obj; by rewrite Ho).
  unfold std_lexicographical_compare_three_way.
  rewrite (bind_ok _ _ s (length l1) s) by by eapply repr_range.
  rewrite (bind_ok _ _ s (length l2) s) by by eapply repr_range.
  apply compare_loop_spec; by eapply repr_reads.
Qed.

(** *** Operations that rewrite the buffer in place *)

Lemma in_place s s' this a a' b blk' l' cap :
  objs s !! this = Some a → mData a = Ptr b 0 →
  heap s' = <[b := blk']> (heap s) → objs s' !! this = Some a' →
  (∀ o, o ≠ this → objs s' !! o = objs s !! o) →
  mData a' = Ptr b 0 → mCount a' = Z.of_nat (length l') → mCapacity a' = cap →
  Z.of_nat (length l') ≤ cap → 0 < cap → cap ≤ PTRDIFF_MAX →
  Z.of_nat (length blk') = cap → content blk' l' →
  repr s' this l' cap ∧ frame s s' this.
Proof.
  intros Ha Hd Hheap Ha' Hothers Hd' Hc' Hm' Hle Hpos Hmax Hlen Hcont. split.
  - eapply (repr_intro _ _ _ cap a' b blk'); try done. rewrite Hheap. apply lookup_insert_eq.
  - split; [done|]. split.
    + intros b0 blk0 Hb0 Hdiff. rewrite Hheap, lookup_insert_ne; [done|].
      intros <-. by eapply Hdiff.
    + intros a'' b0 o. rewrite Ha'. intros [= <-] Hd''. right. exists a.
      split; [done|congruence].
Qed.

Lemma read_loop_spec s : ∀ l p, reads s p l → read_loop (length l) p s = Ok l s.
Proof.
  induction l as [|x l IH]; intros p Hr; [done|]. cbn [length read_loop].
  destruct (reads_cons _ _ _ _ Hr) as [Hx Hr'].
  rewrite (bind_ok _ _ s x s Hx). by rewrite (bind_ok _ _ s l s (IH _ Hr')).
Qed.

Lemma copy_list_spec : ∀ vs s b blk (j : nat),
  heap s !! b = Some blk → (j + length vs ≤ length blk)%nat →
  ∃ blk', copy_list vs (Ptr b (Z.of_nat j)) s
          = Ok tt (mkState (<[b := blk']> (heap s)) (objs s)) ∧
          length blk' = length blk ∧
          (∀ k x, vs !! k = Some x → blk' !! (j + k)%nat = Some (Live x)) ∧
          (∀ k, ¬ (j ≤ k < j + length vs)%nat → blk' !! k = blk !! k).
Proof.
  induction vs as [|v vs IH]; intros s b blk j Hb Hlen; cbn [copy_list length] in *.
  { exists blk. split; [|split; [done|split; [done|done]]].
    unfold mret, M_ret, ret. f_equal. destruct s; simpl in *. f_equal. by rewrite insert_id. }
  unfold std_construct_at.
  rewrite (bind_ok _ _ _ _ _ (write_nat _ _ _ j (Live v) Hb ltac:(lia))).
  rewrite ptr_nat_S.
  edestruct (IH (mkState (<[b := <[j := Live v]> blk]> (heap s)) (objs s)) b
                (<[j := Live v]> blk) (S j)) as (blk' & Heq & Hlen' & Hval & Hout).
  { simpl. by rewrite lookup_insert_eq. }
  { rewrite length_insert. lia. }
  exists blk'. split; [|split; [|split]].
  - rewrite Heq. simpl. by rewrite insert_insert_eq.
  - by rewrite Hlen', length_insert.
  - intros [|k] x Hk; simpl in Hk.
    + injection Hk as ->. rewrite Nat.add_0_r. rewrite Hout by lia.
      apply list_lookup_insert_eq. lia.
    + replace (j + S k)%nat with (S j + k)%nat by lia. by apply Hval.
  - intros k Hk. rewrite Hout by lia. apply list_lookup_insert_ne. lia.
Qed.

Lemma sort_insert_perm comp x l : sort_insert comp x l ≡ₚ x :: l.
Proof.
  induction l as [|y l IH]; simpl; [done|].
  destruct (comp y x); [|done]. rewrite IH. apply Permutation_swap.
Qed.

Lemma sort_list_perm comp l : sort_list comp l ≡ₚ l.
Proof.
  induction l as [|x l IH]; simpl; [done|].
  rewrite sort_insert_perm. by rewrite IH.
Qed.

Lemma sort_insert_ordered comp x l :
  (∀ u v, comp u v = true → comp v u = false) →
  ordered comp l → ordered comp (sort_insert comp x l).
Proof.
  intros Hasym. induction l as [|y l IH]; intros Hl; [done|].
  cbn [sort_insert]. destruct (comp y x) eqn:Hyx.
  - destruct Hl as [Hhd Htl]. specialize (IH Htl). split; [|done].
    destruct l as [|z l]; [by apply Hasym|].
    cbn [sort_insert] in *. destruct (comp z x); [done|by apply Hasym].
  - by split.
Qed.

Lemma sort_list_ordered comp l :
  (∀ u v, comp u v = true → comp v u = false) → ordered comp (sort_list comp l).
Proof.
  intros Hasym. induction l as [|x l IH]; [done|]. by apply sort_insert_ordered.
Qed.

Lemma Sort_undefined this comp s l cap :
  repr s this l cap → strict_weak_on comp l = false → Sort this comp s = UB.
Proof.
  intros Hr Hno. destruct (repr_fields _ _ _ _ Hr) as (a & Ha & _). unfold Sort.
  rewrite (bind_ok _ _ s a s) by (unfold get_obj; by rewrite Ha).
  unfold std_sort. rewrite (bind_ok _ _ s (length l) s) by by eapply repr_range.
  rewrite (bind_ok _ _ s l s) by by eapply read_loop_spec, repr_reads.
  by rewrite Hno.
Qed.

Lemma Sort_spec this comp s l cap :
  repr s this l cap → strict_weak_on comp l = true →
  ∃ s', Sort this comp s = Ok tt s' ∧ repr s' this (sort_list comp l) cap ∧ frame s s' this.
Proof.
  intros Hr Hswo. pose proof (Permutation_length (sort_list_perm comp l)) as Hlensort.
  destruct (repr_fields _ _ _ _ Hr) as (a & Ha & _).
  assert (∀ s', copy_list (sort_list comp l) (mData a) s = Ok tt s' →
                Sort this comp s = Ok tt s') as Hrun.
  { intros s' Heq. unfold Sort.
    rewrite (bind_ok _ _ s a s) by (unfold get_obj; by rewrite Ha).
    unfold std_sort. rewrite (bind_ok _ _ s (length l) s) by by eapply repr_range.
    rewrite (bind_ok _ _ s l s) by by eapply read_loop_spec, repr_reads.
    by rewrite Hswo. }
  destruct (repr_inv _ _ _ _ Hr)
    as [a0 Ha0 Hd Hc Hm -> ->|a0 b blk Ha0 Hd Hc Hm Hle Hpos Hmax Hb Hlen Hcont];
    assert (a0 = a) as -> by congruence.
  - exists s. split; [by apply Hrun|]. split; [done|apply frame_refl].
  - destruct (copy_list_spec (sort_list comp l) s b blk 0 Hb) as (blk' & Heq & Hlen' & Hval & _);
      [lia|].
    exists (mkState (<[b := blk']> (heap s)) (objs s)). split.
    + apply Hrun. by rewrite Hd.
    + eapply (in_place s _ this a a b blk'); try done; lia.
Qed.

(** *** Capacity management *)

Lemma Reserve_spec this n s l cap :
  repr s this l cap → 0 ≤ n →
  post (Reserve this n) s
       (λ _ s', repr s' this l (Z.max cap n) ∧ frame s s' this)
       (λ e s', e = bad_alloc ∧ s' = s) False.
Proof.
  intros Hr Hn. destruct (repr_fields _ _ _ _ Hr) as (a & Ha & Hc & Hm & Hle & Hmax).
  unfold Reserve. apply post_bind, post_get_obj. rewrite Ha, Hm.
  destruct (decide (n > cap)) as [Hgt|Hngt].
  - eapply post_mono; [apply (reallocate_spec this n s l cap Hr); lia| | |done].
    + intros _ s' (Hr' & Hf' & _). rewrite Z.max_r by lia. by split.
    + by intros e s' (-> & -> & _).
  - apply post_ret. rewrite Z.max_l by lia. split; [done|apply frame_refl].
Qed.

(** Setting [mCount] to the value it has. *)
Lemma set_mCount_same this s a :
  objs s !! this = Some a → set_mCount this (mCount a) s = Ok tt s.
Proof.
  intros Ha. unfold set_mCount.
  rewrite (bind_ok _ _ s a s) by (unfold get_obj; by rewrite Ha).
  unfold set_obj. f_equal. destruct s as [h o]; simpl in *. f_equal.
  rewrite <- (insert_id o this a Ha) at 2. by destruct a.
Qed.

Lemma content_app_fill blk blk' l (n : nat) v :
  content blk l →
  (∀ k, (length l ≤ k < length l + n)%nat → blk' !! k = Some (Live v)) →
  (∀ k, ¬ (length l ≤ k < length l + n)%nat → blk' !! k = blk !! k) →
  content blk' (l ++ replicate n v).
Proof.
  intros Hc Hfill Hout k x Hk.
  destruct (decide (k < length l)%nat) as [Hlt|Hge].
  - rewrite lookup_app_l in Hk by done. rewrite Hout by lia. by apply Hc.
  - rewrite lookup_app_r in Hk by lia. apply lookup_replicate in Hk as [-> Hk].
    apply Hfill. lia.
Qed.

Lemma Resize_fill_spec this n v s l cap :
  repr s this l cap → 0 ≤ n →
  post (Resize_fill this n v) s
       (λ _ s', repr s' this (take (Z.to_nat n) l ++ replicate (Z.to_nat n - length l) v)
                     (new_capacity cap n) ∧
                frame s s' this)
       (λ e s', e = bad_alloc ∧ s' = s) False.
Proof.
  intros Hr Hn. destruct (repr_fields _ _ _ _ Hr) as (a & Ha & Hc & Hm & Hle & Hmax).
  unfold Resize_fill. apply post_bind, post_get_obj. rewrite Ha, Hc.
  destruct (decide (n > Z.of_nat (length l))) as [Hgt|Hngt].
  - apply post_bind, post_bind.
    eapply post_mono; [apply (ensureCapacity_spec _ _ _ l cap Hr Hn)| | |done].
    2:{ by intros e s' (-> & -> & _). }
    intros _ s1 (Hr1 & Hf1). simpl.
    pose proof (new_capacity_ge cap n) as Hge. set (cap1 := new_capacity cap n) in *.
    destruct (repr_inv _ _ _ _ Hr1)
      as [a1 ? ? ? ? ? ?|a1 b1 blk1 Ha1 Hd1 Hc1 Hm1 Hle1 Hpos1 Hmax1 Hb1 Hlen1 Hcont1]; [lia|].
    apply post_bind, post_get_obj. rewrite Ha1, Hd1, Hc1.
    assert (to_size_t (n - Z.of_nat (length l)) = Z.of_nat (Z.to_nat n - length l)) as ->.
    { rewrite to_size_t_id; [lia|]. unfold SIZE_MAX, PTRDIFF_MAX in *. lia. }
    unfold std_uninitialized_fill_n. rewrite Nat2Z.id. cbn [ptr_add]. rewrite Z.add_0_l.
    destruct (fill_loop_spec (Z.to_nat n - length l) s1 b1 blk1 (length l) v Hb1)
      as (blk2 & Heq2 & Hlen2 & Hfill2 & Hout2); [lia|].
    eapply post_ok; [exact Heq2|]. apply set_mCount_post. cbn [objs heap]. rewrite Ha1.
    rewrite firstn_all2 by lia.
    assert (length (l ++ replicate (Z.to_nat n - length l) v) = Z.to_nat n) as Hlen'.
    { rewrite length_app, length_replicate. lia. }
    split.
    + eapply (repr_intro _ _ _ cap1 _ b1 blk2); cbn [objs heap mData mCount mCapacity];
        [apply lookup_insert_eq | done | simpl; lia | done | lia | done | done
        | apply lookup_insert_eq | lia | by eapply content_app_fill].
    + eapply (frame_extend _ _ _ _ _ _ blk2); [exact Hf1|exact Ha1|exact Hd1|done|done].
  - assert (Z.to_nat n - length l = 0)%nat as -> by lia. cbn [replicate]. rewrite app_nil_r.
    assert (new_capacity cap n = cap) as ->.
    { unfold new_capacity. by rewrite decide_False by lia. }
    destruct (decide (n < Z.of_nat (length l))) as [Hlt|Heq].
    + destruct (repr_inv _ _ _ _ Hr)
        as [a0 ? ? ? ? -> ?|a0 b blk Ha0 Hd _ _ _ Hpos _ Hb Hlen Hcont]; [simpl in Hlt; lia|].
      assert (a0 = a) as -> by congruence.
      assert (to_size_t (Z.of_nat (length l) - n) = Z.of_nat (length l - Z.to_nat n)) as ->.
      { rewrite to_size_t_id; [lia|]. unfold SIZE_MAX, PTRDIFF_MAX in *. lia. }
      unfold std_destroy_n. rewrite Nat2Z.id, Hd. cbn [ptr_add]. rewrite Z.add_0_l.
      destruct (destroy_loop_spec (length l - Z.to_nat n) s b blk (Z.to_nat n) Hb)
        as (blk' & Heq' & Hlen' & Hout').
      { intros k Hk. destruct (lookup_lt_is_Some_2 l k) as [x Hx]; [lia|].
        exists x. by apply Hcont. }
      rewrite Z2Nat.id in Heq' by lia.
      apply post_bind. eapply post_ok; [exact Heq'|].
      apply set_mCount_post. cbn [objs heap]. rewrite Ha.
      eapply (in_place s _ this a _ b blk'); cbn [objs heap mData mCount mCapacity];
        [done|done|done|apply lookup_insert_eq| |done| |done| |done|done|lia|].
      * intros o Hne. by rewrite lookup_insert_ne.
      * cbn [mCount]. rewrite length_take. lia.
      * rewrite length_take. lia.
      * intros k x Hk. pose proof (lookup_lt_Some _ _ _ Hk) as Hklt.
        rewrite length_take in Hklt. rewrite lookup_take_lt in Hk by lia.
        rewrite Hout' by lia. by apply Hcont.
    + assert (n = Z.of_nat (length l)) as -> by lia. rewrite Nat2Z.id, firstn_all.
      apply post_bind, post_ret. rewrite <- Hc.
      eapply post_ok; [by apply set_mCount_same|]. split; [done|apply frame_refl].
Qed.

Lemma Resize_spec this n s l cap :
  repr s this l cap → 0 ≤ n →
  post (Resize this n) s
       (λ _ s', repr s' this
                     (take (Z.to_nat n) l ++ replicate (Z.to_nat n - length l) T_default)
                     (new_capacity cap n) ∧
                frame s s' this)
       (λ e s', e = bad_alloc ∧ s' = s) False.
Proof. apply Resize_fill_spec. Qed.

(** *** Removal by value and by predicate *)

Lemma found_lt k l : (k < length l)%nat → found k l = Z.of_nat k.
Proof. intros Hk. unfold found. by rewrite decide_True. Qed.

Lemma found_ge k l : ¬ (k < length l)%nat → found k l = INDEX_NONE.
Proof. intros Hk. unfold found. by rewrite decide_False. Qed.

Lemma repr_index_none s this l cap : repr s this l cap → Z.of_nat (length l) < INDEX_NONE.
Proof.
  intros Hr. destruct (repr_fields _ _ _ _ Hr) as (a & _ & _ & _ & Hle & Hmax).
  unfold INDEX_NONE, SIZE_MAX, PTRDIFF_MAX in *. lia.
Qed.

Lemma delete_beyond (l : list T) k : (length l ≤ k)%nat → delete k l = l.
Proof.
  intros Hk. rewrite delete_take_drop, take_ge, drop_ge by lia. apply app_nil_r.
Qed.

(** The removal of an element that is not the last one, of a type
    whose destructor is not trivial: [std::move] assigns to the element
    that [std::destroy_at] has destroyed. *)
Lemma RemoveAt_undefined this (i : nat) s l cap :
  repr s this l cap → (S i < length l)%nat → trivially_destructible = false →
  RemoveAt this (Z.of_nat i) s = UB.
Proof.
  intros Hr Hi Htd.
  destruct (repr_inv _ _ _ _ Hr)
    as [a Ha Hd Hc Hm -> ->|a b blk Ha Hd Hc Hm Hle Hpos Hmax Hb Hlen Hcont];
    [simpl in Hi; lia|].
  destruct (lookup_lt_is_Some_2 l i) as [x Hx]; [lia|].
  assert (to_size_t (mCount a - 1) = Z.of_nat (length l - 1)) as Hsz.
  { rewrite Hc, to_size_t_id; [lia|]. unfold SIZE_MAX, PTRDIFF_MAX in *. lia. }
  set (blk1 := <[i := Raw]> blk).
  set (s1 := mkState (<[b := blk1]> (heap s)) (objs s)).
  assert (std_destroy_at (Ptr b (Z.of_nat i)) s = Ok tt s1) as Heq1.
  { eapply destroy_at_nat; [done|]. by apply Hcont. }
  unfold RemoveAt.
  rewrite (bind_ok _ _ s tt s).
  2:{ apply (checkRange_passes _ _ false _ a Ha).
      rewrite (repr_count_plus _ _ _ _ _ 0 Hr Ha) by lia. lia. }
  rewrite (bind_ok _ _ s a s) by (unfold get_obj; by rewrite Ha).
  rewrite Hsz, Hd, Hc. cbn [ptr_add].
  replace (0 + Z.of_nat i) with (Z.of_nat i) by lia.
  rewrite (bind_ok _ _ s tt s1 Heq1). rewrite decide_True by lia.
  apply bind_ub.
  replace (Z.of_nat i + 1) with (Z.of_nat (S i)) by lia.
  replace (0 + Z.of_nat (length l)) with (Z.of_nat (length l)) by lia.
  unfold std_move, range_len. cbn [ptr_diff]. rewrite decide_True by done.
  rewrite decide_True by lia. erewrite bind_ok; [|reflexivity].
  replace (Z.to_nat (Z.of_nat (length l) - Z.of_nat (S i))) with (S (length l - S (S i)))
    by lia.
  cbn [move_assign_loop]. apply bind_ub.
  apply (move_assign_destroyed s1 b blk1 (S i) i Htd).
  - subst s1. simpl. by rewrite lookup_insert_eq.
  - subst blk1. apply list_lookup_insert_eq. by eapply lookup_lt_Some, Hcont.
Qed.

Lemma Remove_spec this value s l cap :
  repr s this l cap →
  let k := find_first (λ x, bool_decide (x = value)) l in
  trivially_destructible = true ∨ (length l ≤ S k)%nat →
  ∃ s', Remove this value s = Ok (bool_decide (k < length l)%nat) s' ∧
        repr s' this (delete k l) cap ∧ frame s s' this.
Proof.
  intros Hr k Htd. unfold Remove. rewrite (bind_ok _ _ s _ s (Find_spec _ value _ _ _ Hr)).
  fold k. pose proof (repr_index_none _ _ _ _ Hr) as Hnone.
  destruct (decide (k < length l)%nat) as [Hlt|Hge].
  - rewrite found_lt by done. rewrite decide_True by lia.
    destruct (RemoveAt_spec this k s l cap Hr Hlt) as (s' & Heq & Hr' & Hf');
      [destruct Htd; [by left|right; lia]|].
    exists s'. rewrite (bind_ok _ _ s tt s' Heq). rewrite bool_decide_eq_true_2 by done.
    by split.
  - rewrite found_ge by done. rewrite decide_False by (intros H; by apply H).
    exists s. rewrite bool_decide_eq_false_2 by done. split; [done|].
    rewrite delete_beyond by lia. split; [done|apply frame_refl].
Qed.

Lemma Remove_undefined this value s l cap :
  repr s this l cap →
  (S (find_first (λ x, bool_decide (x = value)) l) < length l)%nat →
  trivially_destructible = false →
  Remove this value s = UB.
Proof.
  intros Hr Hk Htd. unfold Remove.
  rewrite (bind_ok _ _ s _ s (Find_spec _ value _ _ _ Hr)).
  pose proof (repr_index_none _ _ _ _ Hr) as Hnone.
  rewrite found_lt by lia. rewrite decide_True by lia.
  apply bind_ub. by eapply RemoveAt_undefined.
Qed.

Lemma find_first_lt_iff pred l :
  (find_first pred l < length l)%nat ↔ ∃ x, x ∈ l ∧ pred x = true.
Proof.
  split.
  - intros Hlt. destruct (find_first_found pred l Hlt) as (x & Hx & Hp).
    exists x. split; [by eapply list_elem_of_lookup_2|done].
  - intros (x & Hx & Hp). apply list_elem_of_lookup in Hx as [j Hj].
    destruct (decide (find_first pred l < length l)%nat) as [|Hge]; [done|].
    pose proof (lookup_lt_Some _ _ _ Hj).
    rewrite (find_first_before pred l j x) in Hp; [done| |done].
    pose proof (find_first_le pred l). lia.
Qed.

Lemma ContainsIf_spec this pred s l cap :
  repr s this l cap →
  ContainsIf this pred s = Ok (bool_decide (find_first pred l < length l)%nat) s.
Proof.
  intros Hr. unfold ContainsIf. rewrite (bind_ok _ _ s _ s (FindIf_spec _ pred _ _ _ Hr)).
  pose proof (repr_index_none _ _ _ _ Hr) as Hnone.
  unfold mret, M_ret, ret. f_equal. apply bool_decide_ext.
  destruct (decide (find_first pred l < length l)%nat) as [Hlt|Hge].
  - rewrite found_lt by done. split; [done|lia].
  - rewrite found_ge by done. split; [by intros H|done].
Qed.

Lemma Contains_spec this value s l cap :
  repr s this l cap →
  Contains this value s = Ok (bool_decide (value ∈ l)) s.
Proof.
  intros Hr. unfold Contains. rewrite (bind_ok _ _ s _ s (Find_spec _ value _ _ _ Hr)).
  pose proof (repr_index_none _ _ _ _ Hr) as Hnone.
  unfold mret, M_ret, ret. f_equal. apply bool_decide_ext.
  set (pred := λ x, bool_decide (x = value)).
  destruct (decide (find_first pred l < length l)%nat) as [Hlt|Hge].
  - rewrite found_lt by done. split; [intros _|lia].
    apply find_first_lt_iff in Hlt as (x & Hx & Hp).
    apply bool_decide_eq_true in Hp. by subst x.
  - rewrite found_ge by done. split; [by intros H|]. intros Hin. exfalso. apply Hge.
    apply find_first_lt_iff. exists value. split; [done|]. by apply bool_decide_eq_true.
Qed.

Lemma remove_loop_spec pred b : ∀ R s blk (i f : nat),
  heap s !! b = Some blk → (f < i)%nat → live_range blk f (i - f) →
  (∀ k x, R !! k = Some x → blk !! (i + k)%nat = Some (Live x)) →
  ∃ blk', remove_loop (length R) (Ptr b (Z.of_nat i)) (Ptr b (Z.of_nat f)) pred s
          = Ok (Ptr b (Z.of_nat (f + length (retained pred R))))
               (mkState (<[b := blk']> (heap s)) (objs s)) ∧
          length blk' = length blk ∧
          (∀ k, (k < f ∨ i + length R ≤ k)%nat → blk' !! k = blk !! k) ∧
          (∀ k x, retained pred R !! k = Some x → blk' !! (f + k)%nat = Some (Live x)) ∧
          live_range blk' f (i + length R - f).
Proof.
  induction R as [|x R IH]; intros s blk i f Hb Hfi Hlive Hread; cbn [length remove_loop].
  { exists blk. split; [|split; [done|split; [done|split; [done|]]]].
    - unfold mret, M_ret, ret. rewrite Nat.add_0_r. f_equal.
      destruct s; simpl in *. f_equal. by rewrite insert_id.
    - by rewrite Nat.add_0_r. }
  assert (blk !! i = Some (Live x)) as Hx.
  { rewrite <- (Nat.add_0_r i). by apply Hread. }
  rewrite (bind_ok _ _ s x s) by by eapply load_nat.
  rewrite !ptr_nat_S. unfold retained in *.
  destruct (pred x) eqn:Hp.
  - rewrite filter_cons_False by by rewrite Hp.
    destruct (IH s blk (S i) f Hb) as (blk' & Heq & Hlen & Hout & Hval & Hlive'); [lia| | |].
    { intros k Hk. destruct (decide (k = i)) as [->|Hne]; [by exists x|]. apply Hlive. lia. }
    { intros k y Hk. replace (S i + k)%nat with (i + S k)%nat by lia. by apply Hread. }
    exists blk'. split; [done|]. split; [done|]. split; [|split; [done|]].
    + intros k Hk. apply Hout. lia.
    + intros k Hk. apply Hlive'. lia.
  - rewrite filter_cons_True by done. cbn [length].
    destruct (Hlive f) as [w Hw]; [lia|]. pose proof (lookup_lt_Some _ _ _ Hw) as Hflt.
    rewrite (bind_ok _ _ _ _ _ (move_to_same _ _ _ _ f _ Hb Hx Hflt)).
    set (blk1 := <[i := Live (moved x)]> (<[f := Live x]> blk)).
    destruct (IH (mkState (<[b := blk1]> (heap s)) (objs s)) blk1 (S i) (S f))
      as (blk' & Heq & Hlen & Hout & Hval & Hlive'); [|lia| | |].
    { simpl. by rewrite lookup_insert_eq. }
    { intros k Hk. destruct (decide (k = i)) as [->|Hne].
      - exists (moved x). subst blk1. apply list_lookup_insert_eq.
        rewrite length_insert. by eapply lookup_lt_Some.
      - destruct (Hlive k) as [y Hy]; [lia|]. exists y. subst blk1.
        by rewrite !list_lookup_insert_ne by lia. }
    { intros k y Hk. subst blk1. rewrite !list_lookup_insert_ne by lia.
      replace (S i + k)%nat with (i + S k)%nat by lia. by apply Hread. }
    assert (length blk1 = length blk) as Hlen1 by (subst blk1; by rewrite !length_insert).
    assert (blk' !! f = Some (Live x)) as Hf'.
    { rewrite Hout by lia. subst blk1. rewrite list_lookup_insert_ne by lia.
      by apply list_lookup_insert_eq. }
    exists blk'. split; [|split; [congruence|split; [|split]]].
    + rewrite Heq. simpl. rewrite insert_insert_eq. do 3 f_equal. lia.
    + intros k Hk. rewrite Hout by lia. subst blk1. by rewrite !list_lookup_insert_ne by lia.
    + intros [|k] y Hk; simpl in Hk.
      * injection Hk as <-. by rewrite Nat.add_0_r.
      * replace (f + S k)%nat with (S f + k)%nat by lia. by apply Hval.
    + intros k Hk. destruct (decide (k = f)) as [->|Hne]; [by exists x|]. apply Hlive'. lia.
Qed.

Lemma retained_all pred l :
  (∀ j x, l !! j = Some x → pred x = false) → retained pred l = l.
Proof.
  unfold retained. induction l as [|y l IH]; intros Hall; [done|].
  rewrite filter_cons_True by apply (Hall 0%nat y eq_refl).
  f_equal. apply IH. intros j x Hj. by apply (Hall (S j)).
Qed.

Lemma retained_split pred l :
  (find_first pred l < length l)%nat →
  retained pred l
  = take (find_first pred l) l ++ retained pred (drop (S (find_first pred l)) l).
Proof.
  intros Hlt. destruct (find_first_found pred l Hlt) as (x & Hx & Hp).
  rewrite <- (take_drop_middle l _ x Hx) at 1. unfold retained.
  rewrite filter_app, filter_cons_False by by rewrite Hp. f_equal.
  apply retained_all. intros j y Hj. pose proof (lookup_lt_Some _ _ _ Hj) as Hjlt.
  rewrite length_take in Hjlt. rewrite lookup_take_lt in Hj by lia.
  eapply find_first_before; [|done]. lia.
Qed.

Lemma range_len_nat b (i j : nat) s :
  (i ≤ j)%nat → range_len (Ptr b (Z.of_nat i)) (Ptr b (Z.of_nat j)) s = Ok (j - i)%nat s.
Proof.
  intros Hij. unfold range_len. cbn [ptr_diff]. rewrite decide_True by done.
  rewrite decide_True by lia. unfold ret. f_equal. lia.
Qed.

Lemma std_find_if_spec pred s b blk l :
  heap s !! b = Some blk → content blk l →
  std_find_if (Ptr b 0) (Ptr b (Z.of_nat (length l))) pred s
  = Ok (Ptr b (Z.of_nat (find_first pred l))) s.
Proof.
  intros Hb Hcont. unfold std_find_if.
  rewrite (bind_ok _ _ s (length l) s).
  2:{ change 0 with (Z.of_nat 0). rewrite range_len_nat by lia. by rewrite Nat.sub_0_r. }
  by apply (find_loop_spec pred l s b blk 0 Hb).
Qed.

Lemma std_remove_if_spec pred s b blk l :
  heap s !! b = Some blk → content blk l → (length l ≤ length blk)%nat →
  ∃ blk', std_remove_if (Ptr b 0) (Ptr b (Z.of_nat (length l))) pred s
          = Ok (Ptr b (Z.of_nat (length (retained pred l))))
               (mkState (<[b := blk']> (heap s)) (objs s)) ∧
          length blk' = length blk ∧ content blk' (retained pred l) ∧
          live_range blk' 0 (length l).
Proof.
  intros Hb Hcont Hlen.
  pose proof (std_find_if_spec pred s b blk l Hb Hcont) as Hfind.
  pose proof (find_first_le pred l) as Hle. set (k0 := find_first pred l) in *.
  destruct (decide (k0 < length l)%nat) as [Hlt|Hge].
  - destruct (find_first_found pred l Hlt) as (x & Hx & Hp). fold k0 in Hx.
    destruct (remove_loop_spec pred b (drop (S k0) l) s blk (S k0) k0 Hb)
      as (blk' & Heq & Hlen' & Hout & Hval & Hlive); [lia| | |].
    { intros k Hk. assert (k = k0) as -> by lia. exists x. by apply Hcont. }
    { intros k y Hk. rewrite lookup_drop in Hk. by apply Hcont. }
    exists blk'. rewrite (retained_split pred l Hlt). fold k0.
    rewrite length_app, length_take, Nat.min_l by lia.
    split; [|split; [done|split]].
    + unfold std_remove_if. rewrite (bind_ok _ _ s _ s Hfind).
      rewrite decide_True by (intros [= Heq']; lia). rewrite ptr_nat_S.
      rewrite (bind_ok _ _ s (length (drop (S k0) l)) s); [exact Heq|].
      rewrite range_len_nat by lia. by rewrite length_drop.
    + intros k y Hk. destruct (decide (k < k0)%nat) as [Hk0|Hk0].
      * rewrite lookup_app_l in Hk by (rewrite length_take; lia).
        rewrite lookup_take_lt in Hk by lia. rewrite Hout by lia. by apply Hcont.
      * rewrite lookup_app_r in Hk by (rewrite length_take; lia).
        rewrite length_take, Nat.min_l in Hk by lia.
        replace k with (k0 + (k - k0))%nat by lia. by apply Hval.
    + intros k Hk. destruct (decide (k < k0)%nat) as [Hk0|Hk0].
      * rewrite Hout by lia. destruct (lookup_lt_is_Some_2 l k) as [y Hy]; [lia|].
        exists y. by apply Hcont.
      * apply Hlive. rewrite length_drop. lia.
  - assert (k0 = length l) as Hk0 by lia.
    rewrite retained_all.
    2:{ intros j y Hj. eapply (find_first_before pred l j); [|done].
        pose proof (lookup_lt_Some _ _ _ Hj). fold k0. lia. }
    exists blk. split; [|split; [done|split; [done|by apply content_live_range]]].
    unfold std_remove_if. rewrite (bind_ok _ _ s _ s Hfind). rewrite Hk0.
    rewrite decide_False by (intros H; by apply H).
    unfold mret, M_ret, ret. f_equal. destruct s; simpl in *. f_equal. by rewrite insert_id.
Qed.

Lemma RemoveAll_spec this pred s l cap :
  repr s this l cap →
  ∃ s', RemoveAll this pred s
        = Ok (Z.of_nat (length l - length (retained pred l))) s' ∧
        repr s' this (retained pred l) cap ∧ frame s s' this.
Proof.
  intros Hr.
  destruct (repr_inv _ _ _ _ Hr)
    as [a Ha Hd Hc Hm -> ->|a b blk Ha Hd Hc Hm Hle Hpos Hmax Hb Hlen Hcont].
  - exists s. split; [|split; [done|apply frame_refl]]. unfold RemoveAll.
    rewrite (bind_ok _ _ s a s) by (unfold get_obj; by rewrite Ha).
    rewrite Hd, Hc. done.
  - pose proof (length_filter (λ x, pred x = false) l) as Hfl. fold (retained pred l) in Hfl.
    set (m := length (retained pred l)) in *.
    destruct (std_remove_if_spec pred s b blk l Hb Hcont) as (blk' & Heq & Hlen' & Hcont' & Hlive);
      [lia|]. fold m in Heq.
    set (s1 := mkState (<[b := blk']> (heap s)) (objs s)) in *.
    assert (∀ r s',
      (if decide (Ptr b (Z.of_nat m) = Ptr b (Z.of_nat (length l))) then mret 0
       else
         match ptr_diff (Ptr b (Z.of_nat (length l))) (Ptr b (Z.of_nat m)) with
         | Some d =>
             let removedCount := to_size_t d in
             std_destroy (Ptr b (Z.of_nat m)) (Ptr b (Z.of_nat (length l)));;
             set_mCount this (to_size_t (Z.of_nat (length l) - removedCount));;
             mret removedCount
         | None => undefined
         end) s1 = Ok r s' →
      RemoveAll this pred s = Ok r s') as Hrun.
    { intros r s' Htail. unfold RemoveAll.
      rewrite (bind_ok _ _ s a s) by (unfold get_obj; by rewrite Ha).
      rewrite Hd, Hc. cbn [ptr_add]. rewrite Z.add_0_l.
      by rewrite (bind_ok _ _ s _ _ Heq). }
    destruct (decide (m = length l)) as [Hm'|Hm'].
    + exists s1. split.
      * apply Hrun. rewrite Hm'. rewrite decide_True by done. by rewrite Nat.sub_diag.
      * eapply (in_place s _ this a a b blk'); subst s1; cbn [objs heap]; try done;
          fold m; lia.
    + destruct (destroy_loop_spec (length l - m) s1 b blk' m) as (blk2 & Heq2 & Hlen2 & Hout2).
      { subst s1. simpl. apply lookup_insert_eq. }
      { intros k Hk. apply Hlive. lia. }
      exists (mkState (<[b := blk2]> (heap s))
                (<[this := mkArray (mData a) (Z.of_nat m) (mCapacity a)]> (objs s))).
      split.
      * apply Hrun. rewrite decide_False by (intros [= Hz]; lia). cbn [ptr_diff].
        rewrite decide_True by done. cbn zeta.
        assert (to_size_t (Z.of_nat (length l) - Z.of_nat m) = Z.of_nat (length l - m)) as ->.
        { rewrite to_size_t_id; [lia|]. unfold SIZE_MAX, PTRDIFF_MAX in *. lia. }
        assert (to_size_t (Z.of_nat (length l) - Z.of_nat (length l - m)) = Z.of_nat m) as ->.
        { rewrite to_size_t_id; [lia|]. unfold SIZE_MAX, PTRDIFF_MAX in *. lia. }
        rewrite (bind_ok _ _ s1 tt (mkState (<[b := blk2]> (heap s1)) (objs s1))).
        2:{ unfold std_destroy. rewrite (bind_ok _ _ s1 (length l - m)%nat s1); [exact Heq2|].
            by rewrite range_len_nat by lia. }
        subst s1. cbn [heap objs]. rewrite insert_insert_eq.
        erewrite bind_ok; [reflexivity|].
        unfold set_mCount.
        by rewrite (bind_ok _ _ _ a _) by (unfold get_obj; cbn [objs]; by rewrite Ha).
      * eapply (in_place s _ this a _ b blk2); cbn [objs heap mData mCount mCapacity];
          [done|done|done|apply lookup_insert_eq| |done|done|done|fold m; lia|done|done|lia|].
        -- intros o Hne. by rewrite lookup_insert_ne.
        -- intros k y Hk. pose proof (lookup_lt_Some _ _ _ Hk) as Hklt. fold m in Hklt.
           rewrite Hout2 by lia. by apply Hcont'.
Qed.

(** *** Bulk insertion, whatever the index and the length *)

Lemma post_is_throw {A} (m : M A) s e s' (Q : A → state T → Prop)
    (E : exn → state T → Prop) U :
  m s = Throw e s' → E e s' → post m s Q E U.
Proof. unfold post. by intros ->. Qed.

Lemma new_capacity_same cap n : n ≤ cap → new_capacity cap n = cap.
Proof. intros Hn. unfold new_capacity. by rewrite decide_False by lia. Qed.

Lemma insertImpl_total this index p vs s l cap :
  repr s this l cap → 0 ≤ index →
  (vs ≠ [] → source s p vs ∧ outside s this p) →
  Z.of_nat (length vs) ≤ PTRDIFF_MAX →
  post (insertImpl this index p (Z.of_nat (length vs))) s
       (λ r s', r = index ∧ index ≤ Z.of_nat (length l) ∧
                repr s' this (insert_at (Z.to_nat index) vs l)
                     (new_capacity cap (Z.of_nat (length l) + Z.of_nat (length vs))) ∧
                frame s s' this)
       (λ e s', s' = s ∧ (e = out_of_range ↔ Z.of_nat (length l) < index))
       (short_tail index (length vs) l).
Proof.
  intros Hr Hidx Hsrc Hmax.
  destruct (repr_fields _ _ _ _ Hr) as (a & Ha & Hc & Hm & Hle & Hcmax).
  destruct (decide (Z.of_nat (length l) < index)) as [Hout|Hin].
  { eapply post_is_throw; [by eapply insertImpl_out|]. by split. }
  replace index with (Z.of_nat (Z.to_nat index)) at 1 by lia.
  destruct (decide (vs = [])) as [->|Hvs].
  { eapply post_ok; [eapply (insertImpl_empty this (Z.to_nat index) p s l cap Hr); lia|].
    split; [lia|]. split; [lia|]. rewrite insert_at_nil. cbn [length].
    rewrite new_capacity_same by lia. split; [done|apply frame_refl]. }
  destruct (Hsrc Hvs) as [Hs Ho].
  destruct (decide (short_tail index (length vs) l)) as [Hbad|Hgood].
  - destruct Hbad as [Hb1 Hb2].
    eapply post_mono;
      [apply (insertImpl_short_tail this (Z.to_nat index) (length vs) p s l cap Hr); lia
      |done| |done].
    intros e s' (-> & ->). split; [done|]. split; [done|lia].
  - eapply post_mono;
      [apply (insertImpl_spec this (Z.to_nat index) p vs s l cap Hr); try done; try lia
      | | |done].
    + intros Hlt. unfold short_tail in Hgood. lia.
    + intros r s' (-> & Hr' & Hf'). split; [lia|]. split; [lia|]. by split.
    + intros e s' (-> & -> & _). split; [done|]. split; [done|lia].
Qed.

Lemma Insert_array_total this index source_ s l cap ls cs :
  repr s this l cap → repr s source_ ls cs → this ≠ source_ →
  separate s this source_ → 0 ≤ index →
  post (Insert_array this index source_) s
       (λ r s', r = index ∧ index ≤ Z.of_nat (length l) ∧
                repr s' this (insert_at (Z.to_nat index) ls l)
                     (new_capacity cap (Z.of_nat (length l) + Z.of_nat (length ls))) ∧
                repr s' source_ ls cs ∧ frame s s' this)
       (λ e s', s' = s ∧ (e = out_of_range ↔ Z.of_nat (length l) < index))
       (short_tail index (length ls) l).
Proof.
  intros Hr Hrs Hne Hsep Hidx. unfold Insert_array.
  destruct (repr_fields _ _ _ _ Hrs) as (src & Hsrc & Hcs & Hms & Hles & Hmaxs).
  apply post_bind, post_get_obj. rewrite Hsrc, Hcs.
  eapply post_mono;
    [apply (insertImpl_total this index (mData src) ls s l cap Hr Hidx); [|lia]|
     |done|done].
  - intros Hls. split; [by eapply repr_source|by eapply separate_outside].
  - intros r s' (-> & Hi & Hr' & Hf'). split; [done|]. split; [done|].
    split; [done|]. split; [|done].
    eapply frame_repr; [exact Hf'|by apply not_eq_sym|done|done].
Qed.

Lemma Insert_rvalue_total this index source_ s l cap ls cs :
  repr s this l cap → repr s source_ ls cs → this ≠ source_ →
  separate s this source_ → 0 ≤ index →
  post (Insert_rvalue this index source_) s
       (λ r s', r = index ∧ index ≤ Z.of_nat (length l) ∧
                repr s' this (insert_at (Z.to_nat index) ls l)
                     (new_capacity cap (Z.of_nat (length l) + Z.of_nat (length ls))) ∧
                repr s' source_ [] cs)
       (λ e s', s' = s ∧ (e = out_of_range ↔ Z.of_nat (length l) < index))
       (short_tail index (length ls) l).
Proof.
  intros Hr Hrs Hne Hsep Hidx. unfold Insert_rvalue.
  destruct (repr_fields _ _ _ _ Hrs) as (src & Hsrc & Hcs & Hms & Hles & Hmaxs).
  apply post_bind, post_get_obj. rewrite Hsrc.
  apply post_bind.
  pose proof (Insert_array_total this index source_ s l cap ls cs Hr Hrs Hne Hsep Hidx) as Hia.
  unfold Insert_array in Hia. unfold post at 1 in Hia.
  rewrite (bind_ok _ _ s src s) in Hia by (unfold get_obj; by rewrite Hsrc).
  eapply post_mono; [exact Hia| |done|done].
  intros r s1 (-> & Hi & Hr1 & Hrs1 & Hf1). simpl.
  destruct (Clear_spec _ _ _ _ Hrs1) as (s2 & a2 & Heq2 & Hrs2 & Hf2 & _).
  apply post_bind. eapply post_ok; [exact Heq2|]. apply post_ret.
  split; [done|]. split; [done|]. split; [|done].
  eapply frame_repr; [exact Hf2|done| |exact Hr1].
  apply separate_sym. eapply frame_separate; [exact Hf1| |exact Hsep|exact Hrs]. congruence.
Qed.

Lemma Insert_ilist_total this index ilist s l cap :
  repr s this l cap → 0 ≤ index → Z.of_nat (length ilist) ≤ PTRDIFF_MAX →
  post (Insert_ilist this index ilist) s
       (λ r s', r = index ∧ index ≤ Z.of_nat (length l) ∧
                repr s' this (insert_at (Z.to_nat index) ilist l)
                     (new_capacity cap (Z.of_nat (length l) + Z.of_nat (length ilist))) ∧
                others_kept s s' this)
       (λ e s', s' = s ∧ (e = out_of_range ↔ Z.of_nat (length l) < index))
       (short_tail index (length ilist) l).
Proof.
  intros Hr Hidx Hmax. unfold Insert_ilist. apply post_with_ilist. simpl.
  set (bt := fresh (dom (heap s))).
  assert (heap s !! bt = None) as Hbt by apply not_elem_of_dom, is_fresh.
  set (s0 := mkState (<[bt := Live <$> ilist]> (heap s)) (objs s)).
  pose proof (repr_alloc s this l cap bt (Live <$> ilist) Hbt Hr) as Hr0. fold s0 in Hr0.
  assert (∀ a o, objs s !! this = Some a → mData a ≠ Ptr bt o) as Hnbt.
  { intros a o Ha Hd.
    destruct (repr_inv _ _ _ _ Hr) as [a' ? ? ? ? ? ?|a' b blk ? ? ? ? ? ? ? ? ? ?];
      assert (a' = a) as -> by congruence; congruence. }
  eapply post_mono;
    [apply (insertImpl_total this index (Ptr bt 0) ilist s0 l cap Hr0 Hidx); [|done]|
     | |done].
  - intros _. split.
    + simpl. split; [done|]. rewrite lookup_insert_eq. rewrite drop_0.
      rewrite <- (length_fmap Live ilist). apply firstn_all.
    + intros a b o o' Ha [= <- <-]. by apply Hnbt.
  - intros r s1 (-> & Hi & Hr1 & Ho1 & Hh1 & Hp1). split; [done|]. split; [done|].
    assert (∀ a o, objs s1 !! this = Some a → mData a ≠ Ptr bt o) as Hnbt1.
    { intros a o Ha Hd. destruct (Hp1 a bt o Ha Hd) as [Hnone|(a0 & Ha0 & Hd0)].
      - subst s0. simpl in Hnone. by rewrite lookup_insert_eq in Hnone.
      - eapply (Hnbt a0 o); [done|congruence]. }
    split; [by apply repr_release|].
    intros o lo co Hne Hsep Hro.
    apply (repr_release s1); [|].
    + eapply (frame_repr s0 s1 this); [by split|done| |by apply repr_alloc].
      exact Hsep.
    + intros a i Ha Hd. rewrite (Ho1 o Hne) in Ha. unfold s0 in Ha. cbn [objs] in Ha.
      destruct (repr_inv _ _ _ _ Hro) as [a' ? ? ? ? ? ?|a' b blk ? ? ? ? ? ? ? ? ? ?];
        assert (a' = a) as -> by congruence; congruence.
  - intros e s1 (-> & He). split; [|done]. subst s0. simpl. apply release_fresh.
Qed.

Lemma not_short_tail_end n (l : list T) : ¬ short_tail (Z.of_nat (length l)) n l.
Proof. unfold short_tail. lia. Qed.

Lemma append_exn e (n : Z) : (e = out_of_range ↔ n < n) → e = bad_alloc.
Proof. intros [He _]. destruct e; [|done]. specialize (He eq_refl). lia. Qed.

Lemma Append_array_spec this source_ s l cap ls cs :
  repr s this l cap → repr s source_ ls cs → this ≠ source_ → separate s this source_ →
  post (Append_array this source_) s
       (λ _ s', repr s' this (l ++ ls)
                     (new_capacity cap (Z.of_nat (length l) + Z.of_nat (length ls))) ∧
                repr s' source_ ls cs ∧ frame s s' this)
       (λ e s', e = bad_alloc ∧ s' = s) False.
Proof.
  intros Hr Hrs Hne Hsep. unfold Append_array.
  destruct (repr_fields _ _ _ _ Hr) as (a & Ha & Hc & _).
  apply post_bind, post_get_obj. rewrite Ha, Hc. apply post_bind.
  eapply post_mono;
    [apply (Insert_array_total this _ source_ s l cap ls cs Hr Hrs Hne Hsep); lia
    | | |apply not_short_tail_end].
  - intros r s' (_ & _ & Hr' & Hrs' & Hf'). apply post_ret.
    rewrite Nat2Z.id, insert_at_end in Hr'. by split.
  - intros e s' (-> & He). split; [|done]. by eapply append_exn.
Qed.

Lemma Append_rvalue_spec this source_ s l cap ls cs :
  repr s this l cap → repr s source_ ls cs → this ≠ source_ → separate s this source_ →
  post (Append_rvalue this source_) s
       (λ _ s', repr s' this (l ++ ls)
                     (new_capacity cap (Z.of_nat (length l) + Z.of_nat (length ls))) ∧
                repr s' source_ [] cs)
       (λ e s', e = bad_alloc ∧ s' = s) False.
Proof.
  intros Hr Hrs Hne Hsep. unfold Append_rvalue.
  destruct (repr_fields _ _ _ _ Hr) as (a & Ha & Hc & _).
  apply post_bind, post_get_obj. rewrite Ha, Hc. apply post_bind.
  eapply post_mono;
    [apply (Insert_rvalue_total this _ source_ s l cap ls cs Hr Hrs Hne Hsep); lia
    | | |apply not_short_tail_end].
  - intros r s' (_ & _ & Hr' & Hrs'). apply post_ret.
    rewrite Nat2Z.id, insert_at_end in Hr'. by split.
  - intros e s' (-> & He). split; [|done]. by eapply append_exn.
Qed.

Lemma Append_ilist_spec this ilist s l cap :
  repr s this l cap → Z.of_nat (length ilist) ≤ PTRDIFF_MAX →
  post (Append_ilist this ilist) s
       (λ _ s', repr s' this (l ++ ilist)
                     (new_capacity cap (Z.of_nat (length l) + Z.of_nat (length ilist))) ∧
                others_kept s s' this)
       (λ e s', e = bad_alloc ∧ s' = s) False.
Proof.
  intros Hr Hmax. unfold Append_ilist.
  destruct (repr_fields _ _ _ _ Hr) as (a & Ha & Hc & _).
  apply post_bind, post_get_obj. rewrite Ha, Hc. apply post_bind.
  eapply post_mono;
    [apply (Insert_ilist_total this _ ilist s l cap Hr); [lia|done]
    | | |apply not_short_tail_end].
  - intros r s' (_ & _ & Hr' & Hk'). apply post_ret.
    rewrite Nat2Z.id, insert_at_end in Hr'. by split.
  - intros e s' (-> & He). split; [|done]. by eapply append_exn.
Qed.

Lemma Append_ptr_spec this p vs s l cap :
  repr s this l cap → (vs ≠ [] → source s p vs ∧ outside s this p) →
  Z.of_nat (length vs) ≤ PTRDIFF_MAX →
  post (Append_ptr this p (Z.of_nat (length vs))) s
       (λ _ s', repr s' this (l ++ vs)
                     (new_capacity cap (Z.of_nat (length l) + Z.of_nat (length vs))) ∧
                frame s s' this)
       (λ e s', e = bad_alloc ∧ s' = s) False.
Proof.
  intros Hr Hsrc Hmax. unfold Append_ptr, Insert_ptr.
  destruct (repr_fields _ _ _ _ Hr) as (a & Ha & Hc & _).
  apply post_bind, post_get_obj. rewrite Ha, Hc. apply post_bind.
  eapply post_mono;
    [apply (insertImpl_total this _ p vs s l cap Hr); [lia|done|done]
    | | |apply not_short_tail_end].
  - intros r s' (_ & _ & Hr' & Hf'). apply post_ret.
    rewrite Nat2Z.id, insert_at_end in Hr'. by split.
  - intros e s' (-> & He). split; [|done]. by eapply append_exn.
Qed.

(** ** The effect of every operation, proved of the embedding *)

Lemma post_returning {A} (f : A → value) (m : M A) s Q E U :
  post m s (λ x s', Q (f x) s') E U → post (returning f m) s Q E U.
Proof. intros Hm. unfold returning. apply post_bind. eapply post_mono; eauto. Qed.

Lemma assign_move_self this s : assign_move this this s = Ok tt s.
Proof. unfold assign_move. by rewrite decide_False by (intros H; by apply H). Qed.

Lemma FindLast_spec this value s l cap :
  repr s this l cap →
  ∃ r, FindLast this value s = Ok r s ∧ last_match (λ x, bool_decide (x = value)) l r.
Proof. apply (FindLastIf_spec this (λ x, bool_decide (x = value))). Qed.

Lemma run_op_spec o s l cap l2 cap2 :
  valid_op o → requires o s l cap l2 cap2 →
  post (run_op o) s (ensures o s l cap l2 cap2) (λ _ s', s' = s) (undefined_for o l l2).
Proof.
  destruct o; cbn [valid_op requires receiver run_op undefined_for]; unfold is_size_t;
    intros Hv Hreq; apply post_returning; cbn [ensures].
  - (* Array() *)
    eapply post_mono; [apply (Array_sized_spec this 0 s); lia| | |done].
    + intros _ s' (Hr & Hf). split; [done|]. split; [done|]. by apply fresh_for_others_kept.
    + by intros e s' (_ & -> & _).
  - (* Array(capacity) *)
    eapply post_mono; [apply (Array_sized_spec this capacity s); lia| | |done].
    + intros _ s' (Hr & Hf). split; [done|]. split; [done|]. by apply fresh_for_others_kept.
    + by intros e s' (_ & -> & _).
  - (* Array(ilist) *)
    eapply post_mono; [apply (Array_ilist_spec this ilist s)| | |done].
    + intros _ s' (Hr & Hf). split; [done|]. split; [done|]. by apply fresh_for_others_kept.
    + by intros e s' (_ & ->).
  - (* Array(const Array&) *)
    destruct Hreq as (Hne & Hro).
    eapply post_mono; [apply (Array_copy_spec this other s l2 cap2 Hne Hro)| | |done].
    + intros _ s' (Hr & Hf). split; [done|]. split; [done|].
      split; [by eapply fresh_for_repr|]. split; [by eapply fresh_for_separate|].
      by apply fresh_for_others_kept.
    + by intros e s' (_ & ->).
  - (* Array(Array&&) *)
    destruct Hreq as (Hne & Hro).
    destruct (Array_move_spec this other s l2 cap2 Hro Hne) as (s' & Heq & Hr' & Ho' & _).
    eapply post_ok; [exact Heq|]. by split.
  - (* ~Array() *)
    destruct (Array_dtor_spec this s l cap Hreq) as (s' & Heq & Hgone & Hk & _).
    eapply post_ok; [exact Heq|]. by split.
  - (* operator=(const Array&) *)
    destruct Hreq as (Hrt & Hro & Hsep). destruct (decide (this = other)) as [->|Hne].
    + eapply post_ok; [apply assign_copy_self|]. by split.
    + eapply post_mono;
        [apply (assign_copy_spec this other s l cap l2 cap2 Hne Hrt Hro (Hsep Hne))| | |done].
      * intros _ s' (Hr' & Hro' & Hk). by split.
      * by intros e s' (_ & ->).
  - (* operator=(Array&&) *)
    destruct Hreq as (Hrt & Hro & Hsep). destruct (decide (this = other)) as [->|Hne].
    + eapply post_ok; [apply assign_move_self|]. by split.
    + destruct (assign_move_spec this other s l cap l2 cap2 Hrt Hro Hne (Hsep Hne))
        as (s' & Heq & Hr' & Ho').
      eapply post_ok; [exact Heq|]. by split.
  - (* operator=(initializer_list) *)
    eapply post_mono; [apply (assign_ilist_spec this ilist s l cap Hreq)| | |done].
    + intros _ s' (Hr' & Hk). by split.
    + by intros e s' (_ & ->).
  - (* operator[] *)
    destruct (decide (index < Z.of_nat (length l))) as [Hin|Hout].
    + destruct (lookup_lt_is_Some_2 l (Z.to_nat index)) as [x Hx]; [lia|].
      destruct (operator_index_in this (Z.to_nat index) s l cap x Hreq Hx)
        as (p & Heq & Hload).
      rewrite Z2Nat.id in Heq by lia. eapply post_ok; [exact Heq|].
      split; [done|]. by exists p, x.
    + eapply post_is_throw; [apply (operator_index_out this index s l cap Hreq); lia|done].
  - (* operator<=> *)
    destruct Hreq as (H1 & H2).
    eapply post_ok; [by eapply operator_spaceship_spec|]. by split.
  - (* operator== *)
    destruct Hreq as (H1 & H2).
    eapply post_ok; [by eapply operator_eq_spec|]. by split.
  - (* Add *)
    eapply post_mono; [apply (Add_spec this value0 s l cap Hreq)| | |done].
    + intros _ s' (Hr' & Hf'). split; [done|]. split; [done|]. by apply frame_others_kept.
    + by intros e s' (_ & -> & _).
  - (* Append(const Array&) *)
    destruct Hreq as (Hr & Hrs & Hne & Hsep).
    eapply post_mono;
      [apply (Append_array_spec this source0 s l cap l2 cap2 Hr Hrs Hne Hsep)| | |done].
    + intros _ s' (Hr' & Hrs' & Hf'). split; [done|]. split; [done|]. split; [done|].
      by apply frame_others_kept.
    + by intros e s' (_ & ->).
  - (* Append(Array&&) *)
    destruct Hreq as (Hr & Hrs & Hne & Hsep).
    eapply post_mono;
      [apply (Append_rvalue_spec this source0 s l cap l2 cap2 Hr Hrs Hne Hsep)| | |done].
    + intros _ s' (Hr' & Hrs'). by split.
    + by intros e s' (_ & ->).
  - (* Append(initializer_list) *)
    destruct Hreq as (Hr & Hmax).
    eapply post_mono; [apply (Append_ilist_spec this ilist s l cap Hr Hmax)| | |done].
    + intros _ s' (Hr' & Hk). by split.
    + by intros e s' (_ & ->).
  - (* Append(const T*, size_t) *)
    destruct Hreq as (Hr & -> & Hmax & Hsrc).
    eapply post_mono; [apply (Append_ptr_spec this p l2 s l cap Hr Hsrc Hmax)| | |done].
    + intros _ s' (Hr' & Hf'). split; [done|]. split; [done|]. by apply frame_others_kept.
    + by intros e s' (_ & ->).
  - (* Capacity *)
    destruct (repr_fields _ _ _ _ Hreq) as (a & Ha & Hc & Hm & _).
    unfold Capacity. apply post_bind, post_get_obj. rewrite Ha, Hm. by apply post_ret.
  - (* Clear *)
    destruct (Clear_spec this s l cap Hreq) as (s' & a & Heq & Hr' & Hf' & _).
    eapply post_ok; [exact Heq|]. split; [done|]. split; [done|]. by apply frame_others_kept.
  - (* Contains *)
    eapply post_ok; [by eapply Contains_spec|]. by split.
  - (* ContainsIf *)
    eapply post_ok; [by eapply ContainsIf_spec|]. by split.
  - (* Count *)
    destruct (repr_fields _ _ _ _ Hreq) as (a & Ha & Hc & Hm & _).
    unfold Count. apply post_bind, post_get_obj. rewrite Ha, Hc. by apply post_ret.
  - (* Data *)
    destruct (repr_fields _ _ _ _ Hreq) as (a & Ha & Hc & Hm & _).
    unfold Data. apply post_bind, post_get_obj. rewrite Ha. apply post_ret.
    split; [done|]. exists (mData a). split; [done|]. by eapply repr_reads.
  - (* Emplace *)
    eapply post_mono; [apply (Emplace_spec this value0 s l cap Hreq)| | |done].
    + intros p s' (Hr' & Hf' & Hload). split; [by exists p|]. split; [done|].
      by apply frame_others_kept.
    + by intros e s' (_ & -> & _).
  - (* EmplaceAt *)
    destruct (decide (index ≤ Z.of_nat (length l))) as [Hin|Hout].
    + pose proof (EmplaceAt_spec this (Z.to_nat index) value0 s l cap Hreq ltac:(lia)) as Hs.
      rewrite Z2Nat.id in Hs by lia.
      eapply post_mono; [exact Hs| | |done].
      * intros r s' (Hres & Hr' & Hf'). subst r. split; [done|]. split; [done|]. split; [done|].
        by apply frame_others_kept.
      * by intros e s' (_ & -> & _).
    + eapply post_is_throw; [apply (EmplaceAt_out this index value0 s l cap Hreq); lia|done].
  - (* Find *)
    eapply post_ok; [by eapply Find_spec|]. by split.
  - (* FindIf *)
    eapply post_ok; [by eapply FindIf_spec|]. by split.
  - (* FindLast *)
    destruct (FindLast_spec this value0 s l cap Hreq) as (r & Heq & Hlast).
    eapply post_ok; [exact Heq|]. split; [done|]. by exists r.
  - (* FindLastIf *)
    destruct (FindLastIf_spec this pred s l cap Hreq) as (r & Heq & Hlast).
    eapply post_ok; [exact Heq|]. split; [done|]. by exists r.
  - (* Insert(index, value) *)
    destruct (decide (index ≤ Z.of_nat (length l))) as [Hin|Hout].
    + pose proof (EmplaceAt_spec this (Z.to_nat index) value0 s l cap Hreq ltac:(lia)) as Hs.
      rewrite Z2Nat.id in Hs by lia.
      eapply post_mono; [exact Hs| | |done].
      * intros r s' (Hres & Hr' & Hf'). subst r. split; [done|]. split; [done|]. split; [done|].
        by apply frame_others_kept.
      * by intros e s' (_ & -> & _).
    + eapply post_is_throw; [apply (EmplaceAt_out this index value0 s l cap Hreq); lia|done].
  - (* Insert(index, const Array&) *)
    destruct Hreq as (Hr & Hrs & Hne & Hsep).
    eapply post_mono;
      [apply (Insert_array_total this index source0 s l cap l2 cap2 Hr Hrs Hne Hsep); lia
      | | |done].
    + intros r s' (Hres & Hi & Hr' & Hrs' & Hf'). subst r. split; [done|]. split; [done|].
      split; [done|]. split; [done|]. by apply frame_others_kept.
    + by intros e s' (-> & _).
  - (* Insert(index, Array&&) *)
    destruct Hreq as (Hr & Hrs & Hne & Hsep).
    eapply post_mono;
      [apply (Insert_rvalue_total this index source0 s l cap l2 cap2 Hr Hrs Hne Hsep); lia
      | | |done].
    + intros r s' (Hres & Hi & Hr' & Hrs'). subst r. by split.
    + by intros e s' (-> & _).
  - (* Insert(index, initializer_list) *)
    destruct Hreq as (Hr & Hmax).
    eapply post_mono;
      [apply (Insert_ilist_total this index ilist s l cap Hr); [lia|done]| | |done].
    + intros r s' (Hres & Hi & Hr' & Hk). subst r. by split.
    + by intros e s' (-> & _).
  - (* Insert(index, const T*, size_t) *)
    destruct Hreq as (Hr & -> & Hmax & Hsrc).
    eapply post_mono;
      [apply (insertImpl_total this index p l2 s l cap Hr); [lia|done|done]| | |done].
    + intros r s' (Hres & Hi & Hr' & Hf'). subst r. split; [done|]. split; [done|]. split; [done|].
      by apply frame_others_kept.
    + by intros e s' (-> & _).
  - (* IsEmpty *)
    destruct (repr_fields _ _ _ _ Hreq) as (a & Ha & Hc & Hm & _).
    unfold IsEmpty. apply post_bind, post_get_obj. rewrite Ha, Hc. apply post_ret.
    split; [done|]. f_equal. apply bool_decide_ext. destruct l; simpl; [done|].
    split; [lia|done].
  - (* Remove *)
    destruct (decide (trivially_destructible = true ∨
                      (length l ≤ S (find_first (λ x, bool_decide (x = value0)) l))%nat))
      as [Htd|Hno].
    + destruct (Remove_spec this value0 s l cap Hreq Htd) as (s' & Heq & Hr' & Hf').
      eapply post_ok; [exact Heq|]. split; [done|]. split; [done|].
      by apply frame_others_kept.
    + assert (trivially_destructible = false) as Htd
        by (destruct trivially_destructible; [exfalso; apply Hno; by left|done]).
      unfold post. rewrite (Remove_undefined this value0 s l cap Hreq); [|lia|done].
      split; [done|lia].
  - (* RemoveAll *)
    destruct (RemoveAll_spec this pred s l cap Hreq) as (s' & Heq & Hr' & Hf').
    eapply post_ok; [exact Heq|]. split; [done|]. split; [done|]. by apply frame_others_kept.
  - (* RemoveAt *)
    destruct (decide (index < Z.of_nat (length l))) as [Hin|Hout].
    + destruct (decide (trivially_destructible = true ∨
                        Z.to_nat index = (length l - 1)%nat)) as [Htd|Hno].
      * destruct (RemoveAt_spec this (Z.to_nat index) s l cap Hreq ltac:(lia) Htd)
          as (s' & Heq & Hr' & Hf').
        rewrite Z2Nat.id in Heq by lia. eapply post_ok; [exact Heq|].
        split; [done|]. split; [done|]. split; [done|]. by apply frame_others_kept.
      * assert (trivially_destructible = false) as Htd
          by (destruct trivially_destructible; [exfalso; apply Hno; by left|done]).
        pose proof (RemoveAt_undefined this (Z.to_nat index) s l cap Hreq ltac:(lia) Htd)
          as Hub.
        rewrite Z2Nat.id in Hub by lia. unfold post. rewrite Hub. split; [done|lia].
    + eapply post_is_throw; [apply (RemoveAt_out this index s l cap Hreq); lia|done].
  - (* Reserve *)
    eapply post_mono; [apply (Reserve_spec this newCapacity s l cap Hreq); lia| | |done].
    + intros _ s' (Hr' & Hf'). split; [done|]. split; [done|]. by apply frame_others_kept.
    + by intros e s' (_ & ->).
  - (* Resize(newCount) *)
    eapply post_mono; [apply (Resize_spec this newCount s l cap Hreq); lia| | |done].
    + intros _ s' (Hr' & Hf'). split; [done|]. split; [done|]. by apply frame_others_kept.
    + by intros e s' (_ & ->).
  - (* Resize(newCount, value) *)
    eapply post_mono; [apply (Resize_fill_spec this newCount value0 s l cap Hreq); lia| | |done].
    + intros _ s' (Hr' & Hf'). split; [done|]. split; [done|]. by apply frame_others_kept.
    + by intros e s' (_ & ->).
  - (* Shrink *)
    eapply post_mono; [apply (Shrink_spec this s l cap Hreq)| | |done].
    + intros _ s' (Hr' & Hf' & _). split; [done|]. split; [done|].
      by apply frame_others_kept.
    + by intros e s' (_ & -> & _).
  - (* Sort *)
    destruct (strict_weak_on comp l) eqn:Hswo.
    2:{ unfold post. by rewrite (Sort_undefined this comp s l cap Hreq Hswo). }
    destruct (Sort_spec this comp s l cap Hreq Hswo) as (s' & Heq & Hr' & Hf').
    eapply post_ok; [exact Heq|]. split; [done|]. split; [|by apply frame_others_kept].
    exists (sort_list comp l). split; [done|]. split; [apply sort_list_perm|].
    apply sort_list_ordered.
  - (* Swap *)
    destruct Hreq as (H1 & H2).
    destruct (Swap_spec this other s l cap l2 cap2 H1 H2) as (s' & Heq & Hr1 & Hr2 & Hh & _).
    eapply post_ok; [exact Heq|]. by split.
  - (* begin *)
    destruct (repr_fields _ _ _ _ Hreq) as (a & Ha & Hc & Hm & _).
    unfold begin_. apply post_bind, post_get_obj. rewrite Ha. apply post_ret.
    split; [done|]. exists (mData a). split; [done|]. by eapply repr_reads.
  - (* end *)
    destruct (repr_fields _ _ _ _ Hreq) as (a & Ha & Hc & Hm & _).
    unfold end_. apply post_bind, post_get_obj. rewrite Ha, Hc. apply post_ret.
    split; [done|]. exists (mData a). split; [done|]. by eapply repr_reads.
Qed.

(** ** The claims *)

Lemma find_first_insert_at pred (p : nat) v l :
  (p ≤ length l)%nat → pred v = true → (∀ x, x ∈ l → pred x = false) →
  find_first pred (insert_at p [v] l) = p.
Proof.
  revert p. unfold insert_at. induction l as [|y l IH]; intros p Hp Hv Hl.
  { destruct p; simpl in *; [by rewrite Hv|lia]. }
  destruct p as [|p]; simpl.
  - by rewrite Hv.
  - rewrite (Hl y) by apply list_elem_of_here. f_equal. apply IH; [simpl in Hp; lia|done|].
    intros x Hx. apply Hl. by apply list_elem_of_further.
Qed.

Lemma found_spec (pred : T → bool) l :
  let r := found (find_first pred l) l in
  (r = INDEX_NONE ∧ ∀ x, x ∈ l → pred x = false) ∨
  (∃ (k : nat) x, r = Z.of_nat k ∧ l !! k = Some x ∧ pred x = true ∧
                  ∀ j y, (j < k)%nat → l !! j = Some y → pred y = false).
Proof.
  simpl. unfold found. pose proof (find_first_le pred l) as Hle.
  destruct (decide (find_first pred l < length l)%nat) as [Hlt|Hge].
  - right. destruct (find_first_found pred l Hlt) as (x & Hx & Hp).
    exists (find_first pred l), x. repeat split; try done.
    intros j y Hj Hy. by eapply find_first_before.
  - left. split; [done|]. intros x Hx.
    apply list_elem_of_lookup in Hx as [j Hj]. eapply (find_first_before pred l j); [|done].
    pose proof (lookup_lt_Some _ _ _ Hj). lia.
Qed.

(** Claim C3.  [std::out_of_range] is thrown exactly when the index is
    outside the bound of the operation: [operator[]] and [RemoveAt]
    throw it if and only if the index is at least the count, and every
    insertion ([EmplaceAt] and the five [Insert] overloads) throws it if
    and only if the index is greater than the count. *)
Theorem IndexOutOfRange_iff this index s l cap :
  repr s this l cap →
  (throws_out_of_range (operator_index this index) s ↔ Z.of_nat (length l) ≤ index) ∧
  (throws_out_of_range (RemoveAt this index) s ↔ Z.of_nat (length l) ≤ index) ∧
  (∀ v, throws_out_of_range (EmplaceAt this index v) s ↔ Z.of_nat (length l) < index) ∧
  (∀ v, throws_out_of_range (Insert this index v) s ↔ Z.of_nat (length l) < index) ∧
  (∀ p count,
     throws_out_of_range (Insert_ptr this index p count) s ↔ Z.of_nat (length l) < index) ∧
  (∀ ilist,
     throws_out_of_range (Insert_ilist this index ilist) s ↔ Z.of_nat (length l) < index) ∧
  (∀ source_, is_Some (objs s !! source_) →
     (throws_out_of_range (Insert_array this index source_) s
      ↔ Z.of_nat (length l) < index) ∧
     (throws_out_of_range (Insert_rvalue this index source_) s
      ↔ Z.of_nat (length l) < index)).
Proof.
  intros Hr. destruct (repr_fields _ _ _ _ Hr) as (a & Ha & _).
  assert (∀ v, throws_out_of_range (EmplaceAt this index v) s
               ↔ Z.of_nat (length l) < index) as Hemplace.
  { intros v. split.
    - intros [s' Heq]. destruct (decide (Z.of_nat (length l) < index)); [done|].
      exfalso. eapply EmplaceAt_in; [exact Hr| |exact Heq]. lia.
    - intros Hlt. exists s. by eapply EmplaceAt_out. }
  split; [|split; [|split; [done|split; [done|split; [|split]]]]].
  - split.
    + intros [s' Heq]. destruct (decide (Z.of_nat (length l) ≤ index)); [done|].
      exfalso. unfold operator_index in Heq.
      rewrite (bind_ok _ _ s tt s) in Heq.
      2:{ apply (checkRange_passes _ _ false _ a Ha).
          rewrite (repr_count_plus _ _ _ _ _ 0 Hr Ha) by lia. lia. }
      rewrite (bind_ok _ _ s a s) in Heq by (unfold get_obj; by rewrite Ha). done.
    + intros Hle. exists s. by eapply operator_index_out.
  - split.
    + intros [s' Heq]. destruct (decide (Z.of_nat (length l) ≤ index)); [done|].
      exfalso. eapply RemoveAt_in; [exact Hr| |exact Heq]. lia.
    + intros Hle. exists s. by eapply RemoveAt_out.
  - intros p count. split.
    + intros [s' Heq]. destruct (decide (Z.of_nat (length l) < index)); [done|].
      exfalso. eapply insertImpl_in; [exact Hr| |exact Heq]. lia.
    + intros Hlt. exists s. by eapply insertImpl_out.
  - intros ilist. by eapply Insert_ilist_range.
  - intros source_ Hsrc. split; [by eapply Insert_array_range|by eapply Insert_rvalue_range].
Qed.

(** Claim C6.  Moving from an array, by move construction or by move
    assignment into a distinct array, leaves the source with count 0,
    capacity 0 and no buffer, and gives the destination the source's
    elements, in order, with its count and capacity. *)
Theorem move_leaves_source_empty this other s l cap :
  repr s other l cap → this ≠ other →
  (∃ s', Array_move this other s = Ok tt s' ∧
         repr s' this l cap ∧ objs s' !! other = Some (mkArray Null 0 0)) ∧
  (∀ lt capt, repr s this lt capt → separate s this other →
     ∃ s', assign_move this other s = Ok tt s' ∧
           repr s' this l cap ∧ objs s' !! other = Some (mkArray Null 0 0)).
Proof.
  intros Hr Hne. split.
  - destruct (Array_move_spec this other s l cap Hr Hne) as (s' & Heq & Hr' & Ho & _).
    by exists s'.
  - intros lt capt Hrt Hsep. by eapply assign_move_spec.
Qed.

(** Claim C8.  [Shrink] is a no-op when the capacity equals the count;
    when the capacity exceeds it, the array is reallocated to a capacity
    of exactly the count (or [std::bad_alloc] is thrown and nothing
    changes).  After a [Shrink] that returned, a second [Shrink] returns
    without changing the state: it reallocates nothing. *)
Theorem Shrink_idempotent this s l cap :
  repr s this l cap →
  (cap ≤ Z.of_nat (length l) → Shrink this s = Ok tt s) ∧
  (Z.of_nat (length l) < cap →
     (∃ s1, Shrink this s = Ok tt s1 ∧ repr s1 this l (Z.of_nat (length l))) ∨
     (Shrink this s = Throw bad_alloc s ∧
      may_alloc (heap s) (Z.of_nat (length l)) = false)) ∧
  (∀ s1, Shrink this s = Ok tt s1 →
         repr s1 this l (Z.of_nat (length l)) ∧ Shrink this s1 = Ok tt s1).
Proof.
  intros Hr. pose proof (Shrink_spec this s l cap Hr) as Hs. unfold post in Hs.
  destruct (repr_fields _ _ _ _ Hr) as (a & Ha & Hc & Hm & Hle & _).
  split; [|split].
  - intros Hcap. apply (Shrink_noop this s a Ha). lia.
  - intros Hlt. destruct (Shrink this s) as [[] s1|e s1|]; [| |done].
    + left. exists s1. by destruct Hs as (? & _).
    + right. by destruct Hs as (-> & -> & _ & ?).
  - intros s1 Heq. rewrite Heq in Hs. destruct Hs as (Hr1 & _ & _). split; [done|].
    destruct (repr_fields _ _ _ _ Hr1) as (a1 & Ha1 & Hc1 & Hm1 & _).
    apply (Shrink_noop this s1 a1 Ha1). lia.
Qed.

(** Claim C9.  [Find] returns the smallest index whose element equals
    the value and [FindLast] the largest; when no element equals it both
    return [INDEX_NONE], the largest [size_t], and neither throws.  If
    the value is absent and is then inserted at position [p], [Find]
    returns [p]. *)
Theorem Find_FindLast this value s l cap :
  repr s this l cap →
  INDEX_NONE = 2 ^ 64 - 1 ∧
  (∃ r, Find this value s = Ok r s ∧
        ((r = INDEX_NONE ∧ value ∉ l) ∨
         (∃ k : nat, r = Z.of_nat k ∧ l !! k = Some value ∧
                     ∀ j, (j < k)%nat → l !! j ≠ Some value))) ∧
  (∃ r, FindLast this value s = Ok r s ∧
        ((r = INDEX_NONE ∧ value ∉ l) ∨
         (∃ k : nat, r = Z.of_nat k ∧ l !! k = Some value ∧
                     ∀ j, (k < j)%nat → l !! j ≠ Some value))) ∧
  (value ∉ l → ∀ (p : nat) r s', (p ≤ length l)%nat →
     Insert this (Z.of_nat p) value s = Ok r s' →
     Find this value s' = Ok (Z.of_nat p) s').
Proof.
  intros Hr. split; [done|]. split; [|split].
  - exists (found (find_first (λ x, bool_decide (x = value)) l) l).
    split; [by eapply Find_spec|].
    destruct (found_spec (λ x, bool_decide (x = value)) l)
      as [[-> Hnone]|(k & x & -> & Hx & Hp & Hbefore)].
    + left. split; [done|]. intros Hin. specialize (Hnone _ Hin).
      by rewrite bool_decide_eq_false in Hnone.
    + right. exists k. apply bool_decide_eq_true in Hp as ->. repeat split; try done.
      intros j Hj Hv. specialize (Hbefore j value Hj Hv).
      by rewrite bool_decide_eq_false in Hbefore.
  - destruct (FindLastIf_spec this (λ x, bool_decide (x = value)) s l cap Hr)
      as (r & Heq & Hres).
    exists r. split; [done|].
    destruct Hres as [[-> Hnone]|(k & x & -> & Hx & Hp & Hafter)].
    + left. split; [done|]. intros Hin. apply list_elem_of_lookup in Hin as [j Hj].
      specialize (Hnone j value Hj). by rewrite bool_decide_eq_false in Hnone.
    + right. exists k. apply bool_decide_eq_true in Hp as ->. repeat split; try done.
      intros j Hj Hv. specialize (Hafter j value Hj Hv).
      by rewrite bool_decide_eq_false in Hafter.
  - intros Hnotin p r s' Hp Heq.
    pose proof (EmplaceAt_spec this p value s l cap Hr Hp) as Hs. unfold post in Hs.
    unfold Insert in Heq. rewrite Heq in Hs. destruct Hs as (_ & Hr' & _).
    rewrite (Find_spec this value s' _ _ Hr').
    rewrite find_first_insert_at; [|done|by apply bool_decide_eq_true|].
    + unfold found. rewrite decide_True; [done|].
      rewrite length_insert_at by done. simpl. lia.
    + intros x Hx. apply bool_decide_eq_false. by intros ->.
Qed.

(** Claim C10.  Whenever the drain insert [Insert(i, std::move(source))]
    returns, the source has count 0 and the buffer and capacity it had
    before: its buffer is still allocated, it was neither handed to the
    target nor released. *)
Theorem drain_insert_keeps_source_buffer this index source_ s r s' a :
  this ≠ source_ → objs s !! source_ = Some a → separate s this source_ →
  Insert_rvalue this index source_ s = Ok r s' →
  ∃ a', objs s' !! source_ = Some a' ∧
        mCount a' = 0 ∧ mData a' = mData a ∧ mCapacity a' = mCapacity a ∧
        (∀ b o, mData a = Ptr b o → b ∈ dom (heap s) → b ∈ dom (heap s')).
Proof.
  intros Hne Ha Hsep Heq.
  destruct (Insert_rvalue_source this index source_ s r s' a Hne Ha Hsep Heq) as [Ho Hb].
  by exists (mkArray (mData a) 0 (mCapacity a)).
Qed.

(** Claim C7.  Every public member function keeps the representation
    invariant of every array -- the count is at most the capacity, and
    the buffer pointer is null if and only if the capacity is 0 --
    whether it returns or throws; hence the invariant holds after each
    step of any sequence of calls that starts with no array at all, in
    which the first calls can only be constructors. *)
Theorem rep_inv_preserved :
  (∀ o s, valid_op o → Inv s →
          match run_op o s with
          | Ok _ s' | Throw _ s' => Inv s'
          | UB => True
          end) ∧
  (∀ l, Forall valid_op l → Forall Inv (trace l (mkState ∅ ∅))).
Proof.
  split.
  - intros o s Hv HI. pose proof (safe_run_op o Hv s) as Hs. unfold post in Hs.
    destruct (run_op o s) as [r s'|e s'|]; [auto|by subst|done].
  - intros l Hl. apply trace_Inv; [done|]. unfold Inv. simpl. apply map_Forall_empty.
Qed.






(** * Further properties of the code *)

(** ** Iterators and loops *)

Lemma iterate_spec s : ∀ l p fuel,
  reads s p l →
  iterate fuel (ArrayIterator.mk p) (ArrayIterator.mk (p +ₚ Z.of_nat (length l))) s
  = Ok (if decide (length l ≤ fuel)%nat then Some l else None) s.
Proof.
  induction l as [|x l IH]; intros p fuel Hr.
  { cbn [length]. rewrite ptr_add_0. rewrite decide_True by lia.
    destruct fuel; cbn [iterate]; unfold ArrayIterator.operator_ne; cbn [ArrayIterator.mPtr];
      by rewrite bool_decide_eq_false_2 by (intros H; by apply H). }
  destruct (reads_cons _ _ _ _ Hr) as [Hx Hr'].
  assert (ArrayIterator.operator_ne (ArrayIterator.mk p)
            (ArrayIterator.mk (p +ₚ Z.of_nat (length (x :: l)))) = true) as Hne.
  { unfold ArrayIterator.operator_ne. cbn [ArrayIterator.mPtr length].
    apply bool_decide_eq_true_2. destruct p as [|b o]; [done|].
    cbn [ptr_add]. intros [= ?]. lia. }
  destruct fuel as [|fuel]; cbn [iterate]; rewrite Hne.
  { by rewrite decide_False by (cbn [length]; lia). }
  unfold ArrayIterator.operator_star, ArrayIterator.pre_inc. cbn [ArrayIterator.mPtr].
  rewrite (bind_ok _ _ s x s Hx).
  replace (p +ₚ Z.of_nat (length (x :: l))) with (p +ₚ 1 +ₚ Z.of_nat (length l))
    by (rewrite ptr_add_add; f_equal; cbn [length]; lia).
  rewrite (bind_ok _ _ s _ s (IH (p +ₚ 1) fuel Hr')).
  unfold mret, M_ret, ret. f_equal. cbn [length].
  destruct (decide (length l ≤ fuel)%nat).
  - by rewrite decide_True by lia.
  - by rewrite decide_False by lia.
Qed.

Lemma reads_app s p l x :
  reads s p (l ++ [x]) → reads s p l ∧ load (p +ₚ Z.of_nat (length l)) s = Ok x s.
Proof.
  intros Hr. split.
  - intros k y Hk. apply Hr. by apply lookup_app_l_Some.
  - apply Hr. by rewrite lookup_app_r, Nat.sub_diag.
Qed.

Lemma begin_iterator_spec this s a :
  objs s !! this = Some a →
  begin_iterator this s = Ok (ArrayIterator.mk (mData a)) s.
Proof. intros Ha. unfold begin_iterator, get_obj, mbind, M_bind, bind. by rewrite Ha. Qed.

Lemma end_iterator_spec this s a :
  objs s !! this = Some a →
  end_iterator this s = Ok (ArrayIterator.mk (mData a +ₚ mCount a)) s.
Proof. intros Ha. unfold end_iterator, get_obj, mbind, M_bind, bind. by rewrite Ha. Qed.

(** A range-based [for] loop over an array reads its elements in order,
    from the first to the last, takes exactly as many steps as the
    array has elements, and leaves the state as it was; on an empty
    array, with or without a buffer, it ends at once. *)
Theorem range_for_visits_elements this s l cap fuel :
  repr s this l cap →
  range_for fuel this s = Ok (if decide (length l ≤ fuel)%nat then Some l else None) s.
Proof.
  intros Hr. destruct (repr_fields _ _ _ _ Hr) as (a & Ha & Hc & _).
  unfold range_for.
  rewrite (bind_ok _ _ s _ s (begin_iterator_spec _ _ _ Ha)).
  rewrite (bind_ok _ _ s _ s (end_iterator_spec _ _ _ Ha)).
  rewrite Hc. apply iterate_spec. by eapply repr_reads.
Qed.

(** The difference [end() - begin()] is the number of elements, and
    [begin() == end()] holds exactly when the array is empty. *)
Theorem end_minus_begin_is_Count this s l cap :
  repr s this l cap →
  ∃ first last,
    begin_iterator this s = Ok first s ∧ end_iterator this s = Ok last s ∧
    ArrayIterator.difference last first = Some (Z.of_nat (length l)) ∧
    ArrayIterator.operator_eq first last = bool_decide (l = []) ∧
    ArrayIterator.operator_ne first last = negb (bool_decide (l = [])).
Proof.
  intros Hr. destruct (repr_fields _ _ _ _ Hr) as (a & Ha & Hc & _).
  exists (ArrayIterator.mk (mData a)), (ArrayIterator.mk (mData a +ₚ mCount a)).
  split; [by apply begin_iterator_spec|]. split; [by apply end_iterator_spec|].
  unfold ArrayIterator.difference, ArrayIterator.operator_eq, ArrayIterator.operator_ne.
  cbn [ArrayIterator.mPtr]. rewrite Hc.
  destruct (repr_inv _ _ _ _ Hr) as [a' Ha' Hd _ _ -> _|a' b blk Ha' Hd _ _ _ _ _ _ _ _];
    assert (a' = a) as -> by congruence; rewrite Hd.
  - done.
  - cbn [ptr_add ptr_diff]. rewrite decide_True by done. split; [f_equal; lia|].
    destruct l as [|x l].
    + split; [by apply bool_decide_eq_true_2|].
      rewrite bool_decide_eq_false_2; [done|]. intros H. by apply H.
    + split.
      * rewrite (bool_decide_eq_false_2 (x :: l = [])) by done.
        apply bool_decide_eq_false_2. intros [= ?]; cbn [length] in *; lia.
      * rewrite (bool_decide_eq_false_2 (x :: l = [])) by done.
        apply bool_decide_eq_true_2. intros [= ?]; cbn [length] in *; lia.
Qed.

(** Random access through iterators: [begin()[i]], [*(begin() + i)] and
    [*(end() - (Count() - i))] are the element [i] of the array, and
    [begin()[i]] is the reference that [operator[]] of the array returns
    for [i]. *)
Theorem iterator_random_access this s l cap (i : nat) x :
  repr s this l cap → l !! i = Some x →
  ∃ first last,
    begin_iterator this s = Ok first s ∧ end_iterator this s = Ok last s ∧
    load (ArrayIterator.operator_index first (Z.of_nat i)) s = Ok x s ∧
    load (ArrayIterator.operator_star (ArrayIterator.operator_plus first (Z.of_nat i))) s
    = Ok x s ∧
    load (ArrayIterator.operator_star
            (ArrayIterator.operator_minus last (Z.of_nat (length l) - Z.of_nat i))) s
    = Ok x s ∧
    operator_index this (Z.of_nat i) s
    = Ok (ArrayIterator.operator_index first (Z.of_nat i)) s.
Proof.
  intros Hr Hi. destruct (repr_fields _ _ _ _ Hr) as (a & Ha & Hc & _).
  pose proof (repr_reads _ _ _ _ _ Hr Ha i x Hi) as Hload.
  exists (ArrayIterator.mk (mData a)), (ArrayIterator.mk (mData a +ₚ mCount a)).
  split; [by apply begin_iterator_spec|]. split; [by apply end_iterator_spec|].
  unfold ArrayIterator.operator_index, ArrayIterator.operator_star,
    ArrayIterator.operator_plus, ArrayIterator.operator_minus, ArrayIterator.of_ptr.
  cbn [ArrayIterator.mPtr].
  split; [done|]. split; [done|]. split.
  - rewrite Hc, ptr_add_add.
    by replace (Z.of_nat (length l) + - (Z.of_nat (length l) - Z.of_nat i)) with (Z.of_nat i) by lia.
  - destruct (operator_index_in _ _ _ _ _ _ Hr Hi) as (p & Hp & _).
    rewrite Hp. f_equal. unfold operator_index in Hp.
    apply lookup_lt_Some in Hi.
    rewrite (bind_ok _ _ s tt s) in Hp.
    + rewrite (bind_ok _ _ s a s) in Hp by (unfold get_obj; by rewrite Ha).
      by injection Hp.
    + eapply checkRange_passes; [done|]. rewrite Hc.
      destruct (repr_fields _ _ _ _ Hr) as (? & _ & _ & _ & ? & ?).
      unfold to_size_t, PTRDIFF_MAX in *. rewrite Z.add_0_r, Z.mod_small; lia.
Qed.

Lemma transform_spec f : ∀ vs s b blk (j : nat) fuel,
  heap s !! b = Some blk →
  (∀ k x, vs !! k = Some x → blk !! (j + k)%nat = Some (Live x)) →
  (length vs ≤ fuel)%nat →
  ∃ blk', transform fuel (ArrayIterator.mk (Ptr b (Z.of_nat j)))
            (ArrayIterator.mk (Ptr b (Z.of_nat (j + length vs)))) f s
          = Ok true (mkState (<[b := blk']> (heap s)) (objs s)) ∧
          length blk' = length blk ∧
          (∀ k x, vs !! k = Some x → blk' !! (j + k)%nat = Some (Live (f x))) ∧
          (∀ k, ¬ (j ≤ k < j + length vs)%nat → blk' !! k = blk !! k).
Proof.
  induction vs as [|v vs IH]; intros s b blk j fuel Hb Hvs Hfuel; cbn [length] in *.
  { exists blk. rewrite Nat.add_0_r. split; [|done].
    destruct fuel; cbn [transform]; unfold ArrayIterator.operator_ne; cbn [ArrayIterator.mPtr];
      (rewrite bool_decide_eq_false_2 by (intros H; by apply H));
      unfold mret, M_ret, ret; f_equal; destruct s; simpl in *; f_equal; by rewrite insert_id. }
  destruct fuel as [|fuel]; [lia|]. cbn [transform].
  unfold ArrayIterator.operator_ne, ArrayIterator.operator_star, ArrayIterator.pre_inc.
  cbn [ArrayIterator.mPtr].
  rewrite bool_decide_eq_true_2 by (intros [= ?]; lia).
  pose proof (Hvs 0%nat v eq_refl) as Hv. rewrite Nat.add_0_r in Hv.
  rewrite (bind_ok _ _ s v s (load_nat _ _ _ _ _ Hb Hv)).
  rewrite (bind_ok _ _ _ _ _ (write_nat _ _ _ j (Live (f v)) Hb
                                 ltac:(by eapply lookup_lt_Some))).
  rewrite ptr_nat_S.
  edestruct (IH (mkState (<[b := <[j := Live (f v)]> blk]> (heap s)) (objs s)) b
                (<[j := Live (f v)]> blk) (S j) fuel) as (blk' & Heq & Hlen' & Hval & Hout).
  { simpl. by rewrite lookup_insert_eq. }
  { intros k x Hk. rewrite list_lookup_insert_ne by lia.
    replace (S j + k)%nat with (j + S k)%nat by lia. by apply Hvs. }
  { lia. }
  exists blk'. split; [|split; [|split]].
  - replace (j + S (length vs))%nat with (S j + length vs)%nat by lia.
    rewrite Heq. simpl. by rewrite insert_insert_eq.
  - by rewrite Hlen', length_insert.
  - intros [|k] x Hk; simpl in Hk.
    + injection Hk as ->. rewrite Nat.add_0_r. rewrite Hout by lia.
      apply list_lookup_insert_eq. by eapply lookup_lt_Some.
    + replace (j + S k)%nat with (S j + k)%nat by lia. by apply Hval.
  - intros k Hk. rewrite Hout by lia. apply list_lookup_insert_ne. lia.
Qed.

(** A range-based [for] loop that assigns [f(x)] to every element [x]
    through the mutable iterator ends after as many steps as the array
    has elements and leaves the array holding the images of its
    elements, in order, with the capacity and the other arrays as they
    were. *)
Theorem range_for_update_maps this s l cap fuel f :
  repr s this l cap → (length l ≤ fuel)%nat →
  ∃ s', range_for_update fuel this f s = Ok true s' ∧
        repr s' this (f <$> l) cap ∧ frame s s' this.
Proof.
  intros Hr Hfuel. destruct (repr_fields _ _ _ _ Hr) as (a & Ha & Hc & _).
  unfold range_for_update.
  rewrite (bind_ok _ _ s _ s (begin_iterator_spec _ _ _ Ha)).
  rewrite (bind_ok _ _ s _ s (end_iterator_spec _ _ _ Ha)).
  destruct (repr_inv _ _ _ _ Hr)
    as [a0 Ha0 Hd _ Hm -> ->|a0 b blk Ha0 Hd _ Hm Hle Hpos Hmax Hb Hlen Hcont];
    assert (a0 = a) as -> by congruence; rewrite Hd.
  - exists s. split; [|split; [done|apply frame_refl]].
    destruct fuel; cbn [transform ptr_add]; unfold ArrayIterator.operator_ne;
      cbn [ArrayIterator.mPtr]; by rewrite bool_decide_eq_false_2 by (intros H; by apply H).
  - destruct (transform_spec f l s b blk 0 fuel Hb) as (blk' & Heq & Hlen' & Hval & _);
      [done|done|].
    exists (mkState (<[b := blk']> (heap s)) (objs s)). split.
    + rewrite Hc. cbn [ptr_add]. rewrite Z.add_0_l. exact Heq.
    + eapply (in_place s _ this a a b blk'); try done.
      * by rewrite length_fmap.
      * by rewrite length_fmap.
      * lia.
      * intros k y Hk. rewrite list_lookup_fmap in Hk.
        destruct (l !! k) as [x|] eqn:Hx; [|done]. injection Hk as <-. by apply (Hval k).
Qed.

(** ** Calls in sequence *)

Lemma frame_then_kept s s1 s2 this :
  frame s s1 this → others_kept s1 s2 this → others_kept s s2 this.
Proof.
  intros Hf Hk o l cap Hne Hsep Hr. apply Hk; [done| |].
  - by eapply frame_separate.
  - by eapply frame_repr.
Qed.

Lemma others_kept_refl s this : others_kept s s this.
Proof. by intros o l cap _ _ Hr. Qed.

Lemma new_capacity_grows capacity minCapacity :
  capacity ≤ new_capacity capacity minCapacity.
Proof.
  unfold new_capacity, grow_capacity. destruct (decide _); lia.
Qed.

Lemma delete_insert_at (i : nat) (v : T) l :
  (i ≤ length l)%nat → delete i (insert_at i [v] l) = l.
Proof.
  intros Hi. unfold insert_at. rewrite delete_take_drop.
  assert (length (take i l) = i) as Hlen by (rewrite length_take; lia).
  rewrite take_app_length' by done.
  replace (S i) with (length (take i l ++ [v])) by (rewrite length_app; simpl; lia).
  rewrite (app_assoc (take i l) [v]). rewrite drop_app_length.
  apply take_drop.
Qed.

(** Inserting a value at a position and removing the element at that
    position, for the insertion of a value. *)
Lemma Insert_RemoveAt_by_value this (i : nat) v s l cap :
  repr s this l cap → (i ≤ length l)%nat →
  post (index ← Insert this (Z.of_nat i) v; RemoveAt this index) s
       (λ _ s', repr s' this l (new_capacity cap (Z.of_nat (length l) + 1)) ∧
                others_kept s s' this)
       (λ e s', e = bad_alloc ∧ s' = s) True.
Proof.
  intros Hr Hi. apply post_bind. unfold Insert.
  eapply post_mono; [apply (EmplaceAt_spec this i v s l cap Hr Hi)| | |done].
  - intros r s1 (-> & Hr1 & Hf1).
    assert (i < length (insert_at i [v] l))%nat as Hlt
      by (rewrite length_insert_at; simpl; lia).
    destruct (decide (trivially_destructible = true ∨
                      i = (length (insert_at i [v] l) - 1)%nat)) as [Htd|Hno].
    2:{ assert (trivially_destructible = false) as Htd
          by (destruct trivially_destructible; [exfalso; apply Hno; by left|done]).
        unfold post. by rewrite (RemoveAt_undefined this i s1 _ _ Hr1) by (done || lia). }
    destruct (RemoveAt_spec this i s1 _ _ Hr1 Hlt Htd) as (s2 & Heq & Hr2 & Hf2).
    eapply post_ok; [exact Heq|]. rewrite delete_insert_at in Hr2 by done. split; [done|].
    eapply frame_then_kept; [exact Hf1|by apply frame_others_kept].
  - by intros e s' (-> & -> & _).
Qed.

(** A sequence of [Add] calls, for the values of the arguments. *)
Lemma add_all_by_value this vs : ∀ s l cap,
  repr s this l cap →
  post (add_all this vs) s
       (λ _ s', ∃ cap', repr s' this (l ++ vs) cap' ∧ cap ≤ cap' ∧ others_kept s s' this)
       (λ e s', e = bad_alloc ∧
                ∃ (k : nat) cap', (k < length vs)%nat ∧ repr s' this (l ++ take k vs) cap' ∧
                                  cap ≤ cap' ∧ others_kept s s' this)
       True.
Proof.
  induction vs as [|v vs IH]; intros s l cap Hr; cbn [add_all].
  { apply post_ret. exists cap. rewrite app_nil_r. split; [done|]. split; [lia|].
    apply others_kept_refl. }
  apply post_bind.
  eapply post_mono; [apply (Add_spec this v s l cap Hr)| | |done].
  - intros _ s1 (Hr1 & Hf1).
    pose proof (new_capacity_grows cap (Z.of_nat (length l) + 1)) as Hge.
    eapply post_mono; [apply (IH s1 _ _ Hr1)| | |done].
    + intros _ s2 (cap' & Hr2 & Hle & Hk). exists cap'. rewrite <- app_assoc in Hr2.
      split; [done|]. split; [lia|]. by eapply frame_then_kept.
    + intros e s2 (-> & k & cap' & Hk & Hr2 & Hle & Hkept). split; [done|].
      exists (S k), cap'. rewrite <- app_assoc in Hr2. cbn [length take].
      split; [lia|]. split; [done|]. split; [lia|]. by eapply frame_then_kept.
  - intros e s' (-> & -> & _). split; [done|]. exists 0%nat, cap. cbn [take length].
    rewrite app_nil_r. split; [lia|]. split; [done|]. split; [lia|]. apply others_kept_refl.
Qed.

Lemma Add_in_place this v s a :
  objs s !! this = Some a → 0 ≤ mCount a → mCount a + 1 ≤ mCapacity a →
  mCapacity a ≤ PTRDIFF_MAX →
  post (Add this v) s
       (λ _ s', ∃ a', objs s' !! this = Some a' ∧ mData a' = mData a)
       (λ _ _, True) True.
Proof.
  intros Ha H0 Hle Hmax. unfold Add, Emplace.
  apply post_bind, post_bind, post_get_obj. rewrite Ha.
  apply post_bind.
  eapply post_mono; [apply EmplaceAt_fields| |done|done].
  intros r s1 (-> & a0 & a' & (Ha0 & Hobjs & _) & _ & a1 & He & ->).
  assert (a0 = a) as -> by congruence.
  unfold ensure_rel in He. rewrite decide_False in He.
  2:{ unfold to_size_t, PTRDIFF_MAX in *. rewrite Z.mod_small; lia. }
  subst a1.
  apply post_bind, post_get_obj. rewrite Hobjs, lookup_insert_eq.
  apply post_ret. apply post_ret. eexists. split; [by rewrite Hobjs, lookup_insert_eq|done].
Qed.

(** While the capacity suffices, [Add] does not allocate: a sequence of
    calls that fits in the capacity cannot fail, leaves the capacity as
    it is, and leaves the buffer where it is, so that [Data()] and the
    references into the array stay valid. *)
Theorem add_all_within_capacity this vs : ∀ s l cap,
  repr s this l cap → Z.of_nat (length l) + Z.of_nat (length vs) ≤ cap →
  ∃ s', add_all this vs s = Ok tt s' ∧ repr s' this (l ++ vs) cap ∧
        mData (object_of this s') = mData (object_of this s) ∧
        others_kept s s' this.
Proof.
  induction vs as [|v vs IH]; intros s l cap Hr Hle; cbn [add_all length] in *.
  { exists s. rewrite app_nil_r. split; [done|]. split; [done|]. split; [done|].
    apply others_kept_refl. }
  destruct (repr_fields _ _ _ _ Hr) as (a & Ha & Hc & Hm & _ & Hmax).
  pose proof (Add_spec this v s l cap Hr) as Hadd.
  pose proof (Add_in_place this v s a Ha ltac:(lia) ltac:(lia) ltac:(lia)) as Hplace.
  unfold post in Hadd, Hplace.
  destruct (Add this v s) as [[] s1|e s1|] eqn:Heq; [| |done].
  2:{ destruct Hadd as (_ & _ & Hgt & _). lia. }
  destruct Hadd as (Hr1 & Hf1). destruct Hplace as (a1 & Ha1 & Hd1).
  rewrite new_capacity_same in Hr1 by lia.
  destruct (IH s1 _ _ Hr1) as (s2 & Heq2 & Hr2 & Hd2 & Hk2).
  { rewrite length_app. cbn [length]. lia. }
  exists s2. split; [by rewrite (bind_ok _ _ s tt s1 Heq)|].
  rewrite <- app_assoc in Hr2. split; [done|]. split.
  - rewrite Hd2. unfold object_of. by rewrite Ha, Ha1.
  - by eapply frame_then_kept.
Qed.


Lemma lex_compare_refl l : (∀ x, T_cmp x x = Eq) → lex_compare l l = Eq.
Proof. intros Hrefl. induction l as [|x l IH]; [done|]. cbn [lex_compare]. by rewrite Hrefl. Qed.

(** A copy compares equal to the array it was made from: [operator==]
    returns [true], and [operator<=>] returns [equal] when every
    element compares equal to itself. *)
Theorem copy_compares_equal this other s l cap :
  this ≠ other → repr s other l cap →
  post (Array_copy this other;; operator_eq this other) s
       (λ r _, r = true) (λ e s', e = bad_alloc ∧ s' = s) False ∧
  ((∀ x, T_cmp x x = Eq) →
   post (Array_copy this other;; operator_spaceship this other) s
        (λ r _, r = Eq) (λ e s', e = bad_alloc ∧ s' = s) False).
Proof.
  intros Hne Hr.
  assert (post (Array_copy this other) s
            (λ _ s1, repr s1 this l (Z.of_nat (length l)) ∧ repr s1 other l cap)
            (λ e s', e = bad_alloc ∧ s' = s) False) as Hcopy.
  { eapply post_mono; [apply (Array_copy_spec this other s l cap Hne Hr)| |done|done].
    intros _ s1 (Hr1 & Hf1). split; [done|]. by eapply fresh_for_repr. }
  split; [|intros Hrefl]; apply post_bind; (eapply post_mono; [exact Hcopy| |done|done]);
    intros _ s1 (Hr1 & Ho1).
  - eapply post_ok; [by eapply operator_eq_spec|]. by apply bool_decide_eq_true_2.
  - eapply post_ok; [by eapply operator_spaceship_spec|]. by apply lex_compare_refl.
Qed.

(** An array that has been moved from is an empty array that can be
    used again: an [Add] on it allocates a buffer of its own, of
    capacity 8, and the array that took its contents keeps them. *)
Theorem moved_from_is_reusable this other v s l cap :
  this ≠ other → repr s other l cap →
  post (Array_move this other;; Add other v) s
       (λ _ s', repr s' this l cap ∧ repr s' other [v] 8 ∧ separate s' this other)
       (λ e s', e = bad_alloc ∧ repr s' this l cap ∧ repr s' other [] 0) False.
Proof.
  intros Hne Hr. apply post_bind.
  destruct (Array_move_spec this other s l cap Hr Hne) as (s1 & Heq & Hr1 & Ho1 & _).
  eapply post_ok; [exact Heq|].
  assert (repr s1 other [] 0) as Hro1 by by eapply repr_intro_null.
  assert (separate s1 other this) as Hsep.
  { apply separate_intro. intros a1 a2 b i1 i2 H1 _ Hd _. rewrite Ho1 in H1.
    by injection H1 as <-. }
  eapply post_mono; [apply (Add_spec other v s1 [] 0 Hro1)| | |done].
  - intros _ s2 (Hr2 & Hf2). split; [by eapply frame_repr|]. split; [exact Hr2|].
    apply separate_sym. by eapply frame_separate.
  - by intros e s2 (-> & -> & _).
Qed.

Lemma Swap_run this other s a o :
  objs s !! this = Some a → objs s !! other = Some o →
  Swap this other s = Ok tt (mkState (heap s) (<[other := a]> (<[this := o]> (objs s)))).
Proof.
  intros Ha Ho. unfold Swap, mbind, M_bind, bind, get_obj, set_obj. rewrite Ha, Ho.
  cbn [objs heap]. by destruct a, o.
Qed.

(** [Swap] is its own inverse: two calls in a row leave every array
    and every buffer exactly as they were, also when an array is
    swapped with itself. *)
Theorem Swap_twice_restores this other s a o :
  objs s !! this = Some a → objs s !! other = Some o →
  (Swap this other;; Swap this other) s = Ok tt s.
Proof.
  intros Ha Ho. rewrite (bind_ok _ _ s tt _ (Swap_run _ _ _ _ _ Ha Ho)).
  destruct (decide (this = other)) as [->|Hne].
  - assert (a = o) as -> by congruence.
    rewrite (Swap_run other other _ o o) by (cbn [objs]; by rewrite lookup_insert_eq).
    f_equal. destruct s as [h os]. cbn [objs heap] in *. f_equal.
    rewrite !insert_insert_eq. by apply insert_id.
  - rewrite (Swap_run this other _ o a).
    2:{ cbn [objs]. rewrite lookup_insert_ne by done. by rewrite lookup_insert_eq. }
    2:{ cbn [objs]. by rewrite lookup_insert_eq. }
    f_equal. destruct s as [h os]. cbn [objs heap] in *. f_equal.
    apply map_eq. intros k.
    destruct (decide (k = other)) as [->|Hk1]; [by rewrite lookup_insert_eq|].
    rewrite lookup_insert_ne by done.
    destruct (decide (k = this)) as [->|Hk2]; [by rewrite lookup_insert_eq|].
    by rewrite !lookup_insert_ne by done.
Qed.

(** ** Removal *)

Lemma find_first_retained pred l :
  find_first pred (retained pred l) = length (retained pred l).
Proof.
  induction l as [|x l IH]; [done|]. unfold retained in *.
  destruct (pred x) eqn:Hp.
  - by rewrite filter_cons_False by (by rewrite Hp).
  - rewrite filter_cons_True by done. cbn [find_first length]. by rewrite Hp, IH.
Qed.

Lemma retained_idem pred l : retained pred (retained pred l) = retained pred l.
Proof.
  apply retained_all. intros j x Hj.
  apply list_elem_of_lookup_2 in Hj. unfold retained in Hj.
  by apply list_elem_of_filter in Hj as [? _].
Qed.

Lemma Count_spec this s l cap :
  repr s this l cap → Count this s = Ok (Z.of_nat (length l)) s.
Proof.
  intros Hr. destruct (repr_fields _ _ _ _ Hr) as (a & Ha & Hc & _).
  unfold Count, mbind, M_bind, bind, get_obj. by rewrite Ha, Hc.
Qed.

(** After [RemoveAll] no element satisfies the predicate: [ContainsIf]
    returns [false], [FindIf] returns [INDEX_NONE], and a second
    [RemoveAll] removes nothing.  The count returned and the count that
    is left add up to the count before. *)
Theorem RemoveAll_leaves_no_match this pred s l cap :
  repr s this l cap →
  ∃ n s', RemoveAll this pred s = Ok n s' ∧
          ContainsIf this pred s' = Ok false s' ∧
          FindIf this pred s' = Ok INDEX_NONE s' ∧
          (∃ k, Count this s' = Ok k s' ∧ n + k = Z.of_nat (length l)) ∧
          (∃ s'', RemoveAll this pred s' = Ok 0 s'').
Proof.
  intros Hr. destruct (RemoveAll_spec this pred s l cap Hr) as (s' & Heq & Hr' & _).
  eexists _, s'. split; [exact Heq|].
  pose proof (find_first_retained pred l) as Hff.
  split; [|split; [|split]].
  - rewrite (ContainsIf_spec _ _ _ _ _ Hr'). f_equal. apply bool_decide_eq_false_2. lia.
  - rewrite (FindIf_spec _ _ _ _ _ Hr'). f_equal. apply found_ge. lia.
  - exists (Z.of_nat (length (retained pred l))). split; [by eapply Count_spec|].
    pose proof (length_filter (λ x, pred x = false) l). unfold retained. lia.
  - destruct (RemoveAll_spec this pred s' _ cap Hr') as (s'' & Heq' & _).
    exists s''. rewrite Heq'. f_equal. rewrite retained_idem. f_equal. lia.
Qed.

Lemma find_first_absent (value : T) l :
  value ∉ l → find_first (λ x, bool_decide (x = value)) l = length l.
Proof.
  intros Hn. pose proof (find_first_le (λ x, bool_decide (x = value)) l) as Hle.
  destruct (decide (find_first (λ x, bool_decide (x = value)) l < length l)%nat) as [Hlt|];
    [|lia].
  apply find_first_lt_iff in Hlt as (x & Hx & Hp).
  apply bool_decide_eq_true_1 in Hp. by subst x.
Qed.

Lemma find_first_app (value : T) l1 l2 :
  value ∉ l1 →
  find_first (λ x, bool_decide (x = value)) (l1 ++ value :: l2) = length l1.
Proof.
  induction l1 as [|x l1 IH]; intros Hn; cbn [app find_first length].
  - by rewrite bool_decide_eq_true_2.
  - apply not_elem_of_cons in Hn as [Hne Hn].
    rewrite bool_decide_eq_false_2 by done. by rewrite IH.
Qed.

(** [Remove] of a value the array does not hold returns [false] and
    changes nothing at all. *)
Theorem Remove_absent_changes_nothing this value s l cap :
  repr s this l cap → value ∉ l → Remove this value s = Ok false s.
Proof.
  intros Hr Hn. unfold Remove.
  rewrite (bind_ok _ _ s _ s (Find_spec _ value _ _ _ Hr)).
  rewrite find_first_absent by done. rewrite found_ge by lia.
  by rewrite decide_False by (intros H; by apply H).
Qed.

(** [Remove] of a value the array holds.  When the destructor of [T]
    is trivial, or the first occurrence of the value is the last
    element, the call returns [true] and has removed that occurrence
    and only that one: the elements before it and after it, later
    occurrences included, stay in order, and the capacity is
    unchanged.  Otherwise the behaviour is undefined: [RemoveAt]
    destroys the element and then has [std::move] assign to it. *)
Theorem Remove_removes_first_occurrence this value s l1 l2 cap :
  repr s this (l1 ++ value :: l2) cap → value ∉ l1 →
  if decide (trivially_destructible = true ∨ l2 = [])
  then ∃ s', Remove this value s = Ok true s' ∧ repr s' this (l1 ++ l2) cap ∧
             others_kept s s' this
  else Remove this value s = UB.
Proof.
  intros Hr Hn.
  pose proof (find_first_app value l1 l2 Hn) as Hk.
  destruct (decide (trivially_destructible = true ∨ l2 = [])) as [Htd|Hno].
  - destruct (Remove_spec this value s _ cap Hr) as (s' & Heq & Hr' & Hf).
    { rewrite Hk, length_app. cbn [length].
      destruct Htd as [? | ->]; [by left|right; cbn [length]; lia]. }
    rewrite Hk in Heq, Hr'.
    exists s'. split; [|split].
    + rewrite Heq. f_equal. apply bool_decide_eq_true_2. rewrite length_app. simpl. lia.
    + rewrite delete_take_drop in Hr'. rewrite take_app_length in Hr'.
      rewrite (cons_middle value l1 l2), app_assoc in Hr'.
      replace (S (length l1)) with (length (l1 ++ [value])) in Hr'
        by (rewrite length_app; simpl; lia).
      by rewrite drop_app_length in Hr'.
    + by apply frame_others_kept.
  - apply (Remove_undefined this value s _ cap Hr).
    + rewrite Hk, length_app. cbn [length].
      destruct l2 as [|x l2]; [exfalso; apply Hno; by right|cbn [length]; lia].
    + destruct trivially_destructible; [exfalso; apply Hno; by left|done].
Qed.

(** ** Bounds *)

(** The index equal to the count is where [Insert] appends and where
    [RemoveAt] refuses: [RemoveAt] throws [std::out_of_range] exactly
    for the indices from the count on, [Insert] exactly for those
    beyond the count, and both leave the array as it was. *)
Theorem RemoveAt_Insert_bounds this index v s l cap :
  repr s this l cap → is_size_t index →
  (RemoveAt this index s = Throw out_of_range s ↔ Z.of_nat (length l) ≤ index) ∧
  (Insert this index v s = Throw out_of_range s ↔ Z.of_nat (length l) < index).
Proof.
  intros Hr [H0 Hmax]. destruct (repr_fields _ _ _ _ Hr) as (a & Ha & Hc & _ & Hlecap & Hcap).
  assert (∀ k, 0 ≤ k ≤ 1 → to_size_t (mCount a + k) = Z.of_nat (length l) + k) as Hsz.
  { intros k Hk. unfold to_size_t, PTRDIFF_MAX in *. rewrite Z.mod_small; lia. }
  split; split.
  - intros Heq. destruct (decide (Z.of_nat (length l) ≤ index)) as [|Hlt]; [done|].
    exfalso. eapply (RemoveAt_in this index s l cap s); [done|lia|done].
  - intros Hge. unfold RemoveAt. apply bind_throw.
    eapply checkRange_throws; [done|]. rewrite Hsz; lia.
  - intros Heq. destruct (decide (Z.of_nat (length l) < index)) as [|Hle]; [done|].
    pose proof (EmplaceAt_spec this (Z.to_nat index) v s l cap Hr ltac:(lia)) as Hp.
    rewrite Z2Nat.id in Hp by lia. unfold Insert in Heq. unfold post in Hp.
    rewrite Heq in Hp. by destruct Hp as [? _].
  - intros Hgt. unfold Insert, EmplaceAt. apply bind_throw.
    eapply checkRange_throws; [done|]. rewrite Hsz; lia.
Qed.

(** An insertion of no elements, from an empty initializer list or
    from a pointer with a count of zero (a null pointer too), returns
    the index and changes nothing.  The index is checked all the same:
    beyond the count the call throws. *)
Theorem empty_insertion_changes_nothing this index s l cap :
  repr s this l cap → is_size_t index →
  (index ≤ Z.of_nat (length l) →
   Insert_ilist this index [] s = Ok index s ∧
   ∀ p, Insert_ptr this index p 0 s = Ok index s) ∧
  (Z.of_nat (length l) < index →
   Insert_ilist this index [] s = Throw out_of_range s ∧
   ∀ p, Insert_ptr this index p 0 s = Throw out_of_range s).
Proof.
  intros Hr [H0 Hmax]. destruct (repr_fields _ _ _ _ Hr) as (a & Ha & Hc & _ & Hlecap & Hcap).
  assert (heap s !! fresh (dom (heap s)) = None) as Hfresh
    by apply not_elem_of_dom, is_fresh.
  split.
  - intros Hle. split.
    + unfold Insert_ilist, with_ilist. cbn [length].
      rewrite <- (Z2Nat.id index) at 1 by lia.
      rewrite (insertImpl_empty this (Z.to_nat index) _ _ l cap); [|by apply repr_alloc|lia].
      rewrite Z2Nat.id by lia. f_equal. cbn [heap objs]. apply release_fresh.
    + intros p. unfold Insert_ptr. rewrite <- (Z2Nat.id index) by lia.
      by apply (insertImpl_empty this (Z.to_nat index) p s l cap); [|lia].
  - intros Hgt.
    assert (∀ p s0, objs s0 = objs s → insertImpl this index p 0 s0 = Throw out_of_range s0)
      as Hthrow.
    { intros p s0 Hobjs. unfold insertImpl. apply bind_throw.
      eapply checkRange_throws; [by rewrite Hobjs|].
      unfold to_size_t, PTRDIFF_MAX in *. rewrite Z.mod_small; lia. }
    split.
    + unfold Insert_ilist, with_ilist. cbn [length]. rewrite Hthrow by done.
      f_equal. cbn [heap objs]. apply release_fresh.
    + intros p. by apply Hthrow.
Qed.

(** ** References *)

Lemma content_insert blk l (i : nat) (v : T) :
  content blk l → (i < length l)%nat → content (<[i := Live v]> blk) (<[i := v]> l).
Proof.
  intros Hc Hi k x Hk. destruct (decide (k = i)) as [->|Hne].
  - rewrite list_lookup_insert_eq in Hk by done. injection Hk as <-.
    destruct (lookup_lt_is_Some_2 l i Hi) as [y Hy].
    apply list_lookup_insert_eq. eapply lookup_lt_Some, Hc, Hy.
  - rewrite list_lookup_insert_ne in Hk by done. rewrite list_lookup_insert_ne by done.
    by apply Hc.
Qed.

(** Assigning through the reference that [operator[]] returns replaces
    the element at that index and nothing else: the other elements, the
    capacity and the other arrays are as they were. *)
Theorem assignment_through_operator_index this (i : nat) v s l cap :
  repr s this l cap → (i < length l)%nat →
  ∃ s', (p ← operator_index this (Z.of_nat i); write p (Live v)) s = Ok tt s' ∧
        repr s' this (<[i := v]> l) cap ∧ frame s s' this.
Proof.
  intros Hr Hi. destruct (repr_fields _ _ _ _ Hr) as (a & Ha & Hc & _ & Hlecap & Hcap).
  assert (operator_index this (Z.of_nat i) s = Ok (mData a +ₚ Z.of_nat i) s) as Hidx.
  { unfold operator_index. rewrite (bind_ok _ _ s tt s).
    - unfold mbind, M_bind, bind, get_obj. by rewrite Ha.
    - eapply checkRange_passes; [done|].
      unfold to_size_t, PTRDIFF_MAX in *. rewrite Z.add_0_r, Z.mod_small; lia. }
  rewrite (bind_ok _ _ s _ s Hidx).
  destruct (repr_inv _ _ _ _ Hr)
    as [a0 Ha0 Hd _ Hm -> ->|a0 b blk Ha0 Hd _ Hm Hle Hpos Hmax Hb Hlen Hcont];
    [simpl in Hi; lia|].
  assert (a0 = a) as -> by congruence. rewrite Hd. cbn [ptr_add]. rewrite Z.add_0_l.
  rewrite (write_nat s b blk i (Live v) Hb) by lia.
  eexists. split; [done|].
  eapply (in_place s _ this a a b (<[i := Live v]> blk)); try done.
  - by rewrite length_insert.
  - by rewrite length_insert.
  - by rewrite length_insert.
  - by apply content_insert.
Qed.

(** The index [Find] returns can be used with [operator[]]: when the
    value is in the array, the element at the index returned is that
    value; when it is not, [INDEX_NONE] is out of range and
    [operator[]] throws instead of reading outside the buffer. *)
Theorem Find_result_as_index this value s l cap :
  repr s this l cap →
  (value ∈ l → (i ← Find this value; get_at this i) s = Ok value s) ∧
  (value ∉ l → (i ← Find this value; get_at this i) s = Throw out_of_range s).
Proof.
  intros Hr. destruct (repr_fields _ _ _ _ Hr) as (a & Ha & Hc & _ & Hlecap & Hcap).
  rewrite (bind_ok _ _ s _ s (Find_spec _ value _ _ _ Hr)).
  set (pred := λ x : T, bool_decide (x = value)). split.
  - intros Hin.
    assert (find_first pred l < length l)%nat as Hlt.
    { apply find_first_lt_iff. exists value. split; [done|]. by apply bool_decide_eq_true_2. }
    destruct (find_first_found pred l Hlt) as (x & Hx & Hp).
    apply bool_decide_eq_true_1 in Hp. subst x.
    rewrite found_lt by done. unfold get_at.
    destruct (operator_index_in _ _ _ _ _ _ Hr Hx) as (p & Hp & Hload).
    by rewrite (bind_ok _ _ s p s Hp).
  - intros Hn. unfold pred. rewrite find_first_absent by done. rewrite found_ge by lia.
    unfold get_at. apply bind_throw. eapply operator_index_out; [done|].
    unfold INDEX_NONE, SIZE_MAX, PTRDIFF_MAX in *. lia.
Qed.

(** ** Capacity *)

Lemma Resize_fill_within_count this n v s a :
  objs s !! this = Some a → n ≤ mCount a →
  post (Resize_fill this n v) s (λ _ _, True) (λ _ _, False) True.
Proof.
  intros Ha Hle. unfold Resize_fill. apply post_bind, post_get_obj. rewrite Ha.
  rewrite decide_False by lia. apply post_bind.
  destruct (decide (n < mCount a)).
  - eapply post_heap_only; [apply heap_only_destroy_n|]. intros _ s' _ _ _.
    apply set_mCount_post. by destruct (objs s' !! this).
  - apply post_ret. apply set_mCount_post. by rewrite Ha.
Qed.

(** Growing an array with [Resize] and resizing it back to its former
    count, for the value of the fill argument. *)
Lemma Resize_grow_shrink_by_value this n v s l cap :
  repr s this l cap → Z.of_nat (length l) ≤ n →
  post (Resize_fill this n v;; Resize this (Z.of_nat (length l))) s
       (λ _ s', repr s' this l (new_capacity cap n) ∧ others_kept s s' this)
       (λ e s', e = bad_alloc ∧ s' = s) True.
Proof.
  intros Hr Hn. destruct (repr_fields _ _ _ _ Hr) as (a & _ & _ & _ & Hlecap & _).
  apply post_bind.
  eapply post_mono; [apply (Resize_fill_spec this n v s l cap Hr); lia| |done|done].
  intros _ s1 (Hr1 & Hf1). rewrite take_ge in Hr1 by lia.
  destruct (repr_fields _ _ _ _ Hr1) as (a1 & Ha1 & Hc1 & _).
  pose proof (Resize_spec this (Z.of_nat (length l)) s1 _ _ Hr1 ltac:(lia)) as Hspec.
  pose proof (Resize_fill_within_count this (Z.of_nat (length l)) T_default s1 a1 Ha1)
    as Hno.
  unfold Resize in *. unfold post in *.
  destruct (Resize_fill this (Z.of_nat (length l)) T_default s1) as [[] s2|e s2|];
    [|exfalso; apply Hno; rewrite Hc1, length_app; lia|done].
  destruct Hspec as (Hr2 & Hf2). rewrite Nat2Z.id, take_app_length in Hr2.
  rewrite length_app in Hr2.
  replace (length l - (length l + length (replicate (Z.to_nat n - length l) v)))%nat
    with 0%nat in Hr2 by lia.
  cbn [replicate] in Hr2. rewrite app_nil_r in Hr2.
  rewrite (new_capacity_same (new_capacity cap n)) in Hr2
    by (pose proof (new_capacity_grows cap n); lia).
  split; [done|]. eapply frame_then_kept; [exact Hf1|by apply frame_others_kept].
Qed.

(** [Clear] followed by [Shrink] returns the array to the state of a
    default-constructed one and releases its buffer: the buffer is no
    longer allocated, every other buffer is untouched, and the two calls
    cannot fail, since a capacity of zero needs no allocation. *)
Theorem Clear_then_Shrink_releases_buffer this s l cap :
  repr s this l cap →
  ∃ s', (Clear this;; Shrink this) s = Ok tt s' ∧
        repr s' this [] 0 ∧
        objs s' = <[this := mkArray Null 0 0]> (objs s) ∧
        heap s' = match mData (object_of this s) with
                  | Ptr b _ => delete b (heap s)
                  | Null => heap s
                  end.
Proof.
  intros Hr.
  destruct (Clear_spec this s l cap Hr) as (s1 & a & Heq & Hr1 & Hf1 & Ha & Ha1 & Hdom).
  rewrite (bind_ok _ _ s tt s1 Heq). unfold object_of. rewrite Ha.
  cbn [default from_option id].
  assert (objs s1 = <[this := mkArray (mData a) 0 (mCapacity a)]> (objs s)) as Hobjs.
  { apply map_eq. intros o. destruct (decide (o = this)) as [->|Hne].
    - by rewrite lookup_insert_eq.
    - rewrite lookup_insert_ne by done. by apply Hf1. }
  assert (∀ b', (∀ o, mData a ≠ Ptr b' o) → heap s1 !! b' = heap s !! b') as Hkeep.
  { intros b' Hb'. destruct (heap s !! b') as [blk|] eqn:Hblk.
    - apply Hf1; [done|]. intros a0 o Ha0. assert (a0 = a) as -> by congruence. apply Hb'.
    - apply not_elem_of_dom. rewrite Hdom. by apply not_elem_of_dom. }
  destruct (repr_inv _ _ _ _ Hr)
    as [a0 Ha0 Hd Hc Hm -> ->|a0 b blk Ha0 Hd Hc Hm Hle Hpos Hmax Hb Hlen Hcont];
    assert (a0 = a) as -> by congruence; rewrite Hd in *.
  - rewrite Hm in *. exists s1. split; [|split; [done|split; [done|]]].
    + unfold Shrink, mbind, M_bind, bind, get_obj. rewrite Ha1. cbn [mCapacity mCount].
      by rewrite decide_False by lia.
    + apply map_eq. intros b'. by apply Hkeep.
  - exists (mkState (delete b (heap s1)) (<[this := mkArray Null 0 0]> (objs s1))).
    assert (is_Some (heap s1 !! b)) as Hsome.
    { apply elem_of_dom. rewrite Hdom. apply elem_of_dom. by eexists. }
    split; [|split; [|split]].
    + unfold Shrink, reallocate, cleanup, mbind, M_bind, bind, get_obj.
      rewrite Ha1. cbn [mCapacity mCount mData is_null].
      rewrite decide_True by lia. rewrite Ha1. cbn [mCapacity mCount mData is_null].
      rewrite decide_False by lia. rewrite decide_True by done.
      rewrite Ha1. cbn [mCapacity mCount mData is_null].
      change (std_destroy_n (Ptr b 0) 0 s1) with (Ok tt s1 : outcome (state T) ()).
      cbv beta iota. by rewrite operator_delete_ok.
    + eapply repr_intro_null; cbn [objs]; [apply lookup_insert_eq|done..].
    + cbn [objs]. rewrite Hobjs. by rewrite insert_insert_eq.
    + cbn [heap]. apply map_eq. intros b'. destruct (decide (b' = b)) as [->|Hne].
      * by rewrite !lookup_delete_eq.
      * rewrite !lookup_delete_ne by done. apply Hkeep. intros o [= ?]. congruence.
Qed.

(** ** Ownership of buffers *)

Lemma own_buffer_only_refl s this : own_buffer_only s s this.
Proof. by split. Qed.

Lemma own_buffer_only_trans s1 s2 s3 this :
  own_buffer_only s1 s2 this → own_buffer_only s2 s3 this → own_buffer_only s1 s3 this.
Proof.
  intros [H1 H1'] [H2 H2']. split.
  - intros o Hne. by rewrite H2, H1.
  - intros b. by rewrite H2', H1'.
Qed.

Lemma owns_same s s' o b : objs s' !! o = objs s !! o → owns s' o b ↔ owns s o b.
Proof. unfold owns. by intros ->. Qed.

Lemma own_buffer_only_objs s s' this :
  objs s' = objs s → dom (heap s') = dom (heap s) → own_buffer_only s s' this.
Proof. intros Ho Hd. split; [by rewrite Ho|]. intros b. unfold owns. by rewrite Ho, Hd. Qed.

Lemma balanced_refl s : balanced s s.
Proof. by intros b. Qed.

Lemma balanced_trans s1 s2 s3 : balanced s1 s2 → balanced s2 s3 → balanced s1 s3.
Proof. intros H1 H2 b. by rewrite (H1 b), (H2 b). Qed.

Lemma own_buffer_only_balanced s s' this : own_buffer_only s s' this → balanced s s'.
Proof.
  intros [Ho Hb] b. unfold unowned. split; intros [Hd Hn].
  - destruct (proj2 (Hb b)) as [Hd' Hn']; [split; [done|apply Hn]|].
    split; [done|]. intros o. destruct (decide (o = this)) as [->|Hne]; [done|].
    rewrite (owns_same s s' o b (Ho o Hne)). apply Hn.
  - destruct (proj1 (Hb b)) as [Hd' Hn']; [split; [done|apply Hn]|].
    split; [done|]. intros o. destruct (decide (o = this)) as [->|Hne]; [done|].
    rewrite <- (owns_same s s' o b (Ho o Hne)). apply Hn.
Qed.

Lemma balanced_permute s s' :
  dom (heap s') = dom (heap s) →
  (∀ b, (∃ o, owns s' o b) ↔ (∃ o, owns s o b)) →
  balanced s s'.
Proof.
  intros Hd Ho b. unfold unowned. rewrite Hd.
  split; intros [Hin Hn]; (split; [done|]); intros o Hown.
  - destruct (proj1 (Ho b)) as [o' Ho']; [by exists o|]. by apply (Hn o').
  - destruct (proj2 (Ho b)) as [o' Ho']; [by exists o|]. by apply (Hn o').
Qed.

Lemma confined_ret {A} this (a : A) : confined this (mret a).
Proof. intros s. apply post_ret, own_buffer_only_refl. Qed.

Lemma confined_throw {A} this e : confined this (throw e : M A).
Proof. intros s. apply own_buffer_only_refl. Qed.

Lemma confined_undefined {A} this : confined this (undefined : M A).
Proof. by intros s. Qed.

Lemma confined_bind {A B} this (m : M A) (k : A → M B) :
  confined this m → (∀ a, confined this (k a)) → confined this (m ≫= k).
Proof.
  intros Hm Hk s. apply post_bind. eapply post_mono; [apply Hm| |done|done].
  intros a s1 H1. eapply post_mono; [apply Hk| | |done];
    intros ? s2 H2; exact (own_buffer_only_trans _ _ _ _ H1 H2).
Qed.

Lemma confined_heap_only {A} this (m : M A) R : heap_only m R → confined this m.
Proof.
  intros Hm s. eapply post_mono; [apply Hm| |done|done].
  intros a s' (_ & Ho & Hd). by apply own_buffer_only_objs.
Qed.

Lemma confined_read_only {A} this (m : M A) R : read_only m R → confined this m.
Proof.
  intros Hm s. eapply post_mono; [apply Hm| | |done].
  - intros a s' [-> _]. apply own_buffer_only_refl.
  - intros e s' ->. apply own_buffer_only_refl.
Qed.

Lemma confined_leak_free {A} this (m : M A) : confined this m → leak_free m.
Proof.
  intros Hm s. eapply post_mono; [apply Hm| | |done];
    intros ? s' H; exact (own_buffer_only_balanced _ _ _ H).
Qed.

Lemma leak_free_ret {A} (a : A) : leak_free (mret a).
Proof. intros s. apply post_ret, balanced_refl. Qed.

Lemma leak_free_bind {A B} (m : M A) (k : A → M B) :
  leak_free m → (∀ a, leak_free (k a)) → leak_free (m ≫= k).
Proof.
  intros Hm Hk s. apply post_bind. eapply post_mono; [apply Hm| |done|done].
  intros a s1 H1. eapply post_mono; [apply Hk| | |done];
    intros ? s2 H2; exact (balanced_trans _ _ _ H1 H2).
Qed.

Lemma confined_set_mCount this n : confined this (set_mCount this n).
Proof.
  intros s. apply set_mCount_post. destruct (objs s !! this) as [a|] eqn:Ha; [|done].
  split; cbn [objs heap].
  - intros o Hne. by rewrite lookup_insert_ne.
  - intros b. unfold owns. cbn [objs]. rewrite lookup_insert_eq, Ha.
    split; intros [Hd Hn]; (split; [done|]); intros (a' & o & [= <-] & Hm); apply Hn;
      eexists _, o; (split; [done|]); exact Hm.
Qed.

Lemma post_operator_delete_exact p s (Q : unit → state T → Prop) E :
  (p = Null → Q tt s) →
  (∀ b, p = Ptr b 0 → is_Some (heap s !! b) →
        Q tt (mkState (delete b (heap s)) (objs s))) →
  post (operator_delete p) s Q E True.
Proof.
  intros Hnull Hptr. unfold post, operator_delete. destruct p as [|b o]; [by apply Hnull|].
  destruct (decide _) as [[-> Hb]|]; [|done]. by apply Hptr.
Qed.

(** [cleanup] releases the buffer of [this] and nothing else, and
    leaves [this] without a buffer. *)
Lemma cleanup_releases this s :
  post (cleanup this) s
       (λ _ s', own_buffer_only s s' this ∧ ∀ a, objs s' !! this = Some a → mData a = Null)
       (λ _ _, False) True.
Proof.
  unfold cleanup. apply post_bind, post_get_obj.
  destruct (objs s !! this) as [a|] eqn:Ha; [|done].
  destruct (mData a) as [|b o] eqn:Hd; cbn [is_null].
  { apply post_ret. split; [apply own_buffer_only_refl|]. intros a'. rewrite Ha.
    by intros [= <-]. }
  apply post_bind. eapply post_heap_only; [apply heap_only_destroy_n|].
  intros _ s1 _ Ho1 Hd1. apply post_bind. apply post_operator_delete_exact; [done|].
  intros b0 [= <- ->] Hsome. apply post_set_obj. split; [split|]; cbn [objs heap].
  - intros o Hne. by rewrite lookup_insert_ne, Ho1.
  - intros x. rewrite dom_delete_L, elem_of_difference, elem_of_singleton, Hd1.
    unfold owns. cbn [objs]. rewrite lookup_insert_eq, Ha. split.
    + intros [[Hx Hne] _]. split; [done|]. intros (a' & o' & [= <-] & Hm). congruence.
    + intros [Hx Hn]. split; [split; [done|]|].
      * intros ->. apply Hn. by exists a, 0.
      * by intros (a' & o' & [= <-] & Hm).
  - intros a'. rewrite lookup_insert_eq. by intros [= <-].
Qed.

Lemma confined_cleanup this : confined this (cleanup this).
Proof.
  intros s. eapply post_mono; [apply cleanup_releases| |done|done]. by intros _ s' [? _].
Qed.

Lemma confined_reallocate this n : confined this (reallocate this n).
Proof.
  intros s. unfold reallocate. apply post_bind, post_get_obj.
  destruct (objs s !! this) as [a|] eqn:Ha; [|done].
  destruct (decide _); [apply post_ret, own_buffer_only_refl|].
  destruct (decide _); [apply confined_cleanup|].
  apply post_bind, post_operator_new; [|intros _; apply own_buffer_only_refl].
  intros _. set (bn := fresh (dom (heap s))).
  assert (bn ∉ dom (heap s)) as Hfresh by apply is_fresh.
  apply post_bind. destruct (mData a) as [|b o] eqn:Hd; cbn [is_null].
  - apply post_ret, post_set_obj. split; cbn [objs heap].
    + intros o Hne. by rewrite lookup_insert_ne.
    + intros x. rewrite dom_insert_L, elem_of_union, elem_of_singleton.
      unfold owns. cbn [objs]. rewrite lookup_insert_eq, Ha. split.
      * intros [[->|Hx] Hn]; [exfalso; apply Hn; by eexists _, 0|].
        split; [done|]. intros (a' & o' & [= <-] & Hm). congruence.
      * intros [Hx Hn]. split; [by right|].
        intros (a' & o' & [= <-] & [= <- _]). done.
  - apply post_bind. eapply post_heap_only; [apply heap_only_uninitialized_move_n|].
    intros _ s1 _ Ho1 Hd1. apply post_bind.
    eapply post_heap_only; [apply heap_only_destroy_n|].
    intros _ s2 _ Ho2 Hd2. apply post_operator_delete_exact; [done|].
    intros b0 [= <- ->] Hsome. apply post_set_obj. split; cbn [objs heap].
    + intros o Hne. rewrite lookup_insert_ne by done. by rewrite Ho2, Ho1.
    + intros x. rewrite dom_delete_L, elem_of_difference, elem_of_singleton, Hd2, Hd1.
      cbn [heap]. rewrite dom_insert_L, elem_of_union, elem_of_singleton.
      unfold owns. cbn [objs]. rewrite lookup_insert_eq, Ha. split.
      * intros [[[->|Hx] Hne] Hn]; [exfalso; apply Hn; by eexists _, 0|].
        split; [done|]. intros (a' & o' & [= <-] & Hm). congruence.
      * intros [Hx Hn]. split; [split; [by right|]|].
        -- intros ->. apply Hn. by exists a, 0.
        -- intros (a' & o' & [= <-] & [= <- _]). done.
Qed.

Lemma confined_ensureCapacity this minCapacity :
  confined this (ensureCapacity this minCapacity).
Proof.
  intros s. unfold ensureCapacity. apply post_bind, post_get_obj.
  destruct (objs s !! this) as [a|]; [|done].
  destruct (decide _); [apply confined_reallocate|apply post_ret, own_buffer_only_refl].
Qed.

Lemma own_buffer_only_release s s0 sk this bt blk :
  heap s0 = <[bt := blk]> (heap s) → objs s0 = objs s → bt ∉ dom (heap s) →
  own_buffer_only s0 sk this →
  own_buffer_only s (mkState (delete bt (heap sk)) (objs sk)) this.
Proof.
  intros Hh Ho Hbt [Hobjs Hbuf]. split; cbn [objs heap].
  - intros o Hne. by rewrite Hobjs, Ho.
  - intros x. rewrite dom_delete_L, elem_of_difference, elem_of_singleton.
    assert (owns (mkState (delete bt (heap sk)) (objs sk)) this x ↔ owns sk this x) as ->
      by done.
    assert (owns s this x ↔ owns s0 this x) as -> by (unfold owns; by rewrite Ho).
    split.
    + intros [[Hx Hne] Hn]. destruct (proj1 (Hbuf x)) as [Hx0 Hn0]; [done|].
      split; [|done]. rewrite Hh, dom_insert_L, elem_of_union, elem_of_singleton in Hx0.
      by destruct Hx0.
    + intros [Hx Hn]. destruct (proj2 (Hbuf x)) as [Hxk Hnk].
      * split; [|done]. rewrite Hh, dom_insert_L, elem_of_union. by right.
      * split; [split; [done|]|done]. by intros ->.
Qed.

Lemma confined_with_ilist {A} this ilist (k : ptr → ptr → M A) :
  (∀ first last, confined this (k first last)) → confined this (with_ilist ilist k).
Proof.
  intros Hk s. apply post_with_ilist. cbv zeta.
  eapply post_mono; [apply Hk| | |done]; intros ? sk Hown;
    by eapply own_buffer_only_release; [| |apply is_fresh|exact Hown].
Qed.

Ltac confined_step :=
  match goal with
  | |- confined _ (mret _) => apply confined_ret
  | |- confined _ (ret _) => apply confined_ret
  | |- confined _ (throw _) => apply confined_throw
  | |- confined _ undefined => apply confined_undefined
  | |- confined _ (set_mCount ?this _) => apply confined_set_mCount
  | |- confined _ (cleanup _) => apply confined_cleanup
  | |- confined _ (reallocate _ _) => apply confined_reallocate
  | |- confined _ (ensureCapacity _ _) => apply confined_ensureCapacity
  | |- confined _ (get_obj _) => eapply confined_read_only, read_only_get_obj
  | |- confined _ (checkRange _ _ _) => eapply confined_read_only, read_only_checkRange
  | |- confined _ (with_ilist _ _) => apply confined_with_ilist; intros ? ?
  | |- confined _ (_ ≫= _) => apply confined_bind; [|intros ?]
  | |- confined _ (if decide ?P then _ else _) => destruct (decide P)
  | |- confined _ (match ?x with _ => _ end) => destruct x
  end.

Ltac confined_heap :=
  eapply confined_heap_only;
  first [ apply heap_only_construct_at | apply heap_only_destroy_at
        | apply heap_only_destroy_n | apply heap_only_destroy
        | apply heap_only_uninitialized_move_n | apply heap_only_move
        | apply heap_only_move_backward | apply heap_only_uninitialized_copy_n
        | apply heap_only_uninitialized_copy | apply heap_only_uninitialized_fill_n
        | apply heap_only_find_if | apply heap_only_find | apply heap_only_remove_if
        | apply heap_only_sort ].

Ltac confined_solve := repeat first [ confined_step | confined_heap ].

Lemma confined_insertImpl this index p count : confined this (insertImpl this index p count).
Proof. unfold insertImpl. confined_solve. Qed.

Lemma confined_EmplaceAt this index v : confined this (EmplaceAt this index v).
Proof. unfold EmplaceAt. confined_solve. Qed.

Lemma confined_Emplace this v : confined this (Emplace this v).
Proof. unfold Emplace. confined_solve. apply confined_EmplaceAt. Qed.

Lemma confined_Add this v : confined this (Add this v).
Proof. unfold Add. confined_solve. apply confined_Emplace. Qed.

Lemma confined_Insert_array this index source_ :
  confined this (Insert_array this index source_).
Proof. unfold Insert_array. confined_solve. apply confined_insertImpl. Qed.

Lemma confined_Insert_ilist this index ilist : confined this (Insert_ilist this index ilist).
Proof. unfold Insert_ilist. confined_solve. apply confined_insertImpl. Qed.

Lemma confined_Clear this : confined this (Clear this).
Proof. unfold Clear. confined_solve. Qed.

Lemma confined_RemoveAt this index : confined this (RemoveAt this index).
Proof. unfold RemoveAt. confined_solve. Qed.

Lemma confined_Remove this value : confined this (Remove this value).
Proof.
  unfold Remove. apply confined_bind; [eapply confined_read_only, read_only_Find|].
  intros index. confined_solve. apply confined_RemoveAt.
Qed.

Lemma confined_RemoveAll this pred : confined this (RemoveAll this pred).
Proof. unfold RemoveAll. confined_solve. Qed.

Lemma confined_Reserve this n : confined this (Reserve this n).
Proof. unfold Reserve. confined_solve. Qed.

Lemma confined_Resize_fill this n v : confined this (Resize_fill this n v).
Proof. unfold Resize_fill. confined_solve. Qed.

Lemma confined_Shrink this : confined this (Shrink this).
Proof. unfold Shrink. confined_solve. Qed.

Lemma confined_Sort this comp : confined this (Sort this comp).
Proof. unfold Sort. confined_solve. Qed.

Lemma post_own_confined {A} this (m : M A) s s1 :
  own_buffer_only s s1 this → confined this m →
  post m s1 (λ _ s', own_buffer_only s s' this) (λ _ s', own_buffer_only s s' this) True.
Proof.
  intros H1 Hm. eapply post_mono; [apply Hm| | |done];
    intros ? s2 H2; exact (own_buffer_only_trans _ _ _ _ H1 H2).
Qed.

Lemma post_balanced_leak_free {A} (m : M A) s s1 :
  balanced s s1 → leak_free m →
  post m s1 (λ _ s', balanced s s') (λ _ s', balanced s s') True.
Proof.
  intros H1 Hm. eapply post_mono; [apply Hm| | |done];
    intros ? s2 H2; exact (balanced_trans _ _ _ H1 H2).
Qed.

Lemma leak_free_Insert_rvalue this index source_ :
  leak_free (Insert_rvalue this index source_).
Proof.
  unfold Insert_rvalue.
  apply leak_free_bind;
    [eapply (confined_leak_free this), confined_read_only, read_only_get_obj|].
  intros src. apply leak_free_bind; [eapply confined_leak_free, confined_insertImpl|].
  intros r. apply leak_free_bind; [eapply confined_leak_free, confined_Clear|].
  intros _. apply leak_free_ret.
Qed.

Lemma leak_free_Swap this other : leak_free (Swap this other).
Proof.
  intros s. unfold post. destruct (objs s !! this) as [a|] eqn:Ha.
  2:{ unfold Swap, mbind, M_bind, bind, get_obj. by rewrite Ha. }
  destruct (objs s !! other) as [o|] eqn:Ho.
  2:{ unfold Swap, mbind, M_bind, bind, get_obj. by rewrite Ha, Ho. }
  rewrite (Swap_run _ _ _ _ _ Ha Ho). apply balanced_permute; [done|].
  intros b. unfold owns. cbn [objs]. split; intros (x & a' & i & Hx & Hm).
  - destruct (decide (x = other)) as [->|Hne1].
    + rewrite lookup_insert_eq in Hx. injection Hx as <-. by exists this, a, i.
    + rewrite lookup_insert_ne in Hx by done. destruct (decide (x = this)) as [->|Hne2].
      * rewrite lookup_insert_eq in Hx. injection Hx as <-. by exists other, o, i.
      * rewrite lookup_insert_ne in Hx by done. by exists x, a', i.
  - destruct (decide (x = this)) as [->|Hne1].
    + assert (a' = a) as -> by congruence. exists other, a, i. by rewrite lookup_insert_eq.
    + destruct (decide (x = other)) as [->|Hne2].
      * assert (a' = o) as -> by congruence. exists this, o, i.
        rewrite lookup_insert_ne by done. by rewrite lookup_insert_eq.
      * exists x, a', i. by rewrite !lookup_insert_ne.
Qed.

Lemma leak_free_Array_dtor this : leak_free (Array_dtor this).
Proof.
  intros s. unfold Array_dtor. apply post_bind.
  eapply post_mono; [apply cleanup_releases| |done|done].
  intros _ s1 [Hown Hnull]. apply post_del_obj.
  eapply balanced_trans; [exact (own_buffer_only_balanced _ _ _ Hown)|].
  apply balanced_permute; [done|]. intros b. unfold owns. cbn [objs].
  split; intros (x & a & i & Hx & Hm).
  - destruct (decide (x = this)) as [->|Hne]; [by rewrite lookup_delete_eq in Hx|].
    rewrite lookup_delete_ne in Hx by done. by exists x, a, i.
  - destruct (decide (x = this)) as [->|Hne].
    + by rewrite (Hnull a Hx) in Hm.
    + exists x, a, i. by rewrite lookup_delete_ne.
Qed.

Lemma Array_sized_own this capacity s :
  objs s !! this = None →
  post (Array_sized this capacity) s
       (λ _ s', own_buffer_only s s' this) (λ _ s', own_buffer_only s s' this) True.
Proof.
  intros Hnone. unfold Array_sized. apply post_bind. destruct (decide _).
  - apply post_operator_new; [|intros _; apply own_buffer_only_refl].
    intros _. apply post_set_obj. split; cbn [objs heap].
    + intros o Hne. by rewrite lookup_insert_ne.
    + intros x. rewrite dom_insert_L, elem_of_union, elem_of_singleton.
      unfold owns. cbn [objs]. rewrite lookup_insert_eq, Hnone. split.
      * intros [[->|Hx] Hn]; [exfalso; apply Hn; by eexists _, 0|].
        split; [done|]. by intros (a' & o' & ? & _).
      * intros [Hx _]. split; [by right|].
        intros (a' & o' & [= <-] & [= <- _]). by apply is_fresh in Hx.
  - apply post_ret, post_set_obj. split; cbn [objs heap].
    + intros o Hne. by rewrite lookup_insert_ne.
    + intros x. unfold owns. cbn [objs]. rewrite lookup_insert_eq, Hnone.
      split; intros [Hx _]; (split; [done|]); intros (a' & o' & H1 & H2); [done|].
      by injection H1 as <-.
Qed.

Lemma Array_copy_own this other s :
  objs s !! this = None →
  post (Array_copy this other) s
       (λ _ s', own_buffer_only s s' this) (λ _ s', own_buffer_only s s' this) True.
Proof.
  intros Hnone. unfold Array_copy. apply post_bind, post_get_obj.
  destruct (objs s !! other) as [o|]; [|done].
  apply post_bind. eapply post_mono; [by apply Array_sized_own| |done|done].
  intros ? s1 H1. cbv beta in H1. apply post_own_confined; [done|]. confined_solve.
Qed.

Lemma Array_ilist_own this ilist s :
  objs s !! this = None →
  post (Array_ilist this ilist) s
       (λ _ s', own_buffer_only s s' this) (λ _ s', own_buffer_only s s' this) True.
Proof.
  intros Hnone. unfold Array_ilist. apply post_with_ilist. cbv zeta.
  set (bt := fresh (dom (heap s))).
  set (s0 := mkState (<[bt := Live <$> ilist]> (heap s)) (objs s)).
  eapply post_mono; [| | |done].
  - apply post_bind.
    eapply post_mono; [apply (Array_sized_own this _ s0 Hnone)| |done|done].
    intros ? s1 H1. cbv beta in H1. apply (post_own_confined this _ s0 s1 H1).
    confined_solve.
  - intros ? sk Hown. cbv beta in Hown.
    by eapply (own_buffer_only_release s s0); [| |apply is_fresh|].
  - intros ? sk Hown. cbv beta in Hown.
    by eapply (own_buffer_only_release s s0); [| |apply is_fresh|].
Qed.

Ltac run_fields :=
  unfold exchange_mData, exchange_mCount, exchange_mCapacity,
    set_mData, set_mCount, set_mCapacity, mbind, M_bind, bind, get_obj, set_obj, ret;
  cbn [objs heap].

(** A transfer of the buffer of [other] to [this], which has none. *)
Lemma balanced_transfer s s' this other o a' o' :
  this ≠ other → objs s !! other = Some o →
  (∀ a, objs s !! this = Some a → mData a = Null) →
  heap s' = heap s →
  objs s' !! this = Some a' → mData a' = mData o →
  objs s' !! other = Some o' → mData o' = Null →
  (∀ x, x ≠ this → x ≠ other → objs s' !! x = objs s !! x) →
  balanced s s'.
Proof.
  intros Hne Ho Hnull Hh Ha' Hd' Ho' Hdo' Hrest. apply balanced_permute; [by rewrite Hh|].
  intros b. unfold owns. split; intros (x & a & i & Hx & Hm).
  - destruct (decide (x = this)) as [->|Hne1].
    + assert (a = a') as -> by congruence. exists other, o, i. split; [done|congruence].
    + destruct (decide (x = other)) as [->|Hne2]; [congruence|].
      exists x, a, i. by rewrite <- Hrest.
  - destruct (decide (x = other)) as [->|Hne1].
    + assert (a = o) as -> by congruence. exists this, a', i. split; [done|congruence].
    + destruct (decide (x = this)) as [->|Hne2]; [by rewrite (Hnull a Hx) in Hm|].
      exists x, a, i. by rewrite Hrest.
Qed.

Lemma Array_move_balanced this other s :
  objs s !! this = None →
  post (Array_move this other) s (λ _ s', balanced s s') (λ _ _, False) True.
Proof.
  intros Hnone. unfold post. destruct (objs s !! other) as [o|] eqn:Ho.
  2:{ unfold Array_move. run_fields. by rewrite Ho. }
  assert (this ≠ other) as Hne by congruence.
  unfold Array_move. run_fields.
  repeat (progress (rewrite ?Ho; lookup_insert; cbn [objs heap mData mCount mCapacity])).
  apply (balanced_transfer s _ this other o
           (mkArray (mData o) (mCount o) (mCapacity o)) (mkArray Null 0 0) Hne Ho);
    cbn [objs heap mData];
    [by rewrite Hnone|done|by lookup_insert|done|by lookup_insert|done|].
  intros x H1 H2. by lookup_insert.
Qed.

Lemma leak_free_assign_move this other : leak_free (assign_move this other).
Proof.
  intros s. unfold assign_move.
  destruct (decide (this ≠ other)) as [Hne|]; [|apply post_ret, balanced_refl].
  apply post_bind. eapply post_mono; [apply cleanup_releases| |done|done].
  intros _ s1 [Hown Hnull].
  apply (post_mono _ _ (λ _ s', balanced s1 s') _ (λ _ _, False) _ True);
    [|intros _ s2 H2; exact (balanced_trans _ _ _ (own_buffer_only_balanced _ _ _ Hown) H2)
     |done|done].
  unfold post. destruct (objs s1 !! other) as [o|] eqn:Ho.
  2:{ run_fields. by rewrite Ho. }
  destruct (objs s1 !! this) as [a|] eqn:Ha.
  2:{ run_fields.
      repeat (progress (rewrite ?Ho, ?Ha; lookup_insert;
                        cbn [objs heap mData mCount mCapacity])).
      done. }
  run_fields.
  repeat (progress (rewrite ?Ho, ?Ha; lookup_insert;
                    cbn [objs heap mData mCount mCapacity])).
  apply (balanced_transfer s1 _ this other o
           (mkArray (mData o) (mCount o) (mCapacity o)) (mkArray Null 0 0) Hne Ho);
    cbn [objs heap mData];
    [intros a0 Ha0; apply Hnull; congruence|done|by lookup_insert|done
    |by lookup_insert|done|].
  intros x H1 H2. by lookup_insert.
Qed.

Lemma leak_free_assign_copy this other : leak_free (assign_copy this other).
Proof.
  intros s. unfold assign_copy.
  destruct (decide _); [|apply post_ret, balanced_refl].
  apply post_bind, post_fresh_obj. set (temp := fresh (dom (objs s))).
  assert (objs s !! temp = None) as Hnone by apply not_elem_of_dom, is_fresh.
  apply post_bind. eapply post_mono; [by apply Array_copy_own| | |done].
  - intros ? s1 H1. cbv beta in H1.
    apply (post_balanced_leak_free _ s s1 (own_buffer_only_balanced _ _ _ H1)).
    apply leak_free_bind; [apply leak_free_Swap|]. intros _. apply leak_free_Array_dtor.
  - intros e s1 H1. cbv beta in H1. exact (own_buffer_only_balanced _ _ _ H1).
Qed.

Lemma leak_free_assign_ilist this ilist : leak_free (assign_ilist this ilist).
Proof.
  intros s. unfold assign_ilist.
  apply post_bind, post_fresh_obj. set (temp := fresh (dom (objs s))).
  assert (objs s !! temp = None) as Hnone by apply not_elem_of_dom, is_fresh.
  apply post_bind. eapply post_mono; [by apply Array_ilist_own| | |done].
  - intros ? s1 H1. cbv beta in H1.
    apply (post_balanced_leak_free _ s s1 (own_buffer_only_balanced _ _ _ H1)).
    apply leak_free_bind; [apply leak_free_Swap|]. intros _. apply leak_free_Array_dtor.
  - intros e s1 H1. cbv beta in H1. exact (own_buffer_only_balanced _ _ _ H1).
Qed.

Lemma leak_free_returning {A} (f : A → value) (m : M A) :
  leak_free m → leak_free (returning f m).
Proof.
  intros Hm. unfold returning. apply leak_free_bind; [done|]. intros r. apply leak_free_ret.
Qed.

Lemma post_returning_balanced {A} (f : A → value) (m : M A) s :
  post m s (λ _ s', balanced s s') (λ _ s', balanced s s') True →
  post (returning f m) s (λ _ s', balanced s s') (λ _ s', balanced s s') True.
Proof.
  intros Hm. unfold returning. apply post_bind.
  eapply post_mono; [exact Hm| |done|done]. intros r s' Hb. by apply post_ret.
Qed.

Lemma confined_Append_array this source_ : confined this (Append_array this source_).
Proof. unfold Append_array. confined_solve. apply confined_Insert_array. Qed.

Lemma confined_Append_ilist this ilist : confined this (Append_ilist this ilist).
Proof. unfold Append_ilist. confined_solve. apply confined_Insert_ilist. Qed.

Lemma confined_Append_ptr this p count : confined this (Append_ptr this p count).
Proof. unfold Append_ptr, Insert_ptr. confined_solve. apply confined_insertImpl. Qed.

Lemma post_returning_own {A} (f : A → value) (m : M A) s this :
  post m s (λ _ s', own_buffer_only s s' this) (λ _ s', own_buffer_only s s' this) True →
  post (returning f m) s
       (λ _ s', own_buffer_only s s' this) (λ _ s', own_buffer_only s s' this) True.
Proof.
  intros Hm. unfold returning. apply post_bind.
  eapply post_mono; [exact Hm| |done|done]. intros r s' Hb. by apply post_ret.
Qed.

Lemma run_op_own o s :
  single_array o →
  (∀ this, constructed o = Some this → objs s !! this = None) →
  post (run_op o) s
       (λ _ s', own_buffer_only s s' (receiver o))
       (λ _ s', own_buffer_only s s' (receiver o)) True.
Proof.
  intros Hsingle Hnew.
  assert (∀ A (m : M A) this R, read_only m R →
            post m s (λ _ s', own_buffer_only s s' this)
                 (λ _ s', own_buffer_only s s' this) True) as Hro.
  { intros A m this R Hm. by apply (confined_read_only this m R). }
  destruct o; cbn [run_op constructed receiver single_array] in *; try done;
    apply post_returning_own.
  - apply Array_sized_own. by apply Hnew.
  - apply Array_sized_own. by apply Hnew.
  - apply Array_ilist_own. by apply Hnew.
  - apply Array_copy_own. by apply Hnew.
  - eapply Hro, read_only_operator_index.
  - eapply Hro, read_only_operator_spaceship.
  - eapply Hro, read_only_operator_eq.
  - apply confined_Add.
  - apply confined_Append_array.
  - apply confined_Append_ilist.
  - apply confined_Append_ptr.
  - eapply Hro, read_only_Capacity.
  - apply confined_Clear.
  - eapply Hro, read_only_Contains.
  - eapply Hro, read_only_ContainsIf.
  - eapply Hro, read_only_Count.
  - eapply Hro, read_only_Data.
  - apply confined_Emplace.
  - apply confined_EmplaceAt.
  - eapply Hro, read_only_Find.
  - eapply Hro, read_only_FindIf.
  - eapply Hro, read_only_FindLast.
  - eapply Hro, read_only_FindLastIf.
  - apply confined_EmplaceAt.
  - apply confined_Insert_array.
  - apply confined_Insert_ilist.
  - apply confined_insertImpl.
  - eapply Hro, read_only_IsEmpty.
  - apply confined_Remove.
  - apply confined_RemoveAll.
  - apply confined_RemoveAt.
  - apply confined_Reserve.
  - apply confined_Resize_fill.
  - apply confined_Resize_fill.
  - apply confined_Shrink.
  - apply confined_Sort.
  - eapply Hro, read_only_begin.
  - eapply Hro, read_only_end.
Qed.

Lemma run_op_balanced o s :
  (∀ this, constructed o = Some this → objs s !! this = None) →
  post (run_op o) s (λ _ s', balanced s s') (λ _ s', balanced s s') True.
Proof.
  intros Hnew.
  destruct o;
    try (match goal with
         | |- post (run_op ?o) _ _ _ _ =>
             eapply post_mono;
               [exact (run_op_own o s I Hnew)
               |intros ? ? H; exact (own_buffer_only_balanced _ _ _ H)..|done]
         end);
    cbn [run_op constructed] in *; apply post_returning_balanced.
  - eapply post_mono; [apply Array_move_balanced; by apply Hnew|done|done|done].
  - apply leak_free_Array_dtor.
  - apply leak_free_assign_copy.
  - apply leak_free_assign_move.
  - apply leak_free_assign_ilist.
  - unfold Append_rvalue.
    apply leak_free_bind;
      [eapply (confined_leak_free this), confined_read_only, read_only_get_obj|].
    intros a. apply leak_free_bind; [apply leak_free_Insert_rvalue|]. intros _.
    apply leak_free_ret.
  - apply leak_free_Insert_rvalue.
  - apply leak_free_Swap.
Qed.

Lemma post_both {A} (m : M A) s (Q Q' : A → state T → Prop) (E E' : exn → state T → Prop)
    (U : Prop) :
  post m s Q E U → post m s Q' E' True →
  post m s (λ a s', Q a s' ∧ Q' a s') (λ e s', E e s' ∧ E' e s') U.
Proof. unfold post. by destruct (m s). Qed.

(** No call that returns leaks a buffer.  In the state that a call
    leaves when it returns, the buffers without an owner are those
    that were without an owner before: the call has released every
    buffer it has replaced, has handed no buffer to nobody, and the
    backing array of an initializer list is gone.  When the call
    throws, nothing at all has changed.  For a constructor the object
    must be a new one.  Nothing is said of a call whose behaviour is
    undefined. *)
Theorem no_call_leaks_a_buffer o s l cap l2 cap2 :
  valid_op o → requires o s l cap l2 cap2 →
  (∀ this, constructed o = Some this → objs s !! this = None) →
  post (run_op o) s (λ _ s', balanced s s') (λ _ s', s' = s) True.
Proof.
  intros Hv Hreq Hnew.
  eapply post_mono;
    [exact (post_both _ _ _ _ _ _ _ (run_op_spec o s l cap l2 cap2 Hv Hreq)
              (run_op_balanced o s Hnew))
    | | |done].
  - by intros r s' [_ ?].
  - by intros e s' [? _].
Qed.

(** Constructing an array from an initializer list and destroying it
    leaves the memory exactly as it was: the buffer the constructor
    allocated is released, and so is the backing array of the list.  If
    the allocation fails, nothing has changed either. *)
Theorem construct_then_destroy_restores this ilist s :
  objs s !! this = None →
  post (Array_ilist this ilist;; Array_dtor this) s
       (λ _ s', s' = s) (λ e s', e = bad_alloc ∧ s' = s) False.
Proof.
  intros Hnone. apply post_bind.
  eapply post_mono;
    [exact (post_both _ _ _ _ _ _ _ (Array_ilist_spec this ilist s)
              (Array_ilist_own this ilist s Hnone))
    | |by intros e s' [? _]|done].
  intros ? s1 [[Hr1 (Ho1 & Hh1 & Hf1)] Hown1].
  unfold Array_dtor. apply post_bind.
  destruct (cleanup_spec this s1 _ _ Hr1) as (s2 & Heq & Hr2 & Hf2).
  pose proof (cleanup_releases this s1) as Hrel. unfold post in Hrel.
  rewrite Heq in Hrel. destruct Hrel as [Hown2 Hnull].
  eapply post_ok; [exact Heq|]. apply post_del_obj.
  destruct Hf2 as (Ho2 & Hh2 & _).
  assert (heap s2 = heap s) as Hheap.
  { apply map_eq. intros x. destruct (heap s !! x) as [blk|] eqn:Hx.
    - apply Hh2; [by apply Hh1|]. intros a1 o Ha Hd.
      pose proof (Hf1 a1 x o Ha Hd). congruence.
    - apply not_elem_of_dom. intros Hin.
      destruct (proj1 (proj2 Hown2 x)) as [Hin1 Hn1].
      { split; [done|]. intros (a1 & o & Ha & Hd). by rewrite (Hnull a1 Ha) in Hd. }
      destruct (proj1 (proj2 Hown1 x)) as [Hin0 _]; [done|].
      by apply not_elem_of_dom in Hx. }
  assert (delete this (objs s2) = objs s) as Hobjs.
  { apply map_eq. intros x. destruct (decide (x = this)) as [->|Hne].
    - by rewrite lookup_delete_eq.
    - rewrite lookup_delete_ne by done. by rewrite Ho2, Ho1. }
  destruct s as [h os]. cbn [heap objs] in *. by rewrite Hheap, Hobjs.
Qed.

Lemma reallocate_fresh_buffer this n s a :
  objs s !! this = Some a → n ≠ mCapacity a → n ≠ 0 →
  post (reallocate this n) s
       (λ _ s', ∃ bn a', objs s' !! this = Some a' ∧ mData a' = Ptr bn 0 ∧
                         bn ∉ dom (heap s))
       (λ _ _, True) True.
Proof.
  intros Ha Hn H0. unfold reallocate. apply post_bind, post_get_obj. rewrite Ha.
  rewrite decide_False by done. rewrite decide_False by done.
  apply post_bind, post_operator_new; [|done]. intros _.
  assert (∀ s2 : state T,
            post (set_obj this (mkArray (Ptr (fresh (dom (heap s))) 0)
                                        (Z.min (mCount a) n) n)) s2
                 (λ _ s', ∃ bn a', objs s' !! this = Some a' ∧ mData a' = Ptr bn 0 ∧
                                   bn ∉ dom (heap s))
                 (λ _ _, True) True) as Hset.
  { intros s2. apply post_set_obj. eexists _, _. cbn [objs].
    split; [apply lookup_insert_eq|]. split; [done|]. apply is_fresh. }
  apply post_bind. destruct (is_null (mData a)).
  - apply post_ret, Hset.
  - apply post_bind. eapply post_heap_only; [apply heap_only_uninitialized_move_n|].
    intros _ s1 _ _ _. apply post_bind.
    eapply post_heap_only; [apply heap_only_destroy_n|].
    intros _ s2 _ _ _. apply post_operator_delete_exact; intros; apply Hset.
Qed.

(** Appending an array to itself is a use after free as soon as it has
    to grow: [insertImpl] reallocates, which releases the buffer the
    source pointer points into, and then copies from that pointer.
    When the allocation is refused the call throws [std::bad_alloc]
    and nothing has changed. *)
Theorem Append_self_beyond_capacity_undefined this s l cap :
  repr s this l cap → l ≠ [] → cap < 2 * Z.of_nat (length l) →
  Append_array this this s
  = if may_alloc (heap s) (grow_capacity cap (2 * Z.of_nat (length l)))
    then UB else Throw bad_alloc s.
Proof.
  intros Hr Hl Hcap.
  destruct (repr_inv _ _ _ _ Hr)
    as [a0 Ha0 Hd Hc Hm -> ->|a b blk Ha Hd Hc Hm Hle Hpos Hmax Hb Hlen Hcont]; [done|].
  assert (0 < Z.of_nat (length l)) as Hlen0 by (destruct l; [done|cbn [length]; lia]).
  assert (to_size_t (mCount a + mCount a) = 2 * Z.of_nat (length l)) as Hsz.
  { rewrite Hc. unfold to_size_t, PTRDIFF_MAX in *. rewrite Z.mod_small; lia. }
  set (n := grow_capacity cap (2 * Z.of_nat (length l))).
  assert (2 * Z.of_nat (length l) ≤ n) as Hn by (unfold n, grow_capacity; lia).
  assert (get_obj this s = Ok a s) as Hget by (unfold get_obj; by rewrite Ha).
  unfold Append_array. rewrite (bind_ok _ _ s a s Hget).
  assert (ensureCapacity this (2 * Z.of_nat (length l)) s = reallocate this n s) as Hens.
  { unfold ensureCapacity. rewrite (bind_ok _ _ s a s Hget). rewrite Hm.
    by rewrite decide_True by lia. }
  pose proof (reallocate_spec this n s l cap Hr ltac:(lia) ltac:(lia) ltac:(lia)) as Hspec.
  pose proof (confined_reallocate this n s) as Hown.
  pose proof (reallocate_fresh_buffer this n s a Ha ltac:(lia) ltac:(lia)) as Hnew.
  unfold post in Hspec, Hown, Hnew.
  assert (checkRange this (mCount a) true s = Ok tt s) as Hcheck.
  { eapply checkRange_passes; [done|]. rewrite Hc.
    unfold to_size_t, PTRDIFF_MAX in *. rewrite Z.mod_small; lia. }
  destruct (reallocate this n s) as [[] s1|e s1|] eqn:Hre; [| |done].
  - destruct Hspec as (Hr1 & _ & ->). destruct Hnew as (bn & a1 & Ha1 & Hd1 & Hbn).
    assert (heap s1 !! b = None) as Hfreed.
    { apply not_elem_of_dom. intros Hin.
      assert (b ∈ dom (heap s)) as Hbs by (apply elem_of_dom; by eexists).
      destruct (decide (b = bn)) as [->|Hne]; [done|].
      destruct (proj1 (proj2 Hown b)) as [_ Hno].
      - split; [done|]. intros (a' & o' & Ha' & Hd'). congruence.
      - apply Hno. by exists a, 0. }
    destruct (repr_fields _ _ _ _ Hr1) as (a1' & Ha1' & Hc1 & _).
    assert (a1' = a1) as -> by congruence.
    apply bind_ub. unfold Insert_array. rewrite (bind_ok _ _ s a s Hget).
    unfold insertImpl. rewrite (bind_ok _ _ s tt s Hcheck).
    rewrite decide_False by lia.
    rewrite (bind_ok _ _ s a s Hget).
    rewrite Hsz. rewrite (bind_ok _ _ s tt s1) by by rewrite Hens.
    rewrite (bind_ok _ _ s1 a1 s1) by (unfold get_obj; by rewrite Ha1).
    rewrite decide_False by lia.
    rewrite (bind_ok _ _ s1 tt s1) by done.
    apply bind_ub. unfold std_uninitialized_copy_n. rewrite Hc.
    destruct (Z.to_nat (Z.of_nat (length l))) as [|k] eqn:Hk; [lia|].
    cbn [copy_loop]. apply bind_ub. unfold copy_to. apply bind_ub.
    rewrite Hd. unfold load, slot_at. rewrite decide_True by done. by rewrite Hfreed.
  - destruct Hspec as (-> & -> & ->).
    apply bind_throw. unfold Insert_array. rewrite (bind_ok _ _ s a s Hget).
    unfold insertImpl. rewrite (bind_ok _ _ s tt s Hcheck).
    rewrite decide_False by lia.
    rewrite (bind_ok _ _ s a s Hget).
    rewrite Hsz. apply bind_throw. by rewrite Hens.
Qed.

(** ** Capacity over every call *)

Ltac split_hyps :=
  repeat match goal with
         | H : _ ∧ _ |- _ => destruct H
         | H : ∃ _, _ |- _ => destruct H
         end.

(** No call but a constructor, the destructor, an assignment, [Shrink]
    or [Swap] lowers the capacity of the array it is made on: whenever
    such a call returns, the data member [mCapacity] of the array is
    at least what it was, and when it throws nothing has changed.
    Nothing is said of a call whose behaviour is undefined. *)
Theorem capacity_is_never_lowered o s l cap l2 cap2 :
  valid_op o → requires o s l cap l2 cap2 → keeps_capacity o →
  post (run_op o) s
       (λ _ s', ∃ a', objs s' !! receiver o = Some a' ∧ cap ≤ mCapacity a')
       (λ _ s', s' = s) True.
Proof.
  intros Hv Hreq Hkeep.
  eapply post_mono; [exact (run_op_spec o s l cap l2 cap2 Hv Hreq)| |done|done].
  intros r s' Hens.
  pose proof (λ n, new_capacity_grows cap n) as Hgrow.
  pose proof (Z.le_max_l cap) as Hmax.
  assert (∃ l' cap', repr s' (receiver o) l' cap' ∧ cap ≤ cap') as (l' & cap' & Hr' & Hle).
  { destruct o; cbn [keeps_capacity requires ensures receiver] in *; try done;
      split_hyps; subst; eexists _, _; (split; [eassumption|]);
      first [ lia | apply Hgrow | apply Hmax ]. }
  destruct (repr_fields _ _ _ _ Hr') as (a' & Ha' & _ & Hm & _).
  exists a'. split; [done|lia].
Qed.

(** ** Every array keeps a buffer of its own *)

Lemma repr_buffer_allocated s o l cap a b i :
  repr s o l cap → objs s !! o = Some a → mData a = Ptr b i → b ∈ dom (heap s).
Proof.
  intros Hr Ha Hd.
  destruct (repr_inv _ _ _ _ Hr) as [a' Ha' Hd' _ _ _ _|a' b' blk Ha' Hd' _ _ _ _ _ Hb _ _];
    assert (a' = a) as -> by congruence; [congruence|].
  assert (b' = b) as -> by congruence. apply elem_of_dom. by eexists.
Qed.

Lemma separate_objs s s' o1 o2 :
  objs s' !! o1 = objs s !! o1 → objs s' !! o2 = objs s !! o2 →
  separate s o1 o2 → separate s' o1 o2.
Proof. unfold separate. by intros -> ->. Qed.

Lemma well_formed_step s s' this l' cap' :
  well_formed s → own_buffer_only s s' this → repr s' this l' cap' →
  others_kept s s' this → well_formed s'.
Proof.
  intros [Hall Hsep] [Hobjs Hbuf] Hr Hkept.
  assert (∀ o, o ≠ this → separate s' this o) as Hthis.
  { intros o Hne. apply separate_intro. intros a1 a2 b i1 i2 H1 H2 Hd1 Hd2.
    rewrite (Hobjs o Hne) in H2.
    destruct (Hall o) as (l & cap & Hro); [by eexists|].
    destruct (proj2 (Hbuf b)) as [_ Hno].
    - split; [by eapply repr_buffer_allocated|].
      intros (a & i & Ha & Hd).
      by eapply (separate_elim s this o a a2 b i i2); [apply Hsep| | | |].
    - apply Hno. by exists a1, i1. }
  split.
  - intros o Hsome. destruct (decide (o = this)) as [->|Hne]; [by eexists _, _|].
    rewrite (Hobjs o Hne) in Hsome. destruct (Hall o Hsome) as (l & cap & Hro).
    exists l, cap. apply Hkept; [done| |done]. apply Hsep. congruence.
  - intros o1 o2 Hne. destruct (decide (o1 = this)) as [->|H1].
    + apply Hthis. congruence.
    + destruct (decide (o2 = this)) as [->|H2].
      * apply separate_sym, Hthis. congruence.
      * eapply separate_objs; [by apply Hobjs..|]. by apply Hsep.
Qed.

Lemma well_formed_dtor s s' this l cap :
  well_formed s → repr s this l cap → Array_dtor this s = Ok tt s' → well_formed s'.
Proof.
  intros [Hall Hsep] Hr Heq.
  destruct (Array_dtor_spec this s l cap Hr) as (s1 & Heq1 & Hnone & Hkept & Hobjs).
  assert (s1 = s') as -> by congruence. split.
  - intros o Hsome. destruct (decide (o = this)) as [->|Hne].
    { rewrite Hnone in Hsome. by destruct Hsome. }
    rewrite (Hobjs o Hne) in Hsome. destruct (Hall o Hsome) as (lo & co & Hro).
    exists lo, co. apply Hkept; [done| |done]. apply Hsep. congruence.
  - intros o1 o2 Hne. destruct (decide (o1 = this)) as [->|H1].
    { unfold separate. by rewrite Hnone. }
    destruct (decide (o2 = this)) as [->|H2].
    { unfold separate. rewrite Hnone. by destruct (objs s' !! o1). }
    eapply separate_objs; [by apply Hobjs..|]. by apply Hsep.
Qed.

(** The state [s'] holds the arrays of [s] under other names: [rename]
    says which array of [s] each array of [s'] is. *)
Lemma well_formed_renamed s s' (rename : positive → positive) :
  well_formed s → heap s' = heap s →
  (∀ o, is_Some (objs s' !! o) →
        objs s' !! o = objs s !! rename o ∨
        (∃ a, objs s' !! o = Some a ∧ mData a = Null ∧ mCount a = 0 ∧ mCapacity a = 0)) →
  (∀ o1 o2 a1 a2, o1 ≠ o2 → objs s' !! o1 = Some a1 → objs s' !! o2 = Some a2 →
                  mData a1 ≠ Null → mData a2 ≠ Null → rename o1 ≠ rename o2) →
  well_formed s'.
Proof.
  intros [Hall Hsep] Hheap Hren Hinj. split.
  - intros o Hsome. destruct (Hren o Hsome) as [Heq|(a & Ha & Hd & Hc & Hm)].
    + rewrite Heq in Hsome. destruct (Hall _ Hsome) as (l & cap & Hr).
      exists l, cap. by eapply (repr_transport s s' (rename o) o).
    + exists [], 0. by eapply repr_intro_null.
  - intros o1 o2 Hne. apply separate_intro. intros a1 a2 b i1 i2 H1 H2 Hd1 Hd2.
    destruct (Hren o1) as [Heq1|(a & Ha & Hd & _)]; [by eexists| |congruence].
    destruct (Hren o2) as [Heq2|(a & Ha & Hd & _)]; [by eexists| |congruence].
    eapply (separate_elim s (rename o1) (rename o2) a1 a2 b i1 i2);
      [|congruence|congruence|done|done].
    apply Hsep. apply (Hinj o1 o2 a1 a2); congruence.
Qed.

Lemma well_formed_Swap s s' this other l1 c1 l2 c2 :
  well_formed s → repr s this l1 c1 → repr s other l2 c2 →
  Swap this other s = Ok tt s' → well_formed s'.
Proof.
  intros Hwf H1 H2 Heq.
  destruct (Swap_spec this other s l1 c1 l2 c2 H1 H2)
    as (s1 & Heq1 & _ & _ & Hheap & Hrest & Hthis & Hother).
  assert (s1 = s') as -> by congruence.
  set (rename := λ o : positive,
         if decide (o = this) then other else if decide (o = other) then this else o).
  assert (∀ o, objs s' !! o = objs s !! rename o) as Hren.
  { intros o. unfold rename. destruct (decide (o = this)) as [->|Hn1]; [done|].
    destruct (decide (o = other)) as [->|Hn2]; [done|]. by apply Hrest. }
  apply (well_formed_renamed s s' rename Hwf Hheap).
  - intros o _. left. apply Hren.
  - intros o1 o2 a1 a2 Hne _ _ _ _. unfold rename.
    repeat destruct (decide _); congruence.
Qed.

Lemma well_formed_transfer s s' this other o :
  well_formed s → this ≠ other → objs s !! other = Some o →
  (∀ a, objs s !! this = Some a → mData a = Null) →
  heap s' = heap s →
  objs s' !! this = Some (mkArray (mData o) (mCount o) (mCapacity o)) →
  objs s' !! other = Some (mkArray Null 0 0) →
  (∀ x, x ≠ this → x ≠ other → objs s' !! x = objs s !! x) →
  well_formed s'.
Proof.
  intros Hwf Hne Ho Hnull Hheap Hthis Hother Hrest.
  set (rename := λ x : positive, if decide (x = this) then other else x).
  assert (mkArray (mData o) (mCount o) (mCapacity o) = o) as Heta by by destruct o.
  apply (well_formed_renamed s s' rename Hwf Hheap).
  - intros x _. unfold rename. destruct (decide (x = this)) as [->|Hn1].
    { left. by rewrite Hthis, Heta. }
    destruct (decide (x = other)) as [->|Hn2].
    { right. by eexists. }
    left. by apply Hrest.
  - intros x1 x2 a1 a2 Hx H1 H2 Hd1 Hd2. unfold rename.
    assert (x1 ≠ other) by (intros ->; rewrite Hother in H1; by injection H1 as <-).
    assert (x2 ≠ other) by (intros ->; rewrite Hother in H2; by injection H2 as <-).
    repeat destruct (decide _); congruence.
Qed.

Lemma well_formed_empty : well_formed empty_state.
Proof.
  split.
  - intros o [a Ha]. unfold empty_state in Ha. cbn [objs] in Ha.
    by rewrite lookup_empty in Ha.
  - intros o1 o2 _. unfold separate, empty_state. cbn [objs]. by rewrite lookup_empty.
Qed.

Lemma well_formed_repr s o a :
  well_formed s → objs s !! o = Some a → ∃ l cap, repr s o l cap.
Proof. intros [Hall _] Ha. apply Hall. by eexists. Qed.

Lemma wf_Array_dtor this s l cap :
  well_formed s → repr s this l cap →
  post (Array_dtor this) s (λ _ s', well_formed s') (λ _ _, True) True.
Proof.
  intros Hwf Hr. unfold post. destruct (Array_dtor this s) as [[] s'|e s'|] eqn:Heq; [|done..].
  by eapply well_formed_dtor.
Qed.

Lemma wf_Swap this other s l1 c1 l2 c2 :
  well_formed s → repr s this l1 c1 → repr s other l2 c2 →
  post (Swap this other) s (λ _ s', well_formed s') (λ _ _, True) True.
Proof.
  intros Hwf H1 H2. unfold post.
  destruct (Swap this other s) as [[] s'|e s'|] eqn:Heq; [|done..].
  exact (well_formed_Swap _ _ _ _ _ _ _ _ Hwf H1 H2 Heq).
Qed.

Lemma wf_Array_move this other s :
  well_formed s → objs s !! this = None →
  post (Array_move this other) s (λ _ s', well_formed s') (λ _ _, True) True.
Proof.
  intros Hwf Hnone. unfold post. destruct (objs s !! other) as [o|] eqn:Ho.
  2:{ unfold Array_move. run_fields. by rewrite Ho. }
  assert (this ≠ other) as Hne by congruence.
  unfold Array_move. run_fields.
  repeat (progress (rewrite ?Ho; lookup_insert; cbn [objs heap mData mCount mCapacity])).
  apply (well_formed_transfer s _ this other o Hwf Hne Ho); cbn [objs heap];
    [by rewrite Hnone|done|by lookup_insert|by lookup_insert|].
  intros x H1 H2. by lookup_insert.
Qed.

Lemma wf_cleanup this s l cap :
  well_formed s → repr s this l cap →
  post (cleanup this) s
       (λ _ s', well_formed s' ∧ repr s' this [] 0 ∧
                ∀ o, o ≠ this → objs s' !! o = objs s !! o)
       (λ _ _, True) True.
Proof.
  intros Hwf Hr. destruct (cleanup_spec this s l cap Hr) as (s1 & Heq & Hr1 & Hf1).
  pose proof (confined_cleanup this s) as Hown. unfold post in *. rewrite Heq in *.
  split; [|split; [done|apply Hf1]].
  eapply well_formed_step; [done|done|done|by apply frame_others_kept].
Qed.

Lemma wf_assign_move this other s :
  well_formed s →
  post (assign_move this other) s (λ _ s', well_formed s') (λ _ _, True) True.
Proof.
  intros Hwf. unfold assign_move.
  destruct (decide (this ≠ other)) as [Hne|]; [|by apply post_ret].
  apply post_bind.
  destruct (objs s !! this) as [a|] eqn:Ha.
  2:{ unfold post, cleanup, mbind, M_bind, bind, get_obj. by rewrite Ha. }
  destruct (well_formed_repr s this a Hwf Ha) as (lt & ct & Hrt).
  eapply post_mono; [by apply (wf_cleanup this s lt ct)| |done|done].
  intros ? s1 (Hwf1 & Hr1 & Hrest1).
  unfold post. destruct (objs s1 !! other) as [o|] eqn:Ho.
  2:{ run_fields. by rewrite Ho. }
  destruct (repr_inv _ _ _ _ Hr1) as [a1 Ha1 Hd1 _ _ _ _|a1 ? ? _ _ _ _ _ Hpos _ _ _ _];
    [|lia].
  run_fields.
  repeat (progress (rewrite ?Ho, ?Ha1; lookup_insert;
                    cbn [objs heap mData mCount mCapacity])).
  apply (well_formed_transfer s1 _ this other o Hwf1 Hne Ho); cbn [objs heap];
    [intros ? ?; congruence|done|by lookup_insert|by lookup_insert|].
  intros x H1 H2. by lookup_insert.
Qed.

(** A constructor that gives the new array a buffer of its own. *)
Lemma wf_constructed {A} (m : M A) this s l' cap' :
  well_formed s →
  post m s (λ _ s', repr s' this l' cap' ∧ fresh_for s s' this)
           (λ e s', e = bad_alloc ∧ s' = s) False →
  post m s (λ _ s', own_buffer_only s s' this) (λ _ s', own_buffer_only s s' this) True →
  post m s (λ _ s', well_formed s' ∧ repr s' this l' cap' ∧ fresh_for s s' this)
           (λ _ s', s' = s) False.
Proof.
  intros Hwf Hspec Hown.
  eapply post_mono; [exact (post_both _ _ _ _ _ _ _ Hspec Hown)| | |done].
  - intros ? s' [[Hr Hf] Ho]. split; [|done].
    eapply well_formed_step; [done|done|done|by apply fresh_for_others_kept].
  - by intros e s' [[_ ->] _].
Qed.

Lemma wf_replace_by_temporary this temp s1 :
  well_formed s1 → this ≠ temp →
  is_Some (objs s1 !! this) → is_Some (objs s1 !! temp) →
  post (Swap this temp;; Array_dtor temp) s1
       (λ _ s', well_formed s') (λ _ _, True) True.
Proof.
  intros Hwf Hne [a Ha] [t Ht].
  destruct (well_formed_repr s1 this a Hwf Ha) as (l1 & c1 & H1).
  destruct (well_formed_repr s1 temp t Hwf Ht) as (l2 & c2 & H2).
  destruct (Swap_spec this temp s1 l1 c1 l2 c2 H1 H2) as (s2 & Heq & _ & Hr2 & _).
  apply post_bind. eapply post_ok; [exact Heq|].
  eapply wf_Array_dtor; [|exact Hr2].
  exact (well_formed_Swap _ _ _ _ _ _ _ _ Hwf H1 H2 Heq).
Qed.

Lemma wf_assign_copy this other s :
  well_formed s → is_Some (objs s !! this) →
  post (assign_copy this other) s (λ _ s', well_formed s') (λ _ _, True) True.
Proof.
  intros Hwf [a Ha]. unfold assign_copy.
  destruct (decide (this ≠ other)) as [Hne|]; [|by apply post_ret].
  apply post_bind, post_fresh_obj. set (temp := fresh (dom (objs s))).
  assert (objs s !! temp = None) as Hnone by apply not_elem_of_dom, is_fresh.
  destruct (objs s !! other) as [o|] eqn:Ho.
  2:{ unfold post, Array_copy, mbind, M_bind, bind, get_obj. by rewrite Ho. }
  destruct (well_formed_repr s other o Hwf Ho) as (lo & co & Hro).
  assert (temp ≠ other) as Hto by congruence.
  assert (this ≠ temp) as Htt by congruence.
  apply post_bind.
  eapply post_mono;
    [exact (wf_constructed _ temp s _ _ Hwf (Array_copy_spec temp other s lo co Hto Hro)
              (Array_copy_own temp other s Hnone))
    | |done|done].
  intros ? s1 (Hwf1 & Hrt & (Hobjs1 & _)).
  apply wf_replace_by_temporary; [done|done| |].
  - rewrite Hobjs1 by done. by eexists.
  - destruct (repr_fields _ _ _ _ Hrt) as (t & Ht & _). by eexists.
Qed.

Lemma wf_assign_ilist this ilist s :
  well_formed s → is_Some (objs s !! this) →
  post (assign_ilist this ilist) s (λ _ s', well_formed s') (λ _ _, True) True.
Proof.
  intros Hwf [a Ha]. unfold assign_ilist.
  apply post_bind, post_fresh_obj. set (temp := fresh (dom (objs s))).
  assert (objs s !! temp = None) as Hnone by apply not_elem_of_dom, is_fresh.
  assert (this ≠ temp) as Htt by congruence.
  apply post_bind.
  eapply post_mono;
    [exact (wf_constructed _ temp s _ _ Hwf (Array_ilist_spec temp ilist s)
              (Array_ilist_own temp ilist s Hnone))
    | |done|done].
  intros ? s1 (Hwf1 & Hrt & (Hobjs1 & _)).
  apply wf_replace_by_temporary; [done|done| |].
  - rewrite Hobjs1 by done. by eexists.
  - destruct (repr_fields _ _ _ _ Hrt) as (t & Ht & _). by eexists.
Qed.

Lemma wf_Insert_rvalue this index source_ s l cap ls cs :
  well_formed s → repr s this l cap → repr s source_ ls cs → this ≠ source_ →
  0 ≤ index →
  post (Insert_rvalue this index source_) s (λ _ s', well_formed s') (λ _ _, True) True.
Proof.
  intros Hwf Hr Hrs Hne Hidx. unfold Insert_rvalue.
  assert (separate s this source_) as Hsep by by apply Hwf.
  destruct (repr_fields _ _ _ _ Hrs) as (src & Hsrc & _).
  apply post_bind, post_get_obj. rewrite Hsrc. apply post_bind.
  pose proof (Insert_array_total this index source_ s l cap ls cs Hr Hrs Hne Hsep Hidx)
    as Hia.
  unfold Insert_array in Hia. unfold post at 1 in Hia.
  rewrite (bind_ok _ _ s src s) in Hia by (unfold get_obj; by rewrite Hsrc).
  eapply post_mono;
    [exact (post_both _ _ _ _ _ _ _ Hia (confined_insertImpl this index _ _ s))
    | |done|done].
  intros r s1 [(_ & _ & Hr1 & Hrs1 & Hf1) Hown1].
  assert (well_formed s1) as Hwf1
    by (eapply well_formed_step; [done|done|done|by apply frame_others_kept]).
  destruct (Clear_spec _ _ _ _ Hrs1) as (s2 & a2 & Heq2 & Hrs2 & Hf2 & _).
  pose proof (confined_Clear source_ s1) as Hown2. unfold post in Hown2.
  rewrite Heq2 in Hown2.
  apply post_bind. eapply post_ok; [exact Heq2|]. apply post_ret.
  eapply well_formed_step; [exact Hwf1|done|done|by apply frame_others_kept].
Qed.

Lemma post_returning_well_formed {A} (f : A → value) (m : M A) s :
  post m s (λ _ s', well_formed s') (λ _ _, True) True →
  post (returning f m) s (λ _ s', well_formed s') (λ _ _, True) True.
Proof.
  intros Hm. unfold returning. apply post_bind.
  eapply post_mono; [exact Hm| |done|done]. intros r s' Hb. by apply post_ret.
Qed.

Lemma run_op_well_formed o s l cap l2 cap2 :
  valid_op o → requires o s l cap l2 cap2 →
  (∀ this, constructed o = Some this → objs s !! this = None) →
  well_formed s →
  post (run_op o) s (λ _ s', well_formed s') (λ _ _, True) True.
Proof.
  intros Hv Hreq Hnew Hwf.
  destruct o;
    try (match goal with
         | |- post (run_op ?o) _ _ _ _ =>
             eapply post_mono;
               [exact (post_both _ _ _ _ _ _ _ (run_op_spec o s l cap l2 cap2 Hv Hreq)
                         (run_op_own o s I Hnew))
               | |done|done];
             intros r s' [Hens Hown]; cbn [ensures receiver] in *; split_hyps;
             first [ subst; assumption | eapply well_formed_step; eassumption ]
         end);
    cbn [run_op constructed requires valid_op receiver] in *;
    apply post_returning_well_formed;
    split_hyps.
  - apply wf_Array_move; [done|by apply Hnew].
  - by eapply wf_Array_dtor.
  - apply wf_assign_copy; [done|].
    match goal with H : repr s this _ _ |- _ =>
      destruct (repr_fields _ _ _ _ H) as (? & ? & _) end. by eexists.
  - by apply wf_assign_move.
  - apply wf_assign_ilist; [done|].
    match goal with H : repr s this _ _ |- _ =>
      destruct (repr_fields _ _ _ _ H) as (? & ? & _) end. by eexists.
  - unfold Append_rvalue.
    match goal with H : repr s this _ _ |- _ =>
      destruct (repr_fields _ _ _ _ H) as (a & Ha & Hc & _) end.
    apply post_bind, post_get_obj. rewrite Ha. apply post_bind.
    eapply post_mono; [eapply wf_Insert_rvalue; try eassumption; lia| |done|done].
    intros r s' Hwf'. by apply post_ret.
  - unfold is_size_t in *. eapply wf_Insert_rvalue; try eassumption. lia.
  - by eapply wf_Swap.
Qed.

Lemma well_formed_buffers_apart s : well_formed s → buffers_apart s.
Proof.
  intros [Hall Hsep]. split; [|done]. intros o a b i Ha Hd.
  destruct (Hall o) as (l & cap & Hr); [by eexists|].
  split; [|by eapply repr_buffer_allocated].
  destruct (repr_inv _ _ _ _ Hr) as [a' Ha' Hd' _ _ _ _|a' b' blk Ha' Hd' _ _ _ _ _ _ _ _];
    congruence.
Qed.

(** Every array keeps a buffer of its own.  If, before a call, every
    array is valid and no two arrays have the same buffer, then after
    a call that returns no two arrays have the same buffer, and the
    data pointer of every array that has a buffer points to the start
    of a buffer that is allocated: no call makes two arrays share a
    buffer, and none leaves an array with a buffer that is released.
    When the call throws, nothing at all has changed.  For a
    constructor the object must be a new one.  Nothing is said of a
    call whose behaviour is undefined. *)
Theorem every_array_keeps_its_own_buffer o s l cap l2 cap2 :
  valid_op o → requires o s l cap l2 cap2 →
  (∀ this, constructed o = Some this → objs s !! this = None) →
  well_formed s →
  post (run_op o) s (λ _ s', buffers_apart s') (λ _ s', s' = s) True.
Proof.
  intros Hv Hreq Hnew Hwf.
  eapply post_mono;
    [exact (post_both _ _ _ _ _ _ _ (run_op_spec o s l cap l2 cap2 Hv Hreq)
              (run_op_well_formed o s l cap l2 cap2 Hv Hreq Hnew Hwf))
    | | |done].
  - intros r s' [_ ?]. by apply well_formed_buffers_apart.
  - by intros e s' [-> _].
Qed.

(** ** An array as its own source *)

Lemma copy_loop_same n : ∀ s b blk (i j : nat),
  heap s !! b = Some blk → live_range blk i n →
  (i + n ≤ j)%nat → (j + n ≤ length blk)%nat →
  ∃ blk',
    copy_loop n (Ptr b (Z.of_nat i)) (Ptr b (Z.of_nat j)) s
    = Ok tt (mkState (<[b := blk']> (heap s)) (objs s)) ∧
    length blk' = length blk ∧
    (∀ k, (k < n)%nat → blk' !! (j + k)%nat = blk !! (i + k)%nat) ∧
    (∀ k, ¬ (j ≤ k < j + n)%nat → blk' !! k = blk !! k).
Proof.
  induction n as [|n IH]; intros s b blk i j Hb Hlive Hij Hlen; cbn [copy_loop].
  { exists blk. split; [|split; [done|split; [lia|done]]].
    unfold mret, M_ret, ret. f_equal. destruct s; simpl in *. f_equal.
    by rewrite insert_id. }
  destruct (Hlive i) as [v Hv]; [lia|].
  rewrite (bind_ok _ _ _ _ _ (copy_to_across _ _ _ _ _ _ j _ Hb Hb Hv ltac:(lia))).
  rewrite !ptr_nat_S.
  set (blk1 := <[j := Live v]> blk).
  edestruct (IH (mkState (<[b := blk1]> (heap s)) (objs s)) b blk1 (S i) (S j))
    as (blk' & Heq & Hlen' & Hval & Hout).
  { simpl. by rewrite lookup_insert_eq. }
  { intros k Hk. subst blk1. rewrite list_lookup_insert_ne by lia. apply Hlive. lia. }
  { lia. }
  { subst blk1. rewrite length_insert. lia. }
  exists blk'. split; [|split; [|split]].
  - rewrite Heq. simpl. by rewrite insert_insert_eq.
  - subst blk1. by rewrite Hlen', length_insert.
  - intros [|k] Hk.
    + rewrite !Nat.add_0_r. rewrite Hout by lia. subst blk1.
      rewrite list_lookup_insert_eq by lia. done.
    + replace (j + S k)%nat with (S j + k)%nat by lia.
      rewrite Hval by lia. subst blk1. rewrite list_lookup_insert_ne by lia.
      f_equal. lia.
  - intros k Hk. rewrite Hout by lia. subst blk1.
    rewrite list_lookup_insert_ne by lia. done.
Qed.

(** Appending an array to itself doubles it as long as the capacity
    holds twice its count: nothing is allocated, the elements are
    copied within the buffer, and the call cannot fail. *)
Theorem Append_self_within_capacity_doubles this s l cap :
  repr s this l cap → 2 * Z.of_nat (length l) ≤ cap →
  ∃ s', Append_array this this s = Ok tt s' ∧ repr s' this (l ++ l) cap ∧
        frame s s' this.
Proof.
  intros Hr Hcap.
  destruct (repr_fields _ _ _ _ Hr) as (a & Ha & Hc & Hm & _ & Hmax).
  assert (get_obj this s = Ok a s) as Hget by (unfold get_obj; by rewrite Ha).
  assert (checkRange this (mCount a) true s = Ok tt s) as Hcheck.
  { eapply checkRange_passes; [done|]. rewrite Hc.
    unfold to_size_t, PTRDIFF_MAX in *. rewrite Z.mod_small; lia. }
  assert (∀ s', insertImpl this (mCount a) (mData a) (mCount a) s = Ok (mCount a) s' →
                Append_array this this s = Ok tt s') as Hrun.
  { intros s' Heq. unfold Append_array. rewrite (bind_ok _ _ s a s Hget).
    unfold Insert_array.
    rewrite (bind_ok _ _ s (mCount a) s') by by rewrite (bind_ok _ _ s a s Hget).
    done. }
  destruct (decide (l = [])) as [->|Hl].
  { exists s. split; [|split; [done|apply frame_refl]].
    apply Hrun. cbn [length] in Hc. rewrite Hc.
    by apply (insertImpl_empty this 0 (mData a) s [] cap). }
  assert (0 < Z.of_nat (length l)) as Hpos0 by (destruct l; [done|cbn [length]; lia]).
  destruct (repr_inv _ _ _ _ Hr)
    as [a0 ? ? ? ? Hnil ?|a0 b blk Ha0 Hd _ _ Hle Hpos _ Hb Hlen Hcont]; [done|].
  assert (a0 = a) as -> by congruence.
  assert (to_size_t (mCount a + mCount a) = 2 * Z.of_nat (length l)) as Hsz.
  { rewrite Hc. unfold to_size_t, PTRDIFF_MAX in *. rewrite Z.mod_small; lia. }
  destruct (copy_loop_same (length l) s b blk 0 (length l) Hb) as (blk' & Heq & Hlen' & Hval & Hout);
    [by apply content_live_range|lia|lia|].
  exists (mkState (<[b := blk']> (heap s))
                  (<[this := mkArray (mData a) (2 * Z.of_nat (length l)) (mCapacity a)]>
                     (objs s))).
  split; [|].
  - apply Hrun. unfold insertImpl. rewrite (bind_ok _ _ s tt s Hcheck).
    rewrite decide_False by lia. rewrite (bind_ok _ _ s a s Hget).
    rewrite (bind_ok _ _ s tt s).
    2:{ unfold ensureCapacity. rewrite (bind_ok _ _ s a s Hget).
        by rewrite decide_False by lia. }
    rewrite (bind_ok _ _ s a s Hget). rewrite decide_False by lia.
    rewrite (bind_ok _ _ s tt s) by done.
    unfold std_uninitialized_copy_n. rewrite Hd, Hc, Nat2Z.id. cbn [ptr_add].
    rewrite Z.add_0_l. change 0 with (Z.of_nat 0) at 1.
    rewrite (bind_ok _ _ _ _ _ Heq). rewrite Hc in Hsz. rewrite Hsz.
    unfold set_mCount, mbind, M_bind, bind, get_obj, set_obj, ret. cbn [objs heap].
    by rewrite Ha, Hd.
  - eapply (in_place s _ this a _ b blk'); cbn [objs heap];
      [done|done|done|apply lookup_insert_eq
      |by intros o Hne; rewrite lookup_insert_ne|..];
      cbn [mData mCount mCapacity];
      [done|rewrite length_app; lia|done|rewrite length_app; lia|done|lia|lia|].
    intros k y Hk. destruct (decide (k < length l)%nat) as [Hlt|Hge].
    + rewrite lookup_app_l in Hk by done. rewrite Hout by lia. by apply Hcont.
    + rewrite lookup_app_r in Hk by lia.
      pose proof (lookup_lt_Some _ _ _ Hk) as Hk'.
      replace k with (length l + (k - length l))%nat by lia.
      rewrite Hval by lia. cbn [Nat.add]. by apply Hcont.
Qed.

(** ** An element of the array as the argument of an insertion *)

(** [std::move_backward] within one buffer, with what it leaves in the
    slots it has moved from and not written to. *)
Lemma move_backward_loop_gap n : ∀ s b blk (i d : nat),
  heap s !! b = Some blk → live_range blk i n →
  (i + n + d ≤ length blk)%nat → (0 < d)%nat →
  ∃ blk', move_backward_loop n (Ptr b (Z.of_nat (i + n))) (Ptr b (Z.of_nat (i + n + d))) s
          = Ok tt (mkState (<[b := blk']> (heap s)) (objs s)) ∧
          length blk' = length blk ∧
          (∀ k, (k < n)%nat → blk' !! (i + d + k)%nat = blk !! (i + k)%nat) ∧
          (∀ k, ¬ (i ≤ k < i + n)%nat → ¬ (i + d ≤ k < i + n + d)%nat →
                blk' !! k = blk !! k) ∧
          (∀ k v, (i ≤ k < i + n)%nat → (k < i + d)%nat → blk !! k = Some (Live v) →
                  blk' !! k = Some (Live (moved v))).
Proof.
  induction n as [|n IH]; intros s b blk i d Hb Hlive Hlen Hd; cbn [move_backward_loop].
  { exists blk. split; [|split; [done|split; [lia|split; [done|lia]]]].
    unfold mret, M_ret, ret. f_equal. destruct s; simpl in *. f_equal. by rewrite insert_id. }
  destruct (Hlive (i + n)%nat) as [v Hv]; [lia|].
  replace (i + S n)%nat with (S (i + n)) by lia.
  replace (S (i + n) + d)%nat with (S (i + n + d)) by lia.
  rewrite !ptr_nat_pred.
  rewrite (bind_ok _ _ _ _ _ (move_to_same _ _ _ _ (i + n + d) _ Hb Hv ltac:(lia))).
  set (blk1 := <[(i + n)%nat := Live (moved v)]> (<[(i + n + d)%nat := Live v]> blk)).
  edestruct (IH (mkState (<[b := blk1]> (heap s)) (objs s)) b blk1 i d)
    as (blk' & Heq & Hlen' & Hval & Hout & Hgap).
  { simpl. by rewrite lookup_insert_eq. }
  { intros k Hk. destruct (Hlive k) as [w Hw]; [lia|]. exists w.
    subst blk1. rewrite !list_lookup_insert_ne by lia. done. }
  { subst blk1. rewrite !length_insert. lia. }
  { lia. }
  assert (length blk1 = length blk) as Hlen1 by (subst blk1; by rewrite !length_insert).
  assert (blk1 !! (i + n)%nat = Some (Live (moved v))) as Hsrc.
  { subst blk1. apply list_lookup_insert_eq. rewrite length_insert. lia. }
  exists blk'. split; [|split; [|split; [|split]]].
  - rewrite Heq. simpl. by rewrite insert_insert_eq.
  - congruence.
  - intros k Hk. destruct (decide (k = n)) as [->|Hne].
    + rewrite Hout by lia. subst blk1.
      rewrite list_lookup_insert_ne by lia.
      replace (i + d + n)%nat with (i + n + d)%nat by lia.
      rewrite list_lookup_insert_eq by lia. done.
    + rewrite Hval by lia. subst blk1.
      rewrite !list_lookup_insert_ne by lia. done.
  - intros k Hk1 Hk2. rewrite Hout by lia. subst blk1.
    rewrite !list_lookup_insert_ne by lia. done.
  - intros k w Hk Hkd Hw. destruct (decide (k = (i + n)%nat)) as [->|Hne].
    + rewrite Hout by lia. rewrite Hsrc. congruence.
    + apply Hgap; [lia|lia|]. subst blk1. rewrite !list_lookup_insert_ne by lia. done.
Qed.

(** Opening a gap of one slot at [i] in an array of [m] elements, with
    what the gap holds. *)
Lemma shift_right_one s b blk a (i m : nat) :
  heap s !! b = Some blk → mData a = Ptr b 0 → mCount a = Z.of_nat m →
  live_range blk 0 m → (m + 1 ≤ length blk)%nat → (i ≤ m)%nat →
  ∃ blk', shift_right a (Z.of_nat i) 1 s
          = Ok tt (mkState (<[b := blk']> (heap s)) (objs s)) ∧
          length blk' = length blk ∧
          (∀ k, (k < i)%nat → blk' !! k = blk !! k) ∧
          (∀ k, (i ≤ k < m)%nat → blk' !! (k + 1)%nat = blk !! k) ∧
          (∀ v, (i < m)%nat → blk !! i = Some (Live v) →
                blk' !! i = Some (Live (moved v))).
Proof.
  intros Hb Hd Hc Hlive Hlen Him. unfold shift_right.
  destruct (decide (Z.of_nat i < mCount a)) as [Hlt|Hge].
  2:{ exists blk. split; [|split; [done|split; [done|split; [lia|lia]]]].
      unfold mret, M_ret, ret. f_equal. rewrite insert_id by done. by rewrite state_eta. }
  assert (i < m)%nat as Hlt' by lia.
  rewrite Hd, Hc. cbn [ptr_add].
  replace (0 + Z.of_nat m + - (1)) with (Z.of_nat (m - 1)) by lia.
  replace (0 + Z.of_nat m) with (Z.of_nat m) by lia.
  replace (0 + Z.of_nat i) with (Z.of_nat i) by lia.
  destruct (Hlive (m - 1)%nat) as [w Hw]; [lia|].
  set (blk1 := <[(m - 1)%nat := Live (moved w)]> (<[m := Live w]> blk)).
  set (s1 := mkState (<[b := blk1]> (heap s)) (objs s)).
  assert (std_uninitialized_move_n (Ptr b (Z.of_nat (m - 1))) 1 (Ptr b (Z.of_nat m)) s
          = Ok tt s1) as Heq1.
  { unfold std_uninitialized_move_n. change (Z.to_nat 1) with 1%nat. cbn [move_loop].
    by rewrite (bind_ok _ _ _ _ _ (move_to_same _ _ _ _ m _ Hb Hw ltac:(lia))). }
  assert (length blk1 = length blk) as Hlen1 by (subst blk1; by rewrite !length_insert).
  destruct (move_backward_loop_gap (m - 1 - i) s1 b blk1 i 1)
    as (blk2 & Heq2 & Hlen2 & Hval2 & Hout2 & Hgap2); [| |lia|lia|].
  { subst s1. simpl. by rewrite lookup_insert_eq. }
  { intros k Hk. destruct (Hlive k) as [v Hv]; [lia|]. exists v.
    subst blk1. rewrite !list_lookup_insert_ne by lia. done. }
  replace (i + (m - 1 - i))%nat with (m - 1)%nat in Heq2 by lia.
  replace (m - 1 + 1)%nat with m in Heq2 by lia.
  exists blk2. split; [|split; [congruence|split; [|split]]].
  - rewrite (bind_ok _ _ s _ _ Heq1).
    unfold std_move_backward, range_len. cbn [ptr_diff].
    rewrite decide_True by done. rewrite decide_True by lia.
    erewrite bind_ok; [|reflexivity].
    replace (Z.to_nat (Z.of_nat (m - 1) - Z.of_nat i)) with (m - 1 - i)%nat by lia.
    rewrite Heq2. subst s1. simpl. by rewrite insert_insert_eq.
  - intros k Hk. rewrite Hout2 by lia. subst blk1.
    rewrite !list_lookup_insert_ne by lia. done.
  - intros k Hk. destruct (decide (k = (m - 1)%nat)) as [->|Hne].
    + rewrite Hout2 by lia. subst blk1.
      rewrite list_lookup_insert_ne by lia.
      replace (m - 1 + 1)%nat with m by lia.
      rewrite list_lookup_insert_eq by lia. done.
    + replace (k + 1)%nat with (i + 1 + (k - i))%nat by lia.
      rewrite Hval2 by lia. replace (i + (k - i))%nat with k by lia.
      subst blk1. rewrite !list_lookup_insert_ne by lia. done.
  - intros v _ Hv. destruct (decide (i = (m - 1)%nat)) as [->|Hne].
    + rewrite Hout2 by lia. subst blk1.
      rewrite list_lookup_insert_eq by (rewrite length_insert; lia). congruence.
    + apply Hgap2; [lia|lia|]. subst blk1. rewrite !list_lookup_insert_ne by lia. done.
Qed.

Lemma EmplaceAt_ref_unfold this index p :
  EmplaceAt_ref this index p =
  (checkRange this index true;;
   a ← get_obj this;
   ensureCapacity this (to_size_t (mCount a + 1));;
   a ← get_obj this;
   shift_right a index 1;;
   v ← load p;
   std_construct_at (mData a +ₚ index) v;;
   set_mCount this (to_size_t (mCount a + 1));;
   ret index).
Proof. done. Qed.

(** For an argument that is not an element of the array itself, the
    call by reference has the outcome of the call on the value of the
    argument: the buffers that the call reallocates, shifts and writes
    to are the array's own. *)
Lemma Insert_ref_outside this (i : nat) p v s l cap :
  repr s this l cap → (i ≤ length l)%nat → outside s this p → load p s = Ok v s →
  Insert_ref this (Z.of_nat i) p s = Insert this (Z.of_nat i) v s.
Proof.
  intros Hr Hi Hout Hload. unfold Insert_ref, Insert.
  rewrite EmplaceAt_ref_unfold, EmplaceAt_unfold.
  destruct (repr_fields _ _ _ _ Hr) as (a & Ha & Hc & Hm & Hle & Hmax).
  assert (get_obj this s = Ok a s) as Hget by (unfold get_obj; by rewrite Ha).
  assert (checkRange this (Z.of_nat i) true s = Ok tt s) as Hcheck.
  { eapply checkRange_passes; [done|].
    rewrite (repr_count_plus _ _ _ _ _ 1 Hr Ha) by lia. lia. }
  assert (to_size_t (mCount a + 1) = Z.of_nat (length l) + 1) as Hsz
    by (apply (repr_count_plus _ _ _ _ _ 1 Hr Ha); lia).
  rewrite !(bind_ok _ _ s tt s Hcheck). rewrite !(bind_ok _ _ s a s Hget). rewrite Hsz.
  pose proof (ensureCapacity_spec this (Z.of_nat (length l) + 1) s l cap Hr ltac:(lia))
    as Hspec.
  unfold post in Hspec.
  destruct (ensureCapacity this (Z.of_nat (length l) + 1) s) as [[] s1|e s1|] eqn:Hens;
    [|by rewrite !(bind_throw _ _ s e s1 Hens)|done].
  destruct Hspec as (Hr1 & Hf1).
  rewrite !(bind_ok _ _ s tt s1 Hens).
  pose proof (new_capacity_ge cap (Z.of_nat (length l) + 1)) as Hge.
  destruct (repr_inv _ _ _ _ Hr1)
    as [a1 ? ? ? ? ? ?|a1 b1 blk1 Ha1 Hd1 Hc1 Hm1 Hle1 Hpos1 Hmax1 Hb1 Hlen1 Hcont1]; [lia|].
  rewrite !(bind_ok _ _ s1 a1 s1) by (unfold get_obj; by rewrite Ha1).
  destruct (shift_right_spec s1 b1 blk1 a1 i 1 (length l) Hb1 Hd1 Hc1)
    as (blk2 & Heq2 & _); [|lia|lia|lia|lia|].
  { by apply content_live_range. }
  rewrite !(bind_ok _ _ _ _ _ Heq2).
  set (s2 := mkState (<[b1 := blk2]> (heap s1)) (objs s1)).
  enough (load p s2 = Ok v s2) as Hload2 by by rewrite (bind_ok _ _ s2 v s2 Hload2).
  unfold load in Hload |- *. destruct p as [|bp o]; [done|].
  cbn [slot_at] in Hload |- *. destruct (decide (0 ≤ o)) as [Ho|]; [|done].
  destruct (heap s !! bp) as [blkp|] eqn:Hbp; [|done].
  assert (heap s1 !! bp = Some blkp) as Hbp1.
  { destruct Hf1 as (_ & Hkeep & _). apply Hkeep; [done|].
    intros a' o' Ha' Hd'. by eapply (Hout a' bp o o'). }
  assert (bp ≠ b1) as Hne.
  { intros ->. destruct Hf1 as (_ & _ & Hnew).
    destruct (Hnew a1 b1 0 Ha1 Hd1) as [Hnone|(a' & Ha' & Hd')]; [congruence|].
    eapply (Hout a' b1 o 0); [done|done|congruence]. }
  subst s2. cbn [heap]. rewrite lookup_insert_ne by done. rewrite Hbp1.
  cbn [mbind option_bind] in Hload |- *.
  destruct (blkp !! Z.to_nat o) as [[|w]|]; try done. by injection Hload as ->.
Qed.

(** [a.Insert(i, a[j])], an insertion whose argument is an element of
    the array itself.  While the capacity suffices, the call returns,
    but what it inserts is the element found at position [j] once the
    gap is open: the element [j] itself only when [j < i]; for [i < j]
    the element before it, and for [j = i] what the move has left of
    the element.  When the array is full, the call reallocates, which
    releases the buffer the reference points into, and then reads
    through the reference: a use after free, unless the allocation is
    refused, and then the call throws [std::bad_alloc] with nothing
    changed.  [Add] and [Emplace] insert at the end in the same way. *)
Theorem Insert_of_own_element this (i j : nat) s l cap y :
  repr s this l cap → (i ≤ length l)%nat → (j < length l)%nat →
  after_gap i j l = Some y →
  (Z.of_nat (length l) < cap →
   ∃ s', (p ← operator_index this (Z.of_nat j); Insert_ref this (Z.of_nat i) p) s
         = Ok (Z.of_nat i) s' ∧
         repr s' this (insert_at i [y] l) cap ∧ frame s s' this) ∧
  (Z.of_nat (length l) = cap →
   (p ← operator_index this (Z.of_nat j); Insert_ref this (Z.of_nat i) p) s
   = if may_alloc (heap s) (grow_capacity cap (cap + 1)) then UB else Throw bad_alloc s).
Proof.
  intros Hr Hi Hj Hy.
  destruct (repr_inv _ _ _ _ Hr)
    as [a0 Ha0 Hd0 Hc0 Hm0 -> ->|a b blk Ha Hd Hc Hm Hle Hpos Hmax Hb Hlen Hcont];
    [cbn [length] in Hj; lia|].
  assert (get_obj this s = Ok a s) as Hget by (unfold get_obj; by rewrite Ha).
  assert (operator_index this (Z.of_nat j) s = Ok (Ptr b (Z.of_nat j)) s) as Hidx.
  { unfold operator_index. rewrite (bind_ok _ _ s tt s).
    - rewrite (bind_ok _ _ s a s Hget). rewrite Hd. cbn [ptr_add].
      by rewrite Z.add_0_l.
    - eapply checkRange_passes; [done|].
      rewrite (repr_count_plus _ _ _ _ _ 0 Hr Ha) by lia. lia. }
  assert (checkRange this (Z.of_nat i) true s = Ok tt s) as Hcheck.
  { eapply checkRange_passes; [done|].
    rewrite (repr_count_plus _ _ _ _ _ 1 Hr Ha) by lia. lia. }
  assert (to_size_t (mCount a + 1) = Z.of_nat (length l) + 1) as Hsz
    by (apply (repr_count_plus _ _ _ _ _ 1 Hr Ha); lia).
  rewrite (bind_ok _ _ s _ s Hidx). unfold Insert_ref. rewrite EmplaceAt_ref_unfold.
  rewrite (bind_ok _ _ s tt s Hcheck). rewrite (bind_ok _ _ s a s Hget). rewrite Hsz.
  split.
  - intros Hroom.
    rewrite (bind_ok _ _ s tt s).
    2:{ unfold ensureCapacity. rewrite (bind_ok _ _ s a s Hget).
        by rewrite decide_False by lia. }
    rewrite (bind_ok _ _ s a s Hget).
    destruct (shift_right_one s b blk a i (length l) Hb Hd Hc)
      as (blk2 & Heq2 & Hlen2 & Hlow2 & Hhigh2 & Hgap2); [|lia|lia|].
    { by apply content_live_range. }
    rewrite (bind_ok _ _ _ _ _ Heq2).
    assert (blk2 !! j = Some (Live y)) as Hread.
    { unfold after_gap in Hy. destruct (decide (j < i)%nat) as [Hji|Hji].
      - rewrite Hlow2 by done. by apply Hcont.
      - destruct (decide (j = i)) as [->|Hne].
        + destruct (l !! i) as [x|] eqn:Hx; [|done]. injection Hy as <-.
          apply Hgap2; [lia|]. by apply Hcont.
        + replace j with (j - 1 + 1)%nat at 1 by lia.
          rewrite Hhigh2 by lia. by apply Hcont. }
    set (s2 := mkState (<[b := blk2]> (heap s)) (objs s)).
    assert (heap s2 !! b = Some blk2) as Hb2 by (subst s2; simpl; by rewrite lookup_insert_eq).
    rewrite (bind_ok _ _ s2 y s2) by (by eapply load_nat).
    unfold std_construct_at. rewrite Hd. cbn [ptr_add].
    replace (0 + Z.of_nat i) with (Z.of_nat i) by lia.
    rewrite (bind_ok _ _ _ _ _ (write_nat s2 b blk2 i (Live y) Hb2 ltac:(lia))).
    subst s2. unfold set_mCount, mbind, M_bind, bind, get_obj, set_obj, ret.
    cbn [objs heap]. rewrite Ha, Hsz, insert_insert_eq.
    eexists. split; [reflexivity|].
    eapply (in_place s _ this a _ b (<[i := Live y]> blk2)); cbn [objs heap];
      [done|done|done|apply lookup_insert_eq
      |by intros o Hne; rewrite lookup_insert_ne|..];
      cbn [mData mCount mCapacity];
      [done|rewrite length_insert_at by done; cbn [length]; lia|done
      |rewrite length_insert_at by done; cbn [length]; lia|done|lia
      |rewrite length_insert; lia|].
    apply (content_insert_at blk); [done|done|..].
    + intros k Hk. rewrite list_lookup_insert_ne by lia. by apply Hlow2.
    + intros k Hk. cbn [length]. rewrite list_lookup_insert_ne by lia. by apply Hhigh2.
    + intros [|k] x Hk; [|done]. injection Hk as <-. rewrite Nat.add_0_r.
      apply list_lookup_insert_eq. lia.
  - intros Hfull.
    set (n := grow_capacity cap (cap + 1)).
    assert (cap + 1 ≤ n) as Hn by (unfold n, grow_capacity; lia).
    assert (ensureCapacity this (Z.of_nat (length l) + 1) s = reallocate this n s) as Hens.
    { unfold ensureCapacity. rewrite (bind_ok _ _ s a s Hget). rewrite Hm.
      rewrite decide_True by lia. by rewrite Hfull. }
    pose proof (reallocate_spec this n s l cap Hr ltac:(lia) ltac:(lia) ltac:(lia)) as Hspec.
    pose proof (confined_reallocate this n s) as Hown.
    pose proof (reallocate_fresh_buffer this n s a Ha ltac:(lia) ltac:(lia)) as Hnew.
    unfold post in Hspec, Hown, Hnew.
    destruct (reallocate this n s) as [[] s1|e s1|] eqn:Hre; [| |done].
    + destruct Hspec as (Hr1 & _ & ->). destruct Hnew as (bn & a1 & Ha1 & Hd1 & Hbn).
      assert (b ∉ dom (heap s1)) as Hfreed.
      { intros Hin.
        assert (b ∈ dom (heap s)) as Hbs by (apply elem_of_dom; by eexists).
        destruct (decide (b = bn)) as [->|Hne]; [done|].
        destruct (proj1 (proj2 Hown b)) as [_ Hno].
        - split; [done|]. intros (a' & o' & Ha' & Hd'). congruence.
        - apply Hno. by exists a, 0. }
      rewrite (bind_ok _ _ s tt s1) by by rewrite Hens.
      rewrite (bind_ok _ _ s1 a1 s1) by (unfold get_obj; by rewrite Ha1).
      pose proof (heap_only_shift_right a1 (Z.of_nat i) 1 s1) as Hshift.
      unfold post in Hshift.
      destruct (shift_right a1 (Z.of_nat i) 1 s1) as [[] s2|e s2|] eqn:Hsh; [|done|].
      * destruct Hshift as (_ & _ & Hdom).
        rewrite (bind_ok _ _ s1 tt s2 Hsh). apply bind_ub.
        unfold load, slot_at. rewrite decide_True by lia.
        rewrite <- Hdom in Hfreed. apply not_elem_of_dom in Hfreed. by rewrite Hfreed.
      * by apply bind_ub.
    + destruct Hspec as (-> & -> & ->). apply bind_throw. by rewrite Hens.
Qed.

(** ** Comparison and references *)

Lemma lex_compare_eq l1 : ∀ l2,
  (∀ x y, T_cmp x y = Eq ↔ x = y) → lex_compare l1 l2 = Eq ↔ l1 = l2.
Proof.
  induction l1 as [|x l1 IH]; intros [|y l2] Hcmp; cbn [lex_compare]; try done.
  destruct (T_cmp x y) eqn:Hxy.
  - apply Hcmp in Hxy as ->. rewrite (IH l2 Hcmp). split; [by intros ->|by intros [= ->]].
  - split; [done|]. intros [= -> ->]. by rewrite (proj2 (Hcmp y y) eq_refl) in Hxy.
  - split; [done|]. intros [= -> ->]. by rewrite (proj2 (Hcmp y y) eq_refl) in Hxy.
Qed.

Lemma lex_compare_opp l1 : ∀ l2,
  (∀ x y, T_cmp y x = CompOpp (T_cmp x y)) →
  lex_compare l2 l1 = CompOpp (lex_compare l1 l2).
Proof.
  induction l1 as [|x l1 IH]; intros [|y l2] Hopp; cbn [lex_compare]; try done.
  rewrite (Hopp x y). destruct (T_cmp x y); cbn [CompOpp]; [by apply IH|done|done].
Qed.

(** [operator<=>] and [operator==] agree: when the elements compare
    equal exactly if they are equal, [a <=> b] is [equal] exactly if
    [a == b]; an array that is a proper prefix of another is [less];
    and when the comparison of elements is antisymmetric, [b <=> a] is
    the reverse of [a <=> b]. *)
Theorem spaceship_agrees_with_equality this other s l1 c1 l2 c2 :
  repr s this l1 c1 → repr s other l2 c2 →
  ∃ c e, operator_spaceship this other s = Ok c s ∧
         operator_eq this other s = Ok e s ∧
         ((∀ x y, T_cmp x y = Eq ↔ x = y) → (c = Eq ↔ e = true)) ∧
         (∀ y l, l2 = l1 ++ y :: l → (∀ x, T_cmp x x = Eq) → c = Lt) ∧
         ((∀ x y, T_cmp y x = CompOpp (T_cmp x y)) →
          operator_spaceship other this s = Ok (CompOpp c) s).
Proof.
  intros H1 H2. exists (lex_compare l1 l2), (bool_decide (l1 = l2)).
  split; [by eapply operator_spaceship_spec|]. split; [by eapply operator_eq_spec|].
  split; [|split].
  - intros Hcmp. rewrite (lex_compare_eq l1 l2 Hcmp). by rewrite bool_decide_eq_true.
  - intros y l -> Hrefl. clear H1 H2. induction l1 as [|x l1 IH]; [done|].
    cbn [app lex_compare]. by rewrite Hrefl.
  - intros Hopp. rewrite (operator_spaceship_spec other this s l2 c2 l1 c1 H2 H1).
    f_equal. by apply lex_compare_opp.
Qed.

(** The reference that [Emplace] returns, for the value of the
    argument. *)
Lemma Emplace_reference_by_value this v s l cap :
  repr s this l cap →
  post (p ← Emplace this v; q ← operator_index this (Z.of_nat (length l)); mret (p, q)) s
       (λ pq s', pq.1 = pq.2 ∧ load pq.1 s' = Ok v s' ∧
                 repr s' this (l ++ [v]) (new_capacity cap (Z.of_nat (length l) + 1)))
       (λ e s', e = bad_alloc ∧ s' = s) True.
Proof.
  intros Hr. destruct (repr_fields _ _ _ _ Hr) as (a & Ha & Hc & _).
  apply post_bind.
  pose proof (Emplace_spec this v s l cap Hr) as Hspec.
  assert (post (Emplace this v) s
            (λ p s', ∃ a', objs s' !! this = Some a' ∧ p = mData a' +ₚ Z.of_nat (length l))
            (λ _ _, True) True) as Hptr.
  { unfold Emplace. apply post_bind, post_get_obj. rewrite Ha. apply post_bind.
    eapply post_mono; [apply EmplaceAt_fields| |done|done].
    intros r s1 (-> & _). apply post_bind, post_get_obj.
    destruct (objs s1 !! this) as [a'|] eqn:Ha'; [|done].
    apply post_ret. exists a'. by rewrite Hc. }
  eapply post_mono; [exact (post_both _ _ _ _ _ _ _ Hspec Hptr)| | |done].
  - intros p s1 [(Hr1 & _ & Hload) (a' & Ha' & ->)].
    apply post_bind. eapply post_ok.
    + unfold operator_index. rewrite (bind_ok _ _ s1 tt s1).
      * unfold mbind, M_bind, bind, get_obj. by rewrite Ha'.
      * eapply checkRange_passes; [done|].
        rewrite (repr_count_plus _ _ _ _ _ 0 Hr1 Ha') by lia.
        rewrite length_app. cbn [length]. lia.
    + apply post_ret. cbn [fst snd]. by split.
  - by intros e s' [(-> & -> & _) _].
Qed.

(** ** An object outside the array as the argument of a call

    The calls by reference, for an argument that is not an element of
    the array they are made on. *)

Lemma bind_same {A B} (m1 m2 : M A) (k : A → M B) s :
  m1 s = m2 s → (m1 ≫= k) s = (m2 ≫= k) s.
Proof. unfold mbind, M_bind, bind. by intros ->. Qed.

(** A call that leaves the other buffers alone leaves an object outside
    the array where it is, with its value. *)
Lemma outside_kept s s' this p v :
  frame s s' this → outside s this p → load p s = Ok v s →
  outside s' this p ∧ load p s' = Ok v s'.
Proof.
  intros (_ & Hkeep & Hnew) Hout Hload.
  unfold load in Hload. destruct p as [|bp o]; [done|].
  cbn [slot_at] in Hload. destruct (decide (0 ≤ o)) as [Ho|]; [|done].
  destruct (heap s !! bp) as [blkp|] eqn:Hbp; [|done].
  assert (heap s' !! bp = Some blkp) as Hbp'.
  { apply Hkeep; [done|]. intros a o' Ha Hd. by eapply (Hout a bp o o'). }
  split.
  - intros a' b o1 o' Ha' [= <- <-] Hd'.
    destruct (Hnew a' bp o' Ha' Hd') as [Hnone|(a & Ha & Hd)]; [congruence|].
    eapply (Hout a bp o o'); [done|done|congruence].
  - unfold load. cbn [slot_at]. rewrite decide_True by done. rewrite Hbp'.
    cbn [mbind option_bind] in Hload |- *.
    destruct (blkp !! Z.to_nat o) as [[|w]|]; try done. by injection Hload as ->.
Qed.

(** A write to one buffer leaves what is read from another. *)
Lemma write_keeps_load s s' b j x bp o v :
  b ≠ bp → write (Ptr b j) x s = Ok tt s' → load (Ptr bp o) s = Ok v s →
  load (Ptr bp o) s' = Ok v s'.
Proof.
  intros Hne Hw Hload. unfold write in Hw. cbn [heap_write] in Hw.
  destruct (decide (0 ≤ j)); [|done].
  destruct (heap s !! b) as [blk|] eqn:Hb; [|done]. cbn [mbind option_bind] in Hw.
  destruct (decide (Z.to_nat j < length blk)%nat); [|done].
  injection Hw as <-.
  unfold load in Hload |- *. cbn [slot_at heap] in Hload |- *.
  destruct (decide (0 ≤ o)); [|done].
  rewrite lookup_insert_ne by done.
  destruct (heap s !! bp) as [blkp|]; [|done]. cbn [mbind option_bind] in Hload |- *.
  destruct (blkp !! Z.to_nat o) as [[|w]|]; try done. by injection Hload as ->.
Qed.

Lemma fill_ref_loop_outside n : ∀ s b j bp o v,
  b ≠ bp → load (Ptr bp o) s = Ok v s →
  fill_ref_loop n (Ptr b j) (Ptr bp o) s = fill_loop n (Ptr b j) v s.
Proof.
  induction n as [|n IH]; intros s b j bp o v Hne Hload;
    cbn [fill_ref_loop fill_loop]; [done|].
  unfold copy_to, std_construct_at.
  rewrite (bind_same _ (write (Ptr b j) (Live v)) _ s (bind_ok _ _ s v s Hload)).
  destruct (write (Ptr b j) (Live v) s) as [[] s1|e s1|] eqn:Hw.
  - rewrite !(bind_ok _ _ s tt s1 Hw). cbn [ptr_add]. apply IH; [done|].
    by eapply write_keeps_load.
  - by rewrite !(bind_throw _ _ s e s1 Hw).
  - by rewrite !(bind_ub _ _ s Hw).
Qed.

Lemma Emplace_ref_outside this p v s l cap :
  repr s this l cap → outside s this p → load p s = Ok v s →
  Emplace_ref this p s = Emplace this v s.
Proof.
  intros Hr Hout Hload. destruct (repr_fields _ _ _ _ Hr) as (a & Ha & Hc & _).
  unfold Emplace_ref, Emplace.
  rewrite !(bind_ok _ _ s a s) by (unfold get_obj; by rewrite Ha).
  rewrite Hc. apply bind_same.
  apply (Insert_ref_outside this (length l) p v s l cap Hr); [lia|done|done].
Qed.

Lemma Add_ref_outside this p v s l cap :
  repr s this l cap → outside s this p → load p s = Ok v s →
  Add_ref this p s = Add this v s.
Proof.
  intros Hr Hout Hload. unfold Add_ref, Add. apply bind_same.
  by eapply Emplace_ref_outside.
Qed.

Lemma add_all_ref_outside this refs : ∀ vs s l cap,
  repr s this l cap →
  Forall2 (λ p v, outside s this p ∧ load p s = Ok v s) refs vs →
  add_all_ref this refs s = add_all this vs s.
Proof.
  induction refs as [|p refs IH]; intros vs s l cap Hr Hrefs.
  { by apply Forall2_nil_inv_l in Hrefs as ->. }
  apply Forall2_cons_inv_l in Hrefs as (v & vs' & (Hout & Hload) & Hrefs & ->).
  cbn [add_all_ref add_all].
  rewrite (bind_same _ _ _ _ (Add_ref_outside this p v s l cap Hr Hout Hload)).
  pose proof (Add_spec this v s l cap Hr) as Hspec. unfold post in Hspec.
  destruct (Add this v s) as [[] s1|e s1|] eqn:Hadd;
    [|by rewrite !(bind_throw _ _ s e s1 Hadd)|done].
  destruct Hspec as (Hr1 & Hf1). rewrite !(bind_ok _ _ s tt s1 Hadd).
  eapply IH; [exact Hr1|]. eapply Forall2_impl; [exact Hrefs|].
  intros q w (Hq & Hw). by eapply outside_kept.
Qed.

Lemma Resize_fill_ref_outside this n p v s l cap :
  repr s this l cap → 0 ≤ n → outside s this p → load p s = Ok v s →
  Resize_fill_ref this n p s = Resize_fill this n v s.
Proof.
  intros Hr Hn Hout Hload. destruct (repr_fields _ _ _ _ Hr) as (a & Ha & Hc & _).
  unfold Resize_fill_ref, Resize_fill.
  rewrite !(bind_ok _ _ s a s) by (unfold get_obj; by rewrite Ha).
  destruct (decide (n > mCount a)) as [Hgt|]; [|done].
  apply bind_same.
  pose proof (ensureCapacity_spec this n s l cap Hr Hn) as Hspec. unfold post in Hspec.
  destruct (ensureCapacity this n s) as [[] s1|e s1|] eqn:Hens;
    [|by rewrite !(bind_throw _ _ s e s1 Hens)|done].
  destruct Hspec as (Hr1 & Hf1). rewrite !(bind_ok _ _ s tt s1 Hens).
  destruct (outside_kept _ _ _ _ _ Hf1 Hout Hload) as (Hout1 & Hload1).
  pose proof (new_capacity_ge cap n) as Hge.
  destruct (repr_inv _ _ _ _ Hr1)
    as [a1 ? ? ? ? ? ?|a1 b1 blk1 Ha1 Hd1 Hc1 _ _ _ _ _ _ _]; [lia|].
  rewrite !(bind_ok _ _ s1 a1 s1) by (unfold get_obj; by rewrite Ha1).
  rewrite Hd1. cbn [ptr_add].
  unfold std_uninitialized_fill_n_ref, std_uninitialized_fill_n.
  destruct p as [|bp o]; [done|].
  apply fill_ref_loop_outside; [|done].
  intros ->. by eapply (Hout1 a1 bp o 0).
Qed.

(** Inserting an element at a position and removing the element at
    that position, as in [a.RemoveAt(a.Insert(i, x))] for an object [x]
    that is not an element of [a]: when the two calls return, the array
    holds the sequence it held before, whatever was inserted; the
    capacity is the one the insertion settled on, and the other arrays
    are as they were.  The only exception is [std::bad_alloc] from the
    insertion, with nothing changed.  Nothing is said of a pair of
    calls whose behaviour is undefined, as is the removal of an element
    that is not the last when the destructor of [T] is not trivial. *)
Theorem Insert_then_RemoveAt_restores this (i : nat) p v s l cap :
  repr s this l cap → (i ≤ length l)%nat → outside s this p → load p s = Ok v s →
  post (index ← Insert_ref this (Z.of_nat i) p; RemoveAt this index) s
       (λ _ s', repr s' this l (new_capacity cap (Z.of_nat (length l) + 1)) ∧
                others_kept s s' this)
       (λ e s', e = bad_alloc ∧ s' = s) True.
Proof.
  intros Hr Hi Hout Hload. unfold post.
  rewrite (bind_same _ _ _ _ (Insert_ref_outside this i p v s l cap Hr Hi Hout Hload)).
  exact (Insert_RemoveAt_by_value this i v s l cap Hr Hi).
Qed.

(** A sequence of calls [a.Add(x)], for objects [x] that are not
    elements of [a]: when it returns, it has appended the values of the
    objects in the order of the calls and has not lowered the capacity.
    If one of the calls cannot allocate, the exception is
    [std::bad_alloc] and the values added by the calls before it are in
    the array: the loop is not undone.  Nothing is said of a sequence
    in which the behaviour of a call is undefined. *)
Theorem add_all_appends_in_order this refs vs s l cap :
  repr s this l cap →
  Forall2 (λ p v, outside s this p ∧ load p s = Ok v s) refs vs →
  post (add_all_ref this refs) s
       (λ _ s', ∃ cap', repr s' this (l ++ vs) cap' ∧ cap ≤ cap' ∧ others_kept s s' this)
       (λ e s', e = bad_alloc ∧
                ∃ (k : nat) cap', (k < length vs)%nat ∧ repr s' this (l ++ take k vs) cap' ∧
                                  cap ≤ cap' ∧ others_kept s s' this)
       True.
Proof.
  intros Hr Hrefs. unfold post.
  rewrite (add_all_ref_outside this refs vs s l cap Hr Hrefs).
  exact (add_all_by_value this vs s l cap Hr).
Qed.

(** Growing an array with [a.Resize(n, x)], for an object [x] that is
    not an element of [a], and resizing it back to its former count:
    when the two calls return, the array holds the elements it held,
    and the capacity field is the one the first call settled on; the
    second call only destroys the elements that the first one added,
    allocates nothing and does not throw.  The only exception is
    [std::bad_alloc] from the first call, with nothing changed.
    Nothing is said of calls whose behaviour is undefined, as it is for
    a new count so large that the size of the buffer in bytes wraps
    around. *)
Theorem Resize_grow_then_shrink_restores this n p v s l cap :
  repr s this l cap → Z.of_nat (length l) ≤ n → outside s this p → load p s = Ok v s →
  post (Resize_fill_ref this n p;; Resize this (Z.of_nat (length l))) s
       (λ _ s', repr s' this l (new_capacity cap n) ∧ others_kept s s' this)
       (λ e s', e = bad_alloc ∧ s' = s) True.
Proof.
  intros Hr Hn Hout Hload. unfold post.
  rewrite (bind_same _ _ _ _
             (Resize_fill_ref_outside this n p v s l cap Hr ltac:(lia) Hout Hload)).
  exact (Resize_grow_shrink_by_value this n v s l cap Hr Hn).
Qed.

(** [a.Emplace(x)] for an object [x] that is not an element of [a]:
    when the call returns, the reference it returns is the reference
    to the last element, the one that [operator[]] returns for the
    former count, and the value of [x] can be read through it.  The
    only exception is [std::bad_alloc], with nothing changed.  Nothing
    is said of a call whose behaviour is undefined. *)
Theorem Emplace_returns_reference_to_last this p v s l cap :
  repr s this l cap → outside s this p → load p s = Ok v s →
  post (r ← Emplace_ref this p; q ← operator_index this (Z.of_nat (length l)); mret (r, q)) s
       (λ pq s', pq.1 = pq.2 ∧ load pq.1 s' = Ok v s' ∧
                 repr s' this (l ++ [v]) (new_capacity cap (Z.of_nat (length l) + 1)))
       (λ e s', e = bad_alloc ∧ s' = s) True.
Proof.
  intros Hr Hout Hload. unfold post.
  rewrite (bind_same _ _ _ _ (Emplace_ref_outside this p v s l cap Hr Hout Hload)).
  exact (Emplace_reference_by_value this v s l cap Hr).
Qed.

(** Copy assignment [a = b] leaves [a] with the elements of [b] and a
    capacity equal to their count, whatever capacity [a] or [b] had;
    [b] is as it was, and [a == b] then returns [true].  If the copy
    cannot be allocated nothing has changed, and the assignment of an
    array to itself changes nothing at all. *)
Theorem copy_assignment_makes_equal_copy this other s lt ct lo co :
  repr s this lt ct → repr s other lo co → (this ≠ other → separate s this other) →
  post (assign_copy this other;; operator_eq this other) s
       (λ r s', r = true ∧ repr s' other lo co ∧
                if decide (this = other) then s' = s
                else repr s' this lo (Z.of_nat (length lo)))
       (λ e s', e = bad_alloc ∧ s' = s) False.
Proof.
  intros Ht Ho Hsep. apply post_bind. destruct (decide (this = other)) as [->|Hne].
  - eapply post_ok; [apply assign_copy_self|].
    eapply post_ok; [by eapply operator_eq_spec|].
    split; [by apply bool_decide_eq_true_2|]. by split.
  - eapply post_mono;
      [apply (assign_copy_spec this other s lt ct lo co Hne Ht Ho (Hsep Hne))| |done|done].
    intros ? s1 (Ht1 & Ho1 & _).
    eapply post_ok; [by eapply operator_eq_spec|].
    split; [by apply bool_decide_eq_true_2|]. by split.
Qed.

End Array.

(** ** Arrays of integers *)

Lemma alloc64_bound h n : alloc64 h n = true → n ≤ PTRDIFF_MAX.
Proof.
  unfold alloc64, PTRDIFF_MAX. intros Hn. apply bool_decide_eq_true in Hn. lia.
Qed.

(** Claim C1.  The postcondition of a bulk insertion fails on the code:
    with [Array<int> a{1, 2, 3}], the call [a.Insert(2, {7, 8})] has
    undefined behaviour, where the claim expects [1, 2, 7, 8, 3]; so
    has the copying insert of the array [{7, 8}] at the same index.
    One element follows index 2 and two are inserted, and [insertImpl]
    then hands [std::move_backward] the range from [mData + 2] to
    [mData + 1].  The insertion of a single element at that index and
    the same bulk insertion at the end are as the claim says. *)
Theorem bulk_insert_short_tail_undefined :
  let a := declare alloc64 1 [1; 2; 3] empty_state in
  let ab := declare alloc64 2 [7; 8] a in
  repr a 1 [1; 2; 3] 3 ∧
  Insert_ilist moved_int alloc64 1 2 [7; 8] a = UB ∧
  (repr ab 1 [1; 2; 3] 3 ∧ repr ab 2 [7; 8] 2 ∧ separate ab 1 2) ∧
  Insert_array moved_int alloc64 1 2 2 ab = UB ∧
  repr (state_after (Insert moved_int alloc64 1 2 7 a)) 1 [1; 2; 7; 3] 4 ∧
  repr (state_after (Insert_ilist moved_int alloc64 1 3 [7; 8] a)) 1 [1; 2; 3; 7; 8] 5.
Proof.
  cbn zeta. split; [solve_repr|]. split; [vm_compute; reflexivity|].
  split; [split; [solve_repr|split; [solve_repr|vm_compute; discriminate]]|].
  split; [vm_compute; reflexivity|]. split; solve_repr.
Qed.

(** Claim C5.  The postcondition of the drain insert fails on the code,
    by the defect of claim C1: with [Array<int> t{1, 2, 3}] and
    [Array<int> s{7, 8}], the call [t.Insert(2, std::move(s))] has
    undefined behaviour, where the claim expects [t] to be
    [1, 2, 7, 8, 3] and [s] to be empty.  At the end of [t] the same
    call does what the claim says. *)
Theorem drain_insert_short_tail_undefined :
  let st := declare alloc64 2 [7; 8] (declare alloc64 1 [1; 2; 3] empty_state) in
  (repr st 1 [1; 2; 3] 3 ∧ repr st 2 [7; 8] 2 ∧ separate st 1 2) ∧
  Insert_rvalue moved_int alloc64 1 2 2 st = UB ∧
  (let st' := state_after (Insert_rvalue moved_int alloc64 1 3 2 st) in
   repr st' 1 [1; 2; 3; 7; 8] 5 ∧ repr st' 2 [] 2).
Proof.
  cbn zeta. split; [split; [solve_repr|split; [solve_repr|vm_compute; discriminate]]|].
  split; [vm_compute; reflexivity|]. split; solve_repr.
Qed.

(** Claim C4.  Not every call either completes or fails.  With
    [Array<int> a{1, 2, 3}] and a range [src] of the two integers 7 and
    8 outside [a] (the elements of a second array), the call
    [a.Insert(2, src, 2)] neither returns with its postcondition nor
    throws: its behaviour is undefined, by the defect of claim C1,
    where the claim says that an operation either completes in full or
    fails without mutating the container.  Two more calls do neither.
    For an element type whose destructor is not trivial (here with the
    values of [int]), [a.RemoveAt(0)] is undefined: it assigns to the
    element it has destroyed.  And once [a] has room for a fourth
    element, [a.Insert(0, a[2])] returns, but it has inserted 2 and not
    the 3 it was given a reference to: it reads the reference after it
    has shifted the elements.  What the claim says of failures holds
    at this array: [a.Insert(4, src, 2)] throws [std::out_of_range] and
    [a.Reserve(100)], which the allocator refuses, throws
    [std::bad_alloc], both with the whole state as it was; and the
    insertion of [src] at the end of [a] returns with its
    postcondition. *)
Theorem calls_that_neither_complete_nor_fail :
  let s := declare alloc64 2 [7; 8] (declare alloc64 1 [1; 2; 3] empty_state) in
  let src := mData (object_of 2 s) in
  let s4 := state_after (Reserve moved_int alloc64 1 4 s) in
  (repr s 1 [1; 2; 3] 3 ∧ source s src [7; 8] ∧ outside s 1 src) ∧
  Insert_ptr moved_int alloc64 1 2 src 2 s = UB ∧
  RemoveAt moved_int false 1 0 s = UB ∧
  (repr s4 1 [1; 2; 3] 4 ∧
   ∃ p, operator_index 1 2 s4 = Ok p s4 ∧ load p s4 = Ok 3 s4 ∧
        repr (state_after (Insert_ref moved_int alloc64 1 0 p s4)) 1 [2; 1; 2; 3] 4) ∧
  Insert_ptr moved_int alloc64 1 4 src 2 s = Throw out_of_range s ∧
  Reserve moved_int alloc64 1 100 s = Throw bad_alloc s ∧
  repr (state_after (Insert_ptr moved_int alloc64 1 3 src 2 s)) 1 [1; 2; 3; 7; 8] 5.
Proof.
  cbn zeta. split; [split; [solve_repr|split; [solve_repr|]]|].
  { intros a b o o' Ha Hp. vm_compute in Ha, Hp.
    injection Ha as <-. injection Hp as <- <-. cbn [mData]. congruence. }
  split; [vm_compute; reflexivity|]. split; [vm_compute; reflexivity|].
  split.
  { split; [solve_repr|]. eexists. split; [vm_compute; reflexivity|].
    split; [vm_compute; reflexivity|solve_repr]. }
  split; [vm_compute; reflexivity|]. split; [vm_compute; reflexivity|]. solve_repr.
Qed.




(** An instance of [IndexOutOfRange_iff], on [Array<int> a{1, 2}]:
    [a[2]] throws, and [a.EmplaceAt(2, 5)] does not throw
    [std::out_of_range]. *)
Lemma IndexOutOfRange_iff_witness :
  let s := declare alloc64 1 [1; 2] empty_state in
  repr s 1 [1; 2] 2 ∧
  throws_out_of_range (operator_index 1 2) s ∧
  ¬ throws_out_of_range (EmplaceAt moved_int alloc64 1 2 5) s.
Proof.
  cbn zeta.
  assert (repr (declare alloc64 1 [1; 2] empty_state) 1 [1; 2] 2) as Hr by solve_repr.
  destruct (IndexOutOfRange_iff moved_int trivial_int alloc64 1 2 _ _ _ Hr) as (Hindex & _ & Hemplace & _).
  split; [exact Hr|]. split.
  - apply Hindex. simpl. lia.
  - intros Hthrows. apply Hemplace in Hthrows. simpl in Hthrows. lia.
Defined.

(** An instance of [move_leaves_source_empty], on
    [Array<int> a{1, 2}; Array<int> b(std::move(a));]. *)
Lemma move_leaves_source_empty_witness :
  let s := declare alloc64 1 [1; 2] empty_state in
  ∃ s', Array_move 2 1 s = Ok tt s' ∧ repr s' 2 [1; 2] 2 ∧
        objs s' !! 1%positive = Some (mkArray Null 0 0).
Proof.
  cbn zeta.
  apply (proj1 (move_leaves_source_empty 2 1 (declare alloc64 1 [1; 2] empty_state) [1; 2] 2
                  ltac:(solve_repr) ltac:(lia))).
Defined.

(** An instance of [rep_inv_preserved], on the calls
    [Array<int> a; a.Add(5); a.RemoveAt(7); a.Shrink();], the third of
    which throws. *)
Lemma rep_inv_preserved_witness :
  Forall Inv (trace moved_int trivial_int 0 Z.compare alloc64
                [OpArray_default 1; OpAdd 1 5; OpRemoveAt 1 7; OpShrink 1] empty_state).
Proof.
  apply (proj2 (rep_inv_preserved moved_int trivial_int 0 Z.compare alloc64)).
  constructor; [exact I|]. constructor; [exact I|].
  constructor; [simpl; unfold is_size_t, SIZE_MAX; lia|].
  constructor; [exact I|]. constructor.
Defined.

(** An instance of [Shrink_idempotent], on [Array<int> a(4); a.Add(5);],
    whose capacity exceeds its count. *)
Lemma Shrink_idempotent_witness :
  let s := state_after (Add moved_int alloc64 1 5 (declare_sized alloc64 1 4 empty_state)) in
  repr s 1 [5] 4 ∧
  ((∃ s1, Shrink moved_int alloc64 1 s = Ok tt s1 ∧ repr s1 1 [5] 1) ∨
   (Shrink moved_int alloc64 1 s = Throw bad_alloc s ∧ alloc64 (heap s) 1 = false)).
Proof.
  cbn zeta.
  assert (repr (state_after (Add moved_int alloc64 1 5 (declare_sized alloc64 1 4 empty_state)))
               1 [5] 4) as Hr by solve_repr.
  split; [exact Hr|].
  apply (proj1 (proj2 (Shrink_idempotent moved_int alloc64 alloc64_bound 1 _ [5] 4 Hr))).
  simpl. lia.
Defined.

(** An instance of [Find_FindLast], on [Array<int> a{4, 5, 4}] and
    [a.FindLast(4)]. *)
Lemma Find_FindLast_witness :
  let s := declare alloc64 1 [4; 5; 4] empty_state in
  ∃ r, FindLast 1 4 s = Ok r s ∧
       ((r = INDEX_NONE ∧ 4 ∉ [4; 5; 4]) ∨
        (∃ k : nat, r = Z.of_nat k ∧ [4; 5; 4] !! k = Some 4 ∧
                    ∀ j, (k < j)%nat → [4; 5; 4] !! j ≠ Some 4)).
Proof.
  cbn zeta.
  apply (proj1 (proj2 (proj2 (Find_FindLast moved_int alloc64 alloc64_bound 1 4
                                (declare alloc64 1 [4; 5; 4] empty_state) [4; 5; 4] 3
                                ltac:(solve_repr))))).
Defined.

(** An instance of [drain_insert_keeps_source_buffer], on
    [Array<int> t{1, 2, 3}; Array<int> s{7}; t.Insert(2, std::move(s));]. *)
Lemma drain_insert_keeps_source_buffer_witness :
  let s := declare alloc64 2 [7] (declare alloc64 1 [1; 2; 3] empty_state) in
  let s' := state_after (Insert_rvalue moved_int alloc64 1 2 2 s) in
  ∃ a', objs s' !! 2%positive = Some a' ∧
        mCount a' = 0 ∧ mData a' = mData (object_of 2 s) ∧
        mCapacity a' = mCapacity (object_of 2 s) ∧
        (∀ b o, mData (object_of 2 s) = Ptr b o → b ∈ dom (heap s) → b ∈ dom (heap s')).
Proof.
  cbn zeta.
  apply (drain_insert_keeps_source_buffer moved_int alloc64 1 2 2
           (declare alloc64 2 [7] (declare alloc64 1 [1; 2; 3] empty_state)) 2).
  - lia.
  - vm_compute. reflexivity.
  - vm_compute. discriminate.
  - vm_compute. reflexivity.
Defined.

(** ** Instances of the further properties *)

(** An instance of [range_for_visits_elements], on
    [Array<int> a{1, 2, 3}]. *)
Lemma range_for_visits_elements_witness :
  let s := declare alloc64 1 [1; 2; 3] empty_state in
  range_for 5 1 s = Ok (Some [1; 2; 3]) s.
Proof.
  cbn zeta.
  apply (range_for_visits_elements 1 (declare alloc64 1 [1; 2; 3] empty_state)
           [1; 2; 3] 3 5 ltac:(solve_repr)).
Defined.

(** An instance of [end_minus_begin_is_Count], on
    [Array<int> a{1, 2, 3}]. *)
Lemma end_minus_begin_is_Count_witness :
  let s := declare alloc64 1 [1; 2; 3] empty_state in
  ∃ first last,
    begin_iterator 1 s = Ok first s ∧ end_iterator 1 s = Ok last s ∧
    ArrayIterator.difference last first = Some 3.
Proof.
  cbn zeta.
  destruct (end_minus_begin_is_Count 1 (declare alloc64 1 [1; 2; 3] empty_state)
              [1; 2; 3] 3 ltac:(solve_repr)) as (first & last & H1 & H2 & H3 & _).
  by exists first, last.
Defined.

(** An instance of [iterator_random_access], on
    [Array<int> a{1, 2, 3}] and the index 1. *)
Lemma iterator_random_access_witness :
  let s := declare alloc64 1 [1; 2; 3] empty_state in
  ∃ first, begin_iterator 1 s = Ok first s ∧
           load (ArrayIterator.operator_index first 1) s = Ok 2 s.
Proof.
  cbn zeta.
  destruct (iterator_random_access 1 (declare alloc64 1 [1; 2; 3] empty_state)
              [1; 2; 3] 3 1 2 ltac:(solve_repr) ltac:(reflexivity))
    as (first & last & H1 & _ & H3 & _).
  by exists first.
Defined.

(** An instance of [range_for_update_maps], on [Array<int> a{1, 2, 3}]
    and [for (int& x : a) x = 10 + x;]. *)
Lemma range_for_update_maps_witness :
  let s := declare alloc64 1 [1; 2; 3] empty_state in
  ∃ s', range_for_update 3 1 (Z.add 10) s = Ok true s' ∧
        repr s' 1 [11; 12; 13] 3 ∧ frame s s' 1.
Proof.
  cbn zeta.
  apply (range_for_update_maps 1 (declare alloc64 1 [1; 2; 3] empty_state)
           [1; 2; 3] 3 3 (Z.add 10) ltac:(solve_repr) ltac:(simpl; lia)).
Defined.

(** An instance of [Insert_then_RemoveAt_restores], on
    [Array<int> a{1, 2, 3}; Array<int> b{9};
     a.RemoveAt(a.Insert(1, b[0]));]. *)
Lemma Insert_then_RemoveAt_restores_witness :
  let s := declare alloc64 2 [9] (declare alloc64 1 [1; 2; 3] empty_state) in
  let p := mData (object_of 2 s) in
  post (bind (Insert_ref moved_int alloc64 1 1 p)
             (λ index, RemoveAt moved_int trivial_int 1 index)) s
       (λ _ s', repr s' 1 [1; 2; 3] 4 ∧ others_kept s s' 1)
       (λ e s', e = bad_alloc ∧ s' = s) True.
Proof.
  cbn zeta.
  apply (Insert_then_RemoveAt_restores moved_int trivial_int alloc64 alloc64_bound 1 1
           (mData (object_of 2 (declare alloc64 2 [9]
                                  (declare alloc64 1 [1; 2; 3] empty_state)))) 9
           (declare alloc64 2 [9] (declare alloc64 1 [1; 2; 3] empty_state)) [1; 2; 3] 3
           ltac:(solve_repr) ltac:(simpl; lia) ltac:(solve_outside) ltac:(reflexivity)).
Defined.

(** An instance of [add_all_appends_in_order], on
    [Array<int> a{1, 2, 3}; Array<int> b{4, 5};
     a.Add(b[0]); a.Add(b[1]);]. *)
Lemma add_all_appends_in_order_witness :
  let s := declare alloc64 2 [4; 5] (declare alloc64 1 [1; 2; 3] empty_state) in
  let p := mData (object_of 2 s) in
  post (add_all_ref moved_int alloc64 1 [p; p +ₚ 1]) s
       (λ _ s', ∃ cap', repr s' 1 [1; 2; 3; 4; 5] cap' ∧ 3 ≤ cap' ∧ others_kept s s' 1)
       (λ e s', e = bad_alloc ∧
                ∃ (k : nat) cap', (k < 2)%nat ∧ repr s' 1 ([1; 2; 3] ++ take k [4; 5]) cap' ∧
                                  3 ≤ cap' ∧ others_kept s s' 1)
       True.
Proof.
  cbn zeta.
  apply (add_all_appends_in_order moved_int alloc64 alloc64_bound 1 _ [4; 5]
           (declare alloc64 2 [4; 5] (declare alloc64 1 [1; 2; 3] empty_state))
           [1; 2; 3] 3 ltac:(solve_repr)).
  repeat constructor; solve_outside.
Defined.

(** An instance of [add_all_within_capacity], on [Array<int> a(4);]
    and the values 1 and 2. *)
Lemma add_all_within_capacity_witness :
  let s := declare_sized alloc64 1 4 empty_state in
  ∃ s', add_all moved_int alloc64 1 [1; 2] s = Ok tt s' ∧ repr s' 1 [1; 2] 4 ∧
        mData (object_of 1 s') = mData (object_of 1 s) ∧ others_kept s s' 1.
Proof.
  cbn zeta.
  apply (add_all_within_capacity moved_int alloc64 alloc64_bound 1 [1; 2]
           (declare_sized alloc64 1 4 empty_state) [] 4
           ltac:(solve_repr) ltac:(simpl; lia)).
Defined.


(** An instance of [copy_compares_equal], on
    [Array<int> a{1, 2}; Array<int> b(a); b == a;]. *)
Lemma copy_compares_equal_witness :
  let s := declare alloc64 1 [1; 2] empty_state in
  post (bind (Array_copy alloc64 2 1) (λ _, operator_eq 2 1)) s
       (λ r _, r = true) (λ e s', e = bad_alloc ∧ s' = s) False.
Proof.
  cbn zeta.
  apply (proj1 (copy_compares_equal Z.compare alloc64 alloc64_bound 2 1
                  (declare alloc64 1 [1; 2] empty_state) [1; 2] 2
                  ltac:(lia) ltac:(solve_repr))).
Defined.

(** An instance of [moved_from_is_reusable], on
    [Array<int> a{1, 2}; Array<int> b(std::move(a)); a.Add(9);]. *)
Lemma moved_from_is_reusable_witness :
  let s := declare alloc64 1 [1; 2] empty_state in
  post (bind (Array_move 2 1) (λ _, Add moved_int alloc64 1 9)) s
       (λ _ s', repr s' 2 [1; 2] 2 ∧ repr s' 1 [9] 8 ∧ separate s' 2 1)
       (λ e s', e = bad_alloc ∧ repr s' 2 [1; 2] 2 ∧ repr s' 1 [] 0) False.
Proof.
  cbn zeta.
  apply (moved_from_is_reusable moved_int alloc64 alloc64_bound 2 1 9
           (declare alloc64 1 [1; 2] empty_state) [1; 2] 2
           ltac:(lia) ltac:(solve_repr)).
Defined.

(** An instance of [Swap_twice_restores], on
    [Array<int> a{1, 2}; Array<int> b{7}; a.Swap(b); a.Swap(b);]. *)
Lemma Swap_twice_restores_witness :
  let s := declare alloc64 2 [7] (declare alloc64 1 [1; 2] empty_state) in
  bind (Swap 1 2) (λ _, Swap 1 2) s = Ok tt s.
Proof.
  cbn zeta.
  eapply (Swap_twice_restores 1 2
            (declare alloc64 2 [7] (declare alloc64 1 [1; 2] empty_state)));
    vm_compute; reflexivity.
Defined.

(** An instance of [RemoveAll_leaves_no_match], on
    [Array<int> a{1, 2, 3, 4}] and the even elements. *)
Lemma RemoveAll_leaves_no_match_witness :
  let s := declare alloc64 1 [1; 2; 3; 4] empty_state in
  ∃ n s', RemoveAll moved_int 1 Z.even s = Ok n s' ∧
          ContainsIf 1 Z.even s' = Ok false s' ∧
          FindIf 1 Z.even s' = Ok INDEX_NONE s'.
Proof.
  cbn zeta.
  destruct (RemoveAll_leaves_no_match moved_int 1 Z.even
              (declare alloc64 1 [1; 2; 3; 4] empty_state) [1; 2; 3; 4] 4
              ltac:(solve_repr)) as (n & s' & H1 & H2 & H3 & _).
  by exists n, s'.
Defined.

(** An instance of [Remove_absent_changes_nothing], on
    [Array<int> a{1, 2, 3}; a.Remove(9);]. *)
Lemma Remove_absent_changes_nothing_witness :
  let s := declare alloc64 1 [1; 2; 3] empty_state in
  Remove moved_int trivial_int 1 9 s = Ok false s.
Proof.
  cbn zeta.
  apply (Remove_absent_changes_nothing moved_int trivial_int 1 9
           (declare alloc64 1 [1; 2; 3] empty_state) [1; 2; 3] 3 ltac:(solve_repr)).
  apply (bool_decide_unpack _). vm_compute. exact I.
Defined.

(** Two instances of [Remove_removes_first_occurrence], on
    [Array<T> a{1, 2, 3, 2}; a.Remove(2);]: for [int], and for a [T]
    with the same values whose destructor is not trivial. *)
Lemma Remove_removes_first_occurrence_witness :
  let s := declare alloc64 1 [1; 2; 3; 2] empty_state in
  (∃ s', Remove moved_int trivial_int 1 2 s = Ok true s' ∧ repr s' 1 [1; 3; 2] 4 ∧
         others_kept s s' 1) ∧
  Remove moved_int false 1 2 s = UB.
Proof.
  cbn zeta.
  assert (repr (declare alloc64 1 [1; 2; 3; 2] empty_state) 1 ([1] ++ 2 :: [3; 2]) 4)
    as Hr by solve_repr.
  assert (2 ∉ [1]) as Hn by (apply (bool_decide_unpack _); vm_compute; exact I).
  split.
  - pose proof (Remove_removes_first_occurrence moved_int trivial_int 1 2 _ [1] [3; 2] 4
                  Hr Hn) as H.
    rewrite decide_True in H by (by left). exact H.
  - pose proof (Remove_removes_first_occurrence moved_int false 1 2 _ [1] [3; 2] 4
                  Hr Hn) as H.
    rewrite decide_False in H by (intros [?|?]; discriminate). exact H.
Defined.

(** An instance of [RemoveAt_Insert_bounds], on
    [Array<int> a{1, 2, 3}] and the index 3. *)
Lemma RemoveAt_Insert_bounds_witness :
  let s := declare alloc64 1 [1; 2; 3] empty_state in
  (RemoveAt moved_int trivial_int 1 3 s = Throw out_of_range s ↔ 3 ≤ 3) ∧
  (Insert moved_int alloc64 1 3 9 s = Throw out_of_range s ↔ 3 < 3).
Proof.
  cbn zeta.
  apply (RemoveAt_Insert_bounds moved_int trivial_int alloc64 alloc64_bound 1 3 9
           (declare alloc64 1 [1; 2; 3] empty_state) [1; 2; 3] 3 ltac:(solve_repr)).
  unfold is_size_t, SIZE_MAX. lia.
Defined.

(** An instance of [empty_insertion_changes_nothing], on
    [Array<int> a{1, 2, 3}; a.Insert(2, {}); a.Insert(2, nullptr, 0);]. *)
Lemma empty_insertion_changes_nothing_witness :
  let s := declare alloc64 1 [1; 2; 3] empty_state in
  Insert_ilist moved_int alloc64 1 2 [] s = Ok 2 s ∧
  Insert_ptr moved_int alloc64 1 2 Null 0 s = Ok 2 s.
Proof.
  cbn zeta.
  destruct (proj1 (empty_insertion_changes_nothing moved_int alloc64 1 2
                     (declare alloc64 1 [1; 2; 3] empty_state) [1; 2; 3] 3
                     ltac:(solve_repr) ltac:(unfold is_size_t, SIZE_MAX; lia))
                  ltac:(simpl; lia)) as [H1 H2].
  split; [exact H1|apply H2].
Defined.

(** An instance of [assignment_through_operator_index], on
    [Array<int> a{1, 2, 3}; a[1] = 9;]. *)
Lemma assignment_through_operator_index_witness :
  let s := declare alloc64 1 [1; 2; 3] empty_state in
  ∃ s', bind (operator_index 1 1) (λ p, write p (Live 9)) s = Ok tt s' ∧
        repr s' 1 [1; 9; 3] 3 ∧ frame s s' 1.
Proof.
  cbn zeta.
  apply (assignment_through_operator_index 1 1 9
           (declare alloc64 1 [1; 2; 3] empty_state) [1; 2; 3] 3
           ltac:(solve_repr) ltac:(simpl; lia)).
Defined.

(** An instance of [Find_result_as_index], on
    [Array<int> a{1, 2, 3}; a[a.Find(2)];]. *)
Lemma Find_result_as_index_witness :
  let s := declare alloc64 1 [1; 2; 3] empty_state in
  bind (Find 1 2) (λ i, get_at 1 i) s = Ok 2 s.
Proof.
  cbn zeta.
  apply (proj1 (Find_result_as_index 1 2 (declare alloc64 1 [1; 2; 3] empty_state)
                  [1; 2; 3] 3 ltac:(solve_repr))).
  apply (bool_decide_unpack _). vm_compute. exact I.
Defined.

(** An instance of [Resize_grow_then_shrink_restores], on
    [Array<int> a{1, 2}; Array<int> b{7};
     a.Resize(5, b[0]); a.Resize(2);]. *)
Lemma Resize_grow_then_shrink_restores_witness :
  let s := declare alloc64 2 [7] (declare alloc64 1 [1; 2] empty_state) in
  let p := mData (object_of 2 s) in
  post (bind (Resize_fill_ref moved_int alloc64 1 5 p)
             (λ _, Resize moved_int 0 alloc64 1 2)) s
       (λ _ s', repr s' 1 [1; 2] 5 ∧ others_kept s s' 1)
       (λ e s', e = bad_alloc ∧ s' = s) True.
Proof.
  cbn zeta.
  apply (Resize_grow_then_shrink_restores moved_int 0 alloc64 alloc64_bound 1 5
           (mData (object_of 2 (declare alloc64 2 [7]
                                  (declare alloc64 1 [1; 2] empty_state)))) 7
           (declare alloc64 2 [7] (declare alloc64 1 [1; 2] empty_state)) [1; 2] 2
           ltac:(solve_repr) ltac:(simpl; lia) ltac:(solve_outside) ltac:(reflexivity)).
Defined.

(** An instance of [Clear_then_Shrink_releases_buffer], on
    [Array<int> a{1, 2}; a.Clear(); a.Shrink();]: no buffer is left. *)
Lemma Clear_then_Shrink_releases_buffer_witness :
  let s := declare alloc64 1 [1; 2] empty_state in
  ∃ s', bind (Clear 1) (λ _, Shrink moved_int alloc64 1) s = Ok tt s' ∧
        repr s' 1 [] 0 ∧ heap s' = ∅.
Proof.
  cbn zeta.
  destruct (Clear_then_Shrink_releases_buffer moved_int alloc64 1
              (declare alloc64 1 [1; 2] empty_state) [1; 2] 2 ltac:(solve_repr))
    as (s' & H1 & H2 & _ & H4).
  exists s'. split; [exact H1|]. split; [exact H2|]. rewrite H4. vm_compute. reflexivity.
Defined.

(** An instance of [no_call_leaks_a_buffer], on
    [Array<int> a{1, 2}; a = {7, 8, 9};]. *)
Lemma no_call_leaks_a_buffer_witness :
  let s := declare alloc64 1 [1; 2] empty_state in
  post (run_op moved_int trivial_int 0 Z.compare alloc64 (Op_assign_ilist 1 [7; 8; 9])) s
       (λ _ s', balanced s s') (λ _ s', s' = s) True.
Proof.
  cbn zeta.
  apply (no_call_leaks_a_buffer moved_int trivial_int 0 Z.compare alloc64 alloc64_bound
           (Op_assign_ilist 1 [7; 8; 9]) (declare alloc64 1 [1; 2] empty_state)
           [1; 2] 2 [] 0).
  - simpl. unfold is_size_t, SIZE_MAX. lia.
  - solve_repr.
  - intros this. simpl. discriminate.
Defined.

(** An instance of [construct_then_destroy_restores], on
    [{ Array<int> a{1, 2, 3}; }] in the empty state. *)
Lemma construct_then_destroy_restores_witness :
  post (bind (Array_ilist alloc64 1 [1; 2; 3]) (λ _, Array_dtor 1)) (@empty_state Z)
       (λ _ s', s' = empty_state) (λ e s', e = bad_alloc ∧ s' = empty_state) False.
Proof.
  apply (construct_then_destroy_restores alloc64 alloc64_bound 1 [1; 2; 3] empty_state).
  reflexivity.
Defined.

(** An instance of [Append_self_beyond_capacity_undefined], on
    [Array<int> a{1, 2}; a.Append(a);]. *)
Lemma Append_self_beyond_capacity_undefined_witness :
  let s := declare alloc64 1 [1; 2] empty_state in
  Append_array moved_int alloc64 1 1 s = UB.
Proof.
  cbn zeta.
  apply (Append_self_beyond_capacity_undefined moved_int alloc64 alloc64_bound 1
           (declare alloc64 1 [1; 2] empty_state) [1; 2] 2 ltac:(solve_repr)).
  - discriminate.
  - simpl. lia.
Defined.

(** An instance of [capacity_is_never_lowered], on
    [Array<int> a{1, 2}; a.RemoveAt(0);]. *)
Lemma capacity_is_never_lowered_witness :
  let s := declare alloc64 1 [1; 2] empty_state in
  post (run_op moved_int trivial_int 0 Z.compare alloc64 (OpRemoveAt 1 0)) s
       (λ _ s', ∃ a', objs s' !! 1%positive = Some a' ∧ 2 ≤ mCapacity a')
       (λ _ s', s' = s) True.
Proof.
  cbn zeta.
  apply (capacity_is_never_lowered moved_int trivial_int 0 Z.compare alloc64 alloc64_bound
           (OpRemoveAt 1 0) (declare alloc64 1 [1; 2] empty_state) [1; 2] 2 [] 0).
  - simpl. unfold is_size_t, SIZE_MAX. lia.
  - solve_repr.
  - exact I.
Defined.

(** An instance of [every_array_keeps_its_own_buffer], on
    [Array<int> a{1, 2};] in the empty state. *)
Lemma every_array_keeps_its_own_buffer_witness :
  post (run_op moved_int trivial_int 0 Z.compare alloc64 (OpArray_ilist 1 [1; 2])) empty_state
       (λ _ s', buffers_apart s') (λ _ s', s' = empty_state) True.
Proof.
  apply (every_array_keeps_its_own_buffer moved_int trivial_int 0 Z.compare alloc64 alloc64_bound
           (OpArray_ilist 1 [1; 2]) empty_state [] 0 [] 0).
  - simpl. unfold is_size_t, SIZE_MAX. lia.
  - exact I.
  - intros this. simpl. intros [= <-]. reflexivity.
  - apply well_formed_empty.
Defined.

(** An instance of [Append_self_within_capacity_doubles], on
    [Array<int> a(4); a.Add(5); a.Append(a);]. *)
Lemma Append_self_within_capacity_doubles_witness :
  let s := state_after (Add moved_int alloc64 1 5 (declare_sized alloc64 1 4 empty_state)) in
  ∃ s', Append_array moved_int alloc64 1 1 s = Ok tt s' ∧ repr s' 1 [5; 5] 4 ∧
        frame s s' 1.
Proof.
  cbn zeta.
  apply (Append_self_within_capacity_doubles moved_int alloc64 1
           (state_after (Add moved_int alloc64 1 5 (declare_sized alloc64 1 4 empty_state)))
           [5] 4 ltac:(solve_repr) ltac:(simpl; lia)).
Defined.

(** An instance of [spaceship_agrees_with_equality], on
    [Array<int> a{1, 2}; Array<int> b{1, 2, 3};]. *)
Lemma spaceship_agrees_with_equality_witness :
  let s := declare alloc64 2 [1; 2; 3] (declare alloc64 1 [1; 2] empty_state) in
  ∃ c e, operator_spaceship Z.compare 1 2 s = Ok c s ∧
         operator_eq 1 2 s = Ok e s ∧ (c = Eq ↔ e = true) ∧ c = Lt.
Proof.
  cbn zeta.
  destruct (spaceship_agrees_with_equality Z.compare 1 2
              (declare alloc64 2 [1; 2; 3] (declare alloc64 1 [1; 2] empty_state))
              [1; 2] 2 [1; 2; 3] 3 ltac:(solve_repr) ltac:(solve_repr))
    as (c & e & H1 & H2 & H3 & H4 & _).
  exists c, e. split; [exact H1|]. split; [exact H2|]. split.
  - apply H3. apply Z.compare_eq_iff.
  - apply (H4 3 []); [reflexivity|apply Z.compare_refl].
Defined.

(** An instance of [Emplace_returns_reference_to_last], on
    [Array<int> a{1, 2}; Array<int> b{9}; a.Emplace(b[0]);]. *)
Lemma Emplace_returns_reference_to_last_witness :
  let s := declare alloc64 2 [9] (declare alloc64 1 [1; 2] empty_state) in
  let p := mData (object_of 2 s) in
  post (bind (Emplace_ref moved_int alloc64 1 p)
             (λ r, bind (operator_index 1 2) (λ q, ret (r, q)))) s
       (λ pq s', pq.1 = pq.2 ∧ load pq.1 s' = Ok 9 s' ∧ repr s' 1 [1; 2; 9] 3)
       (λ e s', e = bad_alloc ∧ s' = s) True.
Proof.
  cbn zeta.
  apply (Emplace_returns_reference_to_last moved_int alloc64 alloc64_bound 1
           (mData (object_of 2 (declare alloc64 2 [9]
                                  (declare alloc64 1 [1; 2] empty_state)))) 9
           (declare alloc64 2 [9] (declare alloc64 1 [1; 2] empty_state)) [1; 2] 2
           ltac:(solve_repr) ltac:(solve_outside) ltac:(reflexivity)).
Defined.

(** An instance of [copy_assignment_makes_equal_copy], on
    [Array<int> a{1, 2}; Array<int> b(4); b.Add(5); a = b;]. *)
Lemma copy_assignment_makes_equal_copy_witness :
  let s := state_after (Add moved_int alloc64 2 5
                          (declare_sized alloc64 2 4 (declare alloc64 1 [1; 2] empty_state))) in
  post (bind (assign_copy alloc64 1 2) (λ _, operator_eq 1 2)) s
       (λ r s', r = true ∧ repr s' 2 [5] 4 ∧ repr s' 1 [5] 1)
       (λ e s', e = bad_alloc ∧ s' = s) False.
Proof.
  cbn zeta.
  apply (copy_assignment_makes_equal_copy alloc64 alloc64_bound 1 2
           (state_after (Add moved_int alloc64 2 5
                           (declare_sized alloc64 2 4
                              (declare alloc64 1 [1; 2] empty_state))))
           [1; 2] 2 [5] 4 ltac:(solve_repr) ltac:(solve_repr)).
  intros _. vm_compute. discriminate.
Defined.

(** An instance of [Insert_of_own_element], on
    [Array<int> a{1, 2, 3}; a.Reserve(4); a.Insert(0, a[2]);]: the
    element inserted is 2, not 3. *)
Lemma Insert_of_own_element_witness :
  let s := state_after (Reserve moved_int alloc64 1 4
                          (declare alloc64 1 [1; 2; 3] empty_state)) in
  ∃ s', bind (operator_index 1 2) (λ p, Insert_ref moved_int alloc64 1 0 p) s = Ok 0 s' ∧
        repr s' 1 [2; 1; 2; 3] 4 ∧ frame s s' 1.
Proof.
  cbn zeta.
  apply (proj1 (Insert_of_own_element moved_int alloc64 alloc64_bound 1 0 2
                  (state_after (Reserve moved_int alloc64 1 4
                                  (declare alloc64 1 [1; 2; 3] empty_state)))
                  [1; 2; 3] 4 2
                  ltac:(solve_repr) ltac:(simpl; lia) ltac:(simpl; lia)
                  ltac:(reflexivity))).
  simpl. lia.
Defined.
